(** * Universal compaction picker (db/compaction_picker_universal.cc)

    A shallow embedding of the decision procedures of
    [UniversalCompactionPicker] and the properties the design document
    states about them.  Unsigned machine integers are integers in [Z] with
    the wrap-around of every operation written out; vectors are lists;
    a [Compaction*] that may be [nullptr] is an [option].  The code is
    taken as a release build runs it: an [assert] does nothing.  The
    lookup context of table/get_context.cc is embedded after the picker. *)

From Stdlib Require Import String.
From Stdlib Require Import ZArith List Bool Lia Permutation.
From Stdlib Require Import SpecFloat.
Import ListNotations.

Local Open Scope Z_scope.

(** ** Machine arithmetic *)

Definition two64 : Z := 2 ^ 64.
Definition two32 : Z := 2 ^ 32.

(** [uint64_t] operations. *)
Definition wrap64 (z : Z) : Z := z mod two64.
Definition add64 (a b : Z) : Z := wrap64 (a + b).
Definition sub64 (a b : Z) : Z := wrap64 (a - b).
Definition mul64 (a b : Z) : Z := wrap64 (a * b).

(** [unsigned int] operations. *)
Definition wrap32 (z : Z) : Z := z mod two32.
Definition sub32 (a b : Z) : Z := wrap32 (a - b).

Definition UINT_MAX : Z := two32 - 1.
Definition SIZE_MAX : Z := two64 - 1.

(** Replaces the two bounds by their values, for [lia]. *)
Ltac bounds :=
  change two64 with 18446744073709551616 in *;
  change two32 with 4294967296 in *.

(** ** Options *)

Inductive CompactionStopStyle :=
| kCompactionStopStyleSimilarSize
| kCompactionStopStyleTotalSize.

Record CompactionOptionsUniversal := {
  size_ratio : Z;                       (* unsigned int *)
  min_merge_width : Z;                  (* unsigned int *)
  max_merge_width : Z;                  (* unsigned int *)
  max_size_amplification_percent : Z;   (* unsigned int *)
  compression_size_percent : Z;         (* int *)
  stop_style : CompactionStopStyle;
  allow_trivial_move : bool
}.

Record MutableCFOptions := {
  level0_file_num_compaction_trigger : Z;   (* int *)
  compaction_options_universal : CompactionOptionsUniversal;
  enable_lazy_compaction : bool;
  write_buffer_size : Z;
  max_compaction_bytes : Z
}.

(** One entry of [cf_paths]. *)
Record DbPath := { target_size : Z }.

Record ImmutableCFOptions := {
  cf_paths : list DbPath;
  num_levels_opt : Z;                   (* ioptions_.num_levels *)
  allow_ingest_behind : bool;
  max_subcompactions_opt : Z
}.

(** ** GetPathId *)

(** The body of the [for (; p < cf_paths.size() - 1; p++)] loop.  The list
    argument is the suffix [cf_paths[p..]]; the last path is never examined.
    The source asserts that [cf_paths] is not empty. *)
Fixpoint GetPathId_loop (paths : list DbPath)
         (file_size future_size accumulated_size : Z) (p : nat) : nat :=
  match paths with
  | [] => p
  | [_] => p
  | path :: rest =>
      let target := target_size path in
      if (target >? file_size) &&
         (add64 accumulated_size (sub64 target file_size) >? future_size)
      then p
      else GetPathId_loop rest file_size future_size
                          (add64 accumulated_size target) (S p)
  end.

Definition future_size_of (mutable_cf_options : MutableCFOptions)
           (file_size : Z) : Z :=
  mul64 file_size
        (sub32 100 (size_ratio (compaction_options_universal mutable_cf_options)))
  / 100.

Definition GetPathId (ioptions : ImmutableCFOptions)
           (mutable_cf_options : MutableCFOptions) (file_size : Z) : nat :=
  GetPathId_loop (cf_paths ioptions) file_size
                 (future_size_of mutable_cf_options file_size) 0 0%nat.

(** The acceptance test of path [p] in closed form: [acc] is the sum of the
    targets of the paths before [p], in the code's [uint64_t] arithmetic. *)
Definition acc_before (paths : list DbPath) (p : nat) : Z :=
  fold_left (fun a x => add64 a (target_size x)) (firstn p paths) 0.

Definition path_accepts (paths : list DbPath) (file_size future_size : Z)
           (p : nat) : bool :=
  let target := target_size (nth p paths {| target_size := 0 |}) in
  (target >? file_size) &&
  (add64 (acc_before paths p) (sub64 target file_size) >? future_size).


Definition mk_mutable_cf_options (ratio : Z) : MutableCFOptions :=
  {| level0_file_num_compaction_trigger := 4;
     compaction_options_universal :=
       {| size_ratio := ratio; min_merge_width := 2; max_merge_width := UINT_MAX;
          max_size_amplification_percent := 200;
          compression_size_percent := -1;
          stop_style := kCompactionStopStyleTotalSize;
          allow_trivial_move := false |};
     enable_lazy_compaction := false;
     write_buffer_size := 67108864;
     max_compaction_bytes := 0 |}.

Definition mk_ioptions (targets : list Z) : ImmutableCFOptions :=
  {| cf_paths := map (fun t => {| target_size := t |}) targets;
     num_levels_opt := 1;
     allow_ingest_behind := false;
     max_subcompactions_opt := 1 |}.

(** The two-path configuration of the path-selection scenario. *)
Definition two_paths : ImmutableCFOptions := mk_ioptions [100; 1000].

(** ** Files, sorted runs and compactions *)

(** An encoded internal key ([InternalKey::Encode()]). *)
Definition Slice : Type := String.string.

(** The purpose of an SST; [kEssenceSst] is the value 0 the code tests
    with [sst_purpose != 0]. *)
Inductive SstPurpose := kEssenceSst | kMapSst | kLinkSst.

Definition SstPurpose_eqb (a b : SstPurpose) : bool :=
  match a, b with
  | kEssenceSst, kEssenceSst | kMapSst, kMapSst | kLinkSst, kLinkSst => true
  | _, _ => false
  end.

Module FileMetaData.
Record t := {
  number : Z;                    (* fd.GetNumber() *)
  path_id : Z;                   (* fd.GetPathId() *)
  file_size : Z;                 (* fd.GetFileSize() *)
  compensated_file_size : Z;
  smallest : Slice;              (* smallest.Encode() *)
  largest : Slice;               (* largest.Encode() *)
  smallest_seqno : Z;
  largest_seqno : Z;
  being_compacted : bool;
  marked_for_compaction : bool;
  sst_purpose : SstPurpose;
  sst_depend : list Z
}.
End FileMetaData.

Module SortedRun.
Record t := {
  level : Z;
  file : option FileMetaData.t;  (* set for level 0 only *)
  size : Z;
  compensated_file_size : Z;
  being_compacted : bool;
  wait_reduce : bool
}.
End SortedRun.

Record CompactionInputFiles := {
  level : Z;
  files : list FileMetaData.t
}.

Inductive CompactionReason :=
| kUnknown
| kUniversalSizeAmplification
| kUniversalSizeRatio
| kUniversalSortedRunNum
| kFilesMarkedForCompaction
| kTrivialMoveLevel
| kCompositeAmplification.

Record RangeStorage := {
  start : Slice;
  limit : Slice;
  include_start : bool;
  include_limit : bool
}.

(** A compaction plan ([CompactionParams] and the [Compaction] built from
    it).  The target file size and the compression type and options are
    results of helpers of the base picker and are left out;
    [enable_compression] is the flag the strategies pass to them.  A field
    that a strategy does not set has the default of [CompactionParams]:
    no subcompactions, neither manual nor partial, purpose [kEssenceSst],
    no ranges, reason [kUnknown]. *)
Record Compaction := {
  inputs : list CompactionInputFiles;
  output_level : Z;
  output_path_id : Z;
  enable_compression : bool;
  max_subcompactions : Z;
  manual_compaction : bool;
  partial_compaction : bool;
  compaction_purpose : SstPurpose;
  input_range : list RangeStorage;
  compaction_reason : CompactionReason;
  is_trivial_move : bool
}.

(** The version snapshot.  [files_] holds the file list of every level, so
    [num_levels] is its length. *)
Record VersionStorageInfo := {
  files_ : list (list FileMetaData.t);
  FilesMarkedForCompaction : list (Z * FileMetaData.t);
  has_space_amplification : bool;
  level_has_space_amplification : Z -> bool;
  depend_files : Z -> option FileMetaData.t
}.

Definition num_levels (vstorage : VersionStorageInfo) : Z :=
  Z.of_nat (length (files_ vstorage)).

Definition LevelFiles (vstorage : VersionStorageInfo) (l : Z) : list FileMetaData.t :=
  if l <? 0 then [] else nth (Z.to_nat l) (files_ vstorage) [].

(** [inputs[i].files] extended by [fs]; an index outside the vector, which
    the source would access unchecked, changes nothing. *)
Fixpoint push_files (inputs : list CompactionInputFiles) (i : nat)
         (fs : list FileMetaData.t) : list CompactionInputFiles :=
  match inputs, i with
  | [], _ => []
  | c :: rest, O => {| level := level c; files := files c ++ fs |} :: rest
  | c :: rest, S i' => c :: push_files rest i' fs
  end.

(** [std::vector<CompactionInputFiles> inputs(n)] with
    [inputs[i].level = start_level + i]. *)
Fixpoint init_inputs (n : nat) (start_level : Z) : list CompactionInputFiles :=
  match n with
  | O => []
  | S n' => {| level := start_level; files := [] |} :: init_inputs n' (start_level + 1)
  end.

(** The loop that copies the picked sorted runs into [inputs]: a level-0
    run contributes its file to [inputs[0]], a lower level all its files to
    [inputs[level - start_level]]. *)
Fixpoint pick_runs (vstorage : VersionStorageInfo) (start_level : Z)
         (picked : list SortedRun.t) (inputs : list CompactionInputFiles)
  : list CompactionInputFiles :=
  match picked with
  | [] => inputs
  | picking_sr :: rest =>
      let inputs' :=
        if SortedRun.level picking_sr =? 0 then
          match SortedRun.file picking_sr with
          | Some f => push_files inputs 0 [f]
          | None => inputs
          end
        else
          push_files inputs (Z.to_nat (SortedRun.level picking_sr - start_level))
                     (LevelFiles vstorage (SortedRun.level picking_sr))
      in pick_runs vstorage start_level rest inputs'
  end.

Definition sum_sizes (runs : list SortedRun.t) : Z :=
  fold_left (fun a sr => add64 a (SortedRun.size sr)) runs 0.

(** ** PickCompactionToReduceSizeAmp *)

(** First loop: the index of the first run, among all but the last, that
    is not being compacted; [None] when [sr] stays [nullptr]. *)
Fixpoint size_amp_first_candidate (runs : list SortedRun.t) (loop : nat)
  : option nat :=
  match runs with
  | [] => None
  | sr :: rest =>
      if negb (SortedRun.being_compacted sr) then Some loop
      else size_amp_first_candidate rest (S loop)
  end.

(** Second loop: add up the compensated sizes from [start_index] to the
    run before the last; [None] when a run is being compacted. *)
Fixpoint size_amp_accumulate (runs : list SortedRun.t)
         (candidate_size : Z) (candidate_count : nat) : option (Z * nat) :=
  match runs with
  | [] => Some (candidate_size, candidate_count)
  | sr :: rest =>
      if SortedRun.being_compacted sr then None
      else size_amp_accumulate rest
             (add64 candidate_size (SortedRun.compensated_file_size sr))
             (S candidate_count)
  end.

Definition default_run : SortedRun.t :=
  {| SortedRun.level := 0; SortedRun.file := None; SortedRun.size := 0;
     SortedRun.compensated_file_size := 0;
     SortedRun.being_compacted := false; SortedRun.wait_reduce := false |}.

(** [sorted_runs.back()]; the caller passes a non-empty vector. *)
Definition back (sorted_runs : list SortedRun.t) : SortedRun.t :=
  last sorted_runs default_run.

Definition PickCompactionToReduceSizeAmp
           (ioptions : ImmutableCFOptions) (mutable_cf_options : MutableCFOptions)
           (vstorage : VersionStorageInfo) (sorted_runs : list SortedRun.t)
  : option Compaction :=
  let ratio := max_size_amplification_percent
                 (compaction_options_universal mutable_cf_options) in
  if SortedRun.being_compacted (back sorted_runs) then None else
  match size_amp_first_candidate (removelast sorted_runs) 0 with
  | None => None
  | Some start_index =>
      match size_amp_accumulate (skipn start_index (removelast sorted_runs)) 0 0 with
      | None => None
      | Some (candidate_size, candidate_count) =>
          if Nat.eqb candidate_count 0 then None else
          let earliest_file_size := SortedRun.size (back sorted_runs) in
          if mul64 candidate_size 100 <? mul64 ratio earliest_file_size then None
          else
            let picked := skipn start_index sorted_runs in
            let estimated_total_size := sum_sizes picked in
            let path_id := GetPathId ioptions mutable_cf_options estimated_total_size in
            let start_level := SortedRun.level (nth start_index sorted_runs default_run) in
            let inputs0 := init_inputs (Z.to_nat (num_levels vstorage)) start_level in
            let output_level :=
              if allow_ingest_behind ioptions then num_levels vstorage - 1 - 1
              else num_levels vstorage - 1 in
            Some {| inputs := pick_runs vstorage start_level picked inputs0;
                    output_level := output_level;
                    output_path_id := Z.of_nat path_id;
                    enable_compression := true;
                    max_subcompactions := 0;
                    manual_compaction := false;
                    partial_compaction := false;
                    compaction_purpose := kEssenceSst;
                    input_range := [];
                    compaction_reason := kUniversalSizeAmplification;
                    is_trivial_move := false |}
      end
  end.

(** The compensated sizes of a list of runs added up as the second loop
    does, in [uint64_t]. *)
Definition sum_compensated (runs : list SortedRun.t) : Z :=
  fold_left (fun a sr => add64 a (SortedRun.compensated_file_size sr)) runs 0.

(** The trigger condition in the words of the design document: every run
    but the bottommost counts towards [candidate_size], and none of them may
    be under compaction. *)
Definition size_amp_claimed (sorted_runs : list SortedRun.t) (ratio : Z) : Prop :=
  SortedRun.being_compacted (back sorted_runs) = false /\
  (forall sr, In sr (removelast sorted_runs) ->
              SortedRun.being_compacted sr = false) /\
  sum_compensated (removelast sorted_runs) * 100 >=
  ratio * SortedRun.size (back sorted_runs).

(** The trigger condition of the code: the leading runs under compaction
    are skipped and do not count. *)
Definition size_amp_triggers (sorted_runs : list SortedRun.t) (ratio : Z) : Prop :=
  SortedRun.being_compacted (back sorted_runs) = false /\
  exists skipped candidates : list SortedRun.t,
    removelast sorted_runs = skipped ++ candidates /\
    candidates <> [] /\
    (forall sr, In sr skipped -> SortedRun.being_compacted sr = true) /\
    (forall sr, In sr candidates -> SortedRun.being_compacted sr = false) /\
    mul64 (sum_compensated candidates) 100 >=
    mul64 ratio (SortedRun.size (back sorted_runs)).

Definition mk_file (n sz : Z) (bc marked : bool) : FileMetaData.t :=
  {| FileMetaData.number := n; FileMetaData.path_id := 0;
     FileMetaData.file_size := sz; FileMetaData.compensated_file_size := sz;
     FileMetaData.smallest := String.EmptyString;
     FileMetaData.largest := String.EmptyString;
     FileMetaData.smallest_seqno := n; FileMetaData.largest_seqno := n;
     FileMetaData.being_compacted := bc;
     FileMetaData.marked_for_compaction := marked;
     FileMetaData.sst_purpose := kEssenceSst;
     FileMetaData.sst_depend := [] |}.

(** The sorted run of a level-0 file. *)
Definition run_of_file (f : FileMetaData.t) : SortedRun.t :=
  {| SortedRun.level := 0; SortedRun.file := Some f;
     SortedRun.size := FileMetaData.file_size f;
     SortedRun.compensated_file_size := FileMetaData.compensated_file_size f;
     SortedRun.being_compacted := FileMetaData.being_compacted f;
     SortedRun.wait_reduce := false |}.

Definition mk_vstorage (levels : list (list FileMetaData.t))
           (marked : list (Z * FileMetaData.t)) : VersionStorageInfo :=
  {| files_ := levels;
     FilesMarkedForCompaction := marked;
     has_space_amplification := false;
     level_has_space_amplification := fun _ => false;
     depend_files := fun _ => None |}.

(** Three level-0 files, the newest of them under compaction. *)
Definition amp_files : list FileMetaData.t :=
  [mk_file 3 1000 true false; mk_file 2 1000 false false; mk_file 1 1 false false].

Definition amp_runs : list SortedRun.t := map run_of_file amp_files.

Definition amp_vstorage : VersionStorageInfo := mk_vstorage [amp_files] [].

Definition one_path : ImmutableCFOptions := mk_ioptions [0].

(** ** The picker's state and the helpers of the base picker *)

(** [compactions_in_progress_] and [level0_compactions_in_progress_]. *)
Record PickerState := {
  compactions_in_progress_ : list Compaction;
  level0_compactions_in_progress_ : list Compaction
}.

(** [AreFilesInCompaction]: some file of the list is being compacted. *)
Definition AreFilesInCompaction (fs : list FileMetaData.t) : bool :=
  existsb FileMetaData.being_compacted fs.

(** Methods of the base class [CompactionPicker] that the universal picker
    calls and whose bodies are in another file.  They read the version and
    the picker's state; a [bool] result with out-parameters becomes an
    [option] of the updated values. *)
Class CompactionPickerBase := {
  (* sets [start_level] and [start_level_inputs] *)
  PickFilesMarkedForCompaction :
    PickerState -> VersionStorageInfo -> Z * CompactionInputFiles;
  GetOverlappingL0Files :
    PickerState -> VersionStorageInfo -> CompactionInputFiles -> Z ->
    option CompactionInputFiles;
  (* updates [inputs] and [output_level_inputs] *)
  SetupOtherInputs :
    PickerState -> MutableCFOptions -> VersionStorageInfo ->
    CompactionInputFiles -> CompactionInputFiles ->
    option (CompactionInputFiles * CompactionInputFiles);
  FilesRangeOverlapWithCompaction :
    PickerState -> list CompactionInputFiles -> Z -> bool;
  RegisterCompaction : PickerState -> Compaction -> PickerState;
  ComputeCompactionScore :
    VersionStorageInfo -> ImmutableCFOptions -> MutableCFOptions ->
    VersionStorageInfo
}.

Definition NumLevelFiles (vstorage : VersionStorageInfo) (l : Z) : Z :=
  Z.of_nat (length (LevelFiles vstorage l)).

(** ** PickDeleteTriggeredCompaction *)

(** The loop over the level-0 files of a single-level engine: once a marked
    file has been seen ([compact]), every file is pushed. *)
Fixpoint delete_triggered_scan (level0 : list FileMetaData.t) (compact : bool)
  : list FileMetaData.t :=
  match level0 with
  | [] => []
  | f :: rest =>
      let compact := if FileMetaData.marked_for_compaction f then true else compact in
      if compact then f :: delete_triggered_scan rest compact
      else delete_triggered_scan rest compact
  end.

(** [for (output_level = start_level + 1; output_level < num_levels;
    output_level++)] with a [break] at the first non-empty level; [n] bounds
    the remaining iterations. *)
Fixpoint next_nonempty_level (vstorage : VersionStorageInfo) (n : nat)
         (output_level : Z) : Z :=
  match n with
  | O => output_level
  | S n' =>
      if negb (NumLevelFiles vstorage output_level =? 0) then output_level
      else next_nonempty_level vstorage n' (output_level + 1)
  end.

Definition sum_file_sizes (fs : list FileMetaData.t) : Z :=
  fold_left (fun a f => add64 a (FileMetaData.file_size f)) fs 0.

(** The inputs and the output level chosen by the two branches, [None]
    where the source returns [nullptr]. *)
Definition delete_triggered_inputs `{CompactionPickerBase}
           (st : PickerState) (ioptions : ImmutableCFOptions)
           (mutable_cf_options : MutableCFOptions) (vstorage : VersionStorageInfo)
  : option (list CompactionInputFiles * Z) :=
  if num_levels vstorage =? 1 then
    let start_level_inputs :=
      {| level := 0; files := delete_triggered_scan (LevelFiles vstorage 0) false |} in
    if (length (files start_level_inputs) <=? 1)%nat then None
    else Some ([start_level_inputs], 0)
  else
    let '(start_level, start_level_inputs) :=
      PickFilesMarkedForCompaction st vstorage in
    match files start_level_inputs with
    | [] => None
    | _ :: _ =>
      let output_level :=
        next_nonempty_level vstorage
          (Z.to_nat (num_levels vstorage - (start_level + 1))) (start_level + 1) in
      let output_level' :=
        if output_level =? num_levels vstorage then
          if start_level =? 0 then Some (num_levels vstorage - 1) else None
        else Some output_level in
      match output_level' with
      | None => None
      | Some output_level =>
        let output_level :=
          if allow_ingest_behind ioptions && (output_level =? num_levels vstorage - 1)
          then output_level - 1 else output_level in
        if negb (output_level =? 0) then
          let expanded :=
            if start_level =? 0
            then GetOverlappingL0Files st vstorage start_level_inputs output_level
            else Some start_level_inputs in
          match expanded with
          | None => None
          | Some start_level_inputs =>
            match SetupOtherInputs st mutable_cf_options vstorage start_level_inputs
                                   {| level := output_level; files := [] |} with
            | None => None
            | Some (start_level_inputs, output_level_inputs) =>
              let inputs :=
                start_level_inputs ::
                match files output_level_inputs with
                | [] => []
                | _ :: _ => [output_level_inputs]
                end in
              if FilesRangeOverlapWithCompaction st inputs output_level then None
              else Some (inputs, output_level)
            end
          end
        else Some ([start_level_inputs], output_level)
      end
    end.

Definition PickDeleteTriggeredCompaction `{CompactionPickerBase}
           (st : PickerState) (ioptions : ImmutableCFOptions)
           (mutable_cf_options : MutableCFOptions) (vstorage : VersionStorageInfo)
  : option Compaction :=
  match delete_triggered_inputs st ioptions mutable_cf_options vstorage with
  | None => None
  | Some (inputs, output_level) =>
      let estimated_total_size := sum_file_sizes (LevelFiles vstorage output_level) in
      let path_id := GetPathId ioptions mutable_cf_options estimated_total_size in
      let lazy := enable_lazy_compaction mutable_cf_options && negb (output_level =? 0) in
      Some {| inputs := inputs;
              output_level := output_level;
              output_path_id := Z.of_nat path_id;
              enable_compression := true;
              max_subcompactions := if lazy then 1 else 0;
              manual_compaction := true;
              partial_compaction := false;
              compaction_purpose := if lazy then kMapSst else kEssenceSst;
              input_range := [];
              compaction_reason := kFilesMarkedForCompaction;
              is_trivial_move := false |}
  end.

(** The selection in the words of the design document: the first marked
    file together with all newer files, that is, those before it in the
    level-0 order. *)
Fixpoint first_marked_and_newer (level0 : list FileMetaData.t)
  : list FileMetaData.t :=
  match level0 with
  | [] => []
  | f :: rest =>
      if FileMetaData.marked_for_compaction f then [f]
      else match first_marked_and_newer rest with
           | [] => []
           | sel => f :: sel
           end
  end.

(** The selection of the code: the first marked file together with all
    older files, those after it in the level-0 order; empty when no file is
    marked. *)
Inductive first_marked_and_older : list FileMetaData.t -> list FileMetaData.t -> Prop :=
| fmo_none level0 :
    (forall f, In f level0 -> FileMetaData.marked_for_compaction f = false) ->
    first_marked_and_older level0 []
| fmo_some newer m older :
    (forall f, In f newer -> FileMetaData.marked_for_compaction f = false) ->
    FileMetaData.marked_for_compaction m = true ->
    first_marked_and_older (newer ++ m :: older) (m :: older).

(** A base picker whose helpers decline; it serves the single-level
    scenarios, which call none of them. *)
Definition declining_base : CompactionPickerBase :=
  {| PickFilesMarkedForCompaction := fun _ _ => (0, {| level := 0; files := [] |});
     GetOverlappingL0Files := fun _ _ _ _ => None;
     SetupOtherInputs := fun _ _ _ _ _ => None;
     FilesRangeOverlapWithCompaction := fun _ _ _ => false;
     RegisterCompaction := fun st c =>
       {| compactions_in_progress_ := c :: compactions_in_progress_ st;
          level0_compactions_in_progress_ := c :: level0_compactions_in_progress_ st |};
     ComputeCompactionScore := fun v _ _ => v |}.

Definition empty_state : PickerState :=
  {| compactions_in_progress_ := []; level0_compactions_in_progress_ := [] |}.

(** Level 0 of a single-level engine: the file in the middle is marked. *)
Definition marked_files : list FileMetaData.t :=
  [mk_file 3 10 false false; mk_file 2 10 false true; mk_file 1 10 false false].

Definition marked_vstorage : VersionStorageInfo :=
  mk_vstorage [marked_files] [(0, mk_file 2 10 false true)].

(** ** IsInputFilesNonOverlapping *)

(** [icmp_]: the comparator of encoded internal keys; negative, zero or
    positive. *)
Class InternalKeyComparator := { Compare : Slice -> Slice -> Z }.

(** Accessors of [Compaction]. *)
Definition input_level_at (c : Compaction) (l : nat) : CompactionInputFiles :=
  nth l (inputs c) {| level := 0; files := [] |}.

Definition num_input_files (c : Compaction) (l : nat) : nat :=
  length (files (input_level_at c l)).

Definition c_level (c : Compaction) (l : nat) : Z := level (input_level_at c l).

Definition start_level (c : Compaction) : Z := c_level c 0.

Definition c_input (c : Compaction) (l i : nat) : option FileMetaData.t :=
  nth_error (files (input_level_at c l)) i.

Module InputFileInfo.
Record t := {
  f : FileMetaData.t;
  level : nat;     (* index of the input level *)
  index : nat      (* index of the file in that level *)
}.
End InputFileInfo.

(** The priority queue, as the list of its elements in the order they were
    pushed.  [top] is an element that no other element precedes under
    [SmallestKeyHeapComparator]; among several such elements the model takes
    the one pushed first.  [heap_run] below describes the loop over a queue
    that may return any of them. *)
Definition SmallestKeyHeap : Type := list InputFileInfo.t.

Definition SmallestKeyHeapComparator `{InternalKeyComparator}
           (i1 i2 : InputFileInfo.t) : bool :=
  Compare (FileMetaData.smallest (InputFileInfo.f i1))
          (FileMetaData.smallest (InputFileInfo.f i2)) >? 0.

(** [top()] followed by [pop()]. *)
Fixpoint heap_pop `{InternalKeyComparator} (q : SmallestKeyHeap)
  : option (InputFileInfo.t * SmallestKeyHeap) :=
  match q with
  | [] => None
  | x :: rest =>
      match heap_pop rest with
      | None => Some (x, [])
      | Some (y, rest') =>
          if SmallestKeyHeapComparator x y then Some (y, x :: rest')
          else Some (x, rest)
      end
  end.

Definition heap_push (q : SmallestKeyHeap) (x : InputFileInfo.t) : SmallestKeyHeap :=
  q ++ [x].

(** The files of input level 0 with their indices, for a compaction that
    starts at level 0. *)
Fixpoint level0_infos (fs : list FileMetaData.t) (i : nat) : list InputFileInfo.t :=
  match fs with
  | [] => []
  | f :: rest =>
      {| InputFileInfo.f := f; InputFileInfo.level := 0; InputFileInfo.index := i |}
        :: level0_infos rest (S i)
  end.

(** The loop of [create_level_heap] over the input levels [l, l+1, ...]. *)
Fixpoint create_level_heap_from (start_level0 : bool)
         (levels : list CompactionInputFiles) (l : nat) (q : SmallestKeyHeap)
  : SmallestKeyHeap :=
  match levels with
  | [] => q
  | lv :: rest =>
      let q' :=
        match files lv with
        | [] => q
        | first :: _ =>
            if Nat.eqb l 0 && start_level0 then q ++ level0_infos (files lv) 0
            else heap_push q {| InputFileInfo.f := first; InputFileInfo.level := l;
                                InputFileInfo.index := 0 |}
        end in
      create_level_heap_from start_level0 rest (S l) q'
  end.

Definition create_level_heap (c : Compaction) : SmallestKeyHeap :=
  create_level_heap_from (start_level c =? 0) (inputs c) 0 [].

(** The successor of [curr] in its level, pushed when that level is not
    level 0 and [curr] is not its last file. *)
Definition next_of (c : Compaction) (curr : InputFileInfo.t)
  : option InputFileInfo.t :=
  if negb (c_level c (InputFileInfo.level curr) =? 0) &&
     (InputFileInfo.index curr <? num_input_files c (InputFileInfo.level curr) - 1)%nat
  then
    match c_input c (InputFileInfo.level curr) (S (InputFileInfo.index curr)) with
    | Some f => Some {| InputFileInfo.f := f;
                        InputFileInfo.level := InputFileInfo.level curr;
                        InputFileInfo.index := S (InputFileInfo.index curr) |}
    | None => None
    end
  else None.

Definition push_next (c : Compaction) (curr : InputFileInfo.t)
           (q : SmallestKeyHeap) : SmallestKeyHeap :=
  match next_of c curr with
  | Some next => heap_push q next
  | None => q
  end.

(** The [while (!smallest_key_priority_q.empty())] loop.  [prev] is [None]
    while [first_iter] is set.  Every iteration pops a file and pushes at
    most its successor, so the number of iterations is bounded; [fuel]
    counts them, and [None] reports that it ran out. *)
Fixpoint nonoverlapping_loop `{InternalKeyComparator} (fuel : nat)
         (c : Compaction) (q : SmallestKeyHeap) (prev : option InputFileInfo.t)
  : option bool :=
  match heap_pop q with
  | None => Some true
  | Some (curr, q') =>
      match fuel with
      | O => None
      | S fuel' =>
          let overlapping :=
            match prev with
            | None => false
            | Some prev =>
                Compare (FileMetaData.largest (InputFileInfo.f prev))
                        (FileMetaData.smallest (InputFileInfo.f curr)) >=? 0
            end in
          if overlapping then Some false
          else nonoverlapping_loop fuel' c (push_next c curr q') (Some curr)
      end
  end.

(** The number of files of all input levels: a bound on the iterations. *)
Definition total_input_files (c : Compaction) : nat :=
  fold_right (fun lv n => (length (files lv) + n)%nat) 0%nat (inputs c).

Definition IsInputFilesNonOverlapping `{InternalKeyComparator} (c : Compaction)
  : bool :=
  let q := create_level_heap c in
  if (length q <=? 1)%nat then true
  else match nonoverlapping_loop (total_input_files c) c q None with
       | Some b => b
       | None => true
       end.

(** The order in which the loop pops the files when it is never cut short:
    the enumeration of the input files through the heap of file fronts. *)
Fixpoint heap_walk `{InternalKeyComparator} (fuel : nat) (c : Compaction)
         (q : SmallestKeyHeap) : list InputFileInfo.t :=
  match heap_pop q with
  | None => []
  | Some (curr, q') =>
      match fuel with
      | O => []
      | S fuel' => curr :: heap_walk fuel' c (push_next c curr q')
      end
  end.

Definition enumerate_inputs `{InternalKeyComparator} (c : Compaction)
  : list FileMetaData.t :=
  map InputFileInfo.f (heap_walk (total_input_files c) c (create_level_heap c)).

(** Every file's smallest key strictly exceeds the largest key of the file
    before it. *)
Fixpoint strictly_chained `{InternalKeyComparator} (fs : list FileMetaData.t) : Prop :=
  match fs with
  | [] => True
  | f1 :: rest =>
      match rest with
      | [] => True
      | f2 :: _ =>
          Compare (FileMetaData.largest f1) (FileMetaData.smallest f2) < 0 /\
          strictly_chained rest
      end
  end.

(** The invariant of a version: the files of a level other than level 0 are
    ordered by key and do not overlap. *)
Definition levels_sorted `{InternalKeyComparator} (c : Compaction) : Prop :=
  forall lv, In lv (inputs c) -> level lv <> 0 -> strictly_chained (files lv).

(** The iterations an element of the heap still accounts for: itself and,
    outside level 0, the files after it in its level. *)
Definition info_weight (c : Compaction) (e : InputFileInfo.t) : nat :=
  if negb (c_level c (InputFileInfo.level e) =? 0)
  then Nat.max 1 (num_input_files c (InputFileInfo.level e) - InputFileInfo.index e)
  else 1%nat.

Definition heap_measure (c : Compaction) (q : SmallestKeyHeap) : nat :=
  fold_right (fun e n => (info_weight c e + n)%nat) 0%nat q.

(** The files popped so far, the last of them being [prev], and those still
    to come form a chain. *)
Definition chained_from `{InternalKeyComparator} (prev : option InputFileInfo.t)
           (walk : list InputFileInfo.t) : Prop :=
  strictly_chained
    (map InputFileInfo.f (match prev with Some p => p :: walk | None => walk end)).

(** An element of the heap names a file of the plan. *)
Definition info_valid (c : Compaction) (e : InputFileInfo.t) : Prop :=
  c_input c (InputFileInfo.level e) (InputFileInfo.index e) = Some (InputFileInfo.f e).

(** A bytewise comparator, for the scenarios. *)
Definition BytewiseComparator : InternalKeyComparator :=
  {| Compare := fun a b =>
       match String.compare a b with Lt => -1 | Eq => 0 | Gt => 1 end |}.

Definition mk_range_file (n : Z) (lo hi : Slice) : FileMetaData.t :=
  {| FileMetaData.number := n; FileMetaData.path_id := 0;
     FileMetaData.file_size := 10; FileMetaData.compensated_file_size := 10;
     FileMetaData.smallest := lo; FileMetaData.largest := hi;
     FileMetaData.smallest_seqno := n; FileMetaData.largest_seqno := n;
     FileMetaData.being_compacted := false;
     FileMetaData.marked_for_compaction := false;
     FileMetaData.sst_purpose := kEssenceSst;
     FileMetaData.sst_depend := [] |}.

Definition plan_of_inputs (ins : list CompactionInputFiles) : Compaction :=
  {| inputs := ins;
     output_level := 0;
     output_path_id := 0;
     enable_compression := true;
     max_subcompactions := 0;
     manual_compaction := false;
     partial_compaction := false;
     compaction_purpose := kEssenceSst;
     input_range := [];
     compaction_reason := kUnknown;
     is_trivial_move := false |}.

(** Two level-0 files and a level of two files whose key ranges interleave
    without overlapping: a..b, c..d in level 0 and e..f, g..h below. *)
Definition disjoint_plan : Compaction :=
  plan_of_inputs
    [ {| level := 0;
         files := [mk_range_file 4 "c" "d"; mk_range_file 3 "a" "b"] |};
      {| level := 1;
         files := [mk_range_file 1 "e" "f"; mk_range_file 2 "g" "h"] |} ]%string.

(** A single lower level whose two files overlap, which no version holds. *)
Definition unsorted_level_plan : Compaction :=
  plan_of_inputs
    [ {| level := 1;
         files := [mk_range_file 1 "a" "e"; mk_range_file 2 "c" "h"] |} ]%string.

(** ** Double-precision arithmetic *)

(** The operations on [double] the picker uses.  [of_uint64] is the
    conversion of an unsigned integer to [double]. *)
Class DoubleOps := {
  double : Type;
  of_uint64 : Z -> double;
  dadd : double -> double -> double;
  dsub : double -> double -> double;
  dmul : double -> double -> double;
  ddiv : double -> double -> double;
  dabs : double -> double;
  dlt : double -> double -> bool;
  dle : double -> double -> bool
}.

(** [std::pow] of the C library. *)
Class MathLib `{DoubleOps} := { dpow : double -> double -> double }.

(** IEEE 754 binary64, the [double] of the platforms the engine runs on. *)
Definition binary64_of_Z (z : Z) : spec_float := binary_normalize 53 1024 z 0 false.

Definition IEEE754_binary64 : DoubleOps :=
  {| double := spec_float;
     of_uint64 := binary64_of_Z;
     dadd := SFadd 53 1024;
     dsub := SFsub 53 1024;
     dmul := SFmul 53 1024;
     ddiv := SFdiv 53 1024;
     dabs := SFabs;
     dlt := SFltb;
     dle := SFleb |}.

Definition dgt `{DoubleOps} (a b : double) : bool := dlt b a.

(** ** PickCompactionToReduceSortedRunsOld *)

(** [candidate_size * (100.0 + ratio) / 100.0]. *)
Definition scale_by_ratio `{DoubleOps} (size ratio : Z) : double :=
  ddiv (dmul (of_uint64 size) (dadd (of_uint64 100) (of_uint64 ratio)))
       (of_uint64 100).

(** The tests of the inner loop on the succeeding run, past the bound on
    the number of files: it is not being compacted, it is not larger than
    the candidate size increased by the ratio, and, under the similar-size
    stop style, the candidate size is not larger than its size increased by
    the ratio. *)
Definition accepts_succeeding `{DoubleOps} (style : CompactionStopStyle)
           (ratio candidate_size : Z) (succeeding_sr : SortedRun.t) : bool :=
  if SortedRun.being_compacted succeeding_sr then false
  else if dlt (scale_by_ratio candidate_size ratio)
              (of_uint64 (SortedRun.size succeeding_sr)) then false
  else match style with
       | kCompactionStopStyleSimilarSize =>
           negb (dlt (scale_by_ratio (SortedRun.size succeeding_sr) ratio)
                     (of_uint64 candidate_size))
       | kCompactionStopStyleTotalSize => true
       end.

(** The candidate size after a run has been picked. *)
Definition next_candidate_size (style : CompactionStopStyle)
           (candidate_size : Z) (succeeding_sr : SortedRun.t) : Z :=
  match style with
  | kCompactionStopStyleSimilarSize => SortedRun.compensated_file_size succeeding_sr
  | kCompactionStopStyleTotalSize =>
      add64 candidate_size (SortedRun.compensated_file_size succeeding_sr)
  end.

(** The inner loop [for (i = loop + 1; candidate_count < max_files_to_compact
    && i < sorted_runs.size(); i++)] over the runs after [loop]; it returns
    the candidate size and count it ends with. *)
Fixpoint extend_window `{DoubleOps} (style : CompactionStopStyle)
         (ratio max_files_to_compact : Z) (succeeding : list SortedRun.t)
         (candidate_size candidate_count : Z) : Z * Z :=
  match succeeding with
  | [] => (candidate_size, candidate_count)
  | succeeding_sr :: rest =>
      if candidate_count <? max_files_to_compact then
        if accepts_succeeding style ratio candidate_size succeeding_sr then
          extend_window style ratio max_files_to_compact rest
                        (next_candidate_size style candidate_size succeeding_sr)
                        (candidate_count + 1)
        else (candidate_size, candidate_count)
      else (candidate_size, candidate_count)
  end.

(** The outer loop with its skip of the runs being compacted, from index
    [loop] on: the first index whose window reaches [min_merge_width], with
    the window's count.  A run being compacted is passed over; a window that
    stays too short moves the search to the next index. *)
Fixpoint find_window `{DoubleOps} (style : CompactionStopStyle)
         (ratio max_files_to_compact min_merge_width : Z)
         (runs : list SortedRun.t) (loop : nat) : option (nat * Z) :=
  match runs with
  | [] => None
  | sr :: rest =>
      if SortedRun.being_compacted sr then
        find_window style ratio max_files_to_compact min_merge_width rest (S loop)
      else
        let candidate_count :=
          snd (extend_window style ratio max_files_to_compact rest
                             (SortedRun.compensated_file_size sr) 1) in
        if candidate_count >=? min_merge_width then Some (loop, candidate_count)
        else find_window style ratio max_files_to_compact min_merge_width rest (S loop)
  end.

(** The loop that disables compression: from the last run down to
    [first_index_after], stop at the first index where the size of the older
    runs reaches [ratio_to_compress] percent of the total.  [older] is
    [sorted_runs[first_index_after ..]] reversed. *)
Fixpoint compression_enabled (older : list SortedRun.t)
         (older_file_size total_size ratio_to_compress : Z) : bool :=
  match older with
  | [] => true
  | sr :: rest =>
      let older_file_size := add64 older_file_size (SortedRun.size sr) in
      if mul64 older_file_size 100 >=? mul64 total_size (wrap64 ratio_to_compress)
      then false
      else compression_enabled rest older_file_size total_size ratio_to_compress
  end.

Definition enable_compression_after (mutable_cf_options : MutableCFOptions)
           (sorted_runs : list SortedRun.t) (first_index_after : nat) : bool :=
  let ratio_to_compress :=
    compression_size_percent (compaction_options_universal mutable_cf_options) in
  if ratio_to_compress >=? 0 then
    compression_enabled (rev (skipn first_index_after sorted_runs)) 0
                        (sum_compensated sorted_runs) ratio_to_compress
  else true.

(** The output level of a window that ends before [first_index_after]. *)
Definition output_level_after (ioptions : ImmutableCFOptions)
           (vstorage : VersionStorageInfo) (sorted_runs : list SortedRun.t)
           (first_index_after : nat) : Z :=
  let output_level :=
    if Nat.eqb first_index_after (length sorted_runs) then num_levels vstorage - 1
    else if SortedRun.level (nth first_index_after sorted_runs default_run) =? 0 then 0
    else SortedRun.level (nth first_index_after sorted_runs default_run) - 1 in
  if allow_ingest_behind ioptions && (output_level =? num_levels vstorage - 1)
  then output_level - 1 else output_level.

Definition PickCompactionToReduceSortedRunsOld `{DoubleOps}
           (ioptions : ImmutableCFOptions) (mutable_cf_options : MutableCFOptions)
           (vstorage : VersionStorageInfo)
           (ratio max_number_of_files_to_compact : Z)
           (sorted_runs : list SortedRun.t) : option Compaction :=
  let options := compaction_options_universal mutable_cf_options in
  let max_files_to_compact :=
    Z.min (max_merge_width options) max_number_of_files_to_compact in
  let min_merge_width := Z.max (min_merge_width options) 2 in
  match find_window (stop_style options) ratio max_files_to_compact
                    min_merge_width sorted_runs 0 with
  | None => None
  | Some (start_index, candidate_count) =>
      if candidate_count <=? 1 then None else
      let first_index_after := (start_index + Z.to_nat candidate_count)%nat in
      let enable_compression :=
        enable_compression_after mutable_cf_options sorted_runs first_index_after in
      let estimated_total_size := sum_sizes (firstn first_index_after sorted_runs) in
      let path_id := GetPathId ioptions mutable_cf_options estimated_total_size in
      let start_level := SortedRun.level (nth start_index sorted_runs default_run) in
      let output_level :=
        output_level_after ioptions vstorage sorted_runs first_index_after in
      let picked :=
        firstn (Z.to_nat candidate_count) (skipn start_index sorted_runs) in
      Some {| inputs := pick_runs vstorage start_level picked
                          (init_inputs (Z.to_nat (num_levels vstorage)) start_level);
              output_level := output_level;
              output_path_id := Z.of_nat path_id;
              enable_compression := enable_compression;
              max_subcompactions := 0;
              manual_compaction := false;
              partial_compaction := false;
              compaction_purpose := kEssenceSst;
              input_range := [];
              compaction_reason :=
                if max_number_of_files_to_compact =? UINT_MAX
                then kUniversalSizeRatio else kUniversalSortedRunNum;
              is_trivial_move := false |}
  end.

(** The window in the words of the design document: the run after the
    window is taken while its size is at most [C * (100 + ratio) / 100]
    (and, under the similar-size stop style, [C] is at most its size
    increased by the ratio), [C] being the total of the sizes picked or the
    size of the last run picked.  The result is the number of runs the
    start run is extended by. *)
Fixpoint claimed_extension (style : CompactionStopStyle) (ratio : Z)
         (succeeding : list SortedRun.t) (C : Z) : nat :=
  match succeeding with
  | [] => O
  | succ :: rest =>
      if (SortedRun.size succ * 100 <=? C * (100 + ratio)) &&
         match style with
         | kCompactionStopStyleSimilarSize =>
             C * 100 <=? SortedRun.size succ * (100 + ratio)
         | kCompactionStopStyleTotalSize => true
         end
      then S (claimed_extension style ratio rest
                match style with
                | kCompactionStopStyleSimilarSize => SortedRun.size succ
                | kCompactionStopStyleTotalSize => C + SortedRun.size succ
                end)
      else O
  end.

(** The candidate size after the runs [accepted] have been picked. *)
Definition size_after (style : CompactionStopStyle) (candidate_size : Z)
           (accepted : list SortedRun.t) : Z :=
  fold_left (next_candidate_size style) accepted candidate_size.

(** The window once more, now as the comparisons and the sizes themselves.
    [le_scaled a b ratio] is [a <= b * (100 + ratio) / 100] as the strategy
    evaluates it: the right-hand side, computed in [double] arithmetic, is
    not less than [a] converted to [double]. *)
Definition le_scaled `{DoubleOps} (a b ratio : Z) : bool :=
  negb (dlt (ddiv (dmul (of_uint64 b) (dadd (of_uint64 100) (of_uint64 ratio)))
                  (of_uint64 100))
            (of_uint64 a)).

(** The candidate size [C] of a window that started with [C] and has taken
    the runs [picked]: under the total-size stop style the sum of [C] and
    their compensated sizes, as a 64-bit unsigned number; under the
    similar-size stop style the compensated size of the run taken last. *)
Definition window_size (style : CompactionStopStyle) (C : Z)
           (picked : list SortedRun.t) : Z :=
  match picked with
  | [] => C
  | _ :: _ =>
      match style with
      | kCompactionStopStyleTotalSize =>
          (C + fold_right Z.add 0 (map SortedRun.compensated_file_size picked))
          mod 2 ^ 64
      | kCompactionStopStyleSimilarSize =>
          last (map SortedRun.compensated_file_size picked) C
      end
  end.

(** A window of candidate size [C] takes the run [succ]. *)
Definition window_takes `{DoubleOps} (style : CompactionStopStyle)
           (ratio C : Z) (succ : SortedRun.t) : Prop :=
  SortedRun.being_compacted succ = false /\
  le_scaled (SortedRun.size succ) C ratio = true /\
  (style = kCompactionStopStyleSimilarSize ->
   le_scaled C (SortedRun.size succ) ratio = true).

(** Three level-0 files of sizes 10, 10 and 100; the tombstones of the
    second one raise its compensated size to 100. *)
Definition similar_files : list FileMetaData.t :=
  [ mk_file 3 10 false false;
    {| FileMetaData.number := 2; FileMetaData.path_id := 0;
       FileMetaData.file_size := 10; FileMetaData.compensated_file_size := 100;
       FileMetaData.smallest := EmptyString; FileMetaData.largest := EmptyString;
       FileMetaData.smallest_seqno := 2; FileMetaData.largest_seqno := 2;
       FileMetaData.being_compacted := false;
       FileMetaData.marked_for_compaction := false;
       FileMetaData.sst_purpose := kEssenceSst;
       FileMetaData.sst_depend := [] |};
    mk_file 1 100 false false ].

Definition similar_runs : list SortedRun.t := map run_of_file similar_files.

Definition similar_vstorage : VersionStorageInfo := mk_vstorage [similar_files] [].

Definition similar_size_options : MutableCFOptions :=
  {| level0_file_num_compaction_trigger := 2;
     compaction_options_universal :=
       {| size_ratio := 0; min_merge_width := 2; max_merge_width := UINT_MAX;
          max_size_amplification_percent := 200;
          compression_size_percent := -1;
          stop_style := kCompactionStopStyleSimilarSize;
          allow_trivial_move := false |};
     enable_lazy_compaction := false;
     write_buffer_size := 67108864;
     max_compaction_bytes := 0 |}.

(** ** GenSortedRunGroup *)

Module SortedRunGroup.
Record t `{DoubleOps} := {
  start : Z;     (* size_t *)
  count : Z;     (* size_t *)
  ratio : double
}.
End SortedRunGroup.

Definition dzero `{DoubleOps} : double := of_uint64 0.
Definition done `{DoubleOps} : double := of_uint64 1.

(** [o[j]] replaced by [f o[j]]; an index outside the vector, which the
    source would write unchecked, changes nothing. *)
Fixpoint update_at {A : Type} (o : list A) (j : nat) (f : A -> A) : list A :=
  match o, j with
  | [], _ => []
  | x :: rest, O => f x :: rest
  | x :: rest, S j' => x :: update_at rest j' f
  end.

Section Grouping.
Context `{MathLib}.

Definition empty_group : SortedRunGroup.t :=
  {| SortedRunGroup.start := 0; SortedRunGroup.count := 0;
     SortedRunGroup.ratio := dzero |}.

Definition group_at (o : list SortedRunGroup.t) (j : nat) : SortedRunGroup.t :=
  nth j o empty_group.

Definition set_start (s : Z) (x : SortedRunGroup.t) : SortedRunGroup.t :=
  {| SortedRunGroup.start := s; SortedRunGroup.count := SortedRunGroup.count x;
     SortedRunGroup.ratio := SortedRunGroup.ratio x |}.

Definition set_count (n : Z) (x : SortedRunGroup.t) : SortedRunGroup.t :=
  {| SortedRunGroup.start := SortedRunGroup.start x; SortedRunGroup.count := n;
     SortedRunGroup.ratio := SortedRunGroup.ratio x |}.

Definition set_ratio (r : double) (x : SortedRunGroup.t) : SortedRunGroup.t :=
  {| SortedRunGroup.start := SortedRunGroup.start x;
     SortedRunGroup.count := SortedRunGroup.count x;
     SortedRunGroup.ratio := r |}.

Definition add_ratio (r : double) (x : SortedRunGroup.t) : SortedRunGroup.t :=
  set_ratio (dadd (SortedRunGroup.ratio x) r) x.

(** [F(q, n) = (pow(q, n + 1) - q) / (q - 1)], the sum of
    [q, q^2, ..., q^n]. *)
Definition F (q : double) (n : nat) : double :=
  ddiv (dsub (dpow q (of_uint64 (Z.of_nat n + 1))) q) (dsub q done).

(** [for (k = 2; k <= g; ++k) Fp += k * (q_k *= q)]; [n] counts the
    iterations left. *)
Fixpoint derivative_loop (n : nat) (k : Z) (q Fp q_k : double) : double :=
  match n with
  | O => Fp
  | S n' =>
      let q_k := dmul q_k q in
      derivative_loop n' (k + 1) q (dadd Fp (dmul (of_uint64 k) q_k)) q_k
  end.

(** One step of the Newton-Raphson method on [F(q, g) - S]. *)
Definition newton_step (g : nat) (S q : double) : double :=
  let Fp := derivative_loop (g - 1) 2 q q q in
  dsub q (ddiv (dsub (F q g) S) Fp).

Fixpoint newton (n : nat) (g : nat) (S q : double) : double :=
  match n with
  | O => q
  | Datatypes.S n' => newton n' g S (newton_step g S q)
  end.

(** The lambda [Q]: the common ratio [q] with [q + q^2 + ... + q^g = S] for
    the sum [S] of the sizes. *)
Definition Q (sizes : list double) (g : nat) : double :=
  let S := fold_left dadd sizes dzero in
  let q := dpow S (ddiv done (of_uint64 (Z.of_nat g))) in
  if dle S (of_uint64 (Z.of_nat g + 1)) then done
  else newton 8 g S q.

(** [for (j = i; j < g; ++j)]: the runs [j + sr_size - g] become groups of
    their own; [n] counts the iterations left. *)
Fixpoint make_singletons (n : nat) (j : nat) (sr : list double)
         (sr_size g : nat) (o : list SortedRunGroup.t) : list SortedRunGroup.t :=
  match n with
  | O => o
  | S n' =>
      let start := (j + sr_size - g)%nat in
      let o := update_at o j (fun _ =>
                 {| SortedRunGroup.start := Z.of_nat start;
                    SortedRunGroup.count := 1;
                    SortedRunGroup.ratio := nth start sr dzero |}) in
      make_singletons n' (S j) sr sr_size g o
  end.

(** [for (i = g - 1; q > 1 && i > 0; --i)]: try to drop the last [g - i]
    runs into groups of their own whenever that lowers the ratio.  The
    result is the final [sr_size], [g], [q] and [o]. *)
Fixpoint refine_groups (i : nat) (sr : list double) (sr_size g : nat)
         (q : double) (o : list SortedRunGroup.t)
  : nat * nat * double * list SortedRunGroup.t :=
  match i with
  | O => (sr_size, g, q, o)
  | S i' =>
      if dgt q done then
        let e := (g - i)%nat in
        let new_q := Q (firstn (sr_size - e) sr) (g - e) in
        if dlt new_q q then
          let o := make_singletons (g - i) i sr sr_size g o in
          refine_groups i' sr (sr_size - e) (g - e) new_q o
        else refine_groups i' sr sr_size g q o
      else (sr_size, g, q, o)
  end.

(** [for (int i = int(sr_size) - 2; i >= 0; --i)]: the right-to-left sweep
    that cuts the groups; [m] is [i + 1]. *)
Fixpoint sweep_groups (m : nat) (sr : list double) (q : double)
         (sr_acc q_acc : double) (q_i : nat) (o : list SortedRunGroup.t)
  : list SortedRunGroup.t :=
  match m with
  | O => o
  | S i =>
      let new_acc := dadd sr_acc (nth i sr dzero) in
      let cut :=
        ((i <? q_i)%nat || dgt sr_acc q_acc ||
         dgt (dabs (dsub new_acc q_acc)) (dabs (dsub sr_acc q_acc)))
        && (0 <? q_i)%nat in
      let '(q_acc, q_i, o) :=
        if cut then
          (dadd q_acc (dpow q (of_uint64 (Z.of_nat q_i))),
           (q_i - 1)%nat,
           update_at (update_at o q_i (set_start (Z.of_nat i + 1)))
                     (q_i - 1) (set_ratio dzero))
        else (q_acc, q_i, o) in
      let o := update_at o q_i (add_ratio (nth i sr dzero)) in
      sweep_groups i sr q new_acc q_acc q_i o
  end.

(** [for (i = 1; i < g; ++i) o[i - 1].count = o[i].start - o[i - 1].start];
    [n] counts the iterations left. *)
Fixpoint count_groups (n : nat) (i : nat) (o : list SortedRunGroup.t)
  : list SortedRunGroup.t :=
  match n with
  | O => o
  | S n' =>
      let c := sub64 (SortedRunGroup.start (group_at o i))
                     (SortedRunGroup.start (group_at o (i - 1))) in
      count_groups n' (S i) (update_at o (i - 1) (set_count c))
  end.

(** [GenSortedRunGroup(sr, group, &output_group)] for the empty
    [output_group] its caller passes: the returned ratio and the groups. *)
Definition GenSortedRunGroup (sr : list double) (group : nat)
  : double * list SortedRunGroup.t :=
  let o := repeat empty_group group in
  let ret_q := Q sr group in
  let '(sr_size, g, q, o) :=
    refine_groups (group - 1) sr (length sr) group ret_q o in
  let sr_acc := nth (sr_size - 1) sr dzero in
  let q_acc := dpow q (of_uint64 (Z.of_nat g)) in
  let q_i := (g - 1)%nat in
  let o := update_at o q_i (set_ratio sr_acc) in
  let o := update_at o 0 (set_start 0) in
  let o := sweep_groups (sr_size - 1) sr q sr_acc q_acc q_i o in
  let o := count_groups (g - 1) 1 o in
  let o := update_at o (g - 1)
             (fun x => set_count
                (sub64 (Z.of_nat sr_size) (SortedRunGroup.start (group_at o (g - 1)))) x) in
  (ret_q, o).

(** The groups are contiguous from [s] on: each starts where the one before
    it ends. *)
Fixpoint contiguous_from (s : Z) (o : list SortedRunGroup.t) : Prop :=
  match o with
  | [] => True
  | x :: rest =>
      SortedRunGroup.start x = s /\
      contiguous_from (s + SortedRunGroup.count x) rest
  end.

Definition total_count (o : list SortedRunGroup.t) : Z :=
  fold_right (fun x a => SortedRunGroup.count x + a) 0 o.

(** The start and the count of group [j]. *)
Definition start_at (o : list SortedRunGroup.t) (j : nat) : Z :=
  SortedRunGroup.start (group_at o j).

Definition count_at (o : list SortedRunGroup.t) (j : nat) : Z :=
  SortedRunGroup.count (group_at o j).

(** The groups from [g] on are the single runs [j + d]. *)
Definition singletons_from (d g : nat) (o : list SortedRunGroup.t) : Prop :=
  forall j, (g <= j < length o)%nat ->
            start_at o j = Z.of_nat (j + d) /\ count_at o j = 1.

(** The state of the sweep before index [m - 1]: the groups above [q_i]
    have been cut, at strictly increasing starts between [m] and
    [sr_size]. *)
Definition cuts_ok (sr_size g m q_i : nat) (o : list SortedRunGroup.t) : Prop :=
  (q_i <= m)%nat /\ (q_i < g)%nat /\ (m < sr_size)%nat /\ (g <= length o)%nat /\
  start_at o 0 = 0 /\
  (forall j, (q_i < j < g)%nat ->
             Z.of_nat m < start_at o j < Z.of_nat sr_size) /\
  (forall j, (q_i < j)%nat -> (S j < g)%nat -> start_at o j < start_at o (S j)).

End Grouping.

(** An approximation of [std::pow] on binary64 for the scenarios: repeated
    multiplication for an exponent that is a non-negative integer, and for
    an exponent [1/g] the [g]-th root by Newton's iteration.  The C library's
    own rounding is not modelled. *)
Definition binary64_to_Z (x : spec_float) : Z :=
  match x with
  | S754_finite s m e =>
      let v := if 0 <=? e then Zpos m * 2 ^ e else Zpos m / 2 ^ (- e) in
      if s then - v else v
  | _ => 0
  end.

Definition binary64_is_natural (x : spec_float) : bool :=
  match x with
  | S754_zero _ => true
  | S754_finite false m e => (0 <=? e) || (Zpos m mod 2 ^ (- e) =? 0)
  | _ => false
  end.

Fixpoint binary64_pow_nat (x : spec_float) (n : nat) : spec_float :=
  match n with
  | O => binary64_of_Z 1
  | S n' => SFmul 53 1024 x (binary64_pow_nat x n')
  end.

Fixpoint binary64_root (steps : nat) (g : nat) (a x : spec_float) : spec_float :=
  match steps with
  | O => x
  | S steps' =>
      let g1 := binary64_of_Z (Z.of_nat g - 1) in
      let x' := SFdiv 53 1024
                  (SFadd 53 1024 (SFmul 53 1024 g1 x)
                         (SFdiv 53 1024 a (binary64_pow_nat x (g - 1))))
                  (binary64_of_Z (Z.of_nat g)) in
      binary64_root steps' g a x'
  end.

Definition binary64_pow (x y : spec_float) : spec_float :=
  if binary64_is_natural y then binary64_pow_nat x (Z.to_nat (binary64_to_Z y))
  else
    let g := Z.to_nat (binary64_to_Z
                         (SFadd 53 1024 (SFdiv 53 1024 (binary64_of_Z 1) y)
                                (SFdiv 53 1024 (binary64_of_Z 1) (binary64_of_Z 2)))) in
    binary64_root 64 g x x.

Definition binary64_math : @MathLib IEEE754_binary64 :=
  @Build_MathLib IEEE754_binary64
    (binary64_pow : @double IEEE754_binary64 -> @double IEEE754_binary64 ->
                    @double IEEE754_binary64).

(** The grouping scenario: eight runs of 1, 1, 2, 4, 8, 16, 32 and 64 write
    buffers, to be reduced to four. *)
Definition doubling_sizes : list spec_float :=
  map binary64_of_Z [1; 1; 2; 4; 8; 16; 32; 64].

Definition doubling_groups : list (@SortedRunGroup.t IEEE754_binary64) :=
  snd (@GenSortedRunGroup IEEE754_binary64 binary64_math doubling_sizes 4).

(** ** The table cache and the map-element iterator *)

(** A map-element iterator as the table cache hands it out: the status it
    reports when it has been opened, the encoded elements it yields while
    [Valid()] holds, and the status it reports once [Valid()] has turned
    false: OK at the end of the data, not OK when a read has failed.  The
    strategies ask for the status once, when they have opened the iterator;
    no code of theirs asks for it after a scan. *)
Record MapElementIterator := {
  status_ok : bool;                 (* iter->status().ok() after the open *)
  entries : list (Slice * Slice);   (* key and value of every valid element *)
  end_status_ok : bool              (* iter->status().ok() after the scan *)
}.

(** [table_cache_].  [GetTableProperties] yields the read amplification
    that [GetSstReadAmp] extracts of the properties, or [None] when its
    status is not OK. *)
Class TableCache := {
  GetTableProperties : FileMetaData.t -> option Z;
  NewIterator : FileMetaData.t -> Z -> MapElementIterator;
  NewMapElementIterator : list FileMetaData.t -> MapElementIterator
}.

(** The construction of the rewrite ranges out of an open iterator: the
    loops of [PickCompositeCompaction] and [PickRangeCompaction] that decode
    the elements and join their key ranges, together with the user
    comparator they use.  A [None] stands for the [return nullptr] on an
    element that does not decode. *)
Class RangeBuilder := {
  (* ioptions_.user_comparator *)
  user_compare : Slice -> Slice -> Z;
  (* the collapse regions, emitted as link rewrites *)
  collapse_regions :
    VersionStorageInfo -> ImmutableCFOptions -> CompactionInputFiles ->
    MapElementIterator -> option (list RangeStorage);
  (* the ranges packed from the priority heap, sorted *)
  priority_ranges :
    VersionStorageInfo -> ImmutableCFOptions -> MutableCFOptions ->
    CompactionInputFiles -> MapElementIterator -> option (list RangeStorage);
  (* the final sweep over the elements that are not perfect *)
  sweep_ranges :
    VersionStorageInfo -> ImmutableCFOptions -> CompactionInputFiles ->
    MapElementIterator -> list RangeStorage;
  (* the sweep of PickRangeCompaction: the ranges and the estimated size *)
  manual_ranges :
    VersionStorageInfo -> ImmutableCFOptions -> MutableCFOptions -> Z ->
    option Slice -> option Slice -> list Z -> MapElementIterator ->
    list RangeStorage * Z
}.

(** The scans on an open iterator.  Each of them is a loop
    [for (iter->SeekToFirst(); iter->Valid(); iter->Next())]; the second
    one fills a heap that a further loop empties.  On an iterator without a
    valid element the bodies never run: [has_start] stays false, the heap
    stays empty, and no range is emitted.  On elements the scans are the
    parameters of [RangeBuilder]. *)
Definition scan_collapse_regions `{RangeBuilder}
           (vstorage : VersionStorageInfo) (ioptions : ImmutableCFOptions)
           (inputs_ : CompactionInputFiles) (iter : MapElementIterator)
  : option (list RangeStorage) :=
  match entries iter with
  | [] => Some []
  | _ :: _ => collapse_regions vstorage ioptions inputs_ iter
  end.

Definition scan_priority_ranges `{RangeBuilder}
           (vstorage : VersionStorageInfo) (ioptions : ImmutableCFOptions)
           (mutable_cf_options : MutableCFOptions)
           (inputs_ : CompactionInputFiles) (iter : MapElementIterator)
  : option (list RangeStorage) :=
  match entries iter with
  | [] => Some []
  | _ :: _ => priority_ranges vstorage ioptions mutable_cf_options inputs_ iter
  end.

Definition scan_sweep_ranges `{RangeBuilder}
           (vstorage : VersionStorageInfo) (ioptions : ImmutableCFOptions)
           (inputs_ : CompactionInputFiles) (iter : MapElementIterator)
  : list RangeStorage :=
  match entries iter with
  | [] => []
  | _ :: _ => sweep_ranges vstorage ioptions inputs_ iter
  end.

Definition scan_manual_ranges `{RangeBuilder}
           (vstorage : VersionStorageInfo) (ioptions : ImmutableCFOptions)
           (mutable_cf_options : MutableCFOptions) (level_ : Z)
           (begin_ end_ : option Slice) (files_being_compact : list Z)
           (iter : MapElementIterator) : list RangeStorage * Z :=
  match entries iter with
  | [] => ([], 0)
  | _ :: _ => manual_ranges vstorage ioptions mutable_cf_options level_
                            begin_ end_ files_being_compact iter
  end.

(** ** PickCompositeCompaction *)

(** The state of the loop over the sorted runs, from the bottom up:
    [inputs.level] (-1 while nothing is chosen), [inputs.files] and
    [max_read_amp]; the flag tells that the loop has left by [break].  A
    sorted run of a lower level stands for a level that has files; where
    the source would take [front()] of an empty level the run is passed
    over. *)
Definition composite_visit `{TableCache} (vstorage : VersionStorageInfo)
           (acc : Z * list FileMetaData.t * Z * bool) (sr : SortedRun.t)
  : Z * list FileMetaData.t * Z * bool :=
  let '(inputs_level, inputs_files, max_read_amp, stop) := acc in
  if stop then acc
  else if SortedRun.wait_reduce sr then acc
  else
    let candidate : option (option FileMetaData.t) :=
      (* [None]: continue; [Some None]: the whole level; [Some (Some f)] *)
      if SortedRun.level sr >? 0 then
        if negb (level_has_space_amplification vstorage (SortedRun.level sr)) then None
        else
          let level_files := LevelFiles vstorage (SortedRun.level sr) in
          if AreFilesInCompaction level_files then None
          else if (1 <? length level_files)%nat then Some None
          else match level_files with
               | f :: _ => Some (Some f)
               | [] => None
               end
      else
        match SortedRun.file sr with
        | Some f =>
            if FileMetaData.being_compacted f ||
               negb (SstPurpose_eqb (FileMetaData.sst_purpose f) kMapSst)
            then None else Some (Some f)
        | None => None
        end in
    match candidate with
    | None => acc
    | Some None => (SortedRun.level sr, [], max_read_amp, true)
    | Some (Some f) =>
        match GetTableProperties f with
        | Some level_space_amplification =>
            if level_space_amplification >=? max_read_amp
            then (SortedRun.level sr, [f], level_space_amplification, false)
            else acc
        | None => acc
        end
    end.

(** The level and the files the strategy settles on; [None] when
    [inputs.level] stays -1. *)
Definition composite_target `{TableCache} (vstorage : VersionStorageInfo)
           (sorted_runs : list SortedRun.t) : option CompactionInputFiles :=
  let '(inputs_level, inputs_files, _, _) :=
    fold_left (composite_visit vstorage) (rev sorted_runs) (-1, [], 0, false) in
  if inputs_level =? -1 then None
  else Some {| level := inputs_level; files := inputs_files |}.

(** The loop of [new_compaction] that absorbs a range into the one before
    it when their starts or their limits are equal. *)
Fixpoint absorb_ranges `{RangeBuilder} (prev : RangeStorage)
         (rest : list RangeStorage) : list RangeStorage :=
  match rest with
  | [] => [prev]
  | it :: rest' =>
      if (user_compare (start it) (start prev) =? 0) ||
         (user_compare (limit it) (limit prev) =? 0)
      then absorb_ranges {| start := start prev; limit := limit it;
                            include_start := include_start prev;
                            include_limit := include_limit it |} rest'
      else prev :: absorb_ranges it rest'
  end.

(** The lambda [new_compaction]. *)
Definition new_compaction `{RangeBuilder} (ioptions : ImmutableCFOptions)
           (mutable_cf_options : MutableCFOptions) (inputs_ : CompactionInputFiles)
           (compaction_purpose_ : SstPurpose) (max_subcompactions_ : Z)
           (input_range_ : list RangeStorage) : Compaction :=
  let input_range_ :=
    match input_range_ with
    | first :: ((_ :: _) as rest) => absorb_ranges first rest
    | _ => input_range_
    end in
  let estimated_total_size := sum_file_sizes (files inputs_) in
  let path_id := GetPathId ioptions mutable_cf_options estimated_total_size in
  {| inputs := [inputs_];
     output_level := level inputs_;
     output_path_id := Z.of_nat path_id;
     enable_compression := true;
     max_subcompactions := max_subcompactions_;
     manual_compaction := false;
     partial_compaction := true;
     compaction_purpose := compaction_purpose_;
     input_range := input_range_;
     compaction_reason := kCompositeAmplification;
     is_trivial_move := false |}.

(** The iterator the strategy opens, if it gets that far: on the single
    file it has chosen. *)
Definition composite_opened_iterator `{TableCache}
           (vstorage : VersionStorageInfo) (sorted_runs : list SortedRun.t)
  : option MapElementIterator :=
  if negb (has_space_amplification vstorage) then None
  else match composite_target vstorage sorted_runs with
       | Some {| level := l; files := f :: _ |} => Some (NewIterator f l)
       | _ => None
       end.

Definition PickCompositeCompaction `{TableCache} `{RangeBuilder}
           (ioptions : ImmutableCFOptions) (mutable_cf_options : MutableCFOptions)
           (vstorage : VersionStorageInfo) (sorted_runs : list SortedRun.t)
  : option Compaction :=
  if negb (has_space_amplification vstorage) then None
  else
    match composite_target vstorage sorted_runs with
    | None => None
    | Some inputs_ =>
        match files inputs_ with
        | [] =>
            let inputs_ := {| level := level inputs_;
                              files := LevelFiles vstorage (level inputs_) |} in
            Some (new_compaction ioptions mutable_cf_options inputs_ kMapSst 1 [])
        | front :: _ =>
            let iter := NewIterator front (level inputs_) in
            if negb (status_ok iter) then None
            else
              match scan_collapse_regions vstorage ioptions inputs_ iter with
              | None => None
              | Some (_ :: _ as input_range_) =>
                  Some (new_compaction ioptions mutable_cf_options inputs_ kLinkSst
                          (max_subcompactions_opt ioptions) input_range_)
              | Some [] =>
                  match scan_priority_ranges vstorage ioptions mutable_cf_options
                                             inputs_ iter with
                  | None => None
                  | Some (_ :: _ as input_range_) =>
                      Some (new_compaction ioptions mutable_cf_options inputs_
                              kEssenceSst (max_subcompactions_opt ioptions)
                              input_range_)
                  | Some [] =>
                      match scan_sweep_ranges vstorage ioptions inputs_ iter with
                      | _ :: _ as input_range_ =>
                          Some (new_compaction ioptions mutable_cf_options inputs_
                                  kEssenceSst (max_subcompactions_opt ioptions)
                                  input_range_)
                      | [] =>
                          if negb (level inputs_ =? 0) then
                            Some (new_compaction ioptions mutable_cf_options
                                    inputs_ kMapSst 1 [])
                          else None
                      end
                  end
              end
        end
    end.

(** ** PickRangeCompaction *)

(** The checks before the iterator is opened: [Some None] and
    [Some (Some c)] are the returns of [nullptr] and of a plan, the flag is
    the value of [*manual_conflict] afterwards; [None] lets the function go
    on to open the iterator. *)
Definition range_early_return (ioptions : ImmutableCFOptions)
           (mutable_cf_options : MutableCFOptions) (vstorage : VersionStorageInfo)
           (level_ : Z) (files_being_compact : option (list Z))
           (manual_conflict : bool) : option (option Compaction * bool) :=
  let level_files := LevelFiles vstorage level_ in
  match files_being_compact, level_files with
  | None, _ | Some [], _ | _, [] => Some (None, manual_conflict)
  | Some (_ :: _), _ :: _ =>
      if AreFilesInCompaction level_files then Some (None, true)
      else if (level_ =? 0) && (1 <? length level_files)%nat then
        let path_id := GetPathId ioptions mutable_cf_options (2 ^ 20) in
        Some (Some {| inputs := [{| level := level_; files := level_files |}];
                      output_level := level_;
                      output_path_id := Z.of_nat path_id;
                      enable_compression := true;
                      max_subcompactions := 0;
                      manual_compaction := false;
                      partial_compaction := false;
                      compaction_purpose := kMapSst;
                      input_range := [];
                      compaction_reason := kUnknown;
                      is_trivial_move := false |},
              manual_conflict)
      else None
  end.

(** The iterator the function opens, if it gets that far: over the files of
    the level. *)
Definition range_opened_iterator `{TableCache} (ioptions : ImmutableCFOptions)
           (mutable_cf_options : MutableCFOptions) (vstorage : VersionStorageInfo)
           (level_ : Z) (files_being_compact : option (list Z))
  : option MapElementIterator :=
  match range_early_return ioptions mutable_cf_options vstorage level_
                           files_being_compact false with
  | Some _ => None
  | None => Some (NewMapElementIterator (LevelFiles vstorage level_))
  end.

(** The plan, and the value of [*manual_conflict] afterwards. *)
Definition PickRangeCompaction `{TableCache} `{RangeBuilder}
           (ioptions : ImmutableCFOptions) (mutable_cf_options : MutableCFOptions)
           (vstorage : VersionStorageInfo) (level_ : Z)
           (begin_ end_ : option Slice) (files_being_compact : option (list Z))
           (manual_conflict : bool) : option Compaction * bool :=
  match range_early_return ioptions mutable_cf_options vstorage level_
                           files_being_compact manual_conflict with
  | Some r => r
  | None =>
      let level_files := LevelFiles vstorage level_ in
      let iter := NewMapElementIterator level_files in
      if negb (status_ok iter) then (None, manual_conflict)
      else
        let '(input_range_, estimated_total_size) :=
          scan_manual_ranges vstorage ioptions mutable_cf_options level_
                             begin_ end_
                             (match files_being_compact with
                              | Some l => l
                              | None => []
                              end)
                             iter in
        match input_range_ with
        | [] => (None, manual_conflict)
        | _ :: _ =>
            let path_id := GetPathId ioptions mutable_cf_options estimated_total_size in
            (Some {| inputs := [{| level := level_; files := level_files |}];
                     output_level := level_;
                     output_path_id := Z.of_nat path_id;
                     enable_compression := true;
                     max_subcompactions := 0;
                     manual_compaction := false;
                     partial_compaction := true;
                     compaction_purpose := kEssenceSst;
                     input_range := input_range_;
                     compaction_reason := kUnknown;
                     is_trivial_move := false |},
             manual_conflict)
        end
  end.

(** ** PickTrivialMoveCompaction *)

(** The lambda [is_compaction_output_level]. *)
Definition is_compaction_output_level (st : PickerState) (l : Z) : bool :=
  existsb (fun c => output_level c =? l) (compactions_in_progress_ st).

Definition level_is_empty (vstorage : VersionStorageInfo) (l : Z) : bool :=
  match LevelFiles vstorage l with [] => true | _ :: _ => false end.

(** [for (; output_level >= 1; --output_level)] with a [break] at an empty
    level that no compaction in progress writes to; [n] bounds the
    iterations. *)
Fixpoint find_empty_level (vstorage : VersionStorageInfo) (st : PickerState)
         (n : nat) (output_level : Z) : Z :=
  match n with
  | O => output_level
  | S n' =>
      if output_level >=? 1 then
        if level_is_empty vstorage output_level &&
           negb (is_compaction_output_level st output_level)
        then output_level
        else find_empty_level vstorage st n' (output_level - 1)
      else output_level
  end.

(** [for (start_level = output_level - 1; start_level > 0; --start_level)];
    the result is [start_level] and [found_start_level]. *)
Fixpoint find_start_level (vstorage : VersionStorageInfo) (st : PickerState)
         (n : nat) (start_level : Z) : Z * bool :=
  match n with
  | O => (start_level, false)
  | S n' =>
      if start_level >? 0 then
        if is_compaction_output_level st start_level then (start_level, false)
        else if negb (level_is_empty vstorage start_level) then (start_level, true)
        else find_start_level vstorage st n' (start_level - 1)
      else (start_level, false)
  end.

(** The [while (true)] loop: every round lowers [output_level], so
    [fuel] rounds of the number of levels suffice; the result is
    [start_level] and [output_level], or [None] for [return nullptr]. *)
Fixpoint trivial_move_levels (fuel : nat) (vstorage : VersionStorageInfo)
         (st : PickerState) (output_level : Z) : option (Z * Z) :=
  match fuel with
  | O => None
  | S fuel' =>
      let output_level :=
        find_empty_level vstorage st (Z.to_nat output_level) output_level in
      if output_level <? 1 then None
      else
        let '(start_level, found_start_level) :=
          find_start_level vstorage st (Z.to_nat output_level) (output_level - 1) in
        if start_level =? 0 then Some (start_level, output_level)
        else if found_start_level &&
                negb (AreFilesInCompaction (LevelFiles vstorage start_level))
        then Some (start_level, output_level)
        else trivial_move_levels fuel' vstorage st (start_level - 1)
  end.

Definition PickTrivialMoveCompaction (st : PickerState)
           (ioptions : ImmutableCFOptions) (mutable_cf_options : MutableCFOptions)
           (vstorage : VersionStorageInfo) : option Compaction :=
  if negb (allow_trivial_move (compaction_options_universal mutable_cf_options))
  then None
  else
    let output_level :=
      if allow_ingest_behind ioptions then num_levels vstorage - 1 - 1
      else num_levels vstorage - 1 in
    match trivial_move_levels (S (Z.to_nat (num_levels vstorage))) vstorage st
                              output_level with
    | None => None
    | Some (start_level, output_level) =>
        let chosen : option (list FileMetaData.t) :=
          if start_level =? 0 then
            match rev (LevelFiles vstorage 0) with
            | [] => None
            | meta :: _ =>
                if FileMetaData.being_compacted meta then None else Some [meta]
            end
          else Some (LevelFiles vstorage start_level) in
        match chosen with
        | None => None
        | Some fs =>
            let path_id :=
              match fs with
              | f :: _ => FileMetaData.path_id f
              | [] => 0
              end in
            Some {| inputs := [{| level := start_level; files := fs |}];
                    output_level := output_level;
                    output_path_id := path_id;
                    enable_compression := true;
                    max_subcompactions := 0;
                    manual_compaction := false;
                    partial_compaction := false;
                    compaction_purpose := kEssenceSst;
                    input_range := [];
                    compaction_reason := kTrivialMoveLevel;
                    is_trivial_move := false |}
        end
    end.

(** ** PickCompactionToReduceSortedRuns *)

Definition set_wait_reduce (sr : SortedRun.t) : SortedRun.t :=
  {| SortedRun.level := SortedRun.level sr; SortedRun.file := SortedRun.file sr;
     SortedRun.size := SortedRun.size sr;
     SortedRun.compensated_file_size := SortedRun.compensated_file_size sr;
     SortedRun.being_compacted := SortedRun.being_compacted sr;
     SortedRun.wait_reduce := true |}.

(** [for (sr_i = g.start; sr_i < g.start + g.count; ++sr_i)]: mark the runs
    of the group and collect whether one of them is being compacted. *)
Fixpoint mark_group (n : nat) (sr_i : nat) (sorted_runs : list SortedRun.t)
         (being_compacted : bool) : list SortedRun.t * bool :=
  match n with
  | O => (sorted_runs, being_compacted)
  | S n' =>
      let being_compacted :=
        being_compacted ||
        SortedRun.being_compacted (nth sr_i sorted_runs default_run) in
      mark_group n' (S sr_i) (update_at sorted_runs sr_i set_wait_reduce)
                 being_compacted
  end.

(** The loop over the groups; [picked] is [start_index] and [end_index],
    [end_index = 0] while no group has been picked. *)
Fixpoint choose_group `{DoubleOps} (groups : list SortedRunGroup.t)
         (sorted_runs : list SortedRun.t) (picked : Z * Z)
  : list SortedRun.t * (Z * Z) :=
  match groups with
  | [] => (sorted_runs, picked)
  | g :: rest =>
      let '(sorted_runs, being_compacted) :=
        if SortedRunGroup.count g >? 1 then
          mark_group (Z.to_nat (SortedRunGroup.count g))
                     (Z.to_nat (SortedRunGroup.start g)) sorted_runs false
        else (sorted_runs, false) in
      let picked :=
        if negb (snd picked =? 0) then picked
        else if SortedRunGroup.count g =? 1 then picked
        else if being_compacted then picked
        else (SortedRunGroup.start g,
              add64 (SortedRunGroup.start g) (SortedRunGroup.count g)) in
      choose_group rest sorted_runs picked
  end.

(** The loop that copies the picked runs into [inputs]; a lower level
    overwrites the files of its slot [level - start_level].  The vector has
    one slot for every picked run, not for every level: a slot outside of
    it is a write out of the vector's bounds, for which C++ defines no
    behaviour, and the result is [None].  The slot 0 of a level-0 run
    exists, because the vector is as long as the runs picked. *)
Fixpoint pick_group_runs (vstorage : VersionStorageInfo) (start_level : Z)
         (picked : list SortedRun.t) (inputs : list CompactionInputFiles)
  : option (list CompactionInputFiles) :=
  match picked with
  | [] => Some inputs
  | picking_sr :: rest =>
      if SortedRun.level picking_sr =? 0 then
        pick_group_runs vstorage start_level rest
          match SortedRun.file picking_sr with
          | Some f => push_files inputs 0 [f]
          | None => inputs
          end
      else
        let slot := SortedRun.level picking_sr - start_level in
        if (0 <=? slot) && (slot <? Z.of_nat (length inputs)) then
          pick_group_runs vstorage start_level rest
            (update_at inputs (Z.to_nat slot)
               (fun lv => {| level := level lv;
                             files := LevelFiles vstorage
                                        (SortedRun.level picking_sr) |}))
        else None
  end.

(** The plan, and [sorted_runs] with the [wait_reduce] marks the function
    leaves on its argument; [None] when the copy of the picked runs writes
    out of the bounds of [inputs]. *)
Definition PickCompactionToReduceSortedRuns `{MathLib}
           (ioptions : ImmutableCFOptions) (mutable_cf_options : MutableCFOptions)
           (vstorage : VersionStorageInfo) (sorted_runs : list SortedRun.t)
           (reduce_sorted_run_target : Z)
  : option (option Compaction * list SortedRun.t) :=
  let reduce_sorted_run_target :=
    if reduce_sorted_run_target =? 0 then Z.of_nat (length sorted_runs)
    else reduce_sorted_run_target in
  let base_size := of_uint64 (write_buffer_size mutable_cf_options) in
  let sorted_run_ratio :=
    map (fun sr => ddiv (of_uint64 (SortedRun.size sr)) base_size) sorted_runs in
  let '(common_ratio, group) :=
    GenSortedRunGroup sorted_run_ratio (Z.to_nat reduce_sorted_run_target) in
  let '(sorted_runs, (start_index, end_index)) :=
    choose_group group sorted_runs (0, 0) in
  if end_index =? 0 then Some (None, sorted_runs)
  else
    let start_index := Z.to_nat start_index in
    let end_index := Z.to_nat end_index in
    let enable_compression :=
      enable_compression_after mutable_cf_options sorted_runs end_index in
    let picked := firstn (end_index - start_index) (skipn start_index sorted_runs) in
    let estimated_total_size := sum_sizes picked in
    let path_id := GetPathId ioptions mutable_cf_options estimated_total_size in
    let start_level := SortedRun.level (nth start_index sorted_runs default_run) in
    let output_level := output_level_after ioptions vstorage sorted_runs end_index in
    match pick_group_runs vstorage start_level picked
                          (init_inputs (end_index - start_index) start_level) with
    | None => None
    | Some inputs_ =>
        Some (Some {| inputs := inputs_;
                      output_level := output_level;
                      output_path_id := Z.of_nat path_id;
                      enable_compression := enable_compression;
                      max_subcompactions := 1;
                      manual_compaction := false;
                      partial_compaction := false;
                      compaction_purpose := kMapSst;
                      input_range := [];
                      compaction_reason := kUniversalSortedRunNum;
                      is_trivial_move := false |},
              sorted_runs)
    end.

(** ** CalculateSortedRuns *)

(** [GetFilesSize]: the size of a file and, for a map or link SST, of the
    files it depends on, to any depth.  The recursion follows the
    dependencies of the version and does not end on a cycle; [fuel] bounds
    its depth and [None] reports that it ran out. *)
Fixpoint GetFilesSize (fuel : nat) (f : option FileMetaData.t) (file_number : Z)
         (vstorage : VersionStorageInfo) : option Z :=
  match fuel with
  | O => None
  | S fuel' =>
      let found :=
        match f with
        | Some f => Some f
        | None => depend_files vstorage file_number
        end in
      match found with
      | None => Some 0
      | Some f =>
          if negb (SstPurpose_eqb (FileMetaData.sst_purpose f) kEssenceSst) then
            fold_left
              (fun acc depend =>
                 match acc, GetFilesSize fuel' None depend vstorage with
                 | Some file_size, Some s => Some (add64 file_size s)
                 | _, _ => None
                 end)
              (FileMetaData.sst_depend f) (Some (FileMetaData.file_size f))
          else Some (FileMetaData.file_size f)
      end
  end.

(** The sorted runs of level 0: one per file. *)
Fixpoint level0_runs (fuel : nat) (vstorage : VersionStorageInfo)
         (level0 : list FileMetaData.t) : option (list SortedRun.t) :=
  match level0 with
  | [] => Some []
  | f :: rest =>
      match GetFilesSize fuel (Some f) SIZE_MAX vstorage,
            level0_runs fuel vstorage rest with
      | Some size, Some runs =>
          Some ({| SortedRun.level := 0; SortedRun.file := Some f;
                   SortedRun.size := size;
                   SortedRun.compensated_file_size :=
                     FileMetaData.compensated_file_size f;
                   SortedRun.being_compacted := FileMetaData.being_compacted f;
                   SortedRun.wait_reduce := false |} :: runs)
      | _, _ => None
      end
  end.

(** The loop over the files of a lower level: the totals, [being_compacted]
    and [is_first]. *)
Fixpoint level_totals (fuel : nat) (vstorage : VersionStorageInfo)
         (allow_trivial_move_ : bool) (fs : list FileMetaData.t)
         (total_compensated_size total_size : Z) (being_compacted is_first : bool)
  : option (Z * Z * bool) :=
  match fs with
  | [] => Some (total_compensated_size, total_size, being_compacted)
  | f :: rest =>
      match GetFilesSize fuel (Some f) SIZE_MAX vstorage with
      | None => None
      | Some s =>
          let being_compacted :=
            if allow_trivial_move_ && FileMetaData.being_compacted f then true
            else being_compacted in
          let being_compacted :=
            if is_first then FileMetaData.being_compacted f else being_compacted in
          level_totals fuel vstorage allow_trivial_move_ rest
            (add64 total_compensated_size (FileMetaData.compensated_file_size f))
            (add64 total_size s) being_compacted false
      end
  end.

(** The sorted runs of the levels [level, level + 1, ...]: one per level
    with a positive compensated size. *)
Fixpoint lower_level_runs (fuel : nat) (vstorage : VersionStorageInfo)
         (allow_trivial_move_ : bool) (levels : list (list FileMetaData.t))
         (level_ : Z) : option (list SortedRun.t) :=
  match levels with
  | [] => Some []
  | fs :: rest =>
      match level_totals fuel vstorage allow_trivial_move_ fs 0 0 false true,
            lower_level_runs fuel vstorage allow_trivial_move_ rest (level_ + 1) with
      | Some (total_compensated_size, total_size, being_compacted), Some runs =>
          if total_compensated_size >? 0 then
            Some ({| SortedRun.level := level_; SortedRun.file := None;
                     SortedRun.size := total_size;
                     SortedRun.compensated_file_size := total_compensated_size;
                     SortedRun.being_compacted := being_compacted;
                     SortedRun.wait_reduce := false |} :: runs)
          else Some runs
      | _, _ => None
      end
  end.

Definition CalculateSortedRuns (fuel : nat) (vstorage : VersionStorageInfo)
           (mutable_cf_options : MutableCFOptions) : option (list SortedRun.t) :=
  match level0_runs fuel vstorage (LevelFiles vstorage 0),
        lower_level_runs fuel vstorage
          (allow_trivial_move (compaction_options_universal mutable_cf_options))
          (tl (files_ vstorage)) 1 with
  | Some l0, Some lower => Some (l0 ++ lower)
  | _, _ => None
  end.

(** ** PickCompaction *)

(** The loop of the lazy path that adds up the read amplification of the
    map SSTs; the flag tells that it has left by [break]. *)
Definition read_amp_visit `{TableCache} (vstorage : VersionStorageInfo)
           (acc : Z * bool) (sr : SortedRun.t) : Z * bool :=
  let '(level_read_amp_count, stop) := acc in
  if stop then acc
  else
    let candidate : option (option FileMetaData.t) :=
      if SortedRun.level sr >? 0 then
        if negb (level_has_space_amplification vstorage (SortedRun.level sr)) then None
        else
          let level_files := LevelFiles vstorage (SortedRun.level sr) in
          if (1 <? length level_files)%nat then Some None
          else match level_files with
               | f :: _ => Some (Some f)
               | [] => None
               end
      else
        match SortedRun.file sr with
        | Some f =>
            if negb (SstPurpose_eqb (FileMetaData.sst_purpose f) kMapSst)
            then None else Some (Some f)
        | None => None
        end in
    match candidate with
    | None => acc
    | Some None => (level_read_amp_count, true)
    | Some (Some f) =>
        match GetTableProperties f with
        | Some read_amp =>
            if read_amp >? 1 then (add64 level_read_amp_count read_amp, false)
            else acc
        | None => acc
        end
    end.

(** The target of the lazy path and the plan of a trivial move, if one is
    picked. *)
Definition lazy_target (table_cache_ : option TableCache) (st : PickerState)
           (ioptions : ImmutableCFOptions) (mutable_cf_options : MutableCFOptions)
           (vstorage : VersionStorageInfo) (sorted_runs : list SortedRun.t)
  : option Compaction * Z :=
  let trigger := level0_file_num_compaction_trigger mutable_cf_options in
  let size := Z.of_nat (length sorted_runs) in
  let has_map_compaction :=
    existsb (fun cip => SstPurpose_eqb (compaction_purpose cip) kMapSst)
            (compactions_in_progress_ st) in
  let reduce_sorted_run_target := wrap64 (trigger + num_levels_opt ioptions - 1) in
  if has_map_compaction then (None, SIZE_MAX)
  else
    match PickTrivialMoveCompaction st ioptions mutable_cf_options vstorage with
    | Some c => (Some c, SIZE_MAX)
    | None =>
        match table_cache_ with
        | Some cache =>
            if (size >? 1) && (size <=? reduce_sorted_run_target) then
              let '(level_read_amp_count, stop) :=
                fold_left (@read_amp_visit cache vstorage) sorted_runs (0, false) in
              let reduce_sorted_run_target :=
                if stop then SIZE_MAX else reduce_sorted_run_target in
              if level_read_amp_count <? reduce_sorted_run_target
              then (None, Z.max (wrap64 trigger) (wrap64 (size - 1)))
              else (None, reduce_sorted_run_target)
            else (None, reduce_sorted_run_target)
        | None => (None, reduce_sorted_run_target)
        end
    end.

(** The strategies of the block entered on space amplification or on
    enough sorted runs: the plan, and the sorted runs as the strategies
    leave them; [None] where the grouping strategy has no defined result. *)
Definition pick_by_size `{MathLib}
           (table_cache_ : option TableCache) (st : PickerState)
           (ioptions : ImmutableCFOptions) (mutable_cf_options : MutableCFOptions)
           (vstorage : VersionStorageInfo) (sorted_runs : list SortedRun.t)
  : option (option Compaction * list SortedRun.t) :=
  let trigger := level0_file_num_compaction_trigger mutable_cf_options in
  if enable_lazy_compaction mutable_cf_options then
    let '(c, reduce_sorted_run_target) :=
      lazy_target table_cache_ st ioptions mutable_cf_options vstorage sorted_runs in
    if Z.of_nat (length sorted_runs) >? reduce_sorted_run_target then
      PickCompactionToReduceSortedRuns ioptions mutable_cf_options vstorage
                                       sorted_runs reduce_sorted_run_target
    else Some (c, sorted_runs)
  else
    match PickCompactionToReduceSizeAmp ioptions mutable_cf_options vstorage
                                        sorted_runs with
    | Some c => Some (Some c, sorted_runs)
    | None =>
        let ratio := size_ratio (compaction_options_universal mutable_cf_options) in
        match PickCompactionToReduceSortedRunsOld ioptions mutable_cf_options
                vstorage ratio UINT_MAX sorted_runs with
        | Some c => Some (Some c, sorted_runs)
        | None =>
            let num_sr_not_compacted :=
              Z.of_nat (length (filter (fun sr => negb (SortedRun.being_compacted sr))
                                       sorted_runs)) in
            if num_sr_not_compacted >? trigger then
              let num_files := wrap32 (num_sr_not_compacted - trigger + 1) in
              Some (PickCompactionToReduceSortedRunsOld ioptions mutable_cf_options
                      vstorage UINT_MAX num_files sorted_runs,
                    sorted_runs)
            else Some (None, sorted_runs)
        end
    end.

Definition set_is_trivial_move (c : Compaction) (b : bool) : Compaction :=
  {| inputs := inputs c;
     output_level := output_level c;
     output_path_id := output_path_id c;
     enable_compression := enable_compression c;
     max_subcompactions := max_subcompactions c;
     manual_compaction := manual_compaction c;
     partial_compaction := partial_compaction c;
     compaction_purpose := compaction_purpose c;
     input_range := input_range c;
     compaction_reason := compaction_reason c;
     is_trivial_move := b |}.

Definition CompactionReason_eqb (a b : CompactionReason) : bool :=
  match a, b with
  | kUnknown, kUnknown
  | kUniversalSizeAmplification, kUniversalSizeAmplification
  | kUniversalSizeRatio, kUniversalSizeRatio
  | kUniversalSortedRunNum, kUniversalSortedRunNum
  | kFilesMarkedForCompaction, kFilesMarkedForCompaction
  | kTrivialMoveLevel, kTrivialMoveLevel
  | kCompositeAmplification, kCompositeAmplification => true
  | _, _ => false
  end.

(** The strategies in their order: the plan picked, if any; the outer
    [None] where the grouping strategy has no defined result. *)
Definition pick_plan `{CompactionPickerBase} `{MathLib} `{RangeBuilder}
           (table_cache_ : option TableCache) (st : PickerState)
           (ioptions : ImmutableCFOptions) (mutable_cf_options : MutableCFOptions)
           (vstorage : VersionStorageInfo) (sorted_runs : list SortedRun.t)
  : option (option Compaction) :=
  let trigger := level0_file_num_compaction_trigger mutable_cf_options in
  let size := Z.of_nat (length sorted_runs) in
  if (size =? 0) ||
     (match FilesMarkedForCompaction vstorage with [] => true | _ :: _ => false end &&
      negb (has_space_amplification vstorage) &&
      (size <? wrap32 trigger))
  then Some None
  else
    match
      if has_space_amplification vstorage || (size >=? wrap64 trigger) then
        pick_by_size table_cache_ st ioptions mutable_cf_options vstorage sorted_runs
      else Some (None, sorted_runs)
    with
    | None => None
    | Some (c, sorted_runs) =>
        let c :=
          match c, table_cache_ with
          | None, Some cache =>
              @PickCompositeCompaction cache _ ioptions mutable_cf_options vstorage
                                       sorted_runs
          | _, _ => c
          end in
        Some match c with
             | None => PickDeleteTriggeredCompaction st ioptions mutable_cf_options
                                                     vstorage
             | Some _ => c
             end
    end.

(** The marking of a plan as a trivial move, after the strategies. *)
Definition mark_trivial_move `{InternalKeyComparator}
           (mutable_cf_options : MutableCFOptions) (vstorage : VersionStorageInfo)
           (c : Compaction) : Compaction :=
  let allow_trivial_move_ :=
    allow_trivial_move (compaction_options_universal mutable_cf_options) in
  let allow_trivial_move_ :=
    if negb (CompactionReason_eqb (compaction_reason c) kTrivialMoveLevel) &&
       allow_trivial_move_
    then negb (existsb (fun level_files =>
                          level_has_space_amplification vstorage (level level_files))
                       (inputs c))
    else allow_trivial_move_ in
  if allow_trivial_move_ then set_is_trivial_move c (IsInputFilesNonOverlapping c)
  else c.

(** [PickCompaction]: the plan, the picker's state and the version
    afterwards.  The outer [None] reports that [fuel] did not suffice for
    the sizes of the sorted runs, or that the grouping strategy wrote out
    of the bounds of its [inputs]. *)
Definition PickCompaction `{CompactionPickerBase} `{MathLib} `{RangeBuilder}
           `{InternalKeyComparator}
           (fuel : nat) (table_cache_ : option TableCache) (st : PickerState)
           (ioptions : ImmutableCFOptions) (mutable_cf_options : MutableCFOptions)
           (vstorage : VersionStorageInfo)
  : option (option Compaction * PickerState * VersionStorageInfo) :=
  match CalculateSortedRuns fuel vstorage mutable_cf_options with
  | None => None
  | Some sorted_runs =>
      match pick_plan table_cache_ st ioptions mutable_cf_options vstorage
                      sorted_runs with
      | None => None
      | Some None => Some (None, st, vstorage)
      | Some (Some c) =>
          let c := mark_trivial_move mutable_cf_options vstorage c in
          Some (Some c, RegisterCompaction st c,
                ComputeCompactionScore vstorage ioptions mutable_cf_options)
      end
  end.

(** A table cache whose iterators report an error, and one map SST in
    level 0 of a version with space amplification. *)
Definition failing_cache : TableCache :=
  {| GetTableProperties := fun _ => Some 2;
     NewIterator := fun _ _ =>
       {| status_ok := false; entries := []; end_status_ok := false |};
     NewMapElementIterator := fun _ =>
       {| status_ok := false; entries := []; end_status_ok := false |} |}.

(** A range builder that finds no range. *)
Definition no_ranges : RangeBuilder :=
  {| user_compare := @Compare BytewiseComparator;
     collapse_regions := fun _ _ _ _ => Some [];
     priority_ranges := fun _ _ _ _ _ => Some [];
     sweep_ranges := fun _ _ _ _ => [];
     manual_ranges := fun _ _ _ _ _ _ _ _ => ([], 0) |}.

Definition map_file : FileMetaData.t :=
  {| FileMetaData.number := 7; FileMetaData.path_id := 0;
     FileMetaData.file_size := 10; FileMetaData.compensated_file_size := 10;
     FileMetaData.smallest := "a"%string; FileMetaData.largest := "z"%string;
     FileMetaData.smallest_seqno := 1; FileMetaData.largest_seqno := 9;
     FileMetaData.being_compacted := false;
     FileMetaData.marked_for_compaction := false;
     FileMetaData.sst_purpose := kMapSst;
     FileMetaData.sst_depend := [] |}.

Definition map_vstorage : VersionStorageInfo :=
  {| files_ := [[map_file]; [map_file]];
     FilesMarkedForCompaction := [];
     has_space_amplification := true;
     level_has_space_amplification := fun _ => true;
     depend_files := fun _ => None |}.

Definition map_runs : list SortedRun.t := [run_of_file map_file].

(** A single-level engine: the newest file is marked for compaction, the
    two older files are inputs of a compaction in progress. *)
Definition racing_files : list FileMetaData.t :=
  [mk_file 3 10 false true; mk_file 2 10 true false; mk_file 1 10 true false].

Definition racing_vstorage : VersionStorageInfo :=
  mk_vstorage [racing_files] [(0, mk_file 3 10 false true)].

(** Seven empty levels. *)
Definition empty_vstorage : VersionStorageInfo :=
  mk_vstorage [[]; []; []; []; []; []; []] [].

(** The same condition read leniently: only the runs from the first one
    that is not under compaction on must be free of compaction, and
    [candidate_size] is still the sum over every run but the bottommost. *)
Definition size_amp_claimed_lenient (sorted_runs : list SortedRun.t) (ratio : Z)
  : Prop :=
  SortedRun.being_compacted (back sorted_runs) = false /\
  (exists skipped rest : list SortedRun.t,
      removelast sorted_runs = skipped ++ rest /\
      (forall sr, In sr skipped -> SortedRun.being_compacted sr = true) /\
      (forall sr, In sr rest -> SortedRun.being_compacted sr = false)) /\
  sum_compensated (removelast sorted_runs) * 100 >=
  ratio * SortedRun.size (back sorted_runs).

(** Three level-0 files: a large newest one under compaction, a small one
    and a bottommost one of size 100. *)
Definition skipped_files : list FileMetaData.t :=
  [mk_file 3 1000 true false; mk_file 2 1 false false; mk_file 1 100 false false].

Definition skipped_runs : list SortedRun.t := map run_of_file skipped_files.

Definition skipped_vstorage : VersionStorageInfo := mk_vstorage [skipped_files] [].

(** The files an element of the heap stands for: outside level 0 the files
    of its level from its index on, in level 0 the file alone. *)
Definition info_rest (c : Compaction) (e : InputFileInfo.t) : list FileMetaData.t :=
  if negb (c_level c (InputFileInfo.level e) =? 0)
  then skipn (InputFileInfo.index e) (files (input_level_at c (InputFileInfo.level e)))
  else [InputFileInfo.f e].

(** All input files of a plan, level by level. *)
Definition all_input_files (c : Compaction) : list FileMetaData.t :=
  flat_map files (inputs c).

(** In a plan of the picker only the first input level can be level 0. *)
Definition lower_inputs_nonzero (c : Compaction) : Prop :=
  forall l, l <> 0%nat -> (l < length (inputs c))%nat -> c_level c l <> 0.

(** The smallest keys do not decrease along the list. *)
Fixpoint ascending `{InternalKeyComparator} (fs : list FileMetaData.t) : Prop :=
  match fs with
  | [] => True
  | f1 :: rest =>
      match rest with
      | [] => True
      | f2 :: _ =>
          Compare (FileMetaData.smallest f1) (FileMetaData.smallest f2) <= 0 /\
          ascending rest
      end
  end.

(** The smallest key of a file is not above its largest key. *)
Definition files_ordered `{InternalKeyComparator} (c : Compaction) : Prop :=
  forall f, In f (all_input_files c) ->
            Compare (FileMetaData.smallest f) (FileMetaData.largest f) <= 0.

(** The comparator orders the keys: it is antisymmetric in its sign and
    transitive. *)
Class ComparatorOrder `{InternalKeyComparator} : Prop := {
  Compare_antisym : forall a b : Slice, Compare a b < 0 <-> Compare b a > 0;
  Compare_trans :
    forall a b d : Slice, Compare a b <= 0 -> Compare b d <= 0 -> Compare a d <= 0
}.

(** [x] may be what [top()] returns on a priority queue holding the
    elements [q], whatever its internal arrangement: no element precedes it. *)
Definition is_top `{InternalKeyComparator} (q : SmallestKeyHeap)
           (x : InputFileInfo.t) (q' : SmallestKeyHeap) : Prop :=
  Permutation q (x :: q') /\
  forall y, In y q' -> SmallestKeyHeapComparator x y = false.

(** The loop of [IsInputFilesNonOverlapping] over any priority queue: the
    runs it can make and their results. *)
Inductive heap_run `{InternalKeyComparator} (c : Compaction)
  : SmallestKeyHeap -> option InputFileInfo.t -> bool -> Prop :=
| heap_run_empty prev : heap_run c [] prev true
| heap_run_first q curr q' b :
    is_top q curr q' ->
    heap_run c (push_next c curr q') (Some curr) b ->
    heap_run c q None b
| heap_run_overlap q curr q' prev :
    is_top q curr q' ->
    Compare (FileMetaData.largest (InputFileInfo.f prev))
            (FileMetaData.smallest (InputFileInfo.f curr)) >= 0 ->
    heap_run c q (Some prev) false
| heap_run_next q curr q' prev b :
    is_top q curr q' ->
    Compare (FileMetaData.largest (InputFileInfo.f prev))
            (FileMetaData.smallest (InputFileInfo.f curr)) < 0 ->
    heap_run c (push_next c curr q') (Some curr) b ->
    heap_run c q (Some prev) b.

(** The files the heap stands for can be put in an order that continues
    [prev] as a chain. *)
Definition chain_exists `{InternalKeyComparator} (c : Compaction)
           (prev : option InputFileInfo.t) (q : SmallestKeyHeap) : Prop :=
  exists fs,
    Permutation fs (flat_map (info_rest c) q) /\
    strictly_chained
      (match prev with Some p => InputFileInfo.f p :: fs | None => fs end).

(** The dependencies of the version are well founded: [rank] decreases
    from a map or link SST to every file it depends on. *)
Definition depend_ranked (vstorage : VersionStorageInfo)
           (rank : FileMetaData.t -> nat) : Prop :=
  forall f n g,
    FileMetaData.sst_purpose f <> kEssenceSst ->
    In n (FileMetaData.sst_depend f) ->
    depend_files vstorage n = Some g ->
    (rank g < rank f)%nat.

(** Options that allow trivial moves, and a version of three levels that
    holds two files in level 0 and nothing below. *)
Definition trivial_move_options : MutableCFOptions :=
  {| level0_file_num_compaction_trigger := 4;
     compaction_options_universal :=
       {| size_ratio := 1; min_merge_width := 2; max_merge_width := UINT_MAX;
          max_size_amplification_percent := 200;
          compression_size_percent := -1;
          stop_style := kCompactionStopStyleTotalSize;
          allow_trivial_move := true |};
     enable_lazy_compaction := false;
     write_buffer_size := 67108864;
     max_compaction_bytes := 0 |}.

Definition fresh_vstorage : VersionStorageInfo :=
  mk_vstorage [[mk_file 2 10 false false; mk_file 1 10 false false]; []; []] [].

(** The level and the files the loop of [PickCompositeCompaction] over the
    sorted runs has settled on come from a run that is not waiting to be
    reduced, and no file among them is being compacted. *)
Definition composite_choice_ok (vstorage : VersionStorageInfo)
           (seen : list SortedRun.t) (inputs_level : Z)
           (inputs_files : list FileMetaData.t) : Prop :=
  (inputs_level = -1 /\ inputs_files = []) \/
  exists sr,
    In sr seen /\ SortedRun.level sr = inputs_level /\
    SortedRun.wait_reduce sr = false /\
    ((0 < inputs_level /\ inputs_files = [] /\
      (1 < length (LevelFiles vstorage inputs_level))%nat /\
      AreFilesInCompaction (LevelFiles vstorage inputs_level) = false) \/
     exists f,
       inputs_files = [f] /\ FileMetaData.being_compacted f = false /\
       (0 < inputs_level -> LevelFiles vstorage inputs_level = [f]) /\
       (inputs_level <= 0 ->
        SortedRun.file sr = Some f /\ FileMetaData.sst_purpose f = kMapSst)).

(** A table cache that reads well, and a version whose level 1 holds two
    map SSTs. *)
Definition reading_cache : TableCache :=
  {| GetTableProperties := fun _ => Some 2;
     NewIterator := fun _ _ =>
       {| status_ok := true; entries := []; end_status_ok := true |};
     NewMapElementIterator := fun _ =>
       {| status_ok := true; entries := []; end_status_ok := true |} |}.

Definition rebuild_vstorage : VersionStorageInfo :=
  {| files_ := [[]; [map_file; map_file]];
     FilesMarkedForCompaction := [];
     has_space_amplification := true;
     level_has_space_amplification := fun _ => true;
     depend_files := fun _ => None |}.

Definition rebuild_runs : list SortedRun.t :=
  [{| SortedRun.level := 1; SortedRun.file := None; SortedRun.size := 20;
      SortedRun.compensated_file_size := 20;
      SortedRun.being_compacted := false; SortedRun.wait_reduce := false |}].

(** No range starts where the range before it starts. *)
Fixpoint starts_differ `{RangeBuilder} (rs : list RangeStorage) : Prop :=
  match rs with
  | [] => True
  | a :: rest =>
      match rest with
      | [] => True
      | b :: _ => user_compare (start b) (start a) <> 0 /\ starts_differ rest
      end
  end.

Definition mk_range (s l : Slice) : RangeStorage :=
  {| start := s; limit := l; include_start := true; include_limit := false |}.

(** [runs'] is [runs] with [wait_reduce] set on some of the runs and
    nothing else changed. *)
Definition only_marks (runs runs' : list SortedRun.t) : Prop :=
  length runs' = length runs /\
  forall k,
    nth k runs' default_run = nth k runs default_run \/
    nth k runs' default_run = set_wait_reduce (nth k runs default_run).

(** The runs from [start_index] up to [end_index], when a group has been
    picked, are idle and marked. *)
Definition picked_ok (runs : list SortedRun.t) (picked : Z * Z) : Prop :=
  snd picked <> 0 ->
  forall k,
    (Z.to_nat (fst picked) <= k < Z.to_nat (snd picked))%nat ->
    (k < length runs)%nat ->
    SortedRun.being_compacted (nth k runs default_run) = false /\
    SortedRun.wait_reduce (nth k runs default_run) = true.

Definition group_in_range `{DoubleOps} (g : SortedRunGroup.t) : Prop :=
  0 <= SortedRunGroup.start g /\ 0 <= SortedRunGroup.count g.

(** Lazy compaction with eight level-0 files of the doubling sizes. *)
Definition lazy_options : MutableCFOptions :=
  {| level0_file_num_compaction_trigger := 4;
     compaction_options_universal :=
       {| size_ratio := 1; min_merge_width := 2; max_merge_width := UINT_MAX;
          max_size_amplification_percent := 200;
          compression_size_percent := -1;
          stop_style := kCompactionStopStyleTotalSize;
          allow_trivial_move := false |};
     enable_lazy_compaction := true;
     write_buffer_size := 1;
     max_compaction_bytes := 0 |}.

Definition doubling_files : list FileMetaData.t :=
  [mk_file 8 1 false false; mk_file 7 1 false false; mk_file 6 2 false false;
   mk_file 5 4 false false; mk_file 4 8 false false; mk_file 3 16 false false;
   mk_file 2 32 false false; mk_file 1 64 false false].

Definition doubling_runs : list SortedRun.t := map run_of_file doubling_files.

Definition doubling_vstorage : VersionStorageInfo := mk_vstorage [doubling_files] [].

(** The sorted run of a level-0 file, whatever its size. *)
Definition level0_run_of (f : FileMetaData.t) (sr : SortedRun.t) : Prop :=
  SortedRun.level sr = 0 /\ SortedRun.file sr = Some f /\
  SortedRun.compensated_file_size sr = FileMetaData.compensated_file_size f /\
  SortedRun.being_compacted sr = FileMetaData.being_compacted f /\
  SortedRun.wait_reduce sr = false.

Definition sum_file_compensated (fs : list FileMetaData.t) : Z :=
  fold_left (fun a f => add64 a (FileMetaData.compensated_file_size f)) fs 0.

(** The sorted run of a lower level with the files [fs], whatever its
    size. *)
Definition level_run_of (allow_trivial_move_ : bool) (fs : list FileMetaData.t)
           (sr : SortedRun.t) : Prop :=
  SortedRun.file sr = None /\
  SortedRun.compensated_file_size sr = sum_file_compensated fs /\
  0 < SortedRun.compensated_file_size sr /\
  SortedRun.being_compacted sr =
    (if allow_trivial_move_ then AreFilesInCompaction fs
     else match fs with
          | f :: _ => FileMetaData.being_compacted f
          | [] => false
          end) /\
  SortedRun.wait_reduce sr = false.

(** The runs of the lower levels, in ascending order of their levels from
    [lo] on. *)
Fixpoint lower_runs_from (vstorage : VersionStorageInfo) (allow_trivial_move_ : bool)
         (lo : Z) (runs : list SortedRun.t) : Prop :=
  match runs with
  | [] => True
  | sr :: rest =>
      lo <= SortedRun.level sr < num_levels vstorage /\
      level_run_of allow_trivial_move_ (LevelFiles vstorage (SortedRun.level sr)) sr /\
      lower_runs_from vstorage allow_trivial_move_ (SortedRun.level sr + 1) rest
  end.

(** A version of three levels: two files in level 0, none in level 1 and
    two in level 2, one of which is being compacted. *)
Definition mixed_vstorage : VersionStorageInfo :=
  mk_vstorage [[mk_file 4 10 false false; mk_file 3 10 false false]; [];
               [mk_file 2 100 false false; mk_file 1 100 true false]] [].

(** A map SST of 10 bytes that depends on file 5, an SST of 7 bytes, and on
    file 6, which the version does not know. *)
Definition linking_file : FileMetaData.t :=
  {| FileMetaData.number := 9; FileMetaData.path_id := 0;
     FileMetaData.file_size := 10; FileMetaData.compensated_file_size := 10;
     FileMetaData.smallest := EmptyString; FileMetaData.largest := EmptyString;
     FileMetaData.smallest_seqno := 9; FileMetaData.largest_seqno := 9;
     FileMetaData.being_compacted := false;
     FileMetaData.marked_for_compaction := false;
     FileMetaData.sst_purpose := kMapSst;
     FileMetaData.sst_depend := [5; 6] |}.

Definition linking_vstorage : VersionStorageInfo :=
  {| files_ := [[linking_file]];
     FilesMarkedForCompaction := [];
     has_space_amplification := true;
     level_has_space_amplification := fun _ => true;
     depend_files := fun n => if n =? 5 then Some (mk_file 5 7 false false) else None |}.

(** ** GetSmallestLargestSeqno *)

(** The loop of [GetSmallestLargestSeqno] (a helper of the debug build)
    over the files; the two sequence numbers are the out-parameters. *)
Fixpoint seqno_loop (files : list FileMetaData.t) (is_first : bool)
         (smallest_seqno largest_seqno : Z) : Z * Z :=
  match files with
  | [] => (smallest_seqno, largest_seqno)
  | f :: rest =>
      if is_first then
        seqno_loop rest false (FileMetaData.smallest_seqno f)
                   (FileMetaData.largest_seqno f)
      else
        let smallest_seqno :=
          if FileMetaData.smallest_seqno f <? smallest_seqno
          then FileMetaData.smallest_seqno f else smallest_seqno in
        let largest_seqno :=
          if FileMetaData.largest_seqno f >? largest_seqno
          then FileMetaData.largest_seqno f else largest_seqno in
        seqno_loop rest false smallest_seqno largest_seqno
  end.

Definition GetSmallestLargestSeqno (files : list FileMetaData.t)
           (smallest_seqno largest_seqno : Z) : Z * Z :=
  seqno_loop files true smallest_seqno largest_seqno.

(** ** CompactRange *)

(** [CompactionPicker::CompactRange] of the base class, whose body is in
    another file: the plan, the picker's state, [*manual_conflict] and
    [*compaction_end] afterwards. *)
Class BaseCompactRange := {
  CompactionPicker_CompactRange :
    PickerState -> MutableCFOptions -> VersionStorageInfo ->
    Z -> Z -> Z -> Z -> option Slice -> option Slice -> option Slice -> bool ->
    option (list Z) -> bool ->
    option Compaction * PickerState * bool * option Slice
}.

(** [files_being_compact->count(n) > 0]; the function reads the set
    without testing the pointer, an absent set is taken as empty. *)
Definition being_compact (files_being_compact : option (list Z)) (n : Z) : bool :=
  match files_being_compact with
  | Some l => existsb (Z.eqb n) l
  | None => false
  end.

(** The lambda [hit_sst]: the file, a file it depends on, or a file one of
    those depends on is among the files to compact. *)
Definition hit_sst (vstorage : VersionStorageInfo)
           (files_being_compact : option (list Z)) (f : FileMetaData.t) : bool :=
  being_compact files_being_compact (FileMetaData.number f) ||
  existsb (fun file_number =>
             being_compact files_being_compact file_number ||
             match depend_files vstorage file_number with
             | None => false
             | Some g => existsb (being_compact files_being_compact)
                                 (FileMetaData.sst_depend g)
             end)
          (FileMetaData.sst_depend f).

(** The loop over the levels [level, level + 1, ...] that counts the levels
    holding a file that is hit and keeps the last of them. *)
Fixpoint count_hit_levels (vstorage : VersionStorageInfo)
         (files_being_compact : option (list Z))
         (levels : list (list FileMetaData.t)) (level_ : Z)
         (hit_count : Z) (new_input_level : Z) : Z * Z :=
  match levels with
  | [] => (hit_count, new_input_level)
  | fs :: rest =>
      if existsb (hit_sst vstorage files_being_compact) fs
      then count_hit_levels vstorage files_being_compact rest (level_ + 1)
                            (add64 hit_count 1) level_
      else count_hit_levels vstorage files_being_compact rest (level_ + 1)
                            hit_count new_input_level
  end.

(** [for (; start_level < num_levels && NumLevelFiles(start_level) == 0;
    start_level++)]. *)
Fixpoint first_nonempty_level (levels : list (list FileMetaData.t))
         (start_level : Z) : Z :=
  match levels with
  | [] => start_level
  | fs :: rest =>
      match fs with
      | [] => first_nonempty_level rest (start_level + 1)
      | _ :: _ => start_level
      end
  end.

(** The loop that copies the levels [level, level + 1, ...] into [inputs];
    [None] when a level holds a file that is being compacted. *)
Fixpoint all_level_inputs (levels : list (list FileMetaData.t)) (level_ : Z)
  : option (list CompactionInputFiles) :=
  match levels with
  | [] => Some []
  | fs :: rest =>
      if AreFilesInCompaction fs then None
      else match all_level_inputs rest (level_ + 1) with
           | Some inputs => Some ({| level := level_; files := fs |} :: inputs)
           | None => None
           end
  end.

Section CompactRange.
Context `{CompactionPickerBase} `{BaseCompactRange} `{TableCache} `{RangeBuilder}.

(** [ColumnFamilyData::kCompactAllLevels], a constant of another file. *)
Variable kCompactAllLevels : Z.

(** The branch for [input_level == kCompactAllLevels]: every file of the
    version, from the first level that has files to the last level. *)
Definition compact_all_levels (st : PickerState)
           (vstorage : VersionStorageInfo)
           (output_level_ output_path_id_ max_subcompactions_ : Z)
           (compaction_end : option Slice) (manual_conflict : bool)
           (enable_lazy_compaction_ : bool)
  : option Compaction * PickerState * bool * option Slice :=
  let start_level := first_nonempty_level (files_ vstorage) 0 in
  if start_level =? num_levels vstorage
  then (None, st, manual_conflict, compaction_end)
  else if (start_level =? 0) &&
          negb (match level0_compactions_in_progress_ st with
                | [] => true
                | _ :: _ => false
                end)
  then (None, st, true, compaction_end)
  else
    match all_level_inputs (skipn (Z.to_nat start_level) (files_ vstorage))
                           start_level with
    | None => (None, st, true, compaction_end)
    | Some inputs_ =>
        if FilesRangeOverlapWithCompaction st inputs_ output_level_
        then (None, st, true, compaction_end)
        else
          let c := {| inputs := inputs_;
                      output_level := output_level_;
                      output_path_id := output_path_id_;
                      enable_compression := true;
                      max_subcompactions :=
                        if enable_lazy_compaction_ then 1 else max_subcompactions_;
                      manual_compaction := true;
                      partial_compaction := false;
                      compaction_purpose :=
                        if enable_lazy_compaction_ then kMapSst else kEssenceSst;
                      input_range := [];
                      compaction_reason := kUnknown;
                      is_trivial_move := false |} in
          (Some c, RegisterCompaction st c, manual_conflict,
           if enable_lazy_compaction_ then compaction_end else None)
    end.

(** [CompactRange]: the plan, the picker's state, [*manual_conflict] and
    [*compaction_end] afterwards. *)
Definition CompactRange (st : PickerState) (ioptions : ImmutableCFOptions)
           (mutable_cf_options : MutableCFOptions) (vstorage : VersionStorageInfo)
           (input_level output_level_ output_path_id_ max_subcompactions_ : Z)
           (begin_ end_ : option Slice)
           (compaction_end : option Slice) (manual_conflict : bool)
           (files_being_compact : option (list Z))
           (enable_lazy_compaction_ : bool)
  : option Compaction * PickerState * bool * option Slice :=
  let narrowed : option Z :=
    (* [None]: return nullptr; [Some l]: go on with input level [l] *)
    if (input_level =? kCompactAllLevels) && enable_lazy_compaction_ then
      let '(hit_count, new_input_level) :=
        count_hit_levels vstorage files_being_compact (files_ vstorage) 0 0 (-1) in
      if hit_count =? 0 then None
      else if hit_count =? 1 then Some new_input_level
      else Some input_level
    else Some input_level in
  match narrowed with
  | None => (None, st, manual_conflict, compaction_end)
  | Some input_level =>
      if input_level =? kCompactAllLevels then
        compact_all_levels st vstorage output_level_ output_path_id_
                           max_subcompactions_ compaction_end manual_conflict
                           enable_lazy_compaction_
      else if negb enable_lazy_compaction_ then
        CompactionPicker_CompactRange st mutable_cf_options vstorage input_level
          output_level_ output_path_id_ max_subcompactions_ begin_ end_
          compaction_end manual_conflict files_being_compact
          enable_lazy_compaction_
      else
        let '(c, manual_conflict) :=
          PickRangeCompaction ioptions mutable_cf_options vstorage input_level
                              begin_ end_ files_being_compact manual_conflict in
        (c, st, manual_conflict, compaction_end)
  end.

End CompactRange.

(** A base [CompactRange] that declines, for the scenarios that do not
    reach it. *)
Definition declining_range : BaseCompactRange :=
  {| CompactionPicker_CompactRange :=
       fun st _ _ _ _ _ _ _ _ compaction_end manual_conflict _ _ =>
         (None, st, manual_conflict, compaction_end) |}.

(** The manual compaction of all levels of [fresh_vstorage] into level 2. *)
Definition fresh_plan : Compaction :=
  {| inputs := [{| level := 0;
                   files := [mk_file 2 10 false false; mk_file 1 10 false false] |};
                {| level := 1; files := [] |}; {| level := 2; files := [] |}];
     output_level := 2; output_path_id := 0; enable_compression := true;
     max_subcompactions := 0; manual_compaction := true;
     partial_compaction := false; compaction_purpose := kEssenceSst;
     input_range := []; compaction_reason := kUnknown; is_trivial_move := false |}.

(** The [being_compacted] flag of a sorted run speaks for its files: when
    it is not set, no file of the run is being compacted. *)
Definition run_flag_sound (vstorage : VersionStorageInfo) (sr : SortedRun.t) : Prop :=
  SortedRun.being_compacted sr = false ->
  (SortedRun.level sr = 0 ->
   forall f, SortedRun.file sr = Some f -> FileMetaData.being_compacted f = false) /\
  (SortedRun.level sr <> 0 ->
   forall f, In f (LevelFiles vstorage (SortedRun.level sr)) ->
             FileMetaData.being_compacted f = false).

(** The files of a lower level share their [being_compacted] value: the
    assumption the source states where it builds the sorted runs without
    [allow_trivial_move]. *)
Definition levels_uniform (vstorage : VersionStorageInfo) : Prop :=
  forall l f g,
    1 <= l -> In f (LevelFiles vstorage l) -> In g (LevelFiles vstorage l) ->
    FileMetaData.being_compacted f = FileMetaData.being_compacted g.

(** A version whose two newest level-0 files are small and whose level 2
    holds a large file. *)
Definition amplified_vstorage : VersionStorageInfo :=
  mk_vstorage [[mk_file 3 1000 false false; mk_file 2 1000 false false]; [];
               [mk_file 1 1 false false]] [].

(** A base picker for the multi-level delete-triggered path: it takes the
    first file marked for compaction, leaves the level-0 inputs as they are
    and adds every file of the output level. *)
Definition marking_base : CompactionPickerBase :=
  {| PickFilesMarkedForCompaction := fun _ vstorage =>
       match FilesMarkedForCompaction vstorage with
       | [] => (0, {| level := 0; files := [] |})
       | (l, f) :: _ => (l, {| level := l; files := [f] |})
       end;
     GetOverlappingL0Files := fun _ _ start_level_inputs _ => Some start_level_inputs;
     SetupOtherInputs := fun _ _ vstorage start_level_inputs output_level_inputs =>
       Some (start_level_inputs,
             {| level := level output_level_inputs;
                files := LevelFiles vstorage (level output_level_inputs) |});
     FilesRangeOverlapWithCompaction := fun _ _ _ => false;
     RegisterCompaction := fun st c =>
       {| compactions_in_progress_ := c :: compactions_in_progress_ st;
          level0_compactions_in_progress_ := level0_compactions_in_progress_ st |};
     ComputeCompactionScore := fun v _ _ => v |}.

(** Four levels: a marked file in level 1, nothing in level 2 and one file
    in level 3. *)
Definition tombstone_vstorage : VersionStorageInfo :=
  mk_vstorage [[mk_file 3 10 false false]; [mk_file 2 10 false true]; [];
               [mk_file 1 100 false false]]
              [(1, mk_file 2 10 false true)].

(** ** The picker's state handed through the base picker *)

(** The helpers of the base picker are members of the picker, and their
    bodies are in another file: as far as this file tells, they may write
    [compactions_in_progress_] and [level0_compactions_in_progress_] as well
    as read them.  In this module each helper returns the state it leaves
    together with its result, and the functions that call helpers hand the
    state on from one call to the next, in the order of the calls of the
    source.  The strategies that call no helper are those of above. *)
Module Stateful.

Class CompactionPickerBase := {
  (* sets [start_level] and [start_level_inputs] *)
  PickFilesMarkedForCompaction :
    PickerState -> VersionStorageInfo -> Z * CompactionInputFiles * PickerState;
  GetOverlappingL0Files :
    PickerState -> VersionStorageInfo -> CompactionInputFiles -> Z ->
    option CompactionInputFiles * PickerState;
  (* updates [inputs] and [output_level_inputs] *)
  SetupOtherInputs :
    PickerState -> MutableCFOptions -> VersionStorageInfo ->
    CompactionInputFiles -> CompactionInputFiles ->
    option (CompactionInputFiles * CompactionInputFiles) * PickerState;
  FilesRangeOverlapWithCompaction :
    PickerState -> list CompactionInputFiles -> Z -> bool * PickerState;
  RegisterCompaction : PickerState -> Compaction -> PickerState;
  ComputeCompactionScore :
    VersionStorageInfo -> ImmutableCFOptions -> MutableCFOptions ->
    VersionStorageInfo
}.

(** The inputs and the output level chosen by the two branches of
    [PickDeleteTriggeredCompaction], [None] where the source returns
    [nullptr], and the state the helpers leave. *)
Definition delete_triggered_inputs `{CompactionPickerBase}
           (st : PickerState) (ioptions : ImmutableCFOptions)
           (mutable_cf_options : MutableCFOptions) (vstorage : VersionStorageInfo)
  : option (list CompactionInputFiles * Z) * PickerState :=
  if num_levels vstorage =? 1 then
    let start_level_inputs :=
      {| level := 0; files := delete_triggered_scan (LevelFiles vstorage 0) false |} in
    if (length (files start_level_inputs) <=? 1)%nat then (None, st)
    else (Some ([start_level_inputs], 0), st)
  else
    let '(start_level, start_level_inputs, st) :=
      PickFilesMarkedForCompaction st vstorage in
    match files start_level_inputs with
    | [] => (None, st)
    | _ :: _ =>
      let output_level :=
        next_nonempty_level vstorage
          (Z.to_nat (num_levels vstorage - (start_level + 1))) (start_level + 1) in
      let output_level' :=
        if output_level =? num_levels vstorage then
          if start_level =? 0 then Some (num_levels vstorage - 1) else None
        else Some output_level in
      match output_level' with
      | None => (None, st)
      | Some output_level =>
        let output_level :=
          if allow_ingest_behind ioptions && (output_level =? num_levels vstorage - 1)
          then output_level - 1 else output_level in
        if negb (output_level =? 0) then
          let '(expanded, st) :=
            if start_level =? 0
            then GetOverlappingL0Files st vstorage start_level_inputs output_level
            else (Some start_level_inputs, st) in
          match expanded with
          | None => (None, st)
          | Some start_level_inputs =>
            let '(other, st) :=
              SetupOtherInputs st mutable_cf_options vstorage start_level_inputs
                               {| level := output_level; files := [] |} in
            match other with
            | None => (None, st)
            | Some (start_level_inputs, output_level_inputs) =>
              let inputs :=
                start_level_inputs ::
                match files output_level_inputs with
                | [] => []
                | _ :: _ => [output_level_inputs]
                end in
              let '(overlap, st) :=
                FilesRangeOverlapWithCompaction st inputs output_level in
              if overlap then (None, st) else (Some (inputs, output_level), st)
            end
          end
        else (Some ([start_level_inputs], output_level), st)
      end
    end.

Definition PickDeleteTriggeredCompaction `{CompactionPickerBase}
           (st : PickerState) (ioptions : ImmutableCFOptions)
           (mutable_cf_options : MutableCFOptions) (vstorage : VersionStorageInfo)
  : option Compaction * PickerState :=
  match delete_triggered_inputs st ioptions mutable_cf_options vstorage with
  | (None, st) => (None, st)
  | (Some (inputs, output_level), st) =>
      let estimated_total_size := sum_file_sizes (LevelFiles vstorage output_level) in
      let path_id := GetPathId ioptions mutable_cf_options estimated_total_size in
      let lazy := enable_lazy_compaction mutable_cf_options && negb (output_level =? 0) in
      (Some {| inputs := inputs;
               output_level := output_level;
               output_path_id := Z.of_nat path_id;
               enable_compression := true;
               max_subcompactions := if lazy then 1 else 0;
               manual_compaction := true;
               partial_compaction := false;
               compaction_purpose := if lazy then kMapSst else kEssenceSst;
               input_range := [];
               compaction_reason := kFilesMarkedForCompaction;
               is_trivial_move := false |},
       st)
  end.

(** The strategies in their order: the plan picked, if any, and the state
    they leave; the outer [None] where the grouping strategy has no defined
    result.  The strategies before [PickDeleteTriggeredCompaction] read the
    state and call no helper. *)
Definition pick_plan `{CompactionPickerBase} `{MathLib} `{RangeBuilder}
           (table_cache_ : option TableCache) (st : PickerState)
           (ioptions : ImmutableCFOptions) (mutable_cf_options : MutableCFOptions)
           (vstorage : VersionStorageInfo) (sorted_runs : list SortedRun.t)
  : option (option Compaction * PickerState) :=
  let trigger := level0_file_num_compaction_trigger mutable_cf_options in
  let size := Z.of_nat (length sorted_runs) in
  if (size =? 0) ||
     (match FilesMarkedForCompaction vstorage with [] => true | _ :: _ => false end &&
      negb (has_space_amplification vstorage) &&
      (size <? wrap32 trigger))
  then Some (None, st)
  else
    match
      if has_space_amplification vstorage || (size >=? wrap64 trigger) then
        pick_by_size table_cache_ st ioptions mutable_cf_options vstorage sorted_runs
      else Some (None, sorted_runs)
    with
    | None => None
    | Some (c, sorted_runs) =>
        let c :=
          match c, table_cache_ with
          | None, Some cache =>
              @PickCompositeCompaction cache _ ioptions mutable_cf_options vstorage
                                       sorted_runs
          | _, _ => c
          end in
        Some match c with
             | None => PickDeleteTriggeredCompaction st ioptions mutable_cf_options
                                                     vstorage
             | Some _ => (c, st)
             end
    end.

(** [PickCompaction]: the plan, the picker's state and the version
    afterwards; the outer [None] as for the function of above. *)
Definition PickCompaction `{CompactionPickerBase} `{MathLib} `{RangeBuilder}
           `{InternalKeyComparator}
           (fuel : nat) (table_cache_ : option TableCache) (st : PickerState)
           (ioptions : ImmutableCFOptions) (mutable_cf_options : MutableCFOptions)
           (vstorage : VersionStorageInfo)
  : option (option Compaction * PickerState * VersionStorageInfo) :=
  match CalculateSortedRuns fuel vstorage mutable_cf_options with
  | None => None
  | Some sorted_runs =>
      match pick_plan table_cache_ st ioptions mutable_cf_options vstorage
                      sorted_runs with
      | None => None
      | Some (None, st) => Some (None, st, vstorage)
      | Some (Some c, st) =>
          let c := mark_trivial_move mutable_cf_options vstorage c in
          Some (Some c, RegisterCompaction st c,
                ComputeCompactionScore vstorage ioptions mutable_cf_options)
      end
  end.

(** The helpers keep a property [P] of the state they are given. *)
Definition helpers_keep `{CompactionPickerBase} (P : PickerState -> Prop) : Prop :=
  (forall st vstorage,
      P st -> P (snd (PickFilesMarkedForCompaction st vstorage))) /\
  (forall st vstorage start_level_inputs output_level,
      P st ->
      P (snd (GetOverlappingL0Files st vstorage start_level_inputs output_level))) /\
  (forall st mutable_cf_options vstorage start_level_inputs output_level_inputs,
      P st ->
      P (snd (SetupOtherInputs st mutable_cf_options vstorage start_level_inputs
                               output_level_inputs))) /\
  (forall st inputs output_level,
      P st -> P (snd (FilesRangeOverlapWithCompaction st inputs output_level))).

(** The helpers leave the state as they find it: they read the sets of the
    compactions in progress and do not write them. *)
Definition helpers_read_only `{CompactionPickerBase} : Prop :=
  (forall st vstorage, snd (PickFilesMarkedForCompaction st vstorage) = st) /\
  (forall st vstorage start_level_inputs output_level,
      snd (GetOverlappingL0Files st vstorage start_level_inputs output_level) = st) /\
  (forall st mutable_cf_options vstorage start_level_inputs output_level_inputs,
      snd (SetupOtherInputs st mutable_cf_options vstorage start_level_inputs
                            output_level_inputs) = st) /\
  (forall st inputs output_level,
      snd (FilesRangeOverlapWithCompaction st inputs output_level) = st).

End Stateful.

(** A base picker whose helpers only read the state is a base picker of
    the module above. *)
Definition lift_base (base : CompactionPickerBase) : Stateful.CompactionPickerBase :=
  {| Stateful.PickFilesMarkedForCompaction := fun st vstorage =>
       (PickFilesMarkedForCompaction st vstorage, st);
     Stateful.GetOverlappingL0Files := fun st vstorage start_level_inputs output_level =>
       (GetOverlappingL0Files st vstorage start_level_inputs output_level, st);
     Stateful.SetupOtherInputs :=
       fun st mutable_cf_options vstorage start_level_inputs output_level_inputs =>
         (SetupOtherInputs st mutable_cf_options vstorage start_level_inputs
                           output_level_inputs, st);
     Stateful.FilesRangeOverlapWithCompaction := fun st inputs output_level =>
       (FilesRangeOverlapWithCompaction st inputs output_level, st);
     Stateful.RegisterCompaction := RegisterCompaction;
     Stateful.ComputeCompactionScore := ComputeCompactionScore |}.

(** The multi-level base picker of above, with an overlap test that reads
    the state: the inputs overlap a compaction in progress when one writes
    to their output level. *)
Definition watching_base : CompactionPickerBase :=
  {| PickFilesMarkedForCompaction := @PickFilesMarkedForCompaction marking_base;
     GetOverlappingL0Files := @GetOverlappingL0Files marking_base;
     SetupOtherInputs := @SetupOtherInputs marking_base;
     FilesRangeOverlapWithCompaction := fun st _ output_level_ =>
       existsb (fun c => output_level c =? output_level_)
               (compactions_in_progress_ st);
     RegisterCompaction := @RegisterCompaction marking_base;
     ComputeCompactionScore := @ComputeCompactionScore marking_base |}.

(** A compaction into level 3 is in progress. *)
Definition busy_state : PickerState :=
  {| compactions_in_progress_ :=
       [{| inputs := [{| level := 3; files := [mk_file 1 100 true false] |}];
           output_level := 3;
           output_path_id := 0;
           enable_compression := true;
           max_subcompactions := 0;
           manual_compaction := false;
           partial_compaction := false;
           compaction_purpose := kEssenceSst;
           input_range := [];
           compaction_reason := kUniversalSizeAmplification;
           is_trivial_move := false |}];
     level0_compactions_in_progress_ := [] |}.

(** A base picker whose search for marked files writes the state: it
    forgets the compactions in progress. *)
Definition forgetting_base : Stateful.CompactionPickerBase :=
  {| Stateful.PickFilesMarkedForCompaction := fun _ _ =>
       (0, {| level := 0; files := [] |}, empty_state);
     Stateful.GetOverlappingL0Files := fun st _ _ _ => (None, st);
     Stateful.SetupOtherInputs := fun st _ _ _ _ => (None, st);
     Stateful.FilesRangeOverlapWithCompaction := fun st _ _ => (false, st);
     Stateful.RegisterCompaction := @RegisterCompaction marking_base;
     Stateful.ComputeCompactionScore := fun v _ _ => v |}.

(* ================================================================= *)
(** * GetContext (table/get_context.cc)

    The state that a point lookup carries from one table to the next, and
    the log from which the row cache replays a lookup.  What the file takes
    from other files is a parameter: the user comparator, the packing of a
    sequence number with a type, the read callback, the lazy and the
    pinnable slice, the merge context, the merge operator with
    [MergeHelper::TimedFullMerge], and the coding of a length-prefixed
    slice.  Logger, statistics and environment only reach the merge helper
    and are left out, and so is [ReportCounters], which only reports to the
    statistics.  The replay log is that of a build without
    [ROCKSDB_LITE]. *)

Inductive GetState := kNotFound | kFound | kDeleted | kCorrupt | kMerge.

(** The entry types the file names; [kTypeOther] stands for every other
    value of the enumeration, by its byte. *)
Inductive ValueType :=
| kTypeDeletion
| kTypeValue
| kTypeMerge
| kTypeSingleDeletion
| kTypeRangeDeletion
| kTypeValueIndex
| kTypeMergeIndex
| kTypeOther (tag : Ascii.ascii).

Module ParsedInternalKey.
Record t := {
  user_key : Slice;
  sequence : Z;
  type : ValueType
}.
End ParsedInternalKey.

(** [dbformat.h]: the largest sequence number, the packing of sequence
    number and type into 64 bits, and the byte of a type: [push_back(type)]
    writes it and [static_cast<ValueType>] reads it. *)
Class DbFormat := {
  kMaxSequenceNumber : Z;
  PackSequenceAndType : Z -> ValueType -> Z;
  ValueType_char : ValueType -> Ascii.ascii;
  char_ValueType : Ascii.ascii -> ValueType
}.

(** [util/coding.h].  [PutLengthPrefixedSlice] gives the string after the
    append; [GetLengthPrefixedSlice] gives its result, what is left of the
    input and the slice it has stored. *)
Class Coding := {
  PutLengthPrefixedSlice : string -> Slice -> string;
  GetLengthPrefixedSlice : string -> bool * string * Slice
}.

(** [ucmp_->Equal]. *)
Class UserComparator := { Equal : Slice -> Slice -> bool }.

(** [LazySlice]: [decode_ok] is [value.decode().ok()], [deref] is [*value],
    [LazySlice_of] the conversion from a slice. *)
Class LazySliceOps := {
  LazySlice : Type;
  decode_ok : LazySlice -> bool;
  deref : LazySlice -> Slice;
  LazySlice_of : Slice -> LazySlice
}.

(** [PinnableSlice]: [PinSlice(s, cleanable)], [PinSelf(s)] and
    [PinSelf()]. *)
Class PinnableSliceOps := {
  PinnableSlice : Type;
  Cleanable : Type;
  PinSlice : PinnableSlice -> Slice -> Cleanable -> PinnableSlice;
  PinSelf_slice : PinnableSlice -> Slice -> PinnableSlice;
  PinSelf : PinnableSlice -> PinnableSlice
}.

(** [MergeContext], [MergeOperator] and [MergeHelper::TimedFullMerge],
    which writes into [pinnable_val_->GetSelf()] and returns a status;
    [CheckCallback] of the header, on [callback_]. *)
Class MergeOps `{LazySliceOps} `{PinnableSliceOps} := {
  MergeContext : Type;
  Operands : Type;
  PushOperand : MergeContext -> LazySlice -> Slice -> MergeContext;
  GetOperands : MergeContext -> Operands;
  GetOperandsDirectionBackward : MergeContext -> Operands;
  MergeOperator : Type;
  ShouldMerge : MergeOperator -> Operands -> bool;
  TimedFullMerge :
    option MergeOperator -> Slice -> option LazySlice -> Operands ->
    PinnableSlice -> bool * PinnableSlice;
  ReadCallback : Type;
  CheckCallback : option ReadCallback -> Z -> bool
}.

Section GetContext.
Context `{DbFormat} `{Coding} `{UserComparator} `{MergeOps}.

(** The members of [GetContext] that the file reads or writes.  A pointer
    that the code tests against [nullptr] is an [option] of what it points
    to; [merge_context_] is dereferenced untested. *)
Record GetContext := {
  merge_operator_ : option MergeOperator;
  state_ : GetState;
  user_key_ : Slice;
  pinnable_val_ : option PinnableSlice;
  value_found_ : option bool;
  merge_context_ : MergeContext;
  max_covering_tombstone_seq_ : option Z;
  seq_ : option Z;
  min_seq_type_ : Z;
  replay_log_ : option string;
  callback_ : option ReadCallback
}.

Definition set_state (ctx : GetContext) (s : GetState) : GetContext :=
  {| merge_operator_ := merge_operator_ ctx; state_ := s;
     user_key_ := user_key_ ctx; pinnable_val_ := pinnable_val_ ctx;
     value_found_ := value_found_ ctx; merge_context_ := merge_context_ ctx;
     max_covering_tombstone_seq_ := max_covering_tombstone_seq_ ctx;
     seq_ := seq_ ctx; min_seq_type_ := min_seq_type_ ctx;
     replay_log_ := replay_log_ ctx; callback_ := callback_ ctx |}.

Definition set_pinnable_val (ctx : GetContext) (p : option PinnableSlice)
  : GetContext :=
  {| merge_operator_ := merge_operator_ ctx; state_ := state_ ctx;
     user_key_ := user_key_ ctx; pinnable_val_ := p;
     value_found_ := value_found_ ctx; merge_context_ := merge_context_ ctx;
     max_covering_tombstone_seq_ := max_covering_tombstone_seq_ ctx;
     seq_ := seq_ ctx; min_seq_type_ := min_seq_type_ ctx;
     replay_log_ := replay_log_ ctx; callback_ := callback_ ctx |}.

Definition set_value_found (ctx : GetContext) (b : option bool) : GetContext :=
  {| merge_operator_ := merge_operator_ ctx; state_ := state_ ctx;
     user_key_ := user_key_ ctx; pinnable_val_ := pinnable_val_ ctx;
     value_found_ := b; merge_context_ := merge_context_ ctx;
     max_covering_tombstone_seq_ := max_covering_tombstone_seq_ ctx;
     seq_ := seq_ ctx; min_seq_type_ := min_seq_type_ ctx;
     replay_log_ := replay_log_ ctx; callback_ := callback_ ctx |}.

Definition set_merge_context (ctx : GetContext) (m : MergeContext) : GetContext :=
  {| merge_operator_ := merge_operator_ ctx; state_ := state_ ctx;
     user_key_ := user_key_ ctx; pinnable_val_ := pinnable_val_ ctx;
     value_found_ := value_found_ ctx; merge_context_ := m;
     max_covering_tombstone_seq_ := max_covering_tombstone_seq_ ctx;
     seq_ := seq_ ctx; min_seq_type_ := min_seq_type_ ctx;
     replay_log_ := replay_log_ ctx; callback_ := callback_ ctx |}.

Definition set_seq (ctx : GetContext) (s : option Z) : GetContext :=
  {| merge_operator_ := merge_operator_ ctx; state_ := state_ ctx;
     user_key_ := user_key_ ctx; pinnable_val_ := pinnable_val_ ctx;
     value_found_ := value_found_ ctx; merge_context_ := merge_context_ ctx;
     max_covering_tombstone_seq_ := max_covering_tombstone_seq_ ctx;
     seq_ := s; min_seq_type_ := min_seq_type_ ctx;
     replay_log_ := replay_log_ ctx; callback_ := callback_ ctx |}.

Definition set_replay_log (ctx : GetContext) (log : option string) : GetContext :=
  {| merge_operator_ := merge_operator_ ctx; state_ := state_ ctx;
     user_key_ := user_key_ ctx; pinnable_val_ := pinnable_val_ ctx;
     value_found_ := value_found_ ctx; merge_context_ := merge_context_ ctx;
     max_covering_tombstone_seq_ := max_covering_tombstone_seq_ ctx;
     seq_ := seq_ ctx; min_seq_type_ := min_seq_type_ ctx;
     replay_log_ := log; callback_ := callback_ ctx |}.

(** [appendToReplayLog]: nothing without a log; otherwise the byte of the
    type and the length-prefixed value are appended.  [reserve] changes no
    content. *)
Definition appendToReplayLog (replay_log : option string) (type : ValueType)
           (value : Slice) : option string :=
  match replay_log with
  | None => None
  | Some log =>
      Some (PutLengthPrefixedSlice
              (String.append log (String (ValueType_char type) EmptyString)) value)
  end.

(** The constructor: [*seq_] starts as [kMaxSequenceNumber],
    [min_seq_type_] as 0 and there is no replay log. *)
Definition GetContext_new (merge_operator : option MergeOperator)
           (init_state : GetState) (user_key : Slice)
           (pinnable_val : option PinnableSlice) (value_found : option bool)
           (merge_context : MergeContext)
           (max_covering_tombstone_seq : option Z) (seq : option Z)
           (callback : option ReadCallback) : GetContext :=
  {| merge_operator_ := merge_operator; state_ := init_state;
     user_key_ := user_key; pinnable_val_ := pinnable_val;
     value_found_ := value_found; merge_context_ := merge_context;
     max_covering_tombstone_seq_ := max_covering_tombstone_seq;
     seq_ := match seq with Some _ => Some kMaxSequenceNumber | None => None end;
     min_seq_type_ := 0; replay_log_ := None; callback_ := callback |}.

Definition MarkKeyMayExist (ctx : GetContext) : GetContext :=
  let ctx := set_state ctx kFound in
  match value_found_ ctx with
  | Some _ => set_value_found ctx (Some false)
  | None => ctx
  end.

(** [SaveValue(const Slice& value, SequenceNumber)]. *)
Definition SaveValue_slice (ctx : GetContext) (value : Slice) (seq : Z)
  : GetContext :=
  let ctx := set_replay_log ctx (appendToReplayLog (replay_log_ ctx) kTypeValue value) in
  let ctx := set_state ctx kFound in
  match pinnable_val_ ctx with
  | Some p => set_pinnable_val ctx (Some (PinSelf_slice p value))
  | None => ctx
  end.

(** The full merge that three branches of [SaveValue] perform alike:
    [state_ = kFound], then, with a pinnable value, [TimedFullMerge] on the
    operands, [PinSelf()] and [kCorrupt] on a failed status.  [value] is
    the base value, [None] for [nullptr]. *)
Definition merge_to_value (ctx : GetContext) (value : option LazySlice)
  : GetContext :=
  let ctx := set_state ctx kFound in
  match pinnable_val_ ctx with
  | None => ctx
  | Some p =>
      let '(merge_status_ok, p) :=
        TimedFullMerge (merge_operator_ ctx) (user_key_ ctx) value
                       (GetOperands (merge_context_ ctx)) p in
      let ctx := set_pinnable_val ctx (Some (PinSelf p)) in
      if negb merge_status_ok then set_state ctx kCorrupt else ctx
  end.

(** The type under which [SaveValue] processes an entry: a value or a
    merge operand below a covering range tombstone counts as a range
    deletion. *)
Definition effective_type (ctx : GetContext) (parsed_key : ParsedInternalKey.t)
  : ValueType :=
  let type := ParsedInternalKey.type parsed_key in
  let covered :=
    match max_covering_tombstone_seq_ ctx with
    | Some tombstone_seq => tombstone_seq >? ParsedInternalKey.sequence parsed_key
    | None => false
    end in
  match type with
  | kTypeValue | kTypeMerge | kTypeValueIndex | kTypeMergeIndex =>
      if covered then kTypeRangeDeletion else type
  | _ => type
  end.

(** The step of [SaveValue] for the replay log: with a log, the value is
    decoded and the entry appended; [None] where the decoding fails. *)
Definition log_entry (ctx : GetContext) (parsed_key : ParsedInternalKey.t)
           (value : LazySlice) : option GetContext :=
  match replay_log_ ctx with
  | Some _ =>
      if negb (decode_ok value) then None
      else Some (set_replay_log ctx
                   (appendToReplayLog (replay_log_ ctx)
                      (ParsedInternalKey.type parsed_key) (deref value)))
  | None => Some ctx
  end.

(** [*seq_] is set if it is uninitialized. *)
Definition save_sequence (ctx : GetContext) (parsed_key : ParsedInternalKey.t)
  : GetContext :=
  match seq_ ctx with
  | Some s =>
      if s =? kMaxSequenceNumber
      then set_seq ctx (Some (ParsedInternalKey.sequence parsed_key))
      else ctx
  | None => ctx
  end.

(** The [switch] of [SaveValue] on the type: the result and the context. *)
Definition process_entry (ctx : GetContext) (type : ValueType) (value : LazySlice)
           (value_pinner : option Cleanable) : bool * GetContext :=
  match type with
  | kTypeValue | kTypeValueIndex =>
      match state_ ctx with
      | kNotFound =>
          let ctx := set_state ctx kFound in
          match pinnable_val_ ctx with
          | Some p =>
              if negb (decode_ok value) then (false, set_state ctx kCorrupt)
              else
                let p :=
                  match value_pinner with
                  | Some pinner => PinSlice p (deref value) pinner
                  | None => PinSelf_slice p (deref value)
                  end in
                (false, set_pinnable_val ctx (Some p))
          | None => (false, ctx)
          end
      | kMerge => (false, merge_to_value ctx (Some value))
      | _ => (false, ctx)
      end
  | kTypeDeletion | kTypeSingleDeletion | kTypeRangeDeletion =>
      match state_ ctx with
      | kNotFound => (false, set_state ctx kDeleted)
      | kMerge => (false, merge_to_value ctx None)
      | _ => (false, ctx)
      end
  | kTypeMerge | kTypeMergeIndex =>
      let ctx := set_state ctx kMerge in
      let ctx :=
        set_merge_context ctx
          (PushOperand (merge_context_ ctx) value (user_key_ ctx)) in
      let should_merge :=
        match merge_operator_ ctx with
        | Some merge_operator =>
            ShouldMerge merge_operator
                        (GetOperandsDirectionBackward (merge_context_ ctx))
        | None => false
        end in
      if should_merge then (false, merge_to_value ctx None) else (true, ctx)
  | kTypeOther _ => (false, ctx)
  end.

(** [SaveValue(parsed_key, value, matched, value_pinner)]: the result, the
    context afterwards and [*matched]. *)
Definition SaveValue (ctx : GetContext) (parsed_key : ParsedInternalKey.t)
           (value : LazySlice) (matched : bool) (value_pinner : option Cleanable)
  : bool * GetContext * bool :=
  if Equal (ParsedInternalKey.user_key parsed_key) (user_key_ ctx) then
    if PackSequenceAndType (ParsedInternalKey.sequence parsed_key)
                           (ParsedInternalKey.type parsed_key) <? min_seq_type_ ctx
    then (false, ctx, matched)
    else
      let matched := true in
      if negb (CheckCallback (callback_ ctx) (ParsedInternalKey.sequence parsed_key))
      then (true, ctx, matched)
      else
        match log_entry ctx parsed_key value with
        | None => (false, set_state ctx kCorrupt, matched)
        | Some ctx =>
            let ctx := save_sequence ctx parsed_key in
            let '(result, ctx) :=
              process_entry ctx (effective_type ctx parsed_key) value
                            value_pinner in
            (result, ctx, matched)
        end
  else (false, ctx, matched).

(** [replayGetContextLog]: one call of [SaveValue] per record, with
    [kMaxSequenceNumber] for the sequence number that the log does not
    hold.  The result of [GetLengthPrefixedSlice] is not looked at; [fuel]
    bounds the iterations, and [None] reports that it did not suffice. *)
Fixpoint replayGetContextLog (fuel : nat) (replay_log : string) (user_key : Slice)
         (get_context : GetContext) (value_pinner : option Cleanable)
  : option GetContext :=
  match replay_log with
  | EmptyString => Some get_context
  | String c s =>
      match fuel with
      | O => None
      | S fuel' =>
          let type := char_ValueType c in
          let '(_, s, value) := GetLengthPrefixedSlice s in
          let '(_, get_context, _) :=
            SaveValue get_context
                      {| ParsedInternalKey.user_key := user_key;
                         ParsedInternalKey.sequence := kMaxSequenceNumber;
                         ParsedInternalKey.type := type |}
                      (LazySlice_of value) false value_pinner in
          replayGetContextLog fuel' s user_key get_context value_pinner
      end
  end.

End GetContext.

(** ** A setting for the lookup scenarios *)

(** Sequence numbers of 56 bits packed above the byte of the type.  The
    bytes of the two index types are the scenario's choice. *)
Definition scenario_format : DbFormat :=
  {| kMaxSequenceNumber := 2 ^ 56 - 1;
     ValueType_char := fun t =>
       match t with
       | kTypeDeletion => Ascii.ascii_of_N 0
       | kTypeValue => Ascii.ascii_of_N 1
       | kTypeMerge => Ascii.ascii_of_N 2
       | kTypeSingleDeletion => Ascii.ascii_of_N 7
       | kTypeRangeDeletion => Ascii.ascii_of_N 15
       | kTypeValueIndex => Ascii.ascii_of_N 17
       | kTypeMergeIndex => Ascii.ascii_of_N 18
       | kTypeOther tag => tag
       end;
     char_ValueType := fun c =>
       match Ascii.N_of_ascii c with
       | 0 => kTypeDeletion
       | 1 => kTypeValue
       | 2 => kTypeMerge
       | 7 => kTypeSingleDeletion
       | 15 => kTypeRangeDeletion
       | 17 => kTypeValueIndex
       | 18 => kTypeMergeIndex
       | _ => kTypeOther c
       end%N;
     PackSequenceAndType := fun seq t =>
       seq * 256 +
       Z.of_N (Ascii.N_of_ascii
                 match t with
                 | kTypeDeletion => Ascii.ascii_of_N 0
                 | kTypeValue => Ascii.ascii_of_N 1
                 | kTypeMerge => Ascii.ascii_of_N 2
                 | kTypeSingleDeletion => Ascii.ascii_of_N 7
                 | kTypeRangeDeletion => Ascii.ascii_of_N 15
                 | kTypeValueIndex => Ascii.ascii_of_N 17
                 | kTypeMergeIndex => Ascii.ascii_of_N 18
                 | kTypeOther tag => tag
                 end) |}.

(** A varint: seven bits to the byte, the low ones first, the high bit set
    on every byte but the last; at most [fuel] bytes. *)
Fixpoint put_varint (fuel : nat) (n : N) : string :=
  match fuel with
  | O => EmptyString
  | S fuel' =>
      if (n <? 128)%N then String (Ascii.ascii_of_N n) EmptyString
      else String (Ascii.ascii_of_N (n mod 128 + 128)) (put_varint fuel' (n / 128))
  end.

Fixpoint get_varint (fuel : nat) (s : string) : option (N * string) :=
  match fuel, s with
  | S fuel', String c rest =>
      let b := Ascii.N_of_ascii c in
      if (b <? 128)%N then Some (b, rest)
      else match get_varint fuel' rest with
           | Some (high, rest') => Some (b - 128 + 128 * high, rest')%N
           | None => None
           end
  | _, _ => None
  end.

(** The first [n] characters of [s] and the rest, if [s] has that many. *)
Fixpoint split_at (n : nat) (s : string) : option (string * string) :=
  match n with
  | O => Some (EmptyString, s)
  | S n' =>
      match s with
      | EmptyString => None
      | String c rest =>
          match split_at n' rest with
          | Some (front, back) => Some (String c front, back)
          | None => None
          end
      end
  end.

(** The length as a varint of at most five bytes, then the bytes. *)
Definition varint_coding : Coding :=
  {| PutLengthPrefixedSlice := fun dst value =>
       String.append dst
         (String.append
            (put_varint 5 (N.of_nat (String.length value) mod 2 ^ 32)) value);
     GetLengthPrefixedSlice := fun input =>
       match get_varint 5 input with
       | Some (len, rest) =>
           match split_at (N.to_nat len) rest with
           | Some (value, rest') => (true, rest', value)
           | None => (false, rest, EmptyString)
           end
       | None => (false, input, EmptyString)
       end |}.

Definition bytewise_equal : UserComparator := {| Equal := String.eqb |}.

(** A lazy slice that either holds its value or fails to decode. *)
Definition plain_lazy : LazySliceOps :=
  {| LazySlice := option Slice;
     decode_ok := fun v => match v with Some _ => true | None => false end;
     deref := fun v => match v with Some s => s | None => EmptyString end;
     LazySlice_of := fun s => Some s |}.

(** A pinnable slice as its own buffer and the data it shows. *)
Definition buffer_pinnable : PinnableSliceOps :=
  {| PinnableSlice := Slice * Slice;
     Cleanable := unit;
     PinSlice := fun (p : Slice * Slice) s _ => (fst p, s);
     PinSelf_slice := fun _ s => (s, s);
     PinSelf := fun (p : Slice * Slice) => (fst p, fst p) |}.

(** Operands are kept newest first; the merge appends them, oldest first,
    to the base value and fails without an operator.  A read callback is a
    snapshot: it sees the sequence numbers up to its own. *)
Definition appending_merge : @MergeOps plain_lazy buffer_pinnable :=
  @Build_MergeOps plain_lazy buffer_pinnable
    (list Slice) (list Slice)
    (fun (m : list Slice) (v : option Slice) (_ : Slice) =>
       match v with Some s => s :: m | None => EmptyString :: m end)
    (fun m => rev m)
    (fun m => m)
    unit
    (fun _ _ => false)
    (fun (op : option unit) (_ : Slice) (base : option (option Slice))
         (operands : list Slice) (p : Slice * Slice) =>
       match op with
       | Some _ =>
           (true,
            (fold_left String.append operands
                       match base with
                       | Some (Some s) => s
                       | _ => EmptyString
                       end,
             snd p))
       | None => (false, p)
       end)
    Z
    (fun callback seq =>
       match callback with
       | Some snapshot => seq <=? snapshot
       | None => true
       end).

(** A fresh context for the key ["k"], with a merge operator, a value to
    pin, a sequence number to report and no callback; the replay log and
    the tombstone bound are as given. *)
Definition scenario_context (log : option string) (tombstone_seq : option Z)
  : @GetContext plain_lazy buffer_pinnable appending_merge :=
  @Build_GetContext plain_lazy buffer_pinnable appending_merge
    (Some tt) kNotFound "k"%string (Some (EmptyString, EmptyString)) None
    ([] : list Slice) tombstone_seq (Some (2 ^ 56 - 1)) 0 log None.

Definition scenario_key (seq : Z) (t : ValueType) : ParsedInternalKey.t :=
  {| ParsedInternalKey.user_key := "k"%string;
     ParsedInternalKey.sequence := seq;
     ParsedInternalKey.type := t |}.

(** A merge operand above a value, both for the key ["k"]. *)
Definition scenario_entries : list (ParsedInternalKey.t * @LazySlice plain_lazy) :=
  [(scenario_key 5 kTypeMerge, Some "ab"%string);
   (scenario_key 4 kTypeValue, Some "cd"%string)].

(** ** Notions for the properties of GetContext *)

Section GetContextNotions.
Context `{DbFormat} `{Coding} `{UserComparator} `{MergeOps}.

(** The entry is one that [SaveValue] processes: it has the key of the
    lookup, the map SST does not mask it, and the read callback sees it. *)
Definition visible_entry (ctx : GetContext) (parsed_key : ParsedInternalKey.t)
  : bool :=
  Equal (ParsedInternalKey.user_key parsed_key) (user_key_ ctx) &&
  negb (PackSequenceAndType (ParsedInternalKey.sequence parsed_key)
                            (ParsedInternalKey.type parsed_key) <? min_seq_type_ ctx) &&
  CheckCallback (callback_ ctx) (ParsedInternalKey.sequence parsed_key).

(** The members that say what is looked up and how. *)
Definition same_setting (ctx ctx' : GetContext) : Prop :=
  merge_operator_ ctx' = merge_operator_ ctx /\
  user_key_ ctx' = user_key_ ctx /\
  value_found_ ctx' = value_found_ ctx /\
  max_covering_tombstone_seq_ ctx' = max_covering_tombstone_seq_ ctx /\
  min_seq_type_ ctx' = min_seq_type_ ctx /\
  callback_ ctx' = callback_ ctx.

(** The members that hold the answer of the lookup. *)
Definition same_answer (ctx ctx' : GetContext) : Prop :=
  state_ ctx' = state_ ctx /\
  pinnable_val_ ctx' = pinnable_val_ ctx /\
  merge_context_ ctx' = merge_context_ ctx.

(** The context after [SaveValue] has been called on the entries one
    after the other. *)
Definition lookup_calls (ctx : GetContext)
           (entries : list (ParsedInternalKey.t * LazySlice))
           (value_pinner : option Cleanable) : GetContext :=
  fold_left (fun ctx e => snd (fst (SaveValue ctx (fst e) (snd e) false value_pinner)))
            entries ctx.

(** The context after [SaveValue] has been called on the records of a
    log, as [replayGetContextLog] calls it. *)
Definition replay_calls (ctx : GetContext) (user_key : Slice)
           (records : list (ValueType * Slice)) (value_pinner : option Cleanable)
  : GetContext :=
  fold_left
    (fun ctx r =>
       snd (fst (SaveValue ctx
                           {| ParsedInternalKey.user_key := user_key;
                              ParsedInternalKey.sequence := kMaxSequenceNumber;
                              ParsedInternalKey.type := fst r |}
                           (LazySlice_of (snd r)) false value_pinner)))
    records ctx.

(** The log after [appendToReplayLog] has been called on the records. *)
Definition record_log (replay_log : option string)
           (records : list (ValueType * Slice)) : option string :=
  fold_left (fun log r => appendToReplayLog log (fst r) (snd r)) records replay_log.

(** The records that a lookup writes to its log: type and value of the
    entries it processes. *)
Fixpoint logged_records (ctx : GetContext)
         (entries : list (ParsedInternalKey.t * LazySlice))
  : list (ValueType * Slice) :=
  match entries with
  | [] => []
  | e :: rest =>
      if visible_entry ctx (fst e)
      then (ParsedInternalKey.type (fst e), deref (snd e)) :: logged_records ctx rest
      else logged_records ctx rest
  end.

(** The bytes of the records as [appendToReplayLog] lays them out. *)
Fixpoint encode_records (records : list (ValueType * Slice)) : string :=
  match records with
  | [] => EmptyString
  | r :: rest =>
      String (ValueType_char (fst r))
             (String.append (PutLengthPrefixedSlice EmptyString (snd r))
                            (encode_records rest))
  end.

(** What the properties of the log ask of the coding:
    [PutLengthPrefixedSlice] appends to its destination, and
    [GetLengthPrefixedSlice] reads back a slice shorter than [2^32] and
    leaves what follows it. *)
Definition coding_appends : Prop :=
  forall dst value,
    PutLengthPrefixedSlice dst value =
    String.append dst (PutLengthPrefixedSlice EmptyString value).

Definition coding_round_trip : Prop :=
  forall value rest,
    Z.of_nat (String.length value) < two32 ->
    GetLengthPrefixedSlice
      (String.append (PutLengthPrefixedSlice EmptyString value) rest) =
    (true, rest, value).

(** A record that the log gives back: its type survives the byte, and its
    value has a length of 32 bits. *)
Definition record_fits (r : ValueType * Slice) : Prop :=
  char_ValueType (ValueType_char (fst r)) = fst r /\
  Z.of_nat (String.length (snd r)) < two32.

(** A lazy slice that has been decoded is the lazy slice of its value. *)
Definition decoded_by_value : Prop :=
  forall value, decode_ok value = true -> LazySlice_of (deref value) = value.

(** Two contexts that answer alike: same answer so far, same merge operator
    and same key. *)
Definition same_lookup (ctx ctx' : GetContext) : Prop :=
  same_answer ctx ctx' /\
  merge_operator_ ctx' = merge_operator_ ctx /\
  user_key_ ctx' = user_key_ ctx.

(** A context on which a replay for [user_key] processes every record: the
    key is its own, nothing masks or hides an entry of the largest sequence
    number, and no tombstone lies above that number. *)
Definition replay_ready (ctx : GetContext) (user_key : Slice) : Prop :=
  Equal user_key (user_key_ ctx) = true /\
  (forall t, (PackSequenceAndType kMaxSequenceNumber t <? min_seq_type_ ctx) = false) /\
  CheckCallback (callback_ ctx) kMaxSequenceNumber = true /\
  (forall tombstone_seq,
      max_covering_tombstone_seq_ ctx = Some tombstone_seq ->
      tombstone_seq <= kMaxSequenceNumber).

End GetContextNotions.

(** The levels of sorted runs as [CalculateSortedRuns] orders them: every
    level lies within the version, the levels do not descend, and a lower
    level occurs once. *)
Definition levels_ascending (vstorage : VersionStorageInfo)
           (sorted_runs : list SortedRun.t) : Prop :=
  (forall i, (i < length sorted_runs)%nat ->
             0 <= SortedRun.level (nth i sorted_runs default_run) < num_levels vstorage) /\
  forall i j,
    (i < j < length sorted_runs)%nat ->
    SortedRun.level (nth i sorted_runs default_run) <=
      SortedRun.level (nth j sorted_runs default_run) /\
    (SortedRun.level (nth j sorted_runs default_run) <> 0 ->
     SortedRun.level (nth i sorted_runs default_run) <
       SortedRun.level (nth j sorted_runs default_run)).

(** Two small files in level 0 above a large level 2, and the sorted runs
    of this version. *)
Definition tiered_vstorage : VersionStorageInfo :=
  mk_vstorage [[mk_file 3 1 false false; mk_file 2 1 false false]; [];
               [mk_file 1 100 false false]] [].

Definition tiered_runs : list SortedRun.t :=
  [run_of_file (mk_file 3 1 false false); run_of_file (mk_file 2 1 false false);
   {| SortedRun.level := 2; SortedRun.file := None; SortedRun.size := 100;
      SortedRun.compensated_file_size := 100;
      SortedRun.being_compacted := false; SortedRun.wait_reduce := false |}].

(** An SST of 3 bytes that links nothing and yet lists file 9, the map SST
    above, which the version knows. *)
Definition listing_file : FileMetaData.t :=
  {| FileMetaData.number := 4; FileMetaData.path_id := 0;
     FileMetaData.file_size := 3; FileMetaData.compensated_file_size := 3;
     FileMetaData.smallest := EmptyString; FileMetaData.largest := EmptyString;
     FileMetaData.smallest_seqno := 4; FileMetaData.largest_seqno := 4;
     FileMetaData.being_compacted := false;
     FileMetaData.marked_for_compaction := false;
     FileMetaData.sst_purpose := kEssenceSst;
     FileMetaData.sst_depend := [9] |}.

Definition listing_vstorage : VersionStorageInfo :=
  {| files_ := [[listing_file]];
     FilesMarkedForCompaction := [];
     has_space_amplification := false;
     level_has_space_amplification := fun _ => false;
     depend_files := fun n => if n =? 9 then Some linking_file else None |}.

(** ** Lazy compaction over several levels *)

Definition lazy_trigger_options (trigger : Z) : MutableCFOptions :=
  {| level0_file_num_compaction_trigger := trigger;
     compaction_options_universal := compaction_options_universal lazy_options;
     enable_lazy_compaction := true;
     write_buffer_size := 1;
     max_compaction_bytes := 0 |}.

Definition leveled_ioptions (levels : Z) : ImmutableCFOptions :=
  {| cf_paths := [{| target_size := 0 |}];
     num_levels_opt := levels;
     allow_ingest_behind := false;
     max_subcompactions_opt := 1 |}.

(** One file in level 0 above the one file of level 3; the two levels
    between them are empty. *)
Definition gap_vstorage : VersionStorageInfo :=
  mk_vstorage [[mk_file 2 1 false false]; []; []; [mk_file 1 1 false false]] [].

Definition gap_runs : list SortedRun.t :=
  [run_of_file (mk_file 2 1 false false);
   {| SortedRun.level := 3; SortedRun.file := None; SortedRun.size := 1;
      SortedRun.compensated_file_size := 1;
      SortedRun.being_compacted := false; SortedRun.wait_reduce := false |}].

(** Three levels: in level 0 a file that is being compacted and one that is
    not, below them two files in level 1 and one in level 2. *)
Definition busy_tiers_vstorage : VersionStorageInfo :=
  mk_vstorage [[mk_file 6 1 true false; mk_file 5 40 false false];
               [mk_file 3 50 false false; mk_file 2 50 false false];
               [mk_file 1 1000 false false]] [].

(** A table cache whose iterators open without an error and then fail at
    the first read: [SeekToFirst()] leaves them invalid, with a status that
    is not OK. *)
Definition interrupted_cache : TableCache :=
  {| GetTableProperties := fun _ => Some 2;
     NewIterator := fun _ _ =>
       {| status_ok := true; entries := []; end_status_ok := false |};
     NewMapElementIterator := fun _ =>
       {| status_ok := true; entries := []; end_status_ok := false |} |}.

(** A version with space amplification whose level 1 holds one map SST, and
    its sorted runs. *)
Definition deep_map_vstorage : VersionStorageInfo :=
  {| files_ := [[]; [map_file]];
     FilesMarkedForCompaction := [];
     has_space_amplification := true;
     level_has_space_amplification := fun _ => true;
     depend_files := fun _ => None |}.

Definition deep_map_runs : list SortedRun.t :=
  [{| SortedRun.level := 1; SortedRun.file := None; SortedRun.size := 10;
      SortedRun.compensated_file_size := 10;
      SortedRun.being_compacted := false; SortedRun.wait_reduce := false |}].

(* ================================================================= *)
(** * Properties *)

(** ** Machine arithmetic *)

Lemma two64_val : two64 = 18446744073709551616.
Proof. reflexivity. Qed.

Lemma two32_val : two32 = 4294967296.
Proof. reflexivity. Qed.

Lemma wrap64_small (z : Z) : 0 <= z < two64 -> wrap64 z = z.
Proof. intros H. unfold wrap64. now apply Z.mod_small. Qed.

Lemma wrap32_small (z : Z) : 0 <= z < two32 -> wrap32 z = z.
Proof. intros H. unfold wrap32. now apply Z.mod_small. Qed.

Lemma wrap64_range (z : Z) : 0 <= wrap64 z < two64.
Proof. unfold wrap64. apply Z.mod_pos_bound. reflexivity. Qed.

(** ** Lists *)

Lemma skipn_nth_error {A : Type} (l : list A) :
  forall i x, nth_error l i = Some x -> skipn i l = x :: skipn (S i) l.
Proof.
  induction l as [|y rest IH]; intros [|i] x H; simpl in *; try discriminate.
  - injection H as <-. reflexivity.
  - apply IH. exact H.
Qed.

Lemma skipn_incl {A : Type} (n : nat) (l : list A) (x : A) :
  In x (skipn n l) -> In x l.
Proof.
  intros H. rewrite <- (firstn_skipn n l). apply in_or_app. now right.
Qed.

(** ** GetPathId: the path allocator *)


Lemma acc_before_S (pre : list DbPath) (x : DbPath) (rest : list DbPath) :
  acc_before (pre ++ x :: rest) (S (length pre)) =
  add64 (acc_before (pre ++ x :: rest) (length pre)) (target_size x).
Proof.
  unfold acc_before.
  replace (S (length pre)) with (length (pre ++ [x])) by (rewrite length_app; simpl; lia).
  replace (pre ++ x :: rest) with ((pre ++ [x]) ++ rest) at 1
    by (rewrite <- app_assoc; reflexivity).
  rewrite firstn_app, firstn_all, Nat.sub_diag. simpl. rewrite app_nil_r.
  rewrite fold_left_app. simpl.
  rewrite firstn_app, firstn_all, Nat.sub_diag. simpl. rewrite app_nil_r.
  reflexivity.
Qed.

(** Loop invariant: started at index [length pre] with the accumulator of
    that index, the loop returns the first accepted index of the suffix,
    bounded by the index of the last path. *)
Lemma GetPathId_loop_first_fit (f fut : Z) (rest pre : list DbPath) :
  rest <> [] ->
  let paths := pre ++ rest in
  let r := GetPathId_loop rest f fut (acc_before paths (length pre)) (length pre) in
  (length pre <= r <= length paths - 1)%nat /\
  (forall q, (length pre <= q < r)%nat -> path_accepts paths f fut q = false) /\
  ((r < length paths - 1)%nat -> path_accepts paths f fut r = true).
Proof.
  revert pre. induction rest as [|x rest IH]; intros pre Hne; [congruence|].
  cbn zeta. destruct rest as [|y rest'].
  - simpl. rewrite length_app. simpl. repeat split; try lia.
  - assert (Hnth : nth (length pre) (pre ++ x :: y :: rest') {| target_size := 0 |} = x).
    { rewrite app_nth2, Nat.sub_diag by lia. reflexivity. }
    simpl GetPathId_loop.
    destruct ((target_size x >? f) &&
              (add64 (acc_before (pre ++ x :: y :: rest') (length pre))
                     (sub64 (target_size x) f) >? fut)) eqn:Hc.
    + rewrite length_app. simpl. repeat split; try lia.
      intros _. unfold path_accepts. rewrite Hnth. exact Hc.
    + specialize (IH (pre ++ [x]) ltac:(discriminate)).
      cbn zeta in IH.
      rewrite <- app_assoc in IH. simpl in IH.
      rewrite <- acc_before_S.
      replace (length (pre ++ [x])) with (S (length pre)) in IH
        by (rewrite length_app; simpl; lia).
      destruct IH as (Hr & Hbefore & Hat).
      repeat split; try lia; auto.
      intros q Hq. destruct (Nat.eq_dec q (length pre)) as [->|Hneq].
      * unfold path_accepts. rewrite Hnth. exact Hc.
      * apply Hbefore. lia.
Qed.

(** When nothing overflows, the code's arithmetic is plain integer
    arithmetic: [future = f * (100 - size_ratio) / 100]. *)
Lemma future_size_of_exact (mutable_cf_options : MutableCFOptions) (f : Z) :
  let ratio := size_ratio (compaction_options_universal mutable_cf_options) in
  0 <= ratio <= 100 -> 0 <= f -> f * (100 - ratio) < two64 ->
  future_size_of mutable_cf_options f = f * (100 - ratio) / 100.
Proof.
  intros ratio Hr Hf Hb. unfold future_size_of, mul64, sub32. fold ratio.
  rewrite (wrap32_small (100 - ratio)) by (bounds; lia).
  rewrite wrap64_small by nia. reflexivity.
Qed.





(** C6: [GetPathId] returns the first path [p] among [0 .. n-2] that the
    acceptance test admits ([target_p > f] and
    [acc + (target_p - f) > future], with [acc] the sum of the preceding
    targets and [future = f * (100 - size_ratio) / 100]), and [n-1] when no
    such path exists.  With targets [100; 1000] and [size_ratio = 10] it
    returns 0 for an estimated size of 50 and 1 for 80. *)
Theorem GetPathId_first_fit :
  (forall (ioptions : ImmutableCFOptions) (mutable_cf_options : MutableCFOptions)
          (file_size : Z),
      cf_paths ioptions <> [] ->
      let paths := cf_paths ioptions in
      let future := future_size_of mutable_cf_options file_size in
      let r := GetPathId ioptions mutable_cf_options file_size in
      (r <= length paths - 1)%nat /\
      (forall q, (q < r)%nat -> path_accepts paths file_size future q = false) /\
      ((r < length paths - 1)%nat -> path_accepts paths file_size future r = true))
  /\ future_size_of (mk_mutable_cf_options 10) 50 = 45
  /\ GetPathId two_paths (mk_mutable_cf_options 10) 50 = 0%nat
  /\ future_size_of (mk_mutable_cf_options 10) 80 = 72
  /\ GetPathId two_paths (mk_mutable_cf_options 10) 80 = 1%nat.
Proof.
  split; [|repeat split; reflexivity].
  intros ioptions mutable_cf_options file_size Hne paths future r.
  pose proof (GetPathId_loop_first_fit file_size future (cf_paths ioptions) [] Hne) as H.
  cbn zeta in H. simpl app in H. simpl length in H.
  change (acc_before (cf_paths ioptions) 0) with 0 in H.
  destruct H as (Hr & Hbefore & Hat).
  repeat split.
  - apply Hr.
  - intros q Hq. apply Hbefore. split; [lia|exact Hq].
  - exact Hat.
Qed.

Lemma GetPathId_first_fit_witness :
  cf_paths two_paths <> [] /\
  (GetPathId two_paths (mk_mutable_cf_options 10) 80 <= 1)%nat.
Proof.
  split; [discriminate|].
  exact (proj1 (proj1 GetPathId_first_fit two_paths
                      (mk_mutable_cf_options 10) 80 ltac:(discriminate))).
Defined.


(** A second way in which the order fails, now with [size_ratio = 0]: the
    targets of the first two of three paths add up to more than 64 bits, the
    sum [accumulated_size + (target - file_size)] wraps for the 10-byte file
    and not for the 20-byte file, and the larger file is placed on the
    earlier path. *)
Example GetPathId_wrapped_targets :
  let ioptions := mk_ioptions [20; two64 - 1; 0] in
  let mutable_cf_options := mk_mutable_cf_options 0 in
  GetPathId ioptions mutable_cf_options 10 = 2%nat /\
  GetPathId ioptions mutable_cf_options (2 * 10) = 1%nat.
Proof. cbn zeta. split; vm_compute; reflexivity. Qed.



(** ** PickCompactionToReduceSizeAmp *)

Lemma size_amp_first_candidate_some (runs : list SortedRun.t) :
  forall loop start_index,
    size_amp_first_candidate runs loop = Some start_index ->
    exists skipped candidates,
      runs = skipped ++ candidates /\
      start_index = (loop + length skipped)%nat /\
      (forall sr, In sr skipped -> SortedRun.being_compacted sr = true) /\
      (exists sr rest, candidates = sr :: rest /\
                       SortedRun.being_compacted sr = false).
Proof.
  induction runs as [|sr rest IH]; intros loop start_index H; simpl in H.
  - discriminate.
  - destruct (SortedRun.being_compacted sr) eqn:Hbc; simpl in H.
    + destruct (IH _ _ H) as (sk & ca & -> & -> & Hsk & Hca).
      exists (sr :: sk), ca. split; [reflexivity|]. split; [simpl; lia|].
      split; [|exact Hca]. intros x [<-|Hx]; auto.
    + injection H as <-. exists [], (sr :: rest).
      split; [reflexivity|]. split; [simpl; lia|].
      split; [intros x []|]. eauto.
Qed.

Lemma size_amp_first_candidate_app (skipped candidates : list SortedRun.t) :
  forall loop sr rest,
    candidates = sr :: rest -> SortedRun.being_compacted sr = false ->
    (forall x, In x skipped -> SortedRun.being_compacted x = true) ->
    size_amp_first_candidate (skipped ++ candidates) loop =
    Some (loop + length skipped)%nat.
Proof.
  induction skipped as [|x sk IH]; intros loop sr rest -> Hsr Hsk; simpl.
  - rewrite Hsr. simpl. f_equal. lia.
  - rewrite (Hsk x (or_introl eq_refl)). simpl.
    rewrite (IH (S loop) sr rest eq_refl Hsr) by (intros; apply Hsk; now right).
    f_equal. lia.
Qed.

Lemma size_amp_accumulate_some (runs : list SortedRun.t) :
  forall size count,
    (forall sr, In sr runs -> SortedRun.being_compacted sr = false) ->
    size_amp_accumulate runs size count =
    Some (fold_left (fun a sr => add64 a (SortedRun.compensated_file_size sr)) runs size,
          (count + length runs)%nat).
Proof.
  induction runs as [|sr rest IH]; intros size count H; simpl.
  - f_equal. f_equal. lia.
  - rewrite (H sr (or_introl eq_refl)).
    rewrite IH by (intros; apply H; now right). f_equal. f_equal. lia.
Qed.

Lemma size_amp_accumulate_inv (runs : list SortedRun.t) :
  forall size count r,
    size_amp_accumulate runs size count = Some r ->
    forall sr, In sr runs -> SortedRun.being_compacted sr = false.
Proof.
  induction runs as [|x rest IH]; intros size count r H sr Hin; simpl in *.
  - contradiction.
  - destruct (SortedRun.being_compacted x) eqn:Hx; [discriminate|].
    destruct Hin as [<-|Hin]; [exact Hx|]. eapply IH; eauto.
Qed.

(** The claim as stated for C2 fails.  In the first scenario the newest run
    is under compaction, so the document's condition does not hold, and yet
    the strategy returns a plan for the two runs below it.  Reading the
    condition leniently does not help: in the second scenario the run under
    compaction is skipped together with its size, the remaining candidate
    size 1 is below twice the bottommost size 100, and no plan is returned,
    although the sum over all runs above the bottommost, 1001, meets the
    threshold. *)
Lemma size_amp_skips_leading_compacting_runs :
  ((exists c, PickCompactionToReduceSizeAmp one_path (mk_mutable_cf_options 1)
                amp_vstorage amp_runs = Some c) /\
   ~ size_amp_claimed amp_runs 200) /\
  (PickCompactionToReduceSizeAmp one_path (mk_mutable_cf_options 1)
     skipped_vstorage skipped_runs = None /\
   size_amp_claimed_lenient skipped_runs 200).
Proof.
  split; split.
  - eexists. vm_compute. reflexivity.
  - intros (_ & Hall & _).
    specialize (Hall (run_of_file (mk_file 3 1000 true false))).
    simpl in Hall. discriminate Hall. now left.
  - vm_compute. reflexivity.
  - split; [reflexivity|]. split.
    + exists [run_of_file (mk_file 3 1000 true false)],
             [run_of_file (mk_file 2 1 false false)].
      split; [reflexivity|].
      split; intros sr [<-|[]]; reflexivity.
    + vm_compute. discriminate.
Qed.

(** C2 (amended): the strategy returns a plan if and only if the bottommost
    run is not being compacted, and the runs above it split into a (possibly
    empty) prefix of runs under compaction, which is skipped, and a
    non-empty rest of which no run is under compaction, and that, with
    [candidate_size] the sum of the compensated sizes of that rest,
    [candidate_size * 100 >= max_size_amplification_percent *
    earliest_file_size] in 64-bit unsigned arithmetic. *)
Theorem PickCompactionToReduceSizeAmp_triggers
        (ioptions : ImmutableCFOptions) (mutable_cf_options : MutableCFOptions)
        (vstorage : VersionStorageInfo) (sorted_runs : list SortedRun.t) :
  sorted_runs <> [] ->
  ((exists c, PickCompactionToReduceSizeAmp ioptions mutable_cf_options
                vstorage sorted_runs = Some c) <->
   size_amp_triggers sorted_runs
     (max_size_amplification_percent
        (compaction_options_universal mutable_cf_options))).
Proof.
  intros _. unfold PickCompactionToReduceSizeAmp, size_amp_triggers. split.
  - intros [c H].
    destruct (SortedRun.being_compacted (back sorted_runs)) eqn:Hback; [discriminate|].
    split; [reflexivity|].
    destruct (size_amp_first_candidate (removelast sorted_runs) 0) as [start_index|] eqn:Hfirst;
      [|discriminate].
    destruct (size_amp_first_candidate_some _ _ _ Hfirst)
      as (sk & ca & Hsplit & Hidx & Hsk & (sr & rest & Hca & Hsr)).
    simpl in Hidx. subst start_index.
    rewrite Hsplit in H. rewrite skipn_app, skipn_all, Nat.sub_diag in H.
    simpl in H.
    destruct (size_amp_accumulate ca 0 0) as [[candidate_size candidate_count]|] eqn:Hacc;
      [|discriminate].
    pose proof (size_amp_accumulate_inv _ _ _ _ Hacc) as Hnone.
    rewrite (size_amp_accumulate_some _ _ _ Hnone) in Hacc.
    injection Hacc as <- <-.
    destruct (Nat.eqb _ 0); [discriminate|].
    destruct (mul64 _ 100 <? mul64 _ _) eqn:Hcmp; [discriminate|].
    apply Z.ltb_ge in Hcmp.
    exists sk, ca. repeat split; auto.
    + rewrite Hca. discriminate.
    + unfold sum_compensated. lia.
  - intros (Hback & sk & ca & Hsplit & Hne & Hsk & Hca & Hcmp).
    rewrite Hback.
    destruct ca as [|sr rest]; [congruence|].
    rewrite Hsplit.
    rewrite (size_amp_first_candidate_app sk (sr :: rest) 0 sr rest eq_refl)
      by (auto; apply Hca; now left).
    simpl Nat.add. rewrite skipn_app, skipn_all, Nat.sub_diag. simpl skipn.
    simpl app.
    rewrite (size_amp_accumulate_some _ _ _ Hca).
    simpl Nat.add. simpl Nat.eqb.
    unfold sum_compensated in Hcmp.
    destruct (mul64 _ 100 <? mul64 _ _) eqn:Hlt.
    + apply Z.ltb_lt in Hlt. lia.
    + eexists. reflexivity.
Qed.

Lemma PickCompactionToReduceSizeAmp_triggers_witness :
  amp_runs <> [] /\
  size_amp_triggers amp_runs
    (max_size_amplification_percent
       (compaction_options_universal (mk_mutable_cf_options 1))).
Proof.
  split; [discriminate|].
  apply (proj1 (PickCompactionToReduceSizeAmp_triggers one_path
                  (mk_mutable_cf_options 1) amp_vstorage amp_runs
                  ltac:(discriminate))).
  eexists. vm_compute. reflexivity.
Defined.

(** The size-amplification strategy picks no sorted run that is being
    compacted. *)
Lemma PickCompactionToReduceSizeAmp_idle_runs
      (ioptions : ImmutableCFOptions) (mutable_cf_options : MutableCFOptions)
      (vstorage : VersionStorageInfo) (sorted_runs : list SortedRun.t)
      (c : Compaction) :
  sorted_runs <> [] ->
  PickCompactionToReduceSizeAmp ioptions mutable_cf_options vstorage sorted_runs =
    Some c ->
  exists start_index,
    let picked := skipn start_index sorted_runs in
    inputs c =
      pick_runs vstorage
        (SortedRun.level (nth start_index sorted_runs default_run)) picked
        (init_inputs (Z.to_nat (num_levels vstorage))
           (SortedRun.level (nth start_index sorted_runs default_run))) /\
    forall sr, In sr picked -> SortedRun.being_compacted sr = false.
Proof.
  intros Hne H. unfold PickCompactionToReduceSizeAmp in H.
  destruct (SortedRun.being_compacted (back sorted_runs)) eqn:Hback; [discriminate|].
  destruct (size_amp_first_candidate (removelast sorted_runs) 0)
    as [start_index|] eqn:Hfirst; [|discriminate].
  destruct (size_amp_first_candidate_some _ _ _ Hfirst)
    as (sk & ca & Hsplit & Hidx & Hsk & _).
  simpl in Hidx. subst start_index.
  destruct (size_amp_accumulate (skipn (length sk) (removelast sorted_runs)) 0 0)
    as [[candidate_size candidate_count]|] eqn:Hacc; [|discriminate].
  pose proof (size_amp_accumulate_inv _ _ _ _ Hacc) as Hidle.
  destruct (Nat.eqb candidate_count 0); [discriminate|].
  destruct (mul64 candidate_size 100 <? _); [discriminate|].
  injection H as <-. exists (length sk). cbn zeta. split; [reflexivity|].
  intros sr Hsr.
  rewrite (app_removelast_last default_run Hne) in Hsr.
  rewrite skipn_app in Hsr. apply in_app_or in Hsr. destruct Hsr as [Hsr|Hsr].
  - apply Hidle. exact Hsr.
  - apply skipn_incl in Hsr. destruct Hsr as [<-|[]]. exact Hback.
Qed.

(** ** PickDeleteTriggeredCompaction on a single-level engine *)

Lemma delete_triggered_scan_true (level0 : list FileMetaData.t) :
  delete_triggered_scan level0 true = level0.
Proof.
  induction level0 as [|f rest IH]; simpl; [reflexivity|].
  destruct (FileMetaData.marked_for_compaction f); now rewrite IH.
Qed.

Lemma delete_triggered_scan_older (level0 : list FileMetaData.t) :
  first_marked_and_older level0 (delete_triggered_scan level0 false).
Proof.
  induction level0 as [|f rest IH]; simpl.
  - apply fmo_none. intros f [].
  - destruct (FileMetaData.marked_for_compaction f) eqn:Hm.
    + rewrite delete_triggered_scan_true.
      apply (fmo_some [] f rest); [intros x []|exact Hm].
    + inversion IH as [l Hall Hl Hsel | newer m older Hnewer Hmarked Hl Hsel].
      * apply fmo_none. intros x [<-|Hx]; auto.
      * apply (fmo_some (f :: newer) m older); auto.
        intros x [<-|Hx]; auto.
Qed.

(** The selection is determined by the level-0 list. *)
Lemma first_marked_and_older_unique (level0 s1 s2 : list FileMetaData.t) :
  first_marked_and_older level0 s1 -> first_marked_and_older level0 s2 -> s1 = s2.
Proof.
  intros H1. revert s2.
  induction H1 as [l Hall | newer m older Hnewer Hm]; intros s2 H2.
  - inversion H2 as [l' Hall' | newer' m' older' Hnewer' Hm' Hl]; [reflexivity|].
    subst l. rewrite Hall in Hm'; [discriminate|].
    apply in_or_app. right. now left.
  - remember (newer ++ m :: older) as l eqn:El.
    revert newer Hnewer El.
    induction H2 as [l Hall | newer' m' older' Hnewer' Hm']; intros newer Hnewer El.
    + subst l. rewrite Hall in Hm; [discriminate|].
      apply in_or_app. right. now left.
    + revert newer' Hnewer' El.
      induction newer as [|x newer IHn]; intros [|y newer'] Hnewer' El; simpl in El.
      * congruence.
      * injection El as -> _. rewrite Hnewer' in Hm; [discriminate|now left].
      * injection El as -> _. rewrite Hnewer in Hm'; [discriminate|now left].
      * injection El as -> El.
        apply (IHn (fun f Hf => Hnewer f (or_intror Hf)) newer'
                   (fun f Hf => Hnewer' f (or_intror Hf)) El).
Qed.

(** The claim as stated for C3 fails: with the middle one of three level-0
    files marked, the plan holds the marked file and the older one, not the
    marked file and the newer one. *)
Lemma delete_triggered_picks_older_files :
  first_marked_and_newer marked_files =
    [mk_file 3 10 false false; mk_file 2 10 false true] /\
  exists c,
    @PickDeleteTriggeredCompaction declining_base empty_state one_path
      (mk_mutable_cf_options 1) marked_vstorage = Some c /\
    inputs c = [{| level := 0;
                   files := [mk_file 2 10 false true; mk_file 1 10 false false] |}] /\
    inputs c <> [{| level := 0; files := first_marked_and_newer marked_files |}].
Proof.
  split; [reflexivity|].
  eexists. split; [vm_compute; reflexivity|].
  split; [reflexivity|]. vm_compute. discriminate.
Qed.

(** C3 (amended): when [num_levels == 1], the strategy selects the first
    marked-for-compaction level-0 file together with all the files after it
    in the level-0 order, which are the older ones (index 0 is the newest),
    and returns no plan when this selection contains at most one file. *)
Theorem PickDeleteTriggeredCompaction_single_level
        (base : CompactionPickerBase) (st : PickerState)
        (ioptions : ImmutableCFOptions) (mutable_cf_options : MutableCFOptions)
        (vstorage : VersionStorageInfo) :
  num_levels vstorage = 1 ->
  exists selection,
    first_marked_and_older (LevelFiles vstorage 0) selection /\
    ((length selection <= 1)%nat ->
     PickDeleteTriggeredCompaction st ioptions mutable_cf_options vstorage = None) /\
    ((1 < length selection)%nat ->
     exists c,
       PickDeleteTriggeredCompaction st ioptions mutable_cf_options vstorage = Some c /\
       inputs c = [{| level := 0; files := selection |}] /\
       output_level c = 0).
Proof.
  intros Hn. exists (delete_triggered_scan (LevelFiles vstorage 0) false).
  split; [apply delete_triggered_scan_older|].
  unfold PickDeleteTriggeredCompaction, delete_triggered_inputs.
  rewrite Hn. simpl Z.eqb. cbn iota. cbn beta zeta. simpl files.
  split; intros Hlen.
  - apply Nat.leb_le in Hlen. rewrite Hlen. reflexivity.
  - apply Nat.leb_gt in Hlen. rewrite Hlen. eexists. repeat split.
Qed.

Lemma PickDeleteTriggeredCompaction_single_level_witness :
  num_levels marked_vstorage = 1 /\
  exists selection,
    first_marked_and_older (LevelFiles marked_vstorage 0) selection /\
    ((length selection <= 1)%nat ->
     @PickDeleteTriggeredCompaction declining_base empty_state one_path
       (mk_mutable_cf_options 1) marked_vstorage = None) /\
    ((1 < length selection)%nat ->
     exists c,
       @PickDeleteTriggeredCompaction declining_base empty_state one_path
         (mk_mutable_cf_options 1) marked_vstorage = Some c /\
       inputs c = [{| level := 0; files := selection |}] /\
       output_level c = 0).
Proof.
  split; [reflexivity|].
  apply (PickDeleteTriggeredCompaction_single_level declining_base empty_state
           one_path (mk_mutable_cf_options 1) marked_vstorage).
  reflexivity.
Defined.

(** ** IsInputFilesNonOverlapping *)

Section NonOverlapping.
Context {icmp : InternalKeyComparator}.
Variable c : Compaction.

Lemma heap_measure_app (q1 q2 : SmallestKeyHeap) :
  heap_measure c (q1 ++ q2) = (heap_measure c q1 + heap_measure c q2)%nat.
Proof.
  induction q1 as [|x q1 IH]; simpl; [reflexivity|]. rewrite IH. lia.
Qed.

Lemma info_weight_pos (e : InputFileInfo.t) : (1 <= info_weight c e)%nat.
Proof. unfold info_weight. destruct (negb _); lia. Qed.

Lemma heap_pop_measure (q q' : SmallestKeyHeap) (x : InputFileInfo.t) :
  heap_pop q = Some (x, q') ->
  heap_measure c q = (info_weight c x + heap_measure c q')%nat.
Proof.
  revert q' x. induction q as [|y rest IH]; intros q' x H; simpl in H.
  - discriminate.
  - destruct (heap_pop rest) as [[z rest']|] eqn:Hpop.
    + specialize (IH _ _ eq_refl).
      destruct (SmallestKeyHeapComparator y z); injection H as <- <-; simpl; lia.
    + injection H as <- <-. destruct rest; [simpl; lia|].
      simpl in Hpop. destruct (heap_pop rest) as [[? ?]|];
        [destruct (SmallestKeyHeapComparator _ _)|]; discriminate.
Qed.

Lemma heap_pop_none (q : SmallestKeyHeap) : heap_pop q = None -> q = [].
Proof.
  destruct q as [|x rest]; [reflexivity|]. simpl.
  destruct (heap_pop rest) as [[? ?]|];
    [destruct (SmallestKeyHeapComparator _ _)|]; discriminate.
Qed.

Lemma next_of_weight (curr next : InputFileInfo.t) :
  next_of c curr = Some next -> info_weight c curr = S (info_weight c next).
Proof.
  unfold next_of, info_weight.
  destruct (negb (c_level c (InputFileInfo.level curr) =? 0)) eqn:Hl;
    cbn [andb]; [|discriminate].
  destruct (InputFileInfo.index curr <? _ - 1)%nat eqn:Hi; [|discriminate].
  destruct (c_input _ _ _); [|discriminate].
  intros H. injection H as <-.
  cbn [InputFileInfo.level InputFileInfo.index]. rewrite Hl.
  apply Nat.ltb_lt in Hi. lia.
Qed.

Lemma push_next_measure (curr : InputFileInfo.t) (q : SmallestKeyHeap) :
  (S (heap_measure c (push_next c curr q)) <= info_weight c curr + heap_measure c q)%nat.
Proof.
  unfold push_next. destruct (next_of c curr) as [next|] eqn:Hn.
  - unfold heap_push. rewrite heap_measure_app. simpl.
    rewrite (next_of_weight _ _ Hn). lia.
  - pose proof (info_weight_pos curr). lia.
Qed.

(** With fuel for every remaining file the loop runs to its end. *)
Lemma nonoverlapping_loop_total (fuel : nat) :
  forall q prev, (heap_measure c q <= fuel)%nat ->
                 exists b, nonoverlapping_loop fuel c q prev = Some b.
Proof.
  induction fuel as [|fuel IH]; intros q prev Hm.
  - destruct q as [|x rest].
    + exists true. reflexivity.
    + simpl in Hm. pose proof (info_weight_pos x). lia.
  - destruct (heap_pop q) as [[curr q']|] eqn:Hpop.
    + simpl. rewrite Hpop.
      destruct (match prev with Some _ => _ | None => false end).
      * eexists. reflexivity.
      * apply IH. pose proof (heap_pop_measure _ _ _ Hpop).
        pose proof (push_next_measure curr q'). lia.
    + simpl. rewrite Hpop. eexists. reflexivity.
Qed.

(** The loop answers whether the files it pops form a chain. *)
Lemma nonoverlapping_loop_walk (fuel : nat) :
  forall q prev b,
    nonoverlapping_loop fuel c q prev = Some b ->
    (b = true <-> chained_from prev (heap_walk fuel c q)).
Proof.
  induction fuel as [|fuel IH]; intros q prev b H.
  - simpl in *. destruct (heap_pop q) as [[curr q']|]; [discriminate|].
    injection H as <-. unfold chained_from. destruct prev; simpl; tauto.
  - simpl in *. destruct (heap_pop q) as [[curr q']|] eqn:Hpop.
    + destruct prev as [p|].
      * destruct (Compare _ _ >=? 0) eqn:Hcmp.
        -- injection H as <-. unfold chained_from. simpl.
           apply Z.geb_le in Hcmp. split; [discriminate|]. intros [Hlt _]. lia.
        -- specialize (IH _ _ _ H). rewrite IH. unfold chained_from. simpl.
           assert (Hlt : Compare (FileMetaData.largest (InputFileInfo.f p))
                           (FileMetaData.smallest (InputFileInfo.f curr)) < 0).
           { destruct (Z.geb_spec (Compare (FileMetaData.largest (InputFileInfo.f p))
                           (FileMetaData.smallest (InputFileInfo.f curr))) 0);
               [discriminate|lia]. }
           tauto.
      * specialize (IH _ _ _ H). rewrite IH. unfold chained_from. simpl. tauto.
    + injection H as <-. unfold chained_from. destruct prev; simpl; tauto.
Qed.

Lemma level0_infos_spec (fs pre : list FileMetaData.t) :
  files (input_level_at c 0) = pre ++ fs ->
  forall e, In e (level0_infos fs (length pre)) -> info_valid c e.
Proof.
  revert pre. induction fs as [|f rest IH]; intros pre Hfs e He; simpl in He.
  - contradiction.
  - destruct He as [<-|He].
    + unfold info_valid, c_input. simpl. rewrite Hfs.
      rewrite nth_error_app2, Nat.sub_diag by lia. reflexivity.
    + apply (IH (pre ++ [f])).
      * rewrite Hfs, <- app_assoc. reflexivity.
      * rewrite length_app. simpl. rewrite Nat.add_1_r. exact He.
Qed.

Lemma level0_infos_measure (fs : list FileMetaData.t) (i : nat) :
  start_level c = 0 ->
  heap_measure c (level0_infos fs i) = length fs.
Proof.
  intros H0. revert i. induction fs as [|f rest IH]; intros i; simpl; [reflexivity|].
  rewrite IH. unfold info_weight. simpl.
  unfold start_level in H0. rewrite H0. reflexivity.
Qed.

Lemma create_level_heap_from_spec (levels pre : list CompactionInputFiles)
      (q : SmallestKeyHeap) :
  inputs c = pre ++ levels ->
  (forall e, In e q -> info_valid c e) ->
  let q' := create_level_heap_from (start_level c =? 0) levels (length pre) q in
  (forall e, In e q' -> info_valid c e) /\
  (heap_measure c q' <=
   heap_measure c q + fold_right (fun lv n => length (files lv) + n) 0 levels)%nat.
Proof.
  revert pre q. induction levels as [|lv rest IH]; intros pre q Hin Hq; cbn zeta.
  - simpl. split; [exact Hq|lia].
  - simpl create_level_heap_from. simpl fold_right.
    assert (Hlv : input_level_at c (length pre) = lv).
    { unfold input_level_at. rewrite Hin, app_nth2, Nat.sub_diag by lia. reflexivity. }
    assert (Hnext : inputs c = (pre ++ [lv]) ++ rest)
      by (rewrite <- app_assoc; exact Hin).
    assert (Hlen : length (pre ++ [lv]) = S (length pre))
      by (rewrite length_app; simpl; lia).
    destruct (files lv) as [|first more] eqn:Hfiles.
    + specialize (IH (pre ++ [lv]) q Hnext Hq). rewrite Hlen in IH.
      cbn zeta in IH. destruct IH as [IH1 IH2]. split; [exact IH1|].
      simpl length. lia.
    + destruct (Nat.eqb (length pre) 0 && (start_level c =? 0)) eqn:Hb.
      * apply andb_prop in Hb. destruct Hb as [Hl H0].
        apply Nat.eqb_eq in Hl. apply Z.eqb_eq in H0.
        assert (Hq' : forall e, In e (q ++ level0_infos (first :: more) 0) -> info_valid c e).
        { intros e He. apply in_app_or in He. destruct He as [He|He]; [auto|].
          apply (level0_infos_spec (first :: more) []); [|exact He].
          rewrite <- Hl, Hlv. exact Hfiles. }
        specialize (IH (pre ++ [lv]) _ Hnext Hq'). rewrite Hlen in IH.
        cbn zeta in IH. destruct IH as [IH1 IH2]. split; [exact IH1|].
        rewrite heap_measure_app, level0_infos_measure in IH2 by exact H0.
        simpl length in *. lia.
      * set (e0 := {| InputFileInfo.f := first; InputFileInfo.level := length pre;
                      InputFileInfo.index := 0 |}).
        assert (Hq' : forall e, In e (heap_push q e0) -> info_valid c e).
        { intros e He. apply in_app_or in He. destruct He as [He|[<-|[]]]; [auto|].
          unfold info_valid, c_input. simpl. rewrite Hlv, Hfiles. reflexivity. }
        specialize (IH (pre ++ [lv]) _ Hnext Hq'). rewrite Hlen in IH.
        cbn zeta in IH. destruct IH as [IH1 IH2]. split; [exact IH1|].
        unfold heap_push in *. rewrite heap_measure_app in IH2.
        assert (Hw : (info_weight c e0 <= length (first :: more))%nat).
        { unfold info_weight, num_input_files. simpl InputFileInfo.level.
          simpl InputFileInfo.index. rewrite Hlv, Hfiles.
          destruct (negb _); simpl; lia. }
        change (heap_measure c [e0]) with (info_weight c e0 + 0)%nat in IH2.
        simpl length in *. lia.
Qed.

Lemma create_level_heap_valid :
  forall e, In e (create_level_heap c) -> info_valid c e.
Proof.
  apply (create_level_heap_from_spec (inputs c) [] [] eq_refl). intros e [].
Qed.

Lemma create_level_heap_measure :
  (heap_measure c (create_level_heap c) <= total_input_files c)%nat.
Proof.
  pose proof (create_level_heap_from_spec (inputs c) [] [] eq_refl
                ltac:(intros e [])) as [_ H].
  exact H.
Qed.

Lemma strictly_chained_nth (fs : list FileMetaData.t) :
  strictly_chained fs ->
  forall i a b,
    nth_error fs i = Some a -> nth_error fs (S i) = Some b ->
    Compare (FileMetaData.largest a) (FileMetaData.smallest b) < 0.
Proof.
  induction fs as [|x rest IH]; intros Hc i a b Ha Hb.
  - destruct i; discriminate.
  - destruct rest as [|y rest'].
    + destruct i; simpl in Hb; [discriminate|destruct i; discriminate].
    + destruct Hc as [Hxy Hrest]. destruct i as [|i].
      * simpl in Ha, Hb. injection Ha as <-. injection Hb as <-. exact Hxy.
      * apply (IH Hrest i a b); assumption.
Qed.

Lemma heap_walk_nil (fuel : nat) : heap_walk fuel c [] = [].
Proof. destruct fuel; reflexivity. Qed.

Lemma next_of_valid (curr next : InputFileInfo.t) :
  next_of c curr = Some next ->
  info_valid c next /\
  InputFileInfo.level next = InputFileInfo.level curr /\
  InputFileInfo.index next = S (InputFileInfo.index curr) /\
  c_level c (InputFileInfo.level curr) <> 0.
Proof.
  unfold next_of.
  destruct (c_level c (InputFileInfo.level curr) =? 0) eqn:Hl; cbn [negb andb];
    [discriminate|].
  destruct (InputFileInfo.index curr <? _ - 1)%nat; [|discriminate].
  destruct (c_input _ _ _) as [f'|] eqn:Hin; [|discriminate].
  intros H. injection H as <-. unfold info_valid. simpl.
  apply Z.eqb_neq in Hl. auto.
Qed.

(** A heap of a single front enumerates the rest of that front's level in
    order (or, in level 0, the front alone); in a sorted level that is a
    chain. *)
Lemma heap_walk_single (fuel : nat) :
  forall e,
    info_valid c e ->
    (c_level c (InputFileInfo.level e) <> 0 ->
     strictly_chained (files (input_level_at c (InputFileInfo.level e)))) ->
    strictly_chained (map InputFileInfo.f (heap_walk fuel c [e])) /\
    (heap_walk fuel c [e] = [] \/ exists tl, heap_walk fuel c [e] = e :: tl).
Proof.
  induction fuel as [|fuel IH]; intros e Hv Hsorted.
  - simpl. split; [exact I|now left].
  - change (heap_walk (S fuel) c [e]) with (e :: heap_walk fuel c (push_next c e [])).
    split; [|right; eauto].
    unfold push_next. destruct (next_of c e) as [next|] eqn:Hn.
    + destruct (next_of_valid _ _ Hn) as (Hvn & Hlev & Hidx & Hnz).
      change (heap_push [] next) with [next].
      rewrite <- Hlev in Hsorted.
      destruct (IH next Hvn Hsorted) as [Hchain Hhead].
      destruct Hhead as [E|[tl E]]; rewrite E in *; [exact I|].
      simpl. split; [|exact Hchain].
      rewrite Hlev in Hsorted.
      apply (strictly_chained_nth _ (Hsorted Hnz) (InputFileInfo.index e)).
      * exact Hv.
      * unfold info_valid, c_input in Hvn. rewrite Hlev, Hidx in Hvn. exact Hvn.
    + rewrite heap_walk_nil. exact I.
Qed.

Lemma info_valid_level_in (e : InputFileInfo.t) :
  info_valid c e -> In (input_level_at c (InputFileInfo.level e)) (inputs c).
Proof.
  unfold info_valid, c_input, input_level_at. intros H.
  destruct (nth_in_or_default (InputFileInfo.level e) (inputs c)
              {| level := 0; files := [] |}) as [Hin|Hd]; [exact Hin|].
  rewrite Hd in H. simpl in H. destruct (InputFileInfo.index e); discriminate.
Qed.

(** What the function computes, with no assumption on the plan: the heap
    starts with at most one front, or the enumerated files form a chain. *)
Lemma IsInputFilesNonOverlapping_exact :
  IsInputFilesNonOverlapping c = true <->
  (length (create_level_heap c) <= 1)%nat \/ strictly_chained (enumerate_inputs c).
Proof.
  unfold IsInputFilesNonOverlapping, enumerate_inputs.
  destruct (length (create_level_heap c) <=? 1)%nat eqn:Hlen.
  - apply Nat.leb_le in Hlen. tauto.
  - apply Nat.leb_gt in Hlen.
    destruct (nonoverlapping_loop_total (total_input_files c)
                (create_level_heap c) None create_level_heap_measure) as [b Hb].
    rewrite Hb. pose proof (nonoverlapping_loop_walk _ _ _ _ Hb) as Hw.
    unfold chained_from in Hw. rewrite Hw. split; [tauto|].
    intros [H|H]; [lia|exact H].
Qed.

End NonOverlapping.

(** The heap walk on a plan of the picker: level-0 files a..b and c..d, then
    the lower level's e..f and g..h. *)
Example enumerate_disjoint_plan :
  map FileMetaData.number (@enumerate_inputs BytewiseComparator disjoint_plan) =
  [3; 4; 1; 2].
Proof. vm_compute. reflexivity. Qed.

(** ** The enumeration through the heap of file fronts *)

Section Enumeration.
Context {icmp : InternalKeyComparator}.
Variable c : Compaction.

Lemma heap_pop_perm (q : SmallestKeyHeap) :
  forall x q', heap_pop q = Some (x, q') -> Permutation q (x :: q').
Proof.
  induction q as [|y rest IH]; intros x q' H; simpl in H; [discriminate|].
  destruct (heap_pop rest) as [[z rest']|] eqn:Hpop.
  - specialize (IH _ _ eq_refl).
    destruct (SmallestKeyHeapComparator y z); injection H as <- <-.
    + rewrite IH. apply perm_swap.
    + reflexivity.
  - injection H as <- <-. rewrite (heap_pop_none _ Hpop). reflexivity.
Qed.

(** The files an element stands for are its own file and those its
    successor stands for. *)
Lemma info_rest_step (curr : InputFileInfo.t) :
  info_valid c curr ->
  info_rest c curr =
  InputFileInfo.f curr ::
  match next_of c curr with
  | Some next => info_rest c next
  | None => []
  end.
Proof.
  unfold info_valid, c_input, info_rest, next_of, c_input, num_input_files.
  intros Hv.
  destruct (c_level c (InputFileInfo.level curr) =? 0) eqn:Hl; cbn [negb andb];
    [reflexivity|].
  rewrite (skipn_nth_error _ _ _ Hv). f_equal.
  set (fs := files (input_level_at c (InputFileInfo.level curr))) in *.
  destruct (InputFileInfo.index curr <? length fs - 1)%nat eqn:Hi.
  - apply Nat.ltb_lt in Hi.
    destruct (nth_error fs (S (InputFileInfo.index curr))) as [f'|] eqn:Hn.
    + cbn [InputFileInfo.level InputFileInfo.index]. rewrite Hl. reflexivity.
    + apply nth_error_None in Hn. lia.
  - apply Nat.ltb_ge in Hi. apply skipn_all2. lia.
Qed.

Lemma push_next_valid (curr : InputFileInfo.t) (q : SmallestKeyHeap) :
  (forall e, In e q -> info_valid c e) ->
  forall e, In e (push_next c curr q) -> info_valid c e.
Proof.
  intros Hq e He. unfold push_next in He.
  destruct (next_of c curr) as [next|] eqn:Hn; [|auto].
  apply in_app_or in He. destruct He as [He|[<-|[]]]; [auto|].
  apply (next_of_valid c _ _ Hn).
Qed.

(** With fuel for every remaining file, the walk enumerates exactly the
    files the heap stands for. *)
Lemma heap_walk_perm (fuel : nat) :
  forall q,
    (heap_measure c q <= fuel)%nat ->
    (forall e, In e q -> info_valid c e) ->
    Permutation (map InputFileInfo.f (heap_walk fuel c q))
                (flat_map (info_rest c) q).
Proof.
  induction fuel as [|fuel IH]; intros q Hm Hv.
  - destruct q as [|x rest]; [reflexivity|].
    simpl in Hm. pose proof (info_weight_pos c x). lia.
  - simpl. destruct (heap_pop q) as [[curr q']|] eqn:Hpop.
    + pose proof (heap_pop_perm _ _ _ Hpop) as Hperm.
      assert (Hvc : info_valid c curr)
        by (apply Hv; apply (Permutation_in _ (Permutation_sym Hperm)); now left).
      assert (Hvq' : forall e, In e q' -> info_valid c e)
        by (intros e He; apply Hv;
            apply (Permutation_in _ (Permutation_sym Hperm)); now right).
      simpl. rewrite (Permutation_flat_map (info_rest c) Hperm). simpl.
      rewrite (info_rest_step curr Hvc). simpl. apply perm_skip.
      rewrite IH.
      * unfold push_next. destruct (next_of c curr) as [next|].
        -- unfold heap_push. rewrite flat_map_app. simpl. rewrite app_nil_r.
           apply Permutation_app_comm.
        -- reflexivity.
      * pose proof (heap_pop_measure c _ _ _ Hpop).
        pose proof (push_next_measure c curr q'). lia.
      * apply push_next_valid. exact Hvq'.
    + rewrite (heap_pop_none _ Hpop). reflexivity.
Qed.

Lemma level0_infos_rest (fs : list FileMetaData.t) (i : nat) :
  start_level c = 0 ->
  flat_map (info_rest c) (level0_infos fs i) = fs.
Proof.
  intros H0. revert i. induction fs as [|f rest IH]; intros i; simpl; [reflexivity|].
  rewrite IH. unfold info_rest. simpl.
  unfold start_level in H0. rewrite H0. reflexivity.
Qed.

Lemma create_level_heap_from_rest (levels pre : list CompactionInputFiles)
      (q : SmallestKeyHeap) :
  lower_inputs_nonzero c ->
  inputs c = pre ++ levels ->
  flat_map (info_rest c)
    (create_level_heap_from (start_level c =? 0) levels (length pre) q) =
  flat_map (info_rest c) q ++ flat_map files levels.
Proof.
  intros Hnz. revert pre q.
  induction levels as [|lv rest IH]; intros pre q Hin.
  - simpl. now rewrite app_nil_r.
  - simpl create_level_heap_from.
    assert (Hlv : input_level_at c (length pre) = lv).
    { unfold input_level_at. rewrite Hin, app_nth2, Nat.sub_diag by lia. reflexivity. }
    assert (Hnext : inputs c = (pre ++ [lv]) ++ rest)
      by (rewrite <- app_assoc; exact Hin).
    assert (Hlen : length (pre ++ [lv]) = S (length pre))
      by (rewrite length_app; simpl; lia).
    specialize (IH (pre ++ [lv])). rewrite Hlen in IH.
    destruct (files lv) as [|first more] eqn:Hfiles.
    + rewrite IH by exact Hnext. simpl. rewrite Hfiles. reflexivity.
    + destruct (Nat.eqb (length pre) 0 && (start_level c =? 0)) eqn:Hb.
      * apply andb_prop in Hb. destruct Hb as [_ H0]. apply Z.eqb_eq in H0.
        rewrite IH by exact Hnext.
        rewrite flat_map_app, level0_infos_rest by exact H0.
        simpl. rewrite Hfiles, <- app_assoc. reflexivity.
      * rewrite IH by exact Hnext. unfold heap_push.
        rewrite flat_map_app. simpl. rewrite app_nil_r, Hfiles, <- app_assoc.
        f_equal. f_equal. unfold info_rest. simpl. rewrite Hlv, Hfiles.
        assert (Hl : c_level c (length pre) <> 0).
        { destruct (Nat.eq_dec (length pre) 0) as [E|Hne].
          - rewrite E in *. simpl in Hb. apply Z.eqb_neq in Hb. exact Hb.
          - apply Hnz; [exact Hne|]. rewrite Hin, length_app. simpl. lia. }
        apply Z.eqb_neq in Hl. rewrite Hl. reflexivity.
Qed.

(** The heap walk enumerates every input file of the plan, once. *)
Lemma enumerate_inputs_permutation :
  lower_inputs_nonzero c ->
  Permutation (enumerate_inputs c) (all_input_files c).
Proof.
  intros Hnz. unfold enumerate_inputs.
  rewrite heap_walk_perm.
  - pose proof (create_level_heap_from_rest (inputs c) [] [] Hnz eq_refl) as E.
    cbn [length flat_map app] in E. unfold create_level_heap, all_input_files.
    rewrite E. reflexivity.
  - apply create_level_heap_measure.
  - apply create_level_heap_valid.
Qed.

Context {order : ComparatorOrder}.

Lemma Compare_total (a b : Slice) : Compare a b > 0 -> Compare b a <= 0.
Proof. intros H. apply Compare_antisym in H. lia. Qed.

Lemma Compare_ge_le (a b : Slice) : Compare a b >= 0 -> Compare b a <= 0.
Proof.
  intros H. destruct (Z.compare_spec (Compare b a) 0) as [E|L|G]; [lia|lia|].
  assert (Compare a b < 0) by (apply Compare_antisym; lia). lia.
Qed.

Lemma Compare_lt_le_trans (a b d : Slice) :
  Compare a b < 0 -> Compare b d <= 0 -> Compare a d < 0.
Proof.
  intros Hab Hbd.
  destruct (Z_lt_ge_dec (Compare a d) 0) as [L|G]; [exact L|].
  apply Compare_ge_le in G.
  pose proof (Compare_trans _ _ _ Hbd G) as Hba.
  apply Compare_antisym in Hab. lia.
Qed.

Lemma Compare_le_lt_trans (a b d : Slice) :
  Compare a b <= 0 -> Compare b d < 0 -> Compare a d < 0.
Proof.
  intros Hab Hbd.
  destruct (Z_lt_ge_dec (Compare a d) 0) as [L|G]; [exact L|].
  apply Compare_ge_le in G.
  pose proof (Compare_trans _ _ _ G Hab) as Hdb.
  apply Compare_antisym in Hbd. lia.
Qed.

Lemma Compare_refl (a : Slice) : Compare a a <= 0.
Proof. apply Compare_ge_le. pose proof (Compare_antisym a a). lia. Qed.

Lemma heap_pop_min (q : SmallestKeyHeap) :
  forall x q',
    heap_pop q = Some (x, q') ->
    forall y, In y q' ->
              Compare (FileMetaData.smallest (InputFileInfo.f x))
                      (FileMetaData.smallest (InputFileInfo.f y)) <= 0.
Proof.
  induction q as [|a rest IH]; intros x q' H y Hy; simpl in H; [discriminate|].
  destruct (heap_pop rest) as [[z rest']|] eqn:Hpop.
  - specialize (IH _ _ eq_refl).
    unfold SmallestKeyHeapComparator in H.
    destruct (Z.gtb_spec (Compare (FileMetaData.smallest (InputFileInfo.f a))
                                  (FileMetaData.smallest (InputFileInfo.f z))) 0)
      as [Hgt|Hle]; injection H as <- <-.
    + destruct Hy as [<-|Hy]; [apply Compare_total; lia|apply IH; exact Hy].
    + pose proof (heap_pop_perm _ _ _ Hpop) as Hperm.
      apply (Permutation_in _ Hperm) in Hy. destruct Hy as [<-|Hy]; [exact Hle|].
      apply (Compare_trans _ _ _ Hle). apply IH. exact Hy.
  - injection H as <- <-. destruct Hy.
Qed.

Lemma info_valid_in (e : InputFileInfo.t) :
  info_valid c e -> In (InputFileInfo.f e) (all_input_files c).
Proof.
  intros Hv. unfold all_input_files. apply in_flat_map.
  exists (input_level_at c (InputFileInfo.level e)).
  split; [now apply info_valid_level_in|].
  unfold info_valid, c_input in Hv. eapply nth_error_In. exact Hv.
Qed.

(** The successor of a file in a sorted level does not sort before it. *)
Lemma next_of_above (curr next : InputFileInfo.t) :
  levels_sorted c -> files_ordered c -> info_valid c curr ->
  next_of c curr = Some next ->
  Compare (FileMetaData.smallest (InputFileInfo.f curr))
          (FileMetaData.smallest (InputFileInfo.f next)) <= 0.
Proof.
  intros Hsorted Hord Hv Hn.
  destruct (next_of_valid c _ _ Hn) as (Hvn & Hlev & Hidx & Hnz).
  apply (Compare_trans _ (FileMetaData.largest (InputFileInfo.f curr))).
  - apply Hord. now apply info_valid_in.
  - assert (Hlt : Compare (FileMetaData.largest (InputFileInfo.f curr))
                    (FileMetaData.smallest (InputFileInfo.f next)) < 0).
    { apply (strictly_chained_nth
               (files (input_level_at c (InputFileInfo.level curr)))
               (Hsorted _ (info_valid_level_in c _ Hv) Hnz)
               (InputFileInfo.index curr)).
      - exact Hv.
      - unfold info_valid, c_input in Hvn. rewrite Hlev, Hidx in Hvn. exact Hvn. }
    lia.
Qed.

(** The walk pops the files in ascending order of their smallest keys, and
    never one below a lower bound of the heap. *)
Lemma heap_walk_ascending (fuel : nat) :
  levels_sorted c -> files_ordered c ->
  forall q,
    (forall e, In e q -> info_valid c e) ->
    ascending (map InputFileInfo.f (heap_walk fuel c q)) /\
    (forall lb,
        (forall e, In e q ->
                   Compare lb (FileMetaData.smallest (InputFileInfo.f e)) <= 0) ->
        forall x, In x (heap_walk fuel c q) ->
                  Compare lb (FileMetaData.smallest (InputFileInfo.f x)) <= 0).
Proof.
  intros Hsorted Hord. induction fuel as [|fuel IH]; intros q Hv.
  - simpl. destruct (heap_pop q) as [[? ?]|]; split; try exact I; intros ? ? ? [].
  - simpl. destruct (heap_pop q) as [[curr q']|] eqn:Hpop;
      [|split; [exact I|intros ? ? ? []]].
    pose proof (heap_pop_perm _ _ _ Hpop) as Hperm.
    assert (Hvc : info_valid c curr)
      by (apply Hv; apply (Permutation_in _ (Permutation_sym Hperm)); now left).
    assert (Hvq' : forall e, In e q' -> info_valid c e)
      by (intros e He; apply Hv;
          apply (Permutation_in _ (Permutation_sym Hperm)); now right).
    assert (Habove : forall e, In e (push_next c curr q') ->
              Compare (FileMetaData.smallest (InputFileInfo.f curr))
                      (FileMetaData.smallest (InputFileInfo.f e)) <= 0).
    { intros e He. unfold push_next in He.
      destruct (next_of c curr) as [next|] eqn:Hn.
      - apply in_app_or in He. destruct He as [He|[<-|[]]].
        + apply (heap_pop_min _ _ _ Hpop). exact He.
        + now apply next_of_above.
      - apply (heap_pop_min _ _ _ Hpop). exact He. }
    destruct (IH (push_next c curr q') (push_next_valid _ _ Hvq')) as [Hasc Hlb].
    specialize (Hlb _ Habove).
    split.
    + simpl. destruct (heap_walk fuel c (push_next c curr q')) as [|x walk] eqn:Hw;
        [exact I|].
      simpl. split; [apply Hlb; now left|exact Hasc].
    + intros lb Hq x [<-|Hx].
      * apply Hq. apply (Permutation_in _ (Permutation_sym Hperm)). now left.
      * apply (Compare_trans _ (FileMetaData.smallest (InputFileInfo.f curr))).
        -- apply Hq. apply (Permutation_in _ (Permutation_sym Hperm)). now left.
        -- apply Hlb. exact Hx.
Qed.

(** On the input levels of a version the heap walk enumerates the files in
    ascending order of their smallest keys. *)
Lemma enumerate_inputs_ascending :
  levels_sorted c -> files_ordered c -> ascending (enumerate_inputs c).
Proof.
  intros Hsorted Hord. unfold enumerate_inputs.
  apply heap_walk_ascending; auto. apply create_level_heap_valid.
Qed.

(** *** Any priority queue gives the same answer *)

Lemma strictly_chained_tail (f : FileMetaData.t) (fs : list FileMetaData.t) :
  strictly_chained (f :: fs) -> strictly_chained fs.
Proof. destruct fs as [|g rest]; [intros; exact I|intros [_ H]; exact H]. Qed.

Lemma strictly_chained_skipn (n : nat) :
  forall fs, strictly_chained fs -> strictly_chained (skipn n fs).
Proof.
  induction n as [|n IH]; intros fs H; [exact H|].
  destruct fs as [|f rest]; [exact I|].
  simpl. apply IH. now apply strictly_chained_tail in H.
Qed.

(** In a chain of files whose keys are in order, every file lies above the
    first. *)
Lemma strictly_chained_head_below (fs : list FileMetaData.t) :
  (forall x, In x fs ->
             Compare (FileMetaData.smallest x) (FileMetaData.largest x) <= 0) ->
  forall p, strictly_chained (p :: fs) ->
            forall x, In x fs ->
                      Compare (FileMetaData.largest p) (FileMetaData.smallest x) < 0.
Proof.
  induction fs as [|g rest IH]; intros Hord p Hc x Hx; [destruct Hx|].
  destruct Hc as [Hpg Hrest].
  destruct Hx as [<-|Hx]; [exact Hpg|].
  apply (Compare_lt_le_trans _ (FileMetaData.largest g)).
  - apply (Compare_lt_le_trans _ (FileMetaData.smallest g)); [exact Hpg|].
    apply Hord. now left.
  - assert (H : Compare (FileMetaData.largest g) (FileMetaData.smallest x) < 0).
    { apply IH; [intros y Hy; apply Hord; now right|exact Hrest|exact Hx]. }
    lia.
Qed.

Lemma info_rest_incl (e : InputFileInfo.t) :
  info_valid c e ->
  forall x, In x (info_rest c e) -> In x (all_input_files c).
Proof.
  intros Hv x Hx. unfold info_rest in Hx.
  destruct (negb (c_level c (InputFileInfo.level e) =? 0)).
  - apply skipn_incl in Hx. unfold all_input_files. apply in_flat_map.
    exists (input_level_at c (InputFileInfo.level e)).
    split; [now apply info_valid_level_in|exact Hx].
  - destruct Hx as [<-|[]]. now apply info_valid_in.
Qed.

(** The files an element stands for do not sort before its own file. *)
Lemma info_rest_above (e : InputFileInfo.t) :
  levels_sorted c -> files_ordered c -> info_valid c e ->
  forall x, In x (info_rest c e) ->
            Compare (FileMetaData.smallest (InputFileInfo.f e))
                    (FileMetaData.smallest x) <= 0.
Proof.
  intros Hsorted Hord Hv x Hx.
  pose proof (info_rest_incl e Hv) as Hincl.
  unfold info_rest in *.
  destruct (negb (c_level c (InputFileInfo.level e) =? 0)) eqn:Hl.
  - unfold info_valid, c_input in Hv.
    assert (Hchain : strictly_chained
                       (skipn (InputFileInfo.index e)
                              (files (input_level_at c (InputFileInfo.level e))))).
    { apply strictly_chained_skipn. apply Hsorted.
      - apply info_valid_level_in. exact Hv.
      - apply negb_true_iff in Hl. apply Z.eqb_neq in Hl. exact Hl. }
    rewrite (skipn_nth_error _ _ _ Hv) in Hchain, Hx, Hincl.
    destruct Hx as [<-|Hx]; [apply Compare_refl|].
    assert (H : Compare (FileMetaData.largest (InputFileInfo.f e))
                        (FileMetaData.smallest x) < 0).
    { eapply strictly_chained_head_below; [|exact Hchain|exact Hx].
      intros y Hy. apply Hord. apply Hincl. now right. }
    apply (Compare_trans _ (FileMetaData.largest (InputFileInfo.f e))); [|lia].
    apply Hord. apply Hincl. now left.
  - destruct Hx as [<-|[]]. apply Compare_refl.
Qed.

Lemma is_top_valid (q q' : SmallestKeyHeap) (curr : InputFileInfo.t) :
  is_top q curr q' ->
  (forall e, In e q -> info_valid c e) ->
  info_valid c curr /\ (forall e, In e q' -> info_valid c e).
Proof.
  intros [Hperm _] Hv. split.
  - apply Hv. apply (Permutation_in _ (Permutation_sym Hperm)). now left.
  - intros e He. apply Hv. apply (Permutation_in _ (Permutation_sym Hperm)). now right.
Qed.

(** Popping [curr] and pushing its successor removes the file of [curr]
    from the files the heap stands for. *)
Lemma is_top_rest (q q' : SmallestKeyHeap) (curr : InputFileInfo.t) :
  is_top q curr q' ->
  info_valid c curr ->
  Permutation (flat_map (info_rest c) q)
              (InputFileInfo.f curr :: flat_map (info_rest c) (push_next c curr q')).
Proof.
  intros [Hperm _] Hv.
  rewrite (Permutation_flat_map (info_rest c) Hperm). simpl.
  rewrite (info_rest_step curr Hv). simpl. apply perm_skip.
  unfold push_next. destruct (next_of c curr) as [next|].
  - unfold heap_push. rewrite flat_map_app. simpl. rewrite app_nil_r.
    apply Permutation_app_comm.
  - reflexivity.
Qed.

(** A chain over the files of the heap starts with the file at the top. *)
Lemma chain_starts_at_top (q q' : SmallestKeyHeap) (curr : InputFileInfo.t)
      (fs : list FileMetaData.t) :
  levels_sorted c -> files_ordered c ->
  (forall e, In e q -> info_valid c e) ->
  is_top q curr q' ->
  Permutation fs (flat_map (info_rest c) q) ->
  strictly_chained fs ->
  exists rest, fs = InputFileInfo.f curr :: rest.
Proof.
  intros Hsorted Hord Hv Htop Hperm Hchain.
  destruct (is_top_valid _ _ _ Htop Hv) as [Hvc Hvq'].
  pose proof (is_top_rest _ _ _ Htop Hvc) as Hrest.
  assert (Hin : In (InputFileInfo.f curr) fs).
  { apply (Permutation_in _ (Permutation_sym Hperm)).
    apply (Permutation_in _ (Permutation_sym Hrest)). now left. }
  assert (Hfs : forall x, In x fs -> In x (all_input_files c)).
  { intros x Hx. apply (Permutation_in _ Hperm) in Hx.
    apply in_flat_map in Hx. destruct Hx as (e & He & Hx).
    apply (info_rest_incl e); auto. }
  destruct fs as [|first rest]; [destruct Hin|].
  destruct Hin as [->|Hin]; [now exists rest|].
  exfalso.
  (* the first file of the chain lies strictly below the file at the top *)
  assert (Hbelow : Compare (FileMetaData.smallest first)
                           (FileMetaData.smallest (InputFileInfo.f curr)) < 0).
  { apply (Compare_le_lt_trans _ (FileMetaData.largest first)).
    - apply Hord. apply Hfs. now left.
    - eapply strictly_chained_head_below; [|exact Hchain|exact Hin].
      intros y Hy. apply Hord. apply Hfs. now right. }
  (* yet it belongs to an element of the heap, none of which precedes the top *)
  assert (Hfirst : In first (flat_map (info_rest c) q))
    by (apply (Permutation_in _ Hperm); now left).
  apply in_flat_map in Hfirst. destruct Hfirst as (e & He & Hfirst).
  pose proof (info_rest_above e Hsorted Hord (Hv e He) first Hfirst) as Habove.
  assert (Htope : Compare (FileMetaData.smallest (InputFileInfo.f curr))
                          (FileMetaData.smallest (InputFileInfo.f e)) <= 0).
  { destruct Htop as [Hp Hmin].
    apply (Permutation_in _ Hp) in He. destruct He as [<-|He].
    - apply Compare_refl.
    - specialize (Hmin e He). unfold SmallestKeyHeapComparator in Hmin.
      destruct (Z.gtb_spec (Compare (FileMetaData.smallest (InputFileInfo.f curr))
                                    (FileMetaData.smallest (InputFileInfo.f e))) 0);
        [discriminate|lia]. }
  pose proof (Compare_trans _ _ _ Htope Habove) as Hle.
  apply Compare_antisym in Hbelow. lia.
Qed.

(** A run that answers true has popped the files in the order of a chain. *)
Lemma heap_run_true_chain (q : SmallestKeyHeap) (prev : option InputFileInfo.t)
      (b : bool) :
  heap_run c q prev b ->
  b = true ->
  (forall e, In e q -> info_valid c e) ->
  chain_exists c prev q.
Proof.
  induction 1 as [prev|q curr q' b Htop Hrun IH|q curr q' prev Htop Hcmp
                  |q curr q' prev b Htop Hcmp Hrun IH]; intros Hb Hv.
  - exists []. split; [reflexivity|]. destruct prev; exact I.
  - destruct (is_top_valid _ _ _ Htop Hv) as [Hvc Hvq'].
    destruct (IH Hb (push_next_valid _ _ Hvq')) as (fs & Hperm & Hchain).
    exists (InputFileInfo.f curr :: fs). split; [|exact Hchain].
    rewrite (is_top_rest _ _ _ Htop Hvc). now apply perm_skip.
  - discriminate Hb.
  - destruct (is_top_valid _ _ _ Htop Hv) as [Hvc Hvq'].
    destruct (IH Hb (push_next_valid _ _ Hvq')) as (fs & Hperm & Hchain).
    exists (InputFileInfo.f curr :: fs). split.
    + rewrite (is_top_rest _ _ _ Htop Hvc). now apply perm_skip.
    + split; [exact Hcmp|exact Hchain].
Qed.

(** A run that answers false has met two files that no order can chain. *)
Lemma heap_run_false_no_chain (q : SmallestKeyHeap) (prev : option InputFileInfo.t)
      (b : bool) :
  levels_sorted c -> files_ordered c ->
  heap_run c q prev b ->
  b = false ->
  (forall e, In e q -> info_valid c e) ->
  ~ chain_exists c prev q.
Proof.
  intros Hsorted Hord.
  induction 1 as [prev|q curr q' b Htop Hrun IH|q curr q' prev Htop Hcmp
                  |q curr q' prev b Htop Hcmp Hrun IH]; intros Hb Hv (fs & Hperm & Hchain).
  - discriminate Hb.
  - destruct (is_top_valid _ _ _ Htop Hv) as [Hvc Hvq'].
    destruct (chain_starts_at_top _ _ _ _ Hsorted Hord Hv Htop Hperm Hchain)
      as (rest & ->).
    apply (IH Hb (push_next_valid _ _ Hvq')).
    exists rest. split; [|exact Hchain].
    rewrite (is_top_rest _ _ _ Htop Hvc) in Hperm.
    now apply Permutation_cons_inv in Hperm.
  - destruct (is_top_valid _ _ _ Htop Hv) as [Hvc Hvq'].
    pose proof (strictly_chained_tail _ _ Hchain) as Htail.
    destruct (chain_starts_at_top _ _ _ _ Hsorted Hord Hv Htop Hperm Htail)
      as (rest & ->).
    destruct Hchain as [Hlt _]. lia.
  - destruct (is_top_valid _ _ _ Htop Hv) as [Hvc Hvq'].
    pose proof (strictly_chained_tail _ _ Hchain) as Htail.
    destruct (chain_starts_at_top _ _ _ _ Hsorted Hord Hv Htop Hperm Htail)
      as (rest & ->).
    apply (IH Hb (push_next_valid _ _ Hvq')).
    exists rest. split; [|exact Htail].
    rewrite (is_top_rest _ _ _ Htop Hvc) in Hperm.
    now apply Permutation_cons_inv in Hperm.
Qed.

(** The answer of the loop does not depend on which of several admissible
    elements the priority queue returns as its top. *)
Lemma heap_run_deterministic (q : SmallestKeyHeap) (prev : option InputFileInfo.t)
      (b1 b2 : bool) :
  levels_sorted c -> files_ordered c ->
  (forall e, In e q -> info_valid c e) ->
  heap_run c q prev b1 -> heap_run c q prev b2 -> b1 = b2.
Proof.
  intros Hsorted Hord Hv H1 H2.
  destruct b1, b2; try reflexivity; exfalso.
  - apply (heap_run_false_no_chain _ _ _ Hsorted Hord H2 eq_refl Hv).
    apply (heap_run_true_chain _ _ _ H1 eq_refl Hv).
  - apply (heap_run_false_no_chain _ _ _ Hsorted Hord H1 eq_refl Hv).
    apply (heap_run_true_chain _ _ _ H2 eq_refl Hv).
Qed.

Lemma heap_pop_is_top (q q' : SmallestKeyHeap) (x : InputFileInfo.t) :
  heap_pop q = Some (x, q') -> is_top q x q'.
Proof.
  intros Hpop. split; [now apply heap_pop_perm|].
  intros y Hy. pose proof (heap_pop_min _ _ _ Hpop y Hy) as Hle.
  unfold SmallestKeyHeapComparator.
  destruct (Z.gtb_spec (Compare (FileMetaData.smallest (InputFileInfo.f x))
                                (FileMetaData.smallest (InputFileInfo.f y))) 0);
    [lia|reflexivity].
Qed.

(** The loop of the model is one of the runs. *)
Lemma nonoverlapping_loop_run (fuel : nat) :
  forall q prev b,
    nonoverlapping_loop fuel c q prev = Some b -> heap_run c q prev b.
Proof.
  induction fuel as [|fuel IH]; intros q prev b H; simpl in H.
  - destruct (heap_pop q) as [[curr q']|] eqn:Hpop; [discriminate|].
    injection H as <-. rewrite (heap_pop_none _ Hpop). constructor.
  - destruct (heap_pop q) as [[curr q']|] eqn:Hpop.
    + pose proof (heap_pop_is_top _ _ _ Hpop) as Htop.
      destruct prev as [prev|].
      * destruct (Z.geb_spec (Compare (FileMetaData.largest (InputFileInfo.f prev))
                                      (FileMetaData.smallest (InputFileInfo.f curr))) 0)
          as [Hge|Hlt].
        -- injection H as <-. eapply heap_run_overlap; [exact Htop|lia].
        -- eapply heap_run_next; [exact Htop|exact Hlt|]. apply IH. exact H.
      * eapply heap_run_first; [exact Htop|]. apply IH. exact H.
    + injection H as <-. rewrite (heap_pop_none _ Hpop). constructor.
Qed.

(** Whatever priority queue carries the loop, it answers as
    [IsInputFilesNonOverlapping] does. *)
Lemma IsInputFilesNonOverlapping_any_heap (b : bool) :
  levels_sorted c -> files_ordered c ->
  (2 <= length (create_level_heap c))%nat ->
  heap_run c (create_level_heap c) None b ->
  IsInputFilesNonOverlapping c = b.
Proof.
  intros Hsorted Hord Hlen Hrun. unfold IsInputFilesNonOverlapping.
  destruct (Nat.leb_spec (length (create_level_heap c)) 1) as [Hle|_]; [lia|].
  destruct (nonoverlapping_loop_total c (total_input_files c)
              (create_level_heap c) None (create_level_heap_measure c)) as (b' & Hb').
  rewrite Hb'.
  apply (heap_run_deterministic (create_level_heap c) None); auto.
  - apply create_level_heap_valid.
  - now apply nonoverlapping_loop_run in Hb'.
Qed.

End Enumeration.

(** C4: on the input levels of a version, whose levels other than level 0
    are key-ordered and free of overlap, [IsInputFilesNonOverlapping]
    returns true if and only if every file of the enumeration through the
    min-heap of file fronts has a smallest key strictly above the largest
    key of the file enumerated before it.  That enumeration holds every
    input file of the plan once, and under a comparator that orders the
    keys it is in ascending order of the smallest keys. *)
Theorem IsInputFilesNonOverlapping_chained
        (icmp : InternalKeyComparator) (c : Compaction) :
  levels_sorted c ->
  (IsInputFilesNonOverlapping c = true <-> strictly_chained (enumerate_inputs c)) /\
  (lower_inputs_nonzero c ->
   Permutation (enumerate_inputs c) (all_input_files c)) /\
  (ComparatorOrder -> files_ordered c -> ascending (enumerate_inputs c)).
Proof.
  intros Hsorted. split; [|split].
  - rewrite IsInputFilesNonOverlapping_exact.
    split; [|tauto]. intros [Hlen|H]; [|exact H].
    unfold enumerate_inputs.
    pose proof (create_level_heap_valid c) as Hvalid.
    destruct (create_level_heap c) as [|e [|e' q]].
    + rewrite heap_walk_nil. exact I.
    + apply heap_walk_single.
      * apply Hvalid. now left.
      * intros Hnz. apply Hsorted; [|exact Hnz].
        apply info_valid_level_in. apply Hvalid. now left.
    + simpl in Hlen. lia.
  - apply enumerate_inputs_permutation.
  - intros Horder Hord. now apply enumerate_inputs_ascending.
Qed.

Lemma IsInputFilesNonOverlapping_chained_witness :
  @levels_sorted BytewiseComparator disjoint_plan /\
  (@IsInputFilesNonOverlapping BytewiseComparator disjoint_plan = true <->
   @strictly_chained BytewiseComparator
     (@enumerate_inputs BytewiseComparator disjoint_plan)).
Proof.
  assert (H : @levels_sorted BytewiseComparator disjoint_plan).
  { intros lv [<-|[<-|[]]] Hnz; simpl in *; [congruence|].
    split; [reflexivity|exact I]. }
  split; [exact H|].
  exact (proj1 (IsInputFilesNonOverlapping_chained BytewiseComparator
                  disjoint_plan H)).
Defined.

(** Without the invariant of a version the equivalence is lost: a single
    lower level gives a heap of one front, and the function answers true
    without comparing the files of that level. *)
Lemma IsInputFilesNonOverlapping_single_level :
  @IsInputFilesNonOverlapping BytewiseComparator unsorted_level_plan = true /\
  ~ @strictly_chained BytewiseComparator
      (@enumerate_inputs BytewiseComparator unsorted_level_plan).
Proof.
  split; [reflexivity|]. vm_compute. intros [H _]. discriminate H.
Qed.

(** ** PickCompactionToReduceSortedRunsOld: the window *)

(** The claim as stated for C5 fails: the candidate size follows the
    compensated sizes.  Under the similar-size stop style and ratio 0, the
    window that starts at the file of size 10 takes the second file and then
    compares the third file, of size 100, with the second file's compensated
    size 100, not with its size 10: the plan holds all three files, where the
    window in the document's words ends after the second. *)
Lemma window_follows_compensated_size :
  claimed_extension kCompactionStopStyleSimilarSize 0 (tl similar_runs) 10 = 1%nat /\
  @extend_window IEEE754_binary64 kCompactionStopStyleSimilarSize 0 UINT_MAX
    (tl similar_runs) 10 1 = (100, 3) /\
  snd (@extend_window IEEE754_binary64 kCompactionStopStyleSimilarSize 0 UINT_MAX
         (tl similar_runs) 10 1) <>
  1 + Z.of_nat (claimed_extension kCompactionStopStyleSimilarSize 0
                                  (tl similar_runs) 10) /\
  exists c,
    @PickCompactionToReduceSortedRunsOld IEEE754_binary64 one_path
      similar_size_options similar_vstorage 0 UINT_MAX similar_runs = Some c /\
    map (fun lv => map FileMetaData.number (files lv)) (inputs c) = [[3; 2; 1]].
Proof.
  split; [reflexivity|]. split; [vm_compute; reflexivity|].
  split; [vm_compute; discriminate|].
  eexists. split; vm_compute; reflexivity.
Qed.

Section Window.
Context {ops : DoubleOps}.
Variable style : CompactionStopStyle.
Variables ratio max_files_to_compact : Z.

Lemma size_after_snoc (C : Z) (accepted : list SortedRun.t) (sr : SortedRun.t) :
  size_after style C (accepted ++ [sr]) =
  next_candidate_size style (size_after style C accepted) sr.
Proof. unfold size_after. rewrite fold_left_app. reflexivity. Qed.

(** The loop takes the longest prefix of the succeeding runs of which every
    run passes the tests at its turn. *)
Lemma extend_window_prefix (succeeding : list SortedRun.t) :
  forall (C n : Z),
  exists accepted rest,
    succeeding = accepted ++ rest /\
    extend_window style ratio max_files_to_compact succeeding C n =
      (size_after style C accepted, n + Z.of_nat (length accepted)) /\
    (forall k succ,
        nth_error accepted k = Some succ ->
        n + Z.of_nat k < max_files_to_compact /\
        accepts_succeeding style ratio
          (size_after style C (firstn k accepted)) succ = true) /\
    match rest with
    | [] => True
    | succ :: _ =>
        ~ n + Z.of_nat (length accepted) < max_files_to_compact \/
        accepts_succeeding style ratio (size_after style C accepted) succ = false
    end.
Proof.
  induction succeeding as [|sr rest IH]; intros C n.
  - exists [], []. simpl. repeat split.
    + f_equal. lia.
    + destruct k; discriminate.
    + destruct k; discriminate.
  - simpl extend_window.
    destruct (n <? max_files_to_compact) eqn:Hcap.
    + destruct (accepts_succeeding style ratio C sr) eqn:Hacc.
      * destruct (IH (next_candidate_size style C sr) (n + 1))
          as (acc & rst & Hsplit & Hres & Hall & Hstop).
        exists (sr :: acc), rst. split; [simpl; now rewrite Hsplit|].
        split.
        { rewrite Hres. unfold size_after. simpl. f_equal. lia. }
        split.
        { intros k succ Hk. destruct k as [|k]; simpl in Hk.
          - injection Hk as <-. simpl. apply Z.ltb_lt in Hcap. split; [lia|exact Hacc].
          - destruct (Hall k succ Hk) as [Hlt Ha]. split; [lia|].
            simpl firstn. unfold size_after in *. simpl. exact Ha. }
        { destruct rst as [|succ rst']; [exact I|].
          destruct Hstop as [Hstop|Hstop]; [left|right].
          - simpl length. lia.
          - unfold size_after in *. simpl. exact Hstop. }
      * exists [], (sr :: rest). simpl. repeat split.
        { f_equal. lia. }
        { destruct k; discriminate. }
        { destruct k; discriminate. }
        { right. exact Hacc. }
    + exists [], (sr :: rest). simpl. repeat split.
      { f_equal. lia. }
      { destruct k; discriminate. }
      { destruct k; discriminate. }
      { left. apply Z.ltb_ge in Hcap. lia. }
Qed.

End Window.

(** A window the search settles on starts at a run that is not being
    compacted, with that run's compensated size and a count of one. *)
Lemma find_window_some (ops : DoubleOps) (style : CompactionStopStyle)
      (ratio max_files_to_compact min_merge_width : Z) (runs : list SortedRun.t) :
  forall loop start_index candidate_count,
    find_window style ratio max_files_to_compact min_merge_width runs loop =
      Some (start_index, candidate_count) ->
    exists skipped sr succeeding,
      runs = skipped ++ sr :: succeeding /\
      start_index = (loop + length skipped)%nat /\
      SortedRun.being_compacted sr = false /\
      candidate_count =
        snd (extend_window style ratio max_files_to_compact succeeding
                           (SortedRun.compensated_file_size sr) 1) /\
      candidate_count >= min_merge_width.
Proof.
  induction runs as [|sr rest IH]; intros loop start_index candidate_count H;
    simpl in H; [discriminate|].
  destruct (SortedRun.being_compacted sr) eqn:Hbc.
  - destruct (IH _ _ _ H) as (sk & sr' & su & -> & -> & Hsr & Hc & Hm).
    exists (sr :: sk), sr', su.
    split; [reflexivity|]. split; [simpl; lia|]. auto.
  - destruct (_ >=? min_merge_width) eqn:Hge.
    + injection H as <- <-. exists [], sr, rest.
      split; [reflexivity|]. split; [simpl; lia|]. split; [exact Hbc|].
      split; [reflexivity|]. apply Z.geb_le in Hge. lia.
    + destruct (IH _ _ _ H) as (sk & sr' & su & -> & -> & Hsr & Hc & Hm).
      exists (sr :: sk), sr', su.
    split; [reflexivity|]. split; [simpl; lia|]. auto.
Qed.

(** The tests of the inner loop are the three conditions of [window_takes]. *)
Lemma accepts_succeeding_takes (ops : DoubleOps) (style : CompactionStopStyle)
      (ratio C : Z) (succ : SortedRun.t) :
  accepts_succeeding style ratio C succ = true <->
  window_takes style ratio C succ.
Proof.
  unfold accepts_succeeding, window_takes, le_scaled, scale_by_ratio.
  destruct (SortedRun.being_compacted succ).
  - split; [discriminate|]. intros [H _]. discriminate H.
  - destruct (dlt _ (of_uint64 (SortedRun.size succ))).
    + split; [discriminate|]. intros (_ & H & _). discriminate H.
    + destruct style.
      * destruct (dlt _ (of_uint64 C)); cbn [negb].
        -- split; [discriminate|]. intros (_ & _ & H).
           specialize (H eq_refl). discriminate H.
        -- split; auto.
      * split; [|reflexivity]. intros _. repeat split. discriminate.
Qed.

(** The candidate size the loop carries is the sum, or the last size, of
    [window_size]. *)
Lemma size_after_window_size (style : CompactionStopStyle)
      (accepted : list SortedRun.t) :
  forall C, size_after style C accepted = window_size style C accepted.
Proof.
  unfold size_after.
  induction accepted as [|x rest IH]; intros C; [reflexivity|].
  cbn [fold_left]. rewrite IH. unfold window_size.
  destruct rest as [|y rest'].
  - destruct style; cbn; unfold add64, wrap64, two64;
      [reflexivity|f_equal; lia].
  - destruct style.
    + cbn [map]. generalize (SortedRun.compensated_file_size y).
      generalize (next_candidate_size kCompactionStopStyleSimilarSize C x).
      generalize (SortedRun.compensated_file_size x).
      induction (map SortedRun.compensated_file_size rest') as [|z zs IHz];
        intros a d b; [reflexivity|].
      change (last (b :: z :: zs) d) with (last (z :: zs) d).
      change (last (a :: b :: z :: zs) C) with (last (z :: zs) C).
      destruct zs as [|w zs']; [reflexivity|].
      change (last (z :: w :: zs') d) with (last (w :: zs') d).
      change (last (z :: w :: zs') C) with (last (w :: zs') C).
      specialize (IHz a d z).
      change (last (z :: w :: zs') d) with (last (w :: zs') d) in IHz.
      change (last (a :: z :: w :: zs') C) with (last (w :: zs') C) in IHz.
      exact IHz.
    + cbn [next_candidate_size map fold_right]. unfold add64, wrap64, two64.
      rewrite Z.add_mod_idemp_l by lia. f_equal. lia.
Qed.

(** C5 (amended): the window starts at a run that is not being compacted,
    with [C] the compensated size of that run.  A window of candidate size
    [C] and [n] runs is extended to the next run [succ] exactly while fewer
    than [max_files_to_compact] runs are in it, [succ] is not being
    compacted, [succ.size <= C * (100 + ratio) / 100] in [double]
    arithmetic, and, under the similar-size stop style,
    [C <= succ.size * (100 + ratio) / 100]; under the total-size stop style
    [C] is the 64-bit sum of the compensated sizes of the runs in the
    window, under the similar-size stop style the compensated size of the
    run taken last.  In the plan of [PickCompactionToReduceSortedRunsOld]
    the bound is [min(max_merge_width, max_number_of_files_to_compact)] and
    the input files are those of the start run and of the runs taken. *)
Theorem extend_window_exactly_while
        (ops : DoubleOps) (style : CompactionStopStyle) (ratio : Z) :
  (forall (max_files_to_compact : Z) (succeeding : list SortedRun.t) (C n : Z),
      exists accepted rest,
        succeeding = accepted ++ rest /\
        extend_window style ratio max_files_to_compact succeeding C n =
          (window_size style C accepted, n + Z.of_nat (length accepted)) /\
        (forall k succ,
            nth_error accepted k = Some succ ->
            n + Z.of_nat k < max_files_to_compact /\
            window_takes style ratio
              (window_size style C (firstn k accepted)) succ) /\
        match rest with
        | [] => True
        | succ :: _ =>
            ~ (n + Z.of_nat (length accepted) < max_files_to_compact /\
               window_takes style ratio (window_size style C accepted) succ)
        end) /\
  (forall (ioptions : ImmutableCFOptions) (mutable_cf_options : MutableCFOptions)
          (vstorage : VersionStorageInfo) (max_number_of_files_to_compact : Z)
          (sorted_runs : list SortedRun.t) (c : Compaction),
      stop_style (compaction_options_universal mutable_cf_options) = style ->
      PickCompactionToReduceSortedRunsOld ioptions mutable_cf_options vstorage
        ratio max_number_of_files_to_compact sorted_runs = Some c ->
      let limit :=
        Z.min (max_merge_width (compaction_options_universal mutable_cf_options))
              max_number_of_files_to_compact in
      exists skipped sr accepted rest,
        sorted_runs = skipped ++ sr :: accepted ++ rest /\
        SortedRun.being_compacted sr = false /\
        (forall k succ,
            nth_error accepted k = Some succ ->
            1 + Z.of_nat k < limit /\
            window_takes style ratio
              (window_size style (SortedRun.compensated_file_size sr)
                           (firstn k accepted)) succ) /\
        match rest with
        | [] => True
        | succ :: _ =>
            ~ (1 + Z.of_nat (length accepted) < limit /\
               window_takes style ratio
                 (window_size style (SortedRun.compensated_file_size sr)
                              accepted) succ)
        end /\
        inputs c =
          pick_runs vstorage (SortedRun.level sr) (sr :: accepted)
            (init_inputs (Z.to_nat (num_levels vstorage)) (SortedRun.level sr))).
Proof.
  assert (Hloop :
    forall (max_files_to_compact : Z) (succeeding : list SortedRun.t) (C n : Z),
      exists accepted rest,
        succeeding = accepted ++ rest /\
        extend_window style ratio max_files_to_compact succeeding C n =
          (window_size style C accepted, n + Z.of_nat (length accepted)) /\
        (forall k succ,
            nth_error accepted k = Some succ ->
            n + Z.of_nat k < max_files_to_compact /\
            window_takes style ratio
              (window_size style C (firstn k accepted)) succ) /\
        match rest with
        | [] => True
        | succ :: _ =>
            ~ (n + Z.of_nat (length accepted) < max_files_to_compact /\
               window_takes style ratio (window_size style C accepted) succ)
        end).
  { intros max_files_to_compact succeeding C n.
    destruct (extend_window_prefix style ratio max_files_to_compact succeeding C n)
      as (accepted & rest & Hsplit & Hres & Hall & Hstop).
    exists accepted, rest. split; [exact Hsplit|].
    split; [rewrite Hres, size_after_window_size; reflexivity|].
    split.
    - intros k succ Hk. destruct (Hall k succ Hk) as [Hlt Ha].
      split; [exact Hlt|].
      rewrite <- size_after_window_size. now apply accepts_succeeding_takes.
    - destruct rest as [|succ rest']; [exact I|].
      rewrite <- size_after_window_size. intros [Hlt Htakes].
      apply accepts_succeeding_takes in Htakes.
      destruct Hstop as [Hstop|Hstop]; [lia|congruence]. }
  split; [exact Hloop|].
  intros ioptions mutable_cf_options vstorage max_number_of_files_to_compact
         sorted_runs c Hstyle H limit.
  unfold PickCompactionToReduceSortedRunsOld in H.
  set (options := compaction_options_universal mutable_cf_options) in *.
  rewrite Hstyle in H.
  destruct (find_window _ _ _ _ sorted_runs 0)
    as [[start_index candidate_count]|] eqn:Hfind; [|discriminate].
  destruct (candidate_count <=? 1); [discriminate|].
  destruct (find_window_some _ _ _ _ _ _ _ _ _ Hfind)
    as (skipped & sr & succeeding & Hruns & Hidx & Hsr & Hcount & _).
  simpl in Hidx. subst start_index.
  destruct (Hloop limit succeeding (SortedRun.compensated_file_size sr) 1)
    as (accepted & rest & Hsplit & Hres & Hall & Hstop).
  fold limit in Hcount. rewrite Hres in Hcount. cbn [snd] in Hcount.
  assert (Hn : Z.to_nat candidate_count = S (length accepted)) by lia.
  rewrite Hn in H. clear Hn Hcount.
  injection H as <-. exists skipped, sr, accepted, rest.
  split; [rewrite Hruns, Hsplit; reflexivity|].
  split; [exact Hsr|]. split; [exact Hall|]. split; [exact Hstop|].
  assert (Hpicked : firstn (S (length accepted))
                      (skipn (length skipped) sorted_runs) = sr :: accepted).
  { rewrite Hruns, skipn_app, skipn_all, Nat.sub_diag. simpl skipn. simpl app.
    simpl. f_equal. rewrite Hsplit, firstn_app, firstn_all, Nat.sub_diag. simpl.
    now rewrite app_nil_r. }
  assert (Hstart : nth (length skipped) sorted_runs default_run = sr).
  { rewrite Hruns, app_nth2, Nat.sub_diag by lia. reflexivity. }
  cbn [inputs]. rewrite Hstart. f_equal. exact Hpicked.
Qed.

(** With sizes 10, 10, 100, compensated sizes 10, 100, 100, the
    similar-size stop style and ratio 0, the window takes both successors:
    the third run is compared with the compensated size 100 of the second. *)
Lemma extend_window_exactly_while_witness :
  exists c,
    @PickCompactionToReduceSortedRunsOld IEEE754_binary64 one_path
      similar_size_options similar_vstorage 0 UINT_MAX similar_runs = Some c /\
    exists skipped sr accepted rest,
      similar_runs = skipped ++ sr :: accepted ++ rest /\
      SortedRun.being_compacted sr = false /\
      (forall k succ,
          nth_error accepted k = Some succ ->
          1 + Z.of_nat k < Z.min UINT_MAX UINT_MAX /\
          @window_takes IEEE754_binary64 kCompactionStopStyleSimilarSize 0
            (window_size kCompactionStopStyleSimilarSize
                         (SortedRun.compensated_file_size sr)
                         (firstn k accepted)) succ) /\
      match rest with
      | [] => True
      | succ :: _ =>
          ~ (1 + Z.of_nat (length accepted) < Z.min UINT_MAX UINT_MAX /\
             @window_takes IEEE754_binary64 kCompactionStopStyleSimilarSize 0
               (window_size kCompactionStopStyleSimilarSize
                            (SortedRun.compensated_file_size sr) accepted) succ)
      end /\
      inputs c =
        pick_runs similar_vstorage (SortedRun.level sr) (sr :: accepted)
          (init_inputs (Z.to_nat (num_levels similar_vstorage))
                       (SortedRun.level sr)).
Proof.
  eexists. split; [vm_compute; reflexivity|].
  apply (proj2 (extend_window_exactly_while IEEE754_binary64
                  kCompactionStopStyleSimilarSize 0)
               one_path similar_size_options similar_vstorage UINT_MAX
               similar_runs).
  - reflexivity.
  - vm_compute. reflexivity.
Defined.

Lemma accepts_succeeding_idle (ops : DoubleOps) (style : CompactionStopStyle)
      (ratio candidate_size : Z) (sr : SortedRun.t) :
  accepts_succeeding style ratio candidate_size sr = true ->
  SortedRun.being_compacted sr = false.
Proof.
  unfold accepts_succeeding. destruct (SortedRun.being_compacted sr);
    [discriminate|reflexivity].
Qed.

(** Neither does the legacy ratio strategy: its window is the start run and
    the runs the inner loop accepted. *)
Lemma PickCompactionToReduceSortedRunsOld_idle_runs
      (ops : DoubleOps)
      (ioptions : ImmutableCFOptions) (mutable_cf_options : MutableCFOptions)
      (vstorage : VersionStorageInfo) (ratio max_number_of_files_to_compact : Z)
      (sorted_runs : list SortedRun.t) (c : Compaction) :
  PickCompactionToReduceSortedRunsOld ioptions mutable_cf_options vstorage ratio
    max_number_of_files_to_compact sorted_runs = Some c ->
  exists start_index picked,
    inputs c =
      pick_runs vstorage
        (SortedRun.level (nth start_index sorted_runs default_run)) picked
        (init_inputs (Z.to_nat (num_levels vstorage))
           (SortedRun.level (nth start_index sorted_runs default_run))) /\
    (exists before after, sorted_runs = before ++ picked ++ after /\
                          length before = start_index) /\
    forall sr, In sr picked -> SortedRun.being_compacted sr = false.
Proof.
  unfold PickCompactionToReduceSortedRunsOld. intros H.
  set (options := compaction_options_universal mutable_cf_options) in *.
  destruct (find_window _ _ _ _ sorted_runs 0)
    as [[start_index candidate_count]|] eqn:Hfind; [|discriminate].
  destruct (candidate_count <=? 1); [discriminate|].
  destruct (find_window_some _ _ _ _ _ _ _ _ _ Hfind)
    as (sk & sr & su & Hruns & Hidx & Hsr & Hcount & _).
  simpl in Hidx. subst start_index.
  destruct (extend_window_prefix (stop_style options) ratio
              (Z.min (max_merge_width options) max_number_of_files_to_compact)
              su (SortedRun.compensated_file_size sr) 1)
    as (acc & rest & Hsu & Hres & Hall & _).
  rewrite Hres in Hcount. cbn [snd] in Hcount.
  assert (Hn : Z.to_nat candidate_count = S (length acc)) by lia.
  rewrite Hn in H. clear Hn Hcount.
  injection H as <-. exists (length sk), (sr :: acc).
  assert (Hpicked : firstn (S (length acc)) (skipn (length sk) sorted_runs) =
                    sr :: acc).
  { rewrite Hruns, skipn_app, skipn_all, Nat.sub_diag. simpl skipn. simpl app.
    simpl. f_equal. rewrite Hsu, firstn_app, firstn_all, Nat.sub_diag. simpl.
    now rewrite app_nil_r. }
  cbn [inputs]. split; [f_equal; exact Hpicked|]. split.
  - exists sk, rest. split; [|reflexivity]. rewrite Hruns, Hsu. reflexivity.
  - intros x [<-|Hx]; [exact Hsr|].
    destruct (In_nth_error _ _ Hx) as [k Hk].
    destruct (Hall k x Hk) as [_ Ha]. eapply accepts_succeeding_idle. exact Ha.
Qed.

(** ** GenSortedRunGroup: the groups partition the runs *)

Lemma length_update_at {A : Type} (o : list A) (j : nat) (f : A -> A) :
  length (update_at o j f) = length o.
Proof.
  revert j. induction o as [|x rest IH]; intros [|j]; simpl; auto.
Qed.

Lemma nth_update_at_eq {A : Type} (o : list A) (j : nat) (f : A -> A) (d : A) :
  (j < length o)%nat -> nth j (update_at o j f) d = f (nth j o d).
Proof.
  revert j. induction o as [|x rest IH]; intros [|j] Hj; simpl in *; try lia; auto.
  apply IH. lia.
Qed.

Lemma nth_update_at_neq {A : Type} (o : list A) (j k : nat) (f : A -> A) (d : A) :
  j <> k -> nth k (update_at o j f) d = nth k o d.
Proof.
  revert j k. induction o as [|x rest IH]; intros [|j] [|k] Hjk; simpl; auto.
  contradiction.
Qed.

(** A property of the elements that [f] keeps is kept by the update. *)
Lemma nth_update_at_keeps {A B : Type} (proj : A -> B) (o : list A) (j k : nat)
      (f : A -> A) (d : A) :
  (forall x, proj (f x) = proj x) ->
  proj (nth k (update_at o j f) d) = proj (nth k o d).
Proof.
  intros Hf. destruct (Nat.eq_dec j k) as [->|Hne].
  - destruct (Nat.lt_ge_cases k (length o)) as [Hlt|Hge].
    + rewrite nth_update_at_eq by exact Hlt. apply Hf.
    + rewrite !nth_overflow; [reflexivity|lia|rewrite length_update_at; lia].
  - rewrite nth_update_at_neq by exact Hne. reflexivity.
Qed.

Section GroupingProperties.
Context {dops : DoubleOps} {mlib : MathLib}.

Lemma start_at_keeps (o : list SortedRunGroup.t) (j k : nat)
      (f : SortedRunGroup.t -> SortedRunGroup.t) :
  (forall x, SortedRunGroup.start (f x) = SortedRunGroup.start x) ->
  start_at (update_at o j f) k = start_at o k.
Proof. intros Hf. unfold start_at, group_at. now apply nth_update_at_keeps. Qed.

Lemma count_at_keeps (o : list SortedRunGroup.t) (j k : nat)
      (f : SortedRunGroup.t -> SortedRunGroup.t) :
  (forall x, SortedRunGroup.count (f x) = SortedRunGroup.count x) ->
  count_at (update_at o j f) k = count_at o k.
Proof. intros Hf. unfold count_at, group_at. now apply nth_update_at_keeps. Qed.

Lemma make_singletons_spec (n : nat) :
  forall j sr sr_size g o,
    let o' := make_singletons n j sr sr_size g o in
    length o' = length o /\
    (forall k, (j <= k < j + n)%nat -> (k < length o)%nat ->
               start_at o' k = Z.of_nat (k + sr_size - g) /\ count_at o' k = 1) /\
    (forall k, ~ (j <= k < j + n)%nat ->
               start_at o' k = start_at o k /\ count_at o' k = count_at o k).
Proof.
  induction n as [|n IH]; intros j sr sr_size g o; cbn zeta.
  - simpl. split; [reflexivity|]. split; [intros; lia|auto].
  - simpl make_singletons.
    set (o1 := update_at o j _).
    destruct (IH (S j) sr sr_size g o1) as (Hlen & Hin & Hout).
    assert (Hl1 : length o1 = length o) by apply length_update_at.
    split; [congruence|]. split.
    + intros k Hk Hlt. destruct (Nat.eq_dec k j) as [->|Hne].
      * destruct (Hout j ltac:(lia)) as [Hs Hc]. rewrite Hs, Hc.
        unfold start_at, count_at, group_at, o1.
        rewrite !nth_update_at_eq by exact Hlt. simpl. auto.
      * apply Hin; lia.
    + intros k Hk. destruct (Hout k ltac:(lia)) as [Hs Hc]. rewrite Hs, Hc.
      unfold start_at, count_at, group_at, o1.
      rewrite !nth_update_at_neq by lia. auto.
Qed.

(** The refinement keeps [sr_size - g] and leaves single runs behind [g]. *)
Lemma refine_groups_spec (d : nat) (sr : list double) (i : nat) :
  forall sr_size g q o,
    (i < g)%nat -> (g <= length o)%nat -> sr_size = (g + d)%nat ->
    singletons_from d g o ->
    match refine_groups i sr sr_size g q o with
    | (sr_size', g', _, o') =>
        (1 <= g' <= g)%nat /\ sr_size' = (g' + d)%nat /\
        length o' = length o /\ singletons_from d g' o'
    end.
Proof.
  induction i as [|i IH]; intros sr_size g q o Hi Hg Hsize Hsing.
  - simpl. split; [lia|]. split; [lia|]. split; [reflexivity|exact Hsing].
  - simpl refine_groups. destruct (dgt q done).
    + destruct (dlt _ q).
      * set (o1 := make_singletons (g - S i) (S i) sr sr_size g o).
        destruct (make_singletons_spec (g - S i) (S i) sr sr_size g o)
          as (Hlen & Hin & Hout). fold o1 in Hlen, Hin, Hout.
        assert (Hsing1 : singletons_from d (g - (g - S i)) o1).
        { intros j Hj. rewrite Hlen in Hj.
          destruct (Nat.lt_ge_cases j g) as [Hlt|Hge].
          - destruct (Hin j ltac:(lia) ltac:(lia)) as [Hs Hc].
            rewrite Hs, Hc. split; [f_equal; lia|reflexivity].
          - destruct (Hout j ltac:(lia)) as [Hs Hc]. rewrite Hs, Hc.
            apply Hsing. lia. }
        specialize (IH (sr_size - (g - S i))%nat (g - (g - S i))%nat
                       (Q (firstn (sr_size - (g - S i)) sr) (g - (g - S i))) o1
                       ltac:(lia) ltac:(lia) ltac:(lia) Hsing1).
        destruct (refine_groups i sr _ _ _ o1) as [[[sr_size' g'] q'] o'].
        destruct IH as (Hg' & Hs' & Hl' & Hsing').
        split; [lia|]. split; [lia|]. split; [congruence|exact Hsing'].
      * specialize (IH sr_size g q o ltac:(lia) Hg Hsize Hsing).
        destruct (refine_groups i sr sr_size g q o) as [[[sr_size' g'] q'] o'].
        exact IH.
    + split; [lia|]. split; [lia|]. split; [reflexivity|exact Hsing].
Qed.

Lemma start_at_set_start (o : list SortedRunGroup.t) (j k : nat) (s : Z) :
  (j < length o)%nat ->
  start_at (update_at o j (set_start s)) k = if Nat.eqb j k then s else start_at o k.
Proof.
  intros Hj. unfold start_at, group_at. destruct (Nat.eqb_spec j k) as [->|Hne].
  - rewrite nth_update_at_eq by exact Hj. reflexivity.
  - rewrite nth_update_at_neq by exact Hne. reflexivity.
Qed.

Lemma sweep_groups_spec (d sr_size g : nat) (sr : list double) (q : double)
      (m : nat) :
  forall sr_acc q_acc q_i o,
    cuts_ok sr_size g m q_i o -> singletons_from d g o ->
    let o' := sweep_groups m sr q sr_acc q_acc q_i o in
    cuts_ok sr_size g 0 0 o' /\ singletons_from d g o' /\ length o' = length o.
Proof.
  induction m as [|i IH]; intros sr_acc q_acc q_i o Hcuts Hsing; cbn zeta.
  - simpl. destruct Hcuts as (Hqm & Hqg & Hm & Hlen & H0 & Hbound & Hinc).
    assert (q_i = 0)%nat by lia. subst q_i.
    split; [|split; [exact Hsing|reflexivity]].
    exact (conj Hqm (conj Hqg (conj Hm (conj Hlen (conj H0 (conj Hbound Hinc)))))).
  - simpl sweep_groups.
    destruct Hcuts as (Hqm & Hqg & Hm & Hlen & H0 & Hbound & Hinc).
    set (cut := ((i <? q_i)%nat || _ || _) && (0 <? q_i)%nat).
    destruct cut eqn:Hcut.
    + assert (Hpos : (0 < q_i)%nat).
      { unfold cut in Hcut. apply andb_prop in Hcut. apply Nat.ltb_lt. apply Hcut. }
      set (o1 := update_at o q_i (set_start (Z.of_nat i + 1))).
      set (o3 := update_at (update_at o1 (q_i - 1) (set_ratio dzero)) (q_i - 1)
                           (add_ratio (nth i sr dzero))).
      assert (Hs3 : forall k, start_at o3 k =
                              if Nat.eqb q_i k then Z.of_nat i + 1 else start_at o k).
      { intros k. unfold o3. rewrite !start_at_keeps by reflexivity.
        unfold o1. apply start_at_set_start. lia. }
      assert (Hc3 : forall k, count_at o3 k = count_at o k).
      { intros k. unfold o3, o1. rewrite !count_at_keeps by reflexivity. reflexivity. }
      assert (Hl3 : length o3 = length o).
      { unfold o3, o1. rewrite !length_update_at. reflexivity. }
      destruct (IH (dadd sr_acc (nth i sr dzero))
                   (dadd q_acc (dpow q (of_uint64 (Z.of_nat q_i))))
                   (q_i - 1)%nat o3) as (Hc' & Hs' & Hl').
      * unfold cuts_ok. rewrite Hl3.
        split; [lia|]. split; [lia|]. split; [lia|]. split; [lia|].
        split; [rewrite Hs3; destruct (Nat.eqb_spec q_i 0); [lia|exact H0]|].
        split.
        -- intros j Hj. rewrite Hs3. destruct (Nat.eqb_spec q_i j) as [->|Hne].
           ++ lia.
           ++ specialize (Hbound j ltac:(lia)). lia.
        -- intros j Hj HSj. rewrite !Hs3.
           destruct (Nat.eqb_spec q_i (S j)) as [E|_]; [lia|].
           destruct (Nat.eqb_spec q_i j) as [<-|Hne].
           ++ specialize (Hbound (S q_i) ltac:(lia)). lia.
           ++ apply Hinc; lia.
      * intros j Hj. rewrite Hl3 in Hj. rewrite Hs3, Hc3.
        destruct (Nat.eqb_spec q_i j) as [->|_]; [lia|]. apply Hsing. exact Hj.
      * split; [exact Hc'|]. split; [exact Hs'|]. congruence.
    + assert (Hqi : (q_i <= i)%nat).
      { unfold cut in Hcut. apply andb_false_iff in Hcut.
        destruct Hcut as [Hcut|Hcut].
        - apply orb_false_iff in Hcut. destruct Hcut as [Hcut _].
          apply orb_false_iff in Hcut. destruct Hcut as [Hcut _].
          apply Nat.ltb_ge in Hcut. exact Hcut.
        - apply Nat.ltb_ge in Hcut. lia. }
      set (o3 := update_at o q_i (add_ratio (nth i sr dzero))).
      assert (Hs3 : forall k, start_at o3 k = start_at o k)
        by (intros k; unfold o3; now rewrite start_at_keeps).
      assert (Hc3 : forall k, count_at o3 k = count_at o k)
        by (intros k; unfold o3; now rewrite count_at_keeps).
      assert (Hl3 : length o3 = length o) by apply length_update_at.
      destruct (IH (dadd sr_acc (nth i sr dzero)) q_acc q_i o3) as (Hc' & Hs' & Hl').
      * unfold cuts_ok. rewrite Hl3, Hs3.
        split; [lia|]. split; [lia|]. split; [lia|]. split; [lia|].
        split; [exact H0|]. split.
        -- intros j Hj. rewrite Hs3. specialize (Hbound j Hj). lia.
        -- intros j Hj HSj. rewrite !Hs3. apply Hinc; lia.
      * intros j Hj. rewrite Hl3 in Hj. rewrite Hs3, Hc3. apply Hsing. exact Hj.
      * split; [exact Hc'|]. split; [exact Hs'|]. congruence.
Qed.

Lemma count_groups_spec (n : nat) :
  forall i o,
    (1 <= i)%nat ->
    let o' := count_groups n i o in
    length o' = length o /\
    (forall k, start_at o' k = start_at o k) /\
    (forall k, (i - 1 <= k < i - 1 + n)%nat -> (k < length o)%nat ->
               count_at o' k = sub64 (start_at o (S k)) (start_at o k)) /\
    (forall k, ~ (i - 1 <= k < i - 1 + n)%nat -> count_at o' k = count_at o k).
Proof.
  induction n as [|n IH]; intros i o Hi; cbn zeta.
  - simpl. repeat split; auto. intros; lia.
  - simpl count_groups.
    set (c := sub64 _ _).
    set (o1 := update_at o (i - 1) (set_count c)).
    destruct (IH (S i) o1 ltac:(lia)) as (Hlen & Hstart & Hin & Hout).
    assert (Hs1 : forall k, start_at o1 k = start_at o k)
      by (intros k; unfold o1; now rewrite start_at_keeps).
    assert (Hl1 : length o1 = length o) by apply length_update_at.
    split; [congruence|]. split; [intros k; now rewrite Hstart|]. split.
    + intros k Hk Hlt. destruct (Nat.eq_dec k (i - 1)) as [->|Hne].
      * rewrite Hout by lia. unfold count_at, group_at, o1.
        rewrite nth_update_at_eq by exact Hlt. simpl. unfold c, start_at.
        replace (S (i - 1)) with i by lia. reflexivity.
      * rewrite Hin by (simpl; lia). now rewrite !Hs1.
    + intros k Hk. rewrite Hout by (simpl; lia).
      unfold count_at, group_at, o1. rewrite nth_update_at_neq by lia. reflexivity.
Qed.

Lemma contiguous_from_intro (o : list SortedRunGroup.t) :
  forall s,
    (o <> [] -> start_at o 0 = s) ->
    (forall j, (S j < length o)%nat ->
               start_at o (S j) = start_at o j + count_at o j) ->
    contiguous_from s o.
Proof.
  induction o as [|x rest IH]; intros s H0 Hstep; simpl; [exact I|].
  assert (Hx : SortedRunGroup.start x = s) by (apply H0; discriminate).
  split; [exact Hx|].
  apply IH.
  - intros Hne. destruct rest as [|y rest']; [congruence|].
    specialize (Hstep 0%nat ltac:(simpl; lia)).
    unfold start_at, count_at, group_at in *. simpl in *. lia.
  - intros j Hj. apply (Hstep (S j)). simpl. lia.
Qed.

Lemma contiguous_from_total (o : list SortedRunGroup.t) :
  forall s,
    contiguous_from s o -> o <> [] ->
    s + total_count o =
    start_at o (length o - 1) + count_at o (length o - 1).
Proof.
  induction o as [|x rest IH]; intros s Hc Hne; [congruence|].
  destruct Hc as [Hx Hrest]. destruct rest as [|y rest'].
  - unfold total_count, start_at, count_at, group_at. simpl. lia.
  - specialize (IH _ Hrest ltac:(discriminate)).
    change (total_count (x :: y :: rest')) with
      (SortedRunGroup.count x + total_count (y :: rest')).
    replace (length (x :: y :: rest') - 1)%nat with (S (length (y :: rest') - 1))
      by (simpl; lia).
    unfold start_at, count_at, group_at in *.
    change (nth (S (length (y :: rest') - 1)) (x :: y :: rest') empty_group)
      with (nth (length (y :: rest') - 1) (y :: rest') empty_group).
    lia.
Qed.

End GroupingProperties.

(** C8: for a non-empty sequence of [n] sizes and a target of [g] groups
    with [1 <= g <= n], the groups emitted are [g] groups that are
    contiguous from index 0 (each starts where the one before it ends) and
    whose counts add up to [n], whatever the floating-point operations
    return. *)
Theorem GenSortedRunGroup_partition
        (dops : DoubleOps) (mlib : MathLib) (sr : list double) (group : nat) :
  (1 <= group <= length sr)%nat ->
  Z.of_nat (length sr) < two64 ->
  let o := snd (GenSortedRunGroup sr group) in
  length o = group /\
  total_count o = Z.of_nat (length sr) /\
  contiguous_from 0 o.
Proof.
  intros Hg Hn. unfold GenSortedRunGroup.
  set (d := (length sr - group)%nat).
  pose proof (refine_groups_spec d sr (group - 1) (length sr) group
                (Q sr group) (repeat empty_group group)) as Href.
  rewrite repeat_length in Href.
  assert (Hs0 : singletons_from d group (repeat empty_group group))
    by (intros j Hj; rewrite repeat_length in Hj; lia).
  specialize (Href ltac:(lia) ltac:(lia) ltac:(lia) Hs0).
  destruct (refine_groups (group - 1) sr (length sr) group (Q sr group)
                          (repeat empty_group group)) as [[[sr_size g] q] o1].
  destruct Href as (Hg' & Hsize & Hl1 & Hsing1).
  cbn zeta. cbn [snd].
  set (sr_acc := nth (sr_size - 1) sr dzero).
  set (q_acc := dpow q (of_uint64 (Z.of_nat g))).
  set (o3 := update_at (update_at o1 (g - 1) (set_ratio sr_acc)) 0 (set_start 0)).
  assert (Hl3 : length o3 = group)
    by (unfold o3; rewrite !length_update_at; exact Hl1).
  assert (Hstart3 : forall k, start_at o3 k = if Nat.eqb 0 k then 0 else start_at o1 k).
  { intros k. unfold o3. rewrite start_at_set_start
      by (rewrite length_update_at; lia).
    destruct (Nat.eqb 0 k); [reflexivity|]. now rewrite start_at_keeps. }
  assert (Hcount3 : forall k, count_at o3 k = count_at o1 k)
    by (intros k; unfold o3; now rewrite !count_at_keeps).
  assert (Hcuts : cuts_ok sr_size g (sr_size - 1) (g - 1) o3).
  { unfold cuts_ok. rewrite Hl3, Hstart3. simpl Nat.eqb.
    split; [lia|]. split; [lia|]. split; [lia|]. split; [lia|].
    split; [reflexivity|]. split; intros; lia. }
  assert (Hsing3 : singletons_from d g o3).
  { intros j Hj. rewrite Hl3 in Hj. rewrite Hstart3, Hcount3.
    destruct (Nat.eqb_spec 0 j); [lia|]. apply Hsing1. lia. }
  destruct (sweep_groups_spec d sr_size g sr q (sr_size - 1) sr_acc q_acc (g - 1)
              o3 Hcuts Hsing3) as (Hc4 & Hsing4 & Hl4).
  set (o4 := sweep_groups (sr_size - 1) sr q sr_acc q_acc (g - 1) o3) in *.
  destruct Hc4 as (_ & _ & _ & _ & Hz4 & Hbound4 & Hinc4).
  destruct (count_groups_spec (g - 1) 1 o4 (le_n 1)) as (Hl5 & Hstart5 & Hin5 & Hout5).
  set (o5 := count_groups (g - 1) 1 o4) in *.
  set (last_count := sub64 (Z.of_nat sr_size) (SortedRunGroup.start (group_at o5 (g - 1)))).
  set (o6 := update_at o5 (g - 1) (fun x => set_count last_count x)).
  assert (Hl6 : length o6 = group)
    by (unfold o6; rewrite length_update_at; congruence).
  assert (Hstart6 : forall k, start_at o6 k = start_at o4 k).
  { intros k. unfold o6. rewrite start_at_keeps by reflexivity. apply Hstart5. }
  (* the starts of the groups cut by the sweep *)
  assert (Hlow : forall j, (j < g)%nat -> 0 <= start_at o4 j < Z.of_nat sr_size).
  { intros j Hj. destruct j as [|j]; [rewrite Hz4; lia|].
    specialize (Hbound4 (S j) ltac:(lia)). lia. }
  assert (Hup : forall j, (S j < g)%nat -> start_at o4 j < start_at o4 (S j)).
  { intros j Hj. destruct j as [|j].
    - rewrite Hz4. specialize (Hbound4 1%nat ltac:(lia)). lia.
    - apply Hinc4; lia. }
  assert (Hcount6 : forall j, (j < group)%nat ->
            count_at o6 j =
            if (S j <? g)%nat then start_at o4 (S j) - start_at o4 j
            else if (S j =? g)%nat then Z.of_nat sr_size - start_at o4 j
            else 1).
  { intros j Hj. destruct (Nat.ltb_spec (S j) g) as [Hlt|Hge].
    - unfold o6, count_at, group_at. rewrite nth_update_at_neq by lia.
      fold (group_at o5 j). fold (count_at o5 j).
      rewrite Hin5 by lia. unfold sub64.
      pose proof (Hlow j ltac:(lia)) as Hj1. pose proof (Hup j Hlt) as Hj2.
      pose proof (Hlow (S j) Hlt) as Hj3.
      apply wrap64_small. lia.
    - destruct (Nat.eqb_spec (S j) g) as [E|Hne].
      + unfold o6, count_at, group_at.
        replace (g - 1)%nat with j by lia.
        rewrite nth_update_at_eq by lia. cbn [set_count SortedRunGroup.count].
        unfold last_count. replace (g - 1)%nat with j by lia.
        fold (start_at o5 j). rewrite Hstart5. unfold sub64.
        pose proof (Hlow j ltac:(lia)) as Hj1. apply wrap64_small. lia.
      + unfold o6, count_at, group_at. rewrite nth_update_at_neq by lia.
        fold (group_at o5 j). fold (count_at o5 j).
        rewrite Hout5 by lia. apply Hsing4. lia. }
  assert (Hcontig : contiguous_from 0 o6).
  { apply contiguous_from_intro.
    - intros _. rewrite Hstart6. exact Hz4.
    - intros j Hj. rewrite Hl6 in Hj. rewrite !Hstart6, Hcount6 by lia.
      destruct (Nat.ltb_spec (S j) g) as [Hlt|Hge]; [lia|].
      destruct (Nat.eqb_spec (S j) g) as [E|Hne].
      + destruct (Hsing4 (S j) ltac:(lia)) as [Hs _]. rewrite Hs. lia.
      + destruct (Hsing4 (S j) ltac:(lia)) as [Hs _].
        destruct (Hsing4 j ltac:(lia)) as [Hs' _]. rewrite Hs, Hs'. lia. }
  split; [exact Hl6|]. split; [|exact Hcontig].
  pose proof (contiguous_from_total o6 0 Hcontig) as Htot.
  assert (Hne : o6 <> []) by (intros E; rewrite E in Hl6; simpl in Hl6; lia).
  specialize (Htot Hne). rewrite Hl6, Hstart6, Hcount6 in Htot by lia.
  rewrite Z.add_0_l in Htot. rewrite Htot.
  replace (S (group - 1)) with group by lia.
  destruct (Nat.ltb_spec group g) as [Hlt|Hge]; [lia|].
  destruct (Nat.eqb_spec group g) as [E|Hne'].
  - subst g. lia.
  - destruct (Hsing4 (group - 1)%nat ltac:(lia)) as [Hs _]. rewrite Hs. lia.
Qed.

(** The groups of the scenario: the runs [0], [1..3], [4..5] and [6..7]. *)
Example doubling_groups_value :
  map (fun x => (SortedRunGroup.start x, SortedRunGroup.count x)) doubling_groups =
  [(0, 1); (1, 3); (4, 2); (6, 2)].
Proof. vm_compute. reflexivity. Qed.

Lemma GenSortedRunGroup_partition_witness :
  (1 <= 4 <= length doubling_sizes)%nat /\
  Z.of_nat (length doubling_sizes) < two64 /\
  length doubling_groups = 4%nat /\
  @total_count IEEE754_binary64 doubling_groups = Z.of_nat (length doubling_sizes) /\
  @contiguous_from IEEE754_binary64 0 doubling_groups.
Proof.
  assert (H1 : (1 <= 4 <= length doubling_sizes)%nat) by (simpl; lia).
  assert (H2 : Z.of_nat (length doubling_sizes) < two64) by reflexivity.
  split; [exact H1|]. split; [exact H2|].
  exact (GenSortedRunGroup_partition IEEE754_binary64 binary64_math
           doubling_sizes 4 H1 H2).
Defined.

(** ** Termination: the fuel of the model suffices *)

Lemma find_empty_level_le (vstorage : VersionStorageInfo) (st : PickerState)
      (n : nat) :
  forall output_level, find_empty_level vstorage st n output_level <= output_level.
Proof.
  induction n as [|n IH]; intros o; simpl; [lia|].
  destruct (o >=? 1); [|lia].
  destruct (level_is_empty vstorage o && negb (is_compaction_output_level st o));
    [lia|].
  specialize (IH (o - 1)). lia.
Qed.

Lemma find_start_level_le (vstorage : VersionStorageInfo) (st : PickerState)
      (n : nat) :
  forall start_level,
    fst (find_start_level vstorage st n start_level) <= start_level.
Proof.
  induction n as [|n IH]; intros s; simpl; [lia|].
  destruct (s >? 0); [|simpl; lia].
  destruct (is_compaction_output_level st s); [simpl; lia|].
  destruct (negb (level_is_empty vstorage s)); [simpl; lia|].
  specialize (IH (s - 1)). lia.
Qed.

(** Every round of the [while (true)] loop of [PickTrivialMoveCompaction]
    lowers [output_level], so more rounds than [output_level] are never
    made: the result is the same for every such fuel. *)
Lemma trivial_move_levels_fuel (vstorage : VersionStorageInfo) (st : PickerState)
      (fuel : nat) :
  forall fuel' output_level,
    output_level < Z.of_nat fuel -> output_level < Z.of_nat fuel' ->
    trivial_move_levels fuel vstorage st output_level =
    trivial_move_levels fuel' vstorage st output_level.
Proof.
  induction fuel as [|fuel IH]; intros fuel' o Hf Hf'.
  - destruct fuel' as [|fuel']; [reflexivity|]. simpl.
    pose proof (find_empty_level_le vstorage st (Z.to_nat o) o) as Hle.
    destruct (Z.ltb_spec (find_empty_level vstorage st (Z.to_nat o) o) 1);
      [reflexivity|lia].
  - destruct fuel' as [|fuel'].
    + simpl.
      pose proof (find_empty_level_le vstorage st (Z.to_nat o) o) as Hle.
      destruct (Z.ltb_spec (find_empty_level vstorage st (Z.to_nat o) o) 1);
        [reflexivity|lia].
    + simpl.
      pose proof (find_empty_level_le vstorage st (Z.to_nat o) o) as Hle.
      set (o' := find_empty_level vstorage st (Z.to_nat o) o) in *.
      destruct (o' <? 1); [reflexivity|].
      pose proof (find_start_level_le vstorage st (Z.to_nat o') (o' - 1)) as Hs.
      destruct (find_start_level vstorage st (Z.to_nat o') (o' - 1))
        as [start_level found_start_level].
      simpl in Hs.
      destruct (start_level =? 0); [reflexivity|].
      destruct (found_start_level &&
                negb (AreFilesInCompaction (LevelFiles vstorage start_level)));
        [reflexivity|].
      apply IH; lia.
Qed.

Lemma fold_sizes_some (size_of : Z -> option Z) (l : list Z) :
  (forall d, In d l -> exists s, size_of d = Some s) ->
  forall a,
    exists s,
      fold_left (fun acc d =>
                   match acc, size_of d with
                   | Some file_size, Some s => Some (add64 file_size s)
                   | _, _ => None
                   end) l (Some a) = Some s.
Proof.
  induction l as [|d rest IH]; intros Hall a; simpl; [now exists a|].
  destruct (Hall d (or_introl eq_refl)) as [s ->].
  apply IH. intros d' Hd'. apply Hall. now right.
Qed.

(** [GetFilesSize] returns when the dependencies of the version are well
    founded and the fuel exceeds their depth. *)
Lemma GetFilesSize_total (vstorage : VersionStorageInfo)
      (rank : FileMetaData.t -> nat) (fuel : nat) :
  depend_ranked vstorage rank ->
  (forall f file_number,
      (rank f + 1 < fuel)%nat ->
      exists s, GetFilesSize fuel (Some f) file_number vstorage = Some s) /\
  (forall file_number,
      (0 < fuel)%nat ->
      (forall g, depend_files vstorage file_number = Some g ->
                 (rank g + 1 < fuel)%nat) ->
      exists s, GetFilesSize fuel None file_number vstorage = Some s).
Proof.
  intros Hranked. induction fuel as [|fuel [IHsome IHnone]].
  - split; intros; lia.
  - assert (Hfound : forall f, (rank f + 1 < S fuel)%nat ->
              exists s,
                (if negb (SstPurpose_eqb (FileMetaData.sst_purpose f) kEssenceSst)
                 then
                   fold_left
                     (fun acc depend =>
                        match acc, GetFilesSize fuel None depend vstorage with
                        | Some file_size, Some s => Some (add64 file_size s)
                        | _, _ => None
                        end)
                     (FileMetaData.sst_depend f) (Some (FileMetaData.file_size f))
                 else Some (FileMetaData.file_size f)) = Some s).
    { intros f Hf.
      destruct (negb (SstPurpose_eqb (FileMetaData.sst_purpose f) kEssenceSst))
        eqn:Hp; [|eexists; reflexivity].
      apply (fold_sizes_some (fun d => GetFilesSize fuel None d vstorage)).
      intros d Hd. apply IHnone; [lia|].
      intros g Hg.
      assert (Hlt : (rank g < rank f)%nat).
      { apply (Hranked f d g); auto.
        intros E. rewrite E in Hp. discriminate Hp. }
      lia. }
    split.
    + intros f file_number Hf. simpl. apply Hfound. exact Hf.
    + intros file_number _ Hg. simpl.
      destruct (depend_files vstorage file_number) as [g|];
        [|eexists; reflexivity].
      apply Hfound. apply Hg. reflexivity.
Qed.

(** So [CalculateSortedRuns] returns the sorted runs. *)
Lemma CalculateSortedRuns_total (vstorage : VersionStorageInfo)
      (mutable_cf_options : MutableCFOptions)
      (rank : FileMetaData.t -> nat) (fuel : nat) :
  depend_ranked vstorage rank ->
  (forall f, (rank f + 1 < fuel)%nat) ->
  exists sorted_runs,
    CalculateSortedRuns fuel vstorage mutable_cf_options = Some sorted_runs.
Proof.
  intros Hranked Hfuel.
  destruct (GetFilesSize_total vstorage rank fuel Hranked) as [Hsize _].
  assert (H0 : forall level0, exists runs,
               level0_runs fuel vstorage level0 = Some runs).
  { induction level0 as [|f rest [runs IH]]; simpl; [eexists; reflexivity|].
    destruct (Hsize f SIZE_MAX (Hfuel f)) as [s ->]. rewrite IH.
    eexists; reflexivity. }
  assert (Ht : forall b fs tc ts bc first, exists r,
               level_totals fuel vstorage b fs tc ts bc first = Some r).
  { intros b fs. induction fs as [|f rest IH]; intros tc ts bc first; simpl;
      [eexists; reflexivity|].
    destruct (Hsize f SIZE_MAX (Hfuel f)) as [s ->]. apply IH. }
  assert (Hl : forall b levels l, exists runs,
               lower_level_runs fuel vstorage b levels l = Some runs).
  { intros b levels. induction levels as [|fs rest IH]; intros l; simpl;
      [eexists; reflexivity|].
    destruct (Ht b fs 0 0 false true) as [[[tc ts] bc] ->].
    destruct (IH (l + 1)) as [runs ->].
    destruct (tc >? 0); eexists; reflexivity. }
  unfold CalculateSortedRuns.
  destruct (H0 (LevelFiles vstorage 0)) as [l0 ->].
  destruct (Hl (allow_trivial_move (compaction_options_universal mutable_cf_options))
               (tl (files_ vstorage)) 1) as [lower ->].
  eexists; reflexivity.
Qed.

(** Without lazy compaction the grouping strategy is not reached, and the
    strategies have a result. *)
Lemma pick_plan_defined
      (base : CompactionPickerBase) (dops : DoubleOps) (mlib : MathLib)
      (builder : RangeBuilder)
      (table_cache_ : option TableCache) (st : PickerState)
      (ioptions : ImmutableCFOptions) (mutable_cf_options : MutableCFOptions)
      (vstorage : VersionStorageInfo) (sorted_runs : list SortedRun.t) :
  enable_lazy_compaction mutable_cf_options = false ->
  exists c,
    pick_plan table_cache_ st ioptions mutable_cf_options vstorage sorted_runs =
      Some c.
Proof.
  intros Hlazy. unfold pick_plan.
  destruct (_ || _); [eexists; reflexivity|].
  destruct (_ || _).
  - unfold pick_by_size. rewrite Hlazy.
    destruct (PickCompactionToReduceSizeAmp _ _ _ _); [eexists; reflexivity|].
    destruct (PickCompactionToReduceSortedRunsOld _ _ _ _ _ _);
      [eexists; reflexivity|].
    destruct (_ >? _); eexists; reflexivity.
  - eexists; reflexivity.
Qed.

(** [PickCompaction] returns, with a plan or without one, when lazy
    compaction is off. *)
Lemma PickCompaction_returns
      (base : CompactionPickerBase) (dops : DoubleOps) (mlib : MathLib)
      (builder : RangeBuilder) (icmp : InternalKeyComparator)
      (table_cache_ : option TableCache) (st : PickerState)
      (ioptions : ImmutableCFOptions) (mutable_cf_options : MutableCFOptions)
      (vstorage : VersionStorageInfo)
      (rank : FileMetaData.t -> nat) (fuel : nat) :
  enable_lazy_compaction mutable_cf_options = false ->
  depend_ranked vstorage rank ->
  (forall f, (rank f + 1 < fuel)%nat) ->
  exists r,
    PickCompaction fuel table_cache_ st ioptions mutable_cf_options vstorage =
      Some r.
Proof.
  intros Hlazy Hranked Hfuel. unfold PickCompaction.
  destruct (CalculateSortedRuns_total vstorage mutable_cf_options rank fuel
              Hranked Hfuel) as [sorted_runs ->].
  destruct (pick_plan_defined base dops mlib builder table_cache_ st ioptions
              mutable_cf_options vstorage sorted_runs Hlazy) as [[c|] ->];
    eexists; reflexivity.
Qed.

Example racing_vstorage_ranked : depend_ranked racing_vstorage (fun _ => 0%nat).
Proof. intros f n g _ _ H. discriminate H. Qed.

(** ** Iterator failure in PickCompositeCompaction and PickRangeCompaction *)

Lemma range_early_return_none
      (ioptions : ImmutableCFOptions) (mutable_cf_options : MutableCFOptions)
      (vstorage : VersionStorageInfo) (level_ : Z)
      (files_being_compact : option (list Z)) (b1 b2 : bool) :
  range_early_return ioptions mutable_cf_options vstorage level_
                     files_being_compact b1 = None ->
  range_early_return ioptions mutable_cf_options vstorage level_
                     files_being_compact b2 = None.
Proof.
  unfold range_early_return.
  destruct files_being_compact as [[|n ns]|]; try discriminate.
  destruct (LevelFiles vstorage level_) as [|f fs]; try discriminate.
  destruct (AreFilesInCompaction (f :: fs)); try discriminate.
  destruct ((level_ =? 0) && (1 <? length (f :: fs))%nat); [discriminate|].
  reflexivity.
Qed.

(** The status is asked for once, when the iterator has been opened: if it
    is not OK then, [PickCompositeCompaction] and [PickRangeCompaction]
    return no plan; nothing but the absent plan tells the caller, and
    [*manual_conflict] is left as it was. *)
Lemma iterator_failure_returns_no_plan :
  (forall (cache : TableCache) (builder : RangeBuilder)
          (ioptions : ImmutableCFOptions) (mutable_cf_options : MutableCFOptions)
          (vstorage : VersionStorageInfo) (sorted_runs : list SortedRun.t)
          (iter : MapElementIterator),
      composite_opened_iterator vstorage sorted_runs = Some iter ->
      status_ok iter = false ->
      PickCompositeCompaction ioptions mutable_cf_options vstorage sorted_runs = None)
  /\
  (forall (cache : TableCache) (builder : RangeBuilder)
          (ioptions : ImmutableCFOptions) (mutable_cf_options : MutableCFOptions)
          (vstorage : VersionStorageInfo) (level_ : Z) (begin_ end_ : option Slice)
          (files_being_compact : option (list Z)) (manual_conflict : bool)
          (iter : MapElementIterator),
      range_opened_iterator ioptions mutable_cf_options vstorage level_
                            files_being_compact = Some iter ->
      status_ok iter = false ->
      PickRangeCompaction ioptions mutable_cf_options vstorage level_ begin_ end_
                          files_being_compact manual_conflict =
      (None, manual_conflict)).
Proof.
  split.
  - intros cache builder ioptions mutable_cf_options vstorage sorted_runs iter
           Hopen Hbad.
    unfold composite_opened_iterator in Hopen. unfold PickCompositeCompaction.
    destruct (negb (has_space_amplification vstorage)); [discriminate|].
    destruct (composite_target vstorage sorted_runs) as [[l [|f fs]]|];
      try discriminate.
    injection Hopen as <-. simpl files. cbn iota. simpl level.
    rewrite Hbad. reflexivity.
  - intros cache builder ioptions mutable_cf_options vstorage level_ begin_ end_
           files_being_compact manual_conflict iter Hopen Hbad.
    unfold range_opened_iterator in Hopen. unfold PickRangeCompaction.
    destruct (range_early_return ioptions mutable_cf_options vstorage level_
                                 files_being_compact false) eqn:Hearly;
      [discriminate|].
    rewrite (range_early_return_none _ _ _ _ _ false manual_conflict Hearly).
    injection Hopen as <-. rewrite Hbad. reflexivity.
Qed.

Lemma iterator_failure_returns_no_plan_witness :
  @PickCompositeCompaction failing_cache no_ranges one_path
    (mk_mutable_cf_options 1) map_vstorage map_runs = None /\
  @PickRangeCompaction failing_cache no_ranges one_path
    (mk_mutable_cf_options 1) map_vstorage 1 None None (Some [7]) false =
  (None, false).
Proof.
  split.
  - apply (proj1 iterator_failure_returns_no_plan failing_cache no_ranges one_path
             (mk_mutable_cf_options 1) map_vstorage map_runs
             {| status_ok := false; entries := []; end_status_ok := false |});
      reflexivity.
  - apply (proj2 iterator_failure_returns_no_plan failing_cache no_ranges one_path
             (mk_mutable_cf_options 1) map_vstorage 1 None None (Some [7]) false
             {| status_ok := false; entries := []; end_status_ok := false |});
      reflexivity.
Defined.

(** An iterator that opens without an error and yields no element makes
    [PickCompositeCompaction] plan the rewrite of the map of a lower level,
    whatever status the iterator reports after the scans. *)
Lemma PickCompositeCompaction_empty_scan
      (cache : TableCache) (builder : RangeBuilder)
      (ioptions : ImmutableCFOptions) (mutable_cf_options : MutableCFOptions)
      (vstorage : VersionStorageInfo) (sorted_runs : list SortedRun.t)
      (l : Z) (f : FileMetaData.t) (fs : list FileMetaData.t) :
  has_space_amplification vstorage = true ->
  composite_target vstorage sorted_runs = Some {| level := l; files := f :: fs |} ->
  status_ok (NewIterator f l) = true ->
  entries (NewIterator f l) = [] ->
  l <> 0 ->
  PickCompositeCompaction ioptions mutable_cf_options vstorage sorted_runs =
    Some (new_compaction ioptions mutable_cf_options
            {| level := l; files := f :: fs |} kMapSst 1 []).
Proof.
  intros Hamp Htarget Hopen Hnone Hl. unfold PickCompositeCompaction.
  rewrite Hamp, Htarget. cbn [negb files level]. rewrite Hopen. cbn [negb].
  unfold scan_collapse_regions, scan_priority_ranges, scan_sweep_ranges.
  rewrite Hnone. destruct (Z.eqb_spec l 0) as [E|_]; [contradiction|].
  reflexivity.
Qed.

(** C9 does not hold of the code: the strategies ask for the status of the
    iterator once, after the open, and never after a scan.  An iterator
    that opens without an error and fails at its first read yields no
    element and then reports a status that is not OK.  The three scans of
    [PickCompositeCompaction] take it for an iterator at the end of its
    data and find no range, and the strategy returns the plan that rewrites
    the map of level 1; [PickCompaction] hands this plan to its caller. *)
Theorem iterator_scan_failure_returns_plan (builder : RangeBuilder) :
  let iter := @NewIterator interrupted_cache map_file 1 in
  @composite_opened_iterator interrupted_cache deep_map_vstorage deep_map_runs =
    Some iter /\
  status_ok iter = true /\ entries iter = [] /\ end_status_ok iter = false /\
  exists c,
    @PickCompositeCompaction interrupted_cache builder one_path
      (mk_mutable_cf_options 1) deep_map_vstorage deep_map_runs = Some c /\
    compaction_purpose c = kMapSst /\
    compaction_reason c = kCompositeAmplification /\
    inputs c = [{| level := 1; files := [map_file] |}] /\
    exists st' vstorage',
      @PickCompaction declining_base IEEE754_binary64 binary64_math builder
        BytewiseComparator 2 (Some interrupted_cache) empty_state one_path
        (mk_mutable_cf_options 1) deep_map_vstorage =
        Some (Some c, st', vstorage').
Proof.
  cbn zeta. split; [reflexivity|]. repeat (split; [reflexivity|]).
  eexists. split; [vm_compute; reflexivity|].
  repeat (split; [reflexivity|]).
  eexists. eexists. vm_compute. reflexivity.
Qed.

(** ** PickCompaction *)

(** The helpers that the delete-triggered strategy calls are the only code
    between the entry of [PickCompaction] and its [RegisterCompaction] that
    can touch the picker's state: what they keep, the strategy keeps. *)
Lemma delete_triggered_inputs_keeps
      (base : Stateful.CompactionPickerBase) (P : PickerState -> Prop)
      (st : PickerState) (ioptions : ImmutableCFOptions)
      (mutable_cf_options : MutableCFOptions) (vstorage : VersionStorageInfo) :
  Stateful.helpers_keep P ->
  P st ->
  P (snd (Stateful.delete_triggered_inputs st ioptions mutable_cf_options vstorage)).
Proof.
  intros (Hmarked & Hoverlapping & Hsetup & Hrange) HP.
  unfold Stateful.delete_triggered_inputs.
  destruct (num_levels vstorage =? 1).
  { destruct (_ <=? 1)%nat; exact HP. }
  pose proof (Hmarked st vstorage HP) as HP1.
  destruct (Stateful.PickFilesMarkedForCompaction st vstorage)
    as [[start_level start_level_inputs] st1].
  cbn [snd] in HP1.
  destruct (files start_level_inputs); [exact HP1|].
  destruct (if _ =? num_levels vstorage then _ else _) as [output_level|];
    [|exact HP1].
  set (out := if allow_ingest_behind ioptions && _ then _ else _).
  destruct (negb (out =? 0)); [|exact HP1].
  assert (HP2 : P (snd (if start_level =? 0
                        then Stateful.GetOverlappingL0Files
                               st1 vstorage start_level_inputs out
                        else (Some start_level_inputs, st1)))).
  { destruct (start_level =? 0); [apply Hoverlapping; exact HP1|exact HP1]. }
  destruct (if start_level =? 0 then _ else _) as [[expanded|] st2];
    cbn [snd] in HP2; [|exact HP2].
  pose proof (Hsetup st2 mutable_cf_options vstorage expanded
                     {| level := out; files := [] |} HP2) as HP3.
  destruct (Stateful.SetupOtherInputs st2 mutable_cf_options vstorage expanded _)
    as [[[start_level_inputs' output_level_inputs]|] st3];
    cbn [snd] in HP3; [|exact HP3].
  match goal with
  | |- context [Stateful.FilesRangeOverlapWithCompaction st3 ?ins out] =>
      pose proof (Hrange st3 ins out HP3) as HP4;
      destruct (Stateful.FilesRangeOverlapWithCompaction st3 ins out)
        as [[|] st4]
  end; exact HP4.
Qed.

Lemma pick_plan_keeps
      (base : Stateful.CompactionPickerBase) (dops : DoubleOps) (mlib : MathLib)
      (builder : RangeBuilder) (P : PickerState -> Prop)
      (table_cache_ : option TableCache) (st : PickerState)
      (ioptions : ImmutableCFOptions) (mutable_cf_options : MutableCFOptions)
      (vstorage : VersionStorageInfo) (sorted_runs : list SortedRun.t)
      (c : option Compaction) (st' : PickerState) :
  Stateful.helpers_keep P ->
  P st ->
  Stateful.pick_plan table_cache_ st ioptions mutable_cf_options vstorage
                     sorted_runs = Some (c, st') ->
  P st'.
Proof.
  intros Hkeep HP. unfold Stateful.pick_plan.
  destruct (_ || _).
  { intros E. injection E as _ <-. exact HP. }
  destruct (if _ || _ then _ else _) as [[c1 runs1]|]; [|discriminate].
  pose proof (delete_triggered_inputs_keeps base P st ioptions mutable_cf_options
                vstorage Hkeep HP) as Hdelete.
  assert (Hlast : forall c2 st2,
             Stateful.PickDeleteTriggeredCompaction st ioptions mutable_cf_options
                                                    vstorage = (c2, st2) ->
             P st2).
  { unfold Stateful.PickDeleteTriggeredCompaction. intros c2 st2.
    destruct (Stateful.delete_triggered_inputs st ioptions mutable_cf_options
                                               vstorage)
      as [[[ins out]|] st3]; cbn [snd] in Hdelete;
      intros E; injection E as _ <-; exact Hdelete. }
  destruct c1 as [c1|].
  - destruct table_cache_; intros E; injection E as _ <-; exact HP.
  - destruct table_cache_ as [cache|].
    + destruct (@PickCompositeCompaction cache builder ioptions mutable_cf_options
                                         vstorage runs1) as [c2|].
      * intros E. injection E as _ <-. exact HP.
      * intros E. injection E as E. exact (Hlast _ _ E).
    + intros E. injection E as E. exact (Hlast _ _ E).
Qed.

(** What the helpers keep of the state holds after a call of
    [PickCompaction] that returns no plan, and held of the state to which a
    returned plan was added. *)
Lemma PickCompaction_state_invariant
      (base : Stateful.CompactionPickerBase) (dops : DoubleOps) (mlib : MathLib)
      (builder : RangeBuilder) (icmp : InternalKeyComparator)
      (P : PickerState -> Prop)
      (fuel : nat) (table_cache_ : option TableCache) (st : PickerState)
      (ioptions : ImmutableCFOptions) (mutable_cf_options : MutableCFOptions)
      (vstorage : VersionStorageInfo)
      (r : option Compaction) (st' : PickerState) (vstorage' : VersionStorageInfo) :
  Stateful.helpers_keep P ->
  P st ->
  Stateful.PickCompaction fuel table_cache_ st ioptions mutable_cf_options
                          vstorage = Some (r, st', vstorage') ->
  match r with
  | None => P st' /\ vstorage' = vstorage
  | Some c => exists st0, P st0 /\ st' = Stateful.RegisterCompaction st0 c
  end.
Proof.
  intros Hkeep HP. unfold Stateful.PickCompaction.
  destruct (CalculateSortedRuns fuel vstorage mutable_cf_options) as [sorted_runs|];
    [|discriminate].
  destruct (Stateful.pick_plan table_cache_ st ioptions mutable_cf_options vstorage
                               sorted_runs) as [[[c|] st1]|] eqn:Hplan;
    [| |discriminate];
    pose proof (pick_plan_keeps base dops mlib builder P _ _ _ _ _ _ _ _
                  Hkeep HP Hplan) as HP1;
    intros E; injection E as <- <- <-.
  - exists st1. split; [exact HP1|reflexivity].
  - split; [exact HP1|reflexivity].
Qed.

(** With helpers that only read the state, the functions of the module
    [Stateful] are those of above. *)
Lemma delete_triggered_inputs_lift
      (base : CompactionPickerBase) (st : PickerState)
      (ioptions : ImmutableCFOptions) (mutable_cf_options : MutableCFOptions)
      (vstorage : VersionStorageInfo) :
  @Stateful.delete_triggered_inputs (lift_base base) st ioptions
     mutable_cf_options vstorage =
  (delete_triggered_inputs st ioptions mutable_cf_options vstorage, st).
Proof.
  unfold Stateful.delete_triggered_inputs, delete_triggered_inputs.
  destruct (num_levels vstorage =? 1).
  { destruct (_ <=? 1)%nat; reflexivity. }
  cbn [lift_base Stateful.PickFilesMarkedForCompaction
       Stateful.GetOverlappingL0Files Stateful.SetupOtherInputs
       Stateful.FilesRangeOverlapWithCompaction].
  destruct (PickFilesMarkedForCompaction st vstorage)
    as [start_level start_level_inputs].
  destruct (files start_level_inputs); [reflexivity|].
  destruct (if _ =? num_levels vstorage then _ else _) as [output_level|];
    [|reflexivity].
  destruct (negb _); [|reflexivity].
  destruct (start_level =? 0).
  - destruct (GetOverlappingL0Files st vstorage start_level_inputs _)
      as [expanded|]; [|reflexivity].
    destruct (SetupOtherInputs st mutable_cf_options vstorage expanded _)
      as [[a b]|]; [|reflexivity].
    destruct (FilesRangeOverlapWithCompaction st _ _); reflexivity.
  - destruct (SetupOtherInputs st mutable_cf_options vstorage start_level_inputs _)
      as [[a b]|]; [|reflexivity].
    destruct (FilesRangeOverlapWithCompaction st _ _); reflexivity.
Qed.

Lemma PickCompaction_lift
      (base : CompactionPickerBase) (dops : DoubleOps) (mlib : MathLib)
      (builder : RangeBuilder) (icmp : InternalKeyComparator)
      (fuel : nat) (table_cache_ : option TableCache) (st : PickerState)
      (ioptions : ImmutableCFOptions) (mutable_cf_options : MutableCFOptions)
      (vstorage : VersionStorageInfo) :
  @Stateful.PickCompaction (lift_base base) dops mlib builder icmp fuel
     table_cache_ st ioptions mutable_cf_options vstorage =
  PickCompaction fuel table_cache_ st ioptions mutable_cf_options vstorage.
Proof.
  unfold Stateful.PickCompaction, PickCompaction.
  destruct (CalculateSortedRuns fuel vstorage mutable_cf_options) as [sorted_runs|];
    [|reflexivity].
  assert (Hplan :
    @Stateful.pick_plan (lift_base base) dops mlib builder table_cache_ st ioptions
       mutable_cf_options vstorage sorted_runs =
    option_map (fun c => (c, st))
      (pick_plan table_cache_ st ioptions mutable_cf_options vstorage sorted_runs)).
  { unfold Stateful.pick_plan, pick_plan.
    destruct (_ || _); [reflexivity|].
    destruct (if _ || _ then _ else _) as [[c1 runs1]|]; [|reflexivity].
    cbn [option_map]. f_equal.
    assert (Hlast :
      @Stateful.PickDeleteTriggeredCompaction (lift_base base) st ioptions
         mutable_cf_options vstorage =
      (PickDeleteTriggeredCompaction st ioptions mutable_cf_options vstorage, st)).
    { unfold Stateful.PickDeleteTriggeredCompaction, PickDeleteTriggeredCompaction.
      rewrite delete_triggered_inputs_lift.
      destruct (delete_triggered_inputs st ioptions mutable_cf_options vstorage)
        as [[ins out]|]; reflexivity. }
    destruct c1 as [c1|]; [destruct table_cache_; reflexivity|].
    destruct table_cache_ as [cache|]; [|exact Hlast].
    destruct (@PickCompositeCompaction cache builder ioptions mutable_cf_options
                                       vstorage runs1); [reflexivity|exact Hlast]. }
  rewrite Hplan.
  destruct (pick_plan table_cache_ st ioptions mutable_cf_options vstorage
                      sorted_runs) as [[c|]|]; reflexivity.
Qed.

(** A helper that writes the state shows in the result: with a search for
    marked files that forgets the compactions in progress,
    [PickCompaction] returns no plan and the compaction into level 3 is
    gone from the picker's state. *)
Example PickCompaction_state_follows_helpers :
  @Stateful.PickCompaction forgetting_base IEEE754_binary64 binary64_math
    no_ranges BytewiseComparator 2 None busy_state one_path
    (mk_mutable_cf_options 4) tombstone_vstorage =
  Some (None, empty_state, tombstone_vstorage).
Proof. vm_compute. reflexivity. Qed.

(** C10: an invocation of [PickCompaction] that returns no plan leaves
    [compactions_in_progress_] and [level0_compactions_in_progress_] (and
    the version) as they were, and a plan that is returned is registered in
    the state as it was: between its entry and the one [RegisterCompaction]
    on the path that returns a plan, the function writes the state nowhere.
    The helpers of the base picker that the delete-triggered strategy calls
    have their bodies in another file; the statement is for helpers that do
    not write the state themselves. *)
Theorem PickCompaction_no_plan_keeps_state
        (base : Stateful.CompactionPickerBase) (dops : DoubleOps) (mlib : MathLib)
        (builder : RangeBuilder) (icmp : InternalKeyComparator)
        (fuel : nat) (table_cache_ : option TableCache) (st : PickerState)
        (ioptions : ImmutableCFOptions) (mutable_cf_options : MutableCFOptions)
        (vstorage : VersionStorageInfo)
        (r : option Compaction) (st' : PickerState) (vstorage' : VersionStorageInfo) :
  Stateful.helpers_read_only ->
  Stateful.PickCompaction fuel table_cache_ st ioptions mutable_cf_options
                          vstorage = Some (r, st', vstorage') ->
  match r with
  | None => st' = st /\ vstorage' = vstorage
  | Some c => st' = Stateful.RegisterCompaction st c
  end.
Proof.
  intros (Hmarked & Hoverlapping & Hsetup & Hrange) H.
  assert (Hkeep : Stateful.helpers_keep (fun s => s = st)).
  { repeat split; intros; subst; auto. }
  pose proof (PickCompaction_state_invariant base dops mlib builder icmp
                (fun s => s = st) fuel table_cache_ st ioptions mutable_cf_options
                vstorage r st' vstorage' Hkeep eq_refl H) as Hinv.
  destruct r as [c|].
  - destruct Hinv as (st0 & -> & ->). reflexivity.
  - exact Hinv.
Qed.

(** On a version of four levels with a marked file in level 1, the
    delete-triggered strategy calls the helpers; the overlap test finds the
    compaction into level 3 that is in progress, no plan is returned and
    the state is the one before the call. *)
Lemma PickCompaction_no_plan_keeps_state_witness :
  @Stateful.PickCompaction (lift_base watching_base) IEEE754_binary64
    binary64_math no_ranges BytewiseComparator 2 None busy_state one_path
    (mk_mutable_cf_options 4) tombstone_vstorage =
    Some (None, busy_state, tombstone_vstorage) /\
  (busy_state = busy_state /\ tombstone_vstorage = tombstone_vstorage) /\
  exists c,
    @Stateful.PickCompaction (lift_base watching_base) IEEE754_binary64
      binary64_math no_ranges BytewiseComparator 2 None empty_state one_path
      (mk_mutable_cf_options 4) tombstone_vstorage =
      Some (Some c, @Stateful.RegisterCompaction (lift_base watching_base)
                      empty_state c,
            tombstone_vstorage).
Proof.
  assert (Hread : @Stateful.helpers_read_only (lift_base watching_base))
    by (repeat split).
  assert (H : @Stateful.PickCompaction (lift_base watching_base) IEEE754_binary64
                binary64_math no_ranges BytewiseComparator 2 None busy_state
                one_path (mk_mutable_cf_options 4) tombstone_vstorage =
              Some (None, busy_state, tombstone_vstorage))
    by (vm_compute; reflexivity).
  split; [exact H|]. split.
  - exact (PickCompaction_no_plan_keeps_state (lift_base watching_base)
             IEEE754_binary64 binary64_math no_ranges BytewiseComparator 2 None
             busy_state one_path (mk_mutable_cf_options 4) tombstone_vstorage
             None busy_state tombstone_vstorage Hread H).
  - destruct (@Stateful.PickCompaction (lift_base watching_base) IEEE754_binary64
                binary64_math no_ranges BytewiseComparator 2 None empty_state
                one_path (mk_mutable_cf_options 4) tombstone_vstorage)
      as [[[[c|] st'] vstorage']|] eqn:H2;
      [|vm_compute in H2; discriminate H2|vm_compute in H2; discriminate H2].
    exists c.
    rewrite <- (PickCompaction_no_plan_keeps_state (lift_base watching_base)
                  IEEE754_binary64 binary64_math no_ranges BytewiseComparator 2
                  None empty_state one_path (mk_mutable_cf_options 4)
                  tombstone_vstorage (Some c) st' vstorage' Hread H2).
    vm_compute in H2. injection H2 as _ _ <-. reflexivity.
Defined.

(** C1 does not hold of the code: on a single-level engine the
    delete-triggered path takes the first marked file and every file after
    it without looking at [being_compacted].  Here the newest file is marked
    and the two older files are inputs of a compaction in progress; the plan
    returned holds all three. *)
Theorem PickCompaction_picks_files_being_compacted :
  exists c st' vstorage',
    @PickCompaction declining_base IEEE754_binary64 binary64_math no_ranges
      BytewiseComparator 1 None empty_state one_path (mk_mutable_cf_options 1)
      racing_vstorage = Some (Some c, st', vstorage') /\
    compaction_reason c = kFilesMarkedForCompaction /\
    inputs c = [{| level := 0; files := racing_files |}] /\
    exists f, In f racing_files /\ FileMetaData.being_compacted f = true.
Proof.
  eexists. eexists. eexists. split; [vm_compute; reflexivity|].
  split; [reflexivity|]. split; [reflexivity|].
  exists (mk_file 2 10 true false). split; [right; left; reflexivity|reflexivity].
Qed.


(* ================================================================= *)
(** * Further properties of the picker *)

(** ** PickTrivialMoveCompaction *)

Lemma find_empty_level_spec (vstorage : VersionStorageInfo) (st : PickerState)
      (n : nat) :
  forall output_level,
    output_level <= Z.of_nat n ->
    let r := find_empty_level vstorage st n output_level in
    1 <= r ->
    level_is_empty vstorage r = true /\ is_compaction_output_level st r = false.
Proof.
  induction n as [|n IH]; intros o Hn; cbn zeta; simpl; [lia|].
  destruct (Z.geb_spec o 1) as [Hge|Hlt]; [|lia].
  destruct (level_is_empty vstorage o && negb (is_compaction_output_level st o))
    eqn:Hcond.
  - intros _. apply andb_prop in Hcond. destruct Hcond as [He Ho].
    apply negb_true_iff in Ho. auto.
  - apply IH. lia.
Qed.

Lemma find_start_level_spec (vstorage : VersionStorageInfo) (st : PickerState)
      (n : nat) :
  forall start_level,
    0 <= start_level <= Z.of_nat n ->
    let '(r, found) := find_start_level vstorage st n start_level in
    0 <= r <= start_level /\
    (forall l, r < l <= start_level ->
               level_is_empty vstorage l = true /\
               is_compaction_output_level st l = false) /\
    (found = true -> 0 < r /\ level_is_empty vstorage r = false) /\
    (found = false -> r = 0 \/ is_compaction_output_level st r = true).
Proof.
  induction n as [|n IH]; intros s Hs.
  - simpl. split; [lia|]. split; [intros; lia|]. split; [discriminate|].
    intros _. left. lia.
  - simpl. destruct (Z.gtb_spec s 0) as [Hpos|Hz].
    + destruct (is_compaction_output_level st s) eqn:Hout.
      * split; [lia|]. split; [intros; lia|]. split; [discriminate|].
        intros _. now right.
      * destruct (level_is_empty vstorage s) eqn:Hempty; cbn [negb].
        -- specialize (IH (s - 1) ltac:(lia)).
           destruct (find_start_level vstorage st n (s - 1)) as [r found].
           destruct IH as (Hr & Hbetween & Hfound & Hnot).
           split; [lia|]. split; [|split; assumption].
           intros l Hl. destruct (Z.eq_dec l s) as [->|Hne]; [auto|].
           apply Hbetween. lia.
        -- split; [lia|]. split; [intros; lia|]. split; [auto|discriminate].
    + split; [lia|]. split; [intros; lia|]. split; [discriminate|].
      intros _. left. lia.
Qed.

(** What the [while (true)] loop settles on: an empty level that no
    compaction in progress writes to, and below it the first level from
    which files can be moved, with nothing in between. *)
Lemma trivial_move_levels_spec (vstorage : VersionStorageInfo) (st : PickerState)
      (fuel : nat) :
  forall output_level start_level output_level',
    trivial_move_levels fuel vstorage st output_level =
      Some (start_level, output_level') ->
    0 <= start_level < output_level' /\ output_level' <= output_level /\
    level_is_empty vstorage output_level' = true /\
    is_compaction_output_level st output_level' = false /\
    (forall l, start_level < l < output_level' ->
               level_is_empty vstorage l = true /\
               is_compaction_output_level st l = false) /\
    (start_level <> 0 ->
     level_is_empty vstorage start_level = false /\
     AreFilesInCompaction (LevelFiles vstorage start_level) = false).
Proof.
  induction fuel as [|fuel IH]; intros o s o' H; simpl in H; [discriminate|].
  pose proof (find_empty_level_le vstorage st (Z.to_nat o) o) as Hle.
  pose proof (find_empty_level_spec vstorage st (Z.to_nat o) o) as Hspec.
  cbn zeta in Hspec.
  set (e := find_empty_level vstorage st (Z.to_nat o) o) in *.
  destruct (Z.ltb_spec e 1) as [Hlt|Hge]; [discriminate|].
  assert (Ho : o <= Z.of_nat (Z.to_nat o)) by lia.
  destruct (Hspec Ho Hge) as [Hempty Hout].
  pose proof (find_start_level_spec vstorage st (Z.to_nat e) (e - 1) ltac:(lia))
    as Hstart.
  destruct (find_start_level vstorage st (Z.to_nat e) (e - 1)) as [r found].
  destruct Hstart as (Hr & Hbetween & Hfound & Hnot).
  destruct (Z.eqb_spec r 0) as [Hr0|Hrne].
  - injection H as <- <-. subst r.
    split; [lia|]. split; [lia|]. split; [exact Hempty|]. split; [exact Hout|].
    split; [intros l Hl; apply Hbetween; lia|]. intros Hne. congruence.
  - destruct (found && negb (AreFilesInCompaction (LevelFiles vstorage r))) eqn:Hok.
    + injection H as <- <-. apply andb_prop in Hok. destruct Hok as [Hf Hidle].
      apply negb_true_iff in Hidle. destruct (Hfound Hf) as [Hpos Hne].
      split; [lia|]. split; [lia|]. split; [exact Hempty|]. split; [exact Hout|].
      split; [intros l Hl; apply Hbetween; lia|]. auto.
    + destruct (IH _ _ _ H) as (H1 & H2 & H3 & H4 & H5 & H6).
      split; [lia|]. split; [lia|]. auto.
Qed.

(** X1: a plan of [PickTrivialMoveCompaction] moves the files of one level
    into an empty level below it that no compaction in progress writes
    to, across levels that are empty too.  From a level other than 0 it
    takes the whole level, from level 0 the last, oldest file alone; no
    file it takes is being compacted. *)
Theorem PickTrivialMoveCompaction_into_empty_level
        (st : PickerState) (ioptions : ImmutableCFOptions)
        (mutable_cf_options : MutableCFOptions) (vstorage : VersionStorageInfo)
        (c : Compaction) :
  PickTrivialMoveCompaction st ioptions mutable_cf_options vstorage = Some c ->
  exists start_level fs,
    inputs c = [{| level := start_level; files := fs |}] /\
    compaction_reason c = kTrivialMoveLevel /\
    0 <= start_level < output_level c /\
    output_level c <= num_levels vstorage - 1 /\
    LevelFiles vstorage (output_level c) = [] /\
    is_compaction_output_level st (output_level c) = false /\
    (forall l, start_level < l < output_level c -> LevelFiles vstorage l = []) /\
    fs <> [] /\
    AreFilesInCompaction fs = false /\
    (if start_level =? 0
     then exists newer, LevelFiles vstorage 0 = newer ++ fs /\ length fs = 1%nat
     else fs = LevelFiles vstorage start_level).
Proof.
  unfold PickTrivialMoveCompaction. intros H.
  destruct (negb (allow_trivial_move (compaction_options_universal mutable_cf_options)));
    [discriminate|].
  set (o := if allow_ingest_behind ioptions then num_levels vstorage - 1 - 1
            else num_levels vstorage - 1) in *.
  destruct (trivial_move_levels (S (Z.to_nat (num_levels vstorage))) vstorage st o)
    as [[start_level output_level']|] eqn:Hlevels; [|discriminate].
  destruct (trivial_move_levels_spec _ _ _ _ _ _ Hlevels)
    as (Hs & Ho & Hempty & Hout & Hbetween & Hstart).
  assert (Hlevel_empty : forall l, level_is_empty vstorage l = true ->
                                   LevelFiles vstorage l = []).
  { intros l. unfold level_is_empty. destruct (LevelFiles vstorage l);
      [reflexivity|discriminate]. }
  assert (Hbound : output_level' <= num_levels vstorage - 1)
    by (unfold o in Ho; destruct (allow_ingest_behind ioptions); lia).
  destruct (Z.eqb_spec start_level 0) as [Hz|Hnz].
  - destruct (rev (LevelFiles vstorage 0)) as [|meta older] eqn:Hrev; [discriminate|].
    destruct (FileMetaData.being_compacted meta) eqn:Hbc; [discriminate|].
    injection H as <-. exists start_level, [meta]. cbn [inputs output_level
      compaction_reason]. rewrite Hz in *.
    split; [reflexivity|]. split; [reflexivity|]. split; [lia|]. split; [exact Hbound|].
    split; [now apply Hlevel_empty|]. split; [exact Hout|].
    split; [intros l Hl; apply Hlevel_empty; now apply Hbetween|].
    split; [discriminate|]. split; [simpl; rewrite Hbc; reflexivity|].
    simpl Z.eqb. cbn iota. exists (rev older). split; [|reflexivity].
    rewrite <- (rev_involutive (LevelFiles vstorage 0)), Hrev. reflexivity.
  - destruct (Hstart Hnz) as [Hne Hidle].
    injection H as <-. exists start_level, (LevelFiles vstorage start_level).
    cbn [inputs output_level compaction_reason].
    split; [reflexivity|]. split; [reflexivity|]. split; [lia|]. split; [exact Hbound|].
    split; [now apply Hlevel_empty|]. split; [exact Hout|].
    split; [intros l Hl; apply Hlevel_empty; now apply Hbetween|].
    split; [unfold level_is_empty in Hne;
            destruct (LevelFiles vstorage start_level); [discriminate|discriminate]|].
    split; [exact Hidle|].
    destruct (Z.eqb_spec start_level 0); [contradiction|reflexivity].
Qed.

Lemma PickTrivialMoveCompaction_into_empty_level_witness :
  exists start_level fs,
    (start_level, fs) = (0, [mk_file 1 10 false false]) /\
    exists c,
      PickTrivialMoveCompaction empty_state one_path trivial_move_options
                                fresh_vstorage = Some c /\
      inputs c = [{| level := start_level; files := fs |}] /\
      output_level c = 2.
Proof.
  assert (H : PickTrivialMoveCompaction empty_state one_path trivial_move_options
                fresh_vstorage =
              Some {| inputs := [{| level := 0; files := [mk_file 1 10 false false] |}];
                      output_level := 2; output_path_id := 0;
                      enable_compression := true; max_subcompactions := 0;
                      manual_compaction := false; partial_compaction := false;
                      compaction_purpose := kEssenceSst; input_range := [];
                      compaction_reason := kTrivialMoveLevel;
                      is_trivial_move := false |}) by reflexivity.
  destruct (PickTrivialMoveCompaction_into_empty_level _ _ _ _ _ H)
    as (start_level & fs & Hin & _).
  cbn [inputs] in Hin. injection Hin as <- <-.
  exists 0, [mk_file 1 10 false false]. split; [reflexivity|].
  eexists. split; [exact H|]. split; reflexivity.
Defined.

(** ** PickCompositeCompaction *)

Lemma composite_choice_ok_more (vstorage : VersionStorageInfo)
      (seen : list SortedRun.t) (sr : SortedRun.t) (l : Z)
      (fs : list FileMetaData.t) :
  composite_choice_ok vstorage seen l fs ->
  composite_choice_ok vstorage (seen ++ [sr]) l fs.
Proof.
  intros [H|(sr' & Hin & H)]; [now left|].
  right. exists sr'. split; [apply in_or_app; now left|exact H].
Qed.

Lemma composite_visit_ok (cache : TableCache) (vstorage : VersionStorageInfo)
      (seen : list SortedRun.t) (sr : SortedRun.t)
      (l : Z) (fs : list FileMetaData.t) (m : Z) (stop : bool) :
  composite_choice_ok vstorage seen l fs ->
  match composite_visit vstorage (l, fs, m, stop) sr with
  | (l', fs', _, _) => composite_choice_ok vstorage (seen ++ [sr]) l' fs'
  end.
Proof.
  intros Hok. pose proof (composite_choice_ok_more _ _ sr _ _ Hok) as Hkeep.
  assert (Hsr : In sr (seen ++ [sr])) by (apply in_or_app; right; now left).
  unfold composite_visit.
  destruct stop; [exact Hkeep|].
  destruct (SortedRun.wait_reduce sr) eqn:Hwait; [exact Hkeep|].
  destruct (Z.gtb_spec (SortedRun.level sr) 0) as [Hpos|Hzero].
  - destruct (negb (level_has_space_amplification vstorage (SortedRun.level sr)));
      [exact Hkeep|].
    destruct (AreFilesInCompaction (LevelFiles vstorage (SortedRun.level sr)))
      eqn:Hidle; [exact Hkeep|].
    destruct (Nat.ltb_spec 1 (length (LevelFiles vstorage (SortedRun.level sr))))
      as [Hmany|Hfew].
    + right. exists sr. split; [exact Hsr|]. split; [reflexivity|].
      split; [exact Hwait|]. left. split; [lia|]. auto.
    + destruct (LevelFiles vstorage (SortedRun.level sr)) as [|f rest] eqn:Hfiles;
        [exact Hkeep|].
      assert (rest = []) by (destruct rest; [reflexivity|simpl in Hfew; lia]).
      subst rest.
      destruct (GetTableProperties f) as [amp|]; [|exact Hkeep].
      destruct (amp >=? m); [|exact Hkeep].
      right. exists sr. split; [exact Hsr|]. split; [reflexivity|].
      split; [exact Hwait|]. right. exists f. split; [reflexivity|].
      split; [simpl in Hidle; now apply orb_false_elim in Hidle|].
      split; [intros _; exact Hfiles|lia].
  - destruct (SortedRun.file sr) as [f|] eqn:Hfile; [|exact Hkeep].
    destruct (FileMetaData.being_compacted f) eqn:Hbc; [exact Hkeep|].
    cbn [orb].
    destruct (SstPurpose_eqb (FileMetaData.sst_purpose f) kMapSst) eqn:Hmap;
      [|exact Hkeep]. cbn [negb].
    destruct (GetTableProperties f) as [amp|]; [|exact Hkeep].
    destruct (amp >=? m); [|exact Hkeep].
    right. exists sr. split; [exact Hsr|]. split; [reflexivity|].
    split; [exact Hwait|]. right. exists f. split; [reflexivity|].
    split; [exact Hbc|]. split; [lia|]. intros _. split; [exact Hfile|].
    destruct (FileMetaData.sst_purpose f); try discriminate; reflexivity.
Qed.

Lemma composite_fold_ok (cache : TableCache) (vstorage : VersionStorageInfo)
      (runs : list SortedRun.t) :
  forall seen l fs m stop,
    composite_choice_ok vstorage seen l fs ->
    match fold_left (composite_visit vstorage) runs (l, fs, m, stop) with
    | (l', fs', _, _) => composite_choice_ok vstorage (seen ++ runs) l' fs'
    end.
Proof.
  induction runs as [|sr rest IH]; intros seen l fs m stop Hok.
  - simpl. rewrite app_nil_r. exact Hok.
  - cbn [fold_left].
    pose proof (composite_visit_ok cache vstorage seen sr l fs m stop Hok) as Hstep.
    destruct (composite_visit vstorage (l, fs, m, stop) sr) as [[[l1 fs1] m1] stop1].
    specialize (IH (seen ++ [sr]) l1 fs1 m1 stop1 Hstep).
    rewrite <- app_assoc in IH. exact IH.
Qed.

(** X2: a plan of [PickCompositeCompaction] has one input level, which is
    also its output level, and that level is the level of a sorted run that
    is not waiting to be reduced.  Of a lower level the plan takes all the
    files, of level 0 the one map SST of the run; no file of the plan is
    being compacted. *)
Theorem PickCompositeCompaction_idle_level
        (cache : TableCache) (builder : RangeBuilder)
        (ioptions : ImmutableCFOptions) (mutable_cf_options : MutableCFOptions)
        (vstorage : VersionStorageInfo) (sorted_runs : list SortedRun.t)
        (c : Compaction) :
  PickCompositeCompaction ioptions mutable_cf_options vstorage sorted_runs = Some c ->
  exists sr fs,
    In sr sorted_runs /\ SortedRun.wait_reduce sr = false /\
    inputs c = [{| level := SortedRun.level sr; files := fs |}] /\
    output_level c = SortedRun.level sr /\
    compaction_reason c = kCompositeAmplification /\
    fs <> [] /\
    AreFilesInCompaction fs = false /\
    (if 0 <? SortedRun.level sr
     then fs = LevelFiles vstorage (SortedRun.level sr)
     else exists f, fs = [f] /\ SortedRun.file sr = Some f /\
                    FileMetaData.sst_purpose f = kMapSst).
Proof.
  unfold PickCompositeCompaction. intros H.
  destruct (negb (has_space_amplification vstorage)); [discriminate|].
  unfold composite_target in H.
  pose proof (composite_fold_ok cache vstorage (rev sorted_runs) [] (-1) [] 0 false
                (or_introl (conj eq_refl eq_refl))) as Hok.
  destruct (fold_left (composite_visit vstorage) (rev sorted_runs) (-1, [], 0, false))
    as [[[l fs] m] stop].
  simpl app in Hok.
  destruct (Z.eqb_spec l (-1)) as [Hnone|Hsome]; [discriminate|].
  destruct Hok as [[Hl _]|(sr & Hin & Hlevel & Hwait & Hchoice)]; [contradiction|].
  apply in_rev in Hin. cbn [files level] in H.
  assert (Hplan : forall purpose subs ranges,
            let c' := new_compaction ioptions mutable_cf_options
                        {| level := l; files := LevelFiles vstorage l |}
                        purpose subs ranges in
            inputs c' = [{| level := l; files := LevelFiles vstorage l |}] /\
            output_level c' = l /\
            compaction_reason c' = kCompositeAmplification)
    by (intros; cbn zeta; repeat split).
  destruct Hchoice as [(Hpos & -> & Hmany & Hidle)|(f & -> & Hbc & Hlower & Hzero)].
  - injection H as <-. exists sr, (LevelFiles vstorage l). rewrite Hlevel.
    split; [exact Hin|]. split; [exact Hwait|].
    split; [reflexivity|]. split; [reflexivity|]. split; [reflexivity|].
    split; [destruct (LevelFiles vstorage l); [simpl in Hmany; lia|discriminate]|].
    split; [exact Hidle|].
    destruct (Z.ltb_spec 0 l); [reflexivity|lia].
  - assert (Hc : inputs c = [{| level := l; files := [f] |}] /\
                 output_level c = l /\
                 compaction_reason c = kCompositeAmplification).
    { destruct (negb (status_ok (NewIterator f l))); [discriminate|].
      destruct (scan_collapse_regions vstorage ioptions {| level := l; files := [f] |}
                                 (NewIterator f l)) as [[|r rs]|];
        [|injection H as <-; repeat split|discriminate].
      destruct (scan_priority_ranges vstorage ioptions mutable_cf_options
                                {| level := l; files := [f] |} (NewIterator f l))
        as [[|r rs]|]; [|injection H as <-; repeat split|discriminate].
      destruct (scan_sweep_ranges vstorage ioptions {| level := l; files := [f] |}
                             (NewIterator f l)) as [|r rs];
        [|injection H as <-; repeat split].
      cbn [level] in H. destruct (negb (l =? 0)); [|discriminate].
      injection H as <-. repeat split. }
    destruct Hc as (Hinputs & Hout & Hreason).
    exists sr, [f]. rewrite Hlevel.
    split; [exact Hin|]. split; [exact Hwait|].
    split; [exact Hinputs|]. split; [exact Hout|]. split; [exact Hreason|].
    split; [discriminate|]. split; [simpl; rewrite Hbc; reflexivity|].
    destruct (Z.ltb_spec 0 l) as [Hpos|Hnpos].
    + symmetry. apply Hlower. exact Hpos.
    + exists f. split; [reflexivity|]. apply Hzero. exact Hnpos.
Qed.

Lemma PickCompositeCompaction_idle_level_witness :
  exists c sr fs,
    @PickCompositeCompaction reading_cache no_ranges one_path
      (mk_mutable_cf_options 1) rebuild_vstorage rebuild_runs = Some c /\
    In sr rebuild_runs /\
    inputs c = [{| level := SortedRun.level sr; files := fs |}] /\
    AreFilesInCompaction fs = false.
Proof.
  destruct (@PickCompositeCompaction reading_cache no_ranges one_path
              (mk_mutable_cf_options 1) rebuild_vstorage rebuild_runs)
    as [c|] eqn:H; [|discriminate H].
  destruct (PickCompositeCompaction_idle_level reading_cache no_ranges one_path
              (mk_mutable_cf_options 1) rebuild_vstorage rebuild_runs c H)
    as (sr & fs & Hin & _ & Hinputs & _ & _ & _ & Hidle & _).
  exists c, sr, fs. auto.
Defined.

Lemma absorb_ranges_head (builder : RangeBuilder) (rest : list RangeStorage) :
  forall prev,
    exists r rs,
      absorb_ranges prev rest = r :: rs /\
      start r = start prev /\ include_start r = include_start prev.
Proof.
  induction rest as [|it rest IH]; intros prev; simpl.
  - exists prev, []. auto.
  - destruct ((user_compare (start it) (start prev) =? 0) ||
              (user_compare (limit it) (limit prev) =? 0)).
    + destruct (IH {| start := start prev; limit := limit it;
                      include_start := include_start prev;
                      include_limit := include_limit it |}) as (r & rs & E & Hs & Hi).
      exists r, rs. auto.
    + exists prev, (absorb_ranges it rest). auto.
Qed.

Lemma last_cons_default {A : Type} (l : list A) :
  forall x d d', last (x :: l) d = last (x :: l) d'.
Proof.
  induction l as [|y l IH]; intros x d d'; [reflexivity|apply (IH y)].
Qed.

Lemma absorb_ranges_spec (builder : RangeBuilder) (rest : list RangeStorage) :
  forall prev,
    let out := absorb_ranges prev rest in
    (length out <= S (length rest))%nat /\
    limit (last out prev) = limit (last (prev :: rest) prev) /\
    include_limit (last out prev) = include_limit (last (prev :: rest) prev) /\
    starts_differ out.
Proof.
  induction rest as [|it rest IH]; intros prev; cbn zeta.
  - simpl. auto.
  - cbn [absorb_ranges].
    change (last (prev :: it :: rest) prev) with (last (it :: rest) prev).
    destruct ((user_compare (start it) (start prev) =? 0) ||
              (user_compare (limit it) (limit prev) =? 0)) eqn:Hsame.
    + set (merged := {| start := start prev; limit := limit it;
                        include_start := include_start prev;
                        include_limit := include_limit it |}).
      destruct (IH merged) as (Hlen & Hlimit & Hincl & Hdiff).
      destruct (absorb_ranges_head builder rest merged) as (r & rs & E & _).
      split; [simpl; lia|]. split; [|split; [|exact Hdiff]].
      * rewrite E in *. rewrite (last_cons_default rs r prev merged), Hlimit.
        destruct rest as [|x rest']; [reflexivity|].
        change (last (merged :: x :: rest') merged) with (last (x :: rest') merged).
        change (last (it :: x :: rest') prev) with (last (x :: rest') prev).
        now rewrite (last_cons_default rest' x merged prev).
      * rewrite E in *. rewrite (last_cons_default rs r prev merged), Hincl.
        destruct rest as [|x rest']; [reflexivity|].
        change (last (merged :: x :: rest') merged) with (last (x :: rest') merged).
        change (last (it :: x :: rest') prev) with (last (x :: rest') prev).
        now rewrite (last_cons_default rest' x merged prev).
    + destruct (IH it) as (Hlen & Hlimit & Hincl & Hdiff).
      destruct (absorb_ranges_head builder rest it) as (r & rs & E & Hs & _).
      split; [simpl; lia|].
      rewrite E in *.
      change (last (prev :: r :: rs) prev) with (last (r :: rs) prev).
      rewrite (last_cons_default rs r prev it), Hlimit, Hincl.
      rewrite (last_cons_default rest it it prev).
      split; [reflexivity|]. split; [reflexivity|].
      cbn [starts_differ]. split; [|exact Hdiff].
      rewrite Hs. apply orb_false_elim in Hsame. destruct Hsame as [Hstart _].
      apply Z.eqb_neq in Hstart. exact Hstart.
Qed.

(** X3: the ranges of a plan built by [new_compaction] cover what the
    ranges it was given cover: the first range starts where the first given
    range starts, the last ends where the last given range ends, and none
    is added.  No range that is left starts where the one before it
    starts. *)
Theorem new_compaction_joins_ranges
        (builder : RangeBuilder) (ioptions : ImmutableCFOptions)
        (mutable_cf_options : MutableCFOptions) (inputs_ : CompactionInputFiles)
        (purpose : SstPurpose) (max_subcompactions_ : Z)
        (first : RangeStorage) (others : list RangeStorage) :
  let c := new_compaction ioptions mutable_cf_options inputs_ purpose
                          max_subcompactions_ (first :: others) in
  exists r rs,
    input_range c = r :: rs /\
    (length (r :: rs) <= length (first :: others))%nat /\
    start r = start first /\ include_start r = include_start first /\
    limit (last (r :: rs) first) = limit (last (first :: others) first) /\
    include_limit (last (r :: rs) first) =
      include_limit (last (first :: others) first) /\
    starts_differ (r :: rs).
Proof.
  cbn zeta. unfold new_compaction. cbn [input_range].
  destruct others as [|second others].
  - exists first, []. simpl. auto 10.
  - destruct (absorb_ranges_head builder (second :: others) first)
      as (r & rs & E & Hs & Hi).
    destruct (absorb_ranges_spec builder (second :: others) first)
      as (Hlen & Hlimit & Hincl & Hdiff).
    rewrite E in *. exists r, rs.
    split; [reflexivity|]. split; [exact Hlen|]. auto.
Qed.

(** ** PickRangeCompaction *)

(** X4: [PickRangeCompaction] never clears [*manual_conflict]; it raises it
    exactly when files to compact are named, the level has files and one of
    them is being compacted, and then it returns no plan.  A plan it
    returns compacts the level into itself and holds all the files of the
    level, none of which is being compacted. *)
Theorem PickRangeCompaction_conflict
        (cache : TableCache) (builder : RangeBuilder)
        (ioptions : ImmutableCFOptions) (mutable_cf_options : MutableCFOptions)
        (vstorage : VersionStorageInfo) (level_ : Z) (begin_ end_ : option Slice)
        (files_being_compact : option (list Z)) (manual_conflict : bool) :
  let r := PickRangeCompaction ioptions mutable_cf_options vstorage level_
                               begin_ end_ files_being_compact manual_conflict in
  let named := match files_being_compact with
               | Some (_ :: _) => true
               | _ => false
               end in
  let busy := named && negb (level_is_empty vstorage level_) &&
              AreFilesInCompaction (LevelFiles vstorage level_) in
  snd r = manual_conflict || busy /\
  (busy = true -> fst r = None) /\
  (forall c, fst r = Some c ->
             named = true /\
             inputs c = [{| level := level_; files := LevelFiles vstorage level_ |}] /\
             LevelFiles vstorage level_ <> [] /\
             AreFilesInCompaction (LevelFiles vstorage level_) = false /\
             output_level c = level_).
Proof.
  cbn zeta. unfold PickRangeCompaction, range_early_return, level_is_empty.
  destruct files_being_compact as [[|n ns]|];
    try (cbn; rewrite orb_false_r; repeat split; discriminate).
  destruct (LevelFiles vstorage level_) as [|f fs] eqn:Hfiles;
    [cbn; rewrite orb_false_r; repeat split; discriminate|].
  cbn [negb andb].
  destruct (AreFilesInCompaction (f :: fs)) eqn:Hbusy.
  - cbn [fst snd]. rewrite orb_true_r. repeat split; discriminate.
  - rewrite orb_false_r.
    destruct ((level_ =? 0) && (1 <? length (f :: fs))%nat).
    + cbn [fst snd]. split; [reflexivity|]. split; [discriminate|].
      intros c Hc. injection Hc as <-. repeat split. discriminate.
    + destruct (negb (status_ok (NewMapElementIterator (f :: fs)))).
      * cbn [fst snd]. repeat split; discriminate.
      * destruct (scan_manual_ranges vstorage ioptions mutable_cf_options level_
                                begin_ end_ (n :: ns)
                                (NewMapElementIterator (f :: fs)))
          as [[|r rs] estimated_total_size].
        -- cbn [fst snd]. repeat split; discriminate.
        -- cbn [fst snd]. split; [reflexivity|]. split; [discriminate|].
           intros c Hc. injection Hc as <-. repeat split. discriminate.
Qed.

(** ** PickCompactionToReduceSortedRuns *)

Lemma only_marks_refl (runs : list SortedRun.t) : only_marks runs runs.
Proof. split; [reflexivity|]. intros k. now left. Qed.

Lemma set_wait_reduce_twice (sr : SortedRun.t) :
  set_wait_reduce (set_wait_reduce sr) = set_wait_reduce sr.
Proof. reflexivity. Qed.

Lemma only_marks_trans (a b d : list SortedRun.t) :
  only_marks a b -> only_marks b d -> only_marks a d.
Proof.
  intros [Hl1 H1] [Hl2 H2]. split; [congruence|].
  intros k. destruct (H1 k) as [E1|E1], (H2 k) as [E2|E2]; rewrite E2, E1; auto.
Qed.

Lemma only_marks_update (runs : list SortedRun.t) (j : nat) :
  only_marks runs (update_at runs j set_wait_reduce).
Proof.
  split; [apply length_update_at|]. intros k.
  destruct (Nat.eq_dec j k) as [->|Hne].
  - destruct (Nat.lt_ge_cases k (length runs)) as [Hlt|Hge].
    + right. now apply nth_update_at_eq.
    + left. rewrite !nth_overflow; [reflexivity|lia|rewrite length_update_at; lia].
  - left. now apply nth_update_at_neq.
Qed.

Lemma only_marks_being_compacted (a b : list SortedRun.t) (k : nat) :
  only_marks a b ->
  SortedRun.being_compacted (nth k b default_run) =
  SortedRun.being_compacted (nth k a default_run).
Proof. intros [_ H]. destruct (H k) as [E|E]; rewrite E; reflexivity. Qed.

Lemma only_marks_wait_reduce (a b : list SortedRun.t) (k : nat) :
  only_marks a b ->
  SortedRun.wait_reduce (nth k a default_run) = true ->
  SortedRun.wait_reduce (nth k b default_run) = true.
Proof. intros [_ H] Hw. destruct (H k) as [E|E]; rewrite E; [exact Hw|reflexivity]. Qed.

Lemma mark_group_spec (n : nat) :
  forall sr_i runs being_compacted,
    let r := mark_group n sr_i runs being_compacted in
    only_marks runs (fst r) /\
    (forall k, (sr_i <= k < sr_i + n)%nat -> (k < length runs)%nat ->
               SortedRun.wait_reduce (nth k (fst r) default_run) = true) /\
    (snd r = false ->
     being_compacted = false /\
     forall k, (sr_i <= k < sr_i + n)%nat ->
               SortedRun.being_compacted (nth k runs default_run) = false).
Proof.
  induction n as [|n IH]; intros sr_i runs bc; cbn zeta.
  - simpl. split; [apply only_marks_refl|]. split; [intros; lia|].
    intros ->. split; [reflexivity|intros; lia].
  - cbn [mark_group].
    set (bc1 := bc || SortedRun.being_compacted (nth sr_i runs default_run)).
    set (runs1 := update_at runs sr_i set_wait_reduce).
    destruct (IH (S sr_i) runs1 bc1) as (Hmarks & Hwait & Hidle).
    pose proof (only_marks_update runs sr_i) as Hupd. fold runs1 in Hupd.
    split; [exact (only_marks_trans _ _ _ Hupd Hmarks)|]. split.
    + intros k Hk Hlen. destruct (Nat.eq_dec k sr_i) as [->|Hne].
      * apply (only_marks_wait_reduce runs1); [exact Hmarks|].
        unfold runs1. rewrite nth_update_at_eq by exact Hlen. reflexivity.
      * apply Hwait; [lia|]. unfold runs1. rewrite length_update_at. exact Hlen.
    + intros Hfalse. destruct (Hidle Hfalse) as [Hbc1 Hrest].
      unfold bc1 in Hbc1. apply orb_false_elim in Hbc1. destruct Hbc1 as [Hbc Hhere].
      split; [exact Hbc|]. intros k Hk.
      destruct (Nat.eq_dec k sr_i) as [->|Hne]; [exact Hhere|].
      rewrite <- (only_marks_being_compacted runs runs1 k Hupd).
      apply Hrest. lia.
Qed.

Lemma picked_ok_marks (a b : list SortedRun.t) (picked : Z * Z) :
  only_marks a b -> picked_ok a picked -> picked_ok b picked.
Proof.
  intros Hmarks Hok Hne k Hk Hlen.
  destruct Hmarks as [Hl Hm]. rewrite Hl in Hlen.
  destruct (Hok Hne k Hk Hlen) as [Hbc Hw].
  split.
  - rewrite (only_marks_being_compacted a b k (conj Hl Hm)). exact Hbc.
  - apply (only_marks_wait_reduce a b k (conj Hl Hm)). exact Hw.
Qed.

Section GroupChoice.
Context {dops : DoubleOps}.

Lemma choose_group_spec (groups : list SortedRunGroup.t) :
  Forall group_in_range groups ->
  forall runs picked,
    picked_ok runs picked ->
    let r := choose_group groups runs picked in
    only_marks runs (fst r) /\ picked_ok (fst r) (snd r).
Proof.
  induction 1 as [|g rest [Hstart Hcount] Hrest IH]; intros runs picked Hok; cbn zeta.
  - simpl. split; [apply only_marks_refl|exact Hok].
  - cbn [choose_group].
    pose proof (mark_group_spec (Z.to_nat (SortedRunGroup.count g))
                  (Z.to_nat (SortedRunGroup.start g)) runs false) as Hmark.
    cbn zeta in Hmark.
    set (marked := if SortedRunGroup.count g >? 1
                   then mark_group (Z.to_nat (SortedRunGroup.count g))
                                   (Z.to_nat (SortedRunGroup.start g)) runs false
                   else (runs, false)).
    assert (Hm : only_marks runs (fst marked)).
    { unfold marked. destruct (SortedRunGroup.count g >? 1);
        [apply Hmark|apply only_marks_refl]. }
    destruct marked as [runs1 bc] eqn:Emarked. cbn [fst] in Hm.
    set (picked1 :=
           if negb (snd picked =? 0) then picked
           else if SortedRunGroup.count g =? 1 then picked
           else if bc then picked
           else (SortedRunGroup.start g,
                 add64 (SortedRunGroup.start g) (SortedRunGroup.count g))).
    assert (Hok1 : picked_ok runs1 picked1).
    { unfold picked1.
      destruct (negb (snd picked =? 0)); [exact (picked_ok_marks _ _ _ Hm Hok)|].
      destruct (Z.eqb_spec (SortedRunGroup.count g) 1) as [Hone|Hnot];
        [exact (picked_ok_marks _ _ _ Hm Hok)|].
      destruct bc eqn:Hbc; [exact (picked_ok_marks _ _ _ Hm Hok)|].
      intros _ k Hk Hlen. cbn [fst snd] in Hk.
      assert (Hend : add64 (SortedRunGroup.start g) (SortedRunGroup.count g) <=
                     SortedRunGroup.start g + SortedRunGroup.count g).
      { unfold add64, wrap64. apply Z.mod_le; [lia|reflexivity]. }
      unfold marked in Emarked.
      destruct (Z.gtb_spec (SortedRunGroup.count g) 1) as [Hmany|Hfew].
      - rewrite Emarked in Hmark. cbn [fst snd] in Hmark.
        destruct Hmark as (_ & Hwait & Hidle).
        destruct (Hidle eq_refl) as [_ Hidle'].
        destruct Hm as [Hl Hm]. rewrite Hl in Hlen.
        split.
        + rewrite (only_marks_being_compacted runs runs1 k (conj Hl Hm)).
          apply Hidle'. lia.
        + apply Hwait; [lia|exact Hlen].
      - lia. }
    destruct (IH runs1 picked1 Hok1) as [Hmarks Hfinal].
    split; [exact (only_marks_trans _ _ _ Hm Hmarks)|exact Hfinal].
Qed.

End GroupChoice.

Lemma Forall_update_at {A : Type} (P : A -> Prop) (f : A -> A) (o : list A) :
  (forall x, P x -> P (f x)) ->
  forall j, Forall P o -> Forall P (update_at o j f).
Proof.
  intros Hf. induction o as [|x rest IH]; intros [|j] H; simpl; auto;
    inversion H; subst; constructor; auto.
Qed.

Section GroupRange.
Context {dops : DoubleOps} {mlib : MathLib}.

Lemma make_singletons_range (n : nat) :
  forall j sr sr_size g o,
    Forall group_in_range o ->
    Forall group_in_range (make_singletons n j sr sr_size g o).
Proof.
  induction n as [|n IH]; intros j sr sr_size g o H; simpl; [exact H|].
  apply IH. apply Forall_update_at; [|exact H].
  intros x _. split; simpl; lia.
Qed.

Lemma refine_groups_range (i : nat) :
  forall sr sr_size g q o,
    Forall group_in_range o ->
    match refine_groups i sr sr_size g q o with
    | (_, _, _, o') => Forall group_in_range o'
    end.
Proof.
  induction i as [|i IH]; intros sr sr_size g q o H; simpl; [exact H|].
  destruct (dgt q done); [|exact H].
  destruct (dlt _ q); [|apply IH; exact H].
  apply IH. apply make_singletons_range. exact H.
Qed.

Lemma sweep_groups_range (m : nat) :
  forall sr q sr_acc q_acc q_i o,
    Forall group_in_range o ->
    Forall group_in_range (sweep_groups m sr q sr_acc q_acc q_i o).
Proof.
  induction m as [|i IH]; intros sr q sr_acc q_acc q_i o H; simpl; [exact H|].
  destruct (((i <? q_i)%nat || dgt sr_acc q_acc || _) && (0 <? q_i)%nat).
  - apply IH. repeat apply Forall_update_at; try exact H;
      intros x [Hs Hc]; split; simpl; try assumption; lia.
  - apply IH. apply Forall_update_at; [|exact H].
    intros x [Hs Hc]; split; simpl; assumption.
Qed.

Lemma count_groups_range (n : nat) :
  forall i o,
    Forall group_in_range o -> Forall group_in_range (count_groups n i o).
Proof.
  induction n as [|n IH]; intros i o H; simpl; [exact H|].
  apply IH. apply Forall_update_at; [|exact H].
  intros x [Hs _]. split; [exact Hs|]. simpl.
  apply wrap64_range.
Qed.

(** Whatever the floating-point operations return, and for every target
    count, the starts and counts [GenSortedRunGroup] writes are values of
    [size_t] that were never decremented below zero. *)
Lemma GenSortedRunGroup_range (sr : list double) (group : nat) :
  Forall group_in_range (snd (GenSortedRunGroup sr group)).
Proof.
  unfold GenSortedRunGroup.
  assert (H0 : Forall group_in_range (repeat empty_group group)).
  { apply Forall_forall. intros x Hx. apply repeat_spec in Hx. subst x.
    split; simpl; lia. }
  pose proof (refine_groups_range (group - 1) sr (length sr) group (Q sr group)
                (repeat empty_group group) H0) as H1.
  destruct (refine_groups (group - 1) sr (length sr) group (Q sr group)
                          (repeat empty_group group)) as [[[sr_size g] q] o1].
  cbn [snd].
  apply Forall_update_at;
    [intros x [Hs _]; split; [exact Hs|simpl; apply wrap64_range]|].
  apply count_groups_range. apply sweep_groups_range.
  repeat apply Forall_update_at; try exact H1;
    intros x [Hs Hc]; split; simpl; try assumption; lia.
Qed.

End GroupRange.

(** What the strategy leaves of the sorted runs, and the runs of its
    plan. *)
Lemma PickCompactionToReduceSortedRuns_picked
        (dops : DoubleOps) (mlib : MathLib)
        (ioptions : ImmutableCFOptions) (mutable_cf_options : MutableCFOptions)
        (vstorage : VersionStorageInfo) (sorted_runs : list SortedRun.t)
        (reduce_sorted_run_target : Z)
        (r : option Compaction * list SortedRun.t) :
  PickCompactionToReduceSortedRuns ioptions mutable_cf_options vstorage
    sorted_runs reduce_sorted_run_target = Some r ->
  only_marks sorted_runs (snd r) /\
  forall c,
    fst r = Some c ->
    exists start_index n,
      let picked := firstn n (skipn start_index (snd r)) in
      pick_group_runs vstorage
        (SortedRun.level (nth start_index (snd r) default_run)) picked
        (init_inputs n (SortedRun.level (nth start_index (snd r) default_run))) =
        Some (inputs c) /\
      forall sr, In sr picked ->
                 SortedRun.being_compacted sr = false /\
                 SortedRun.wait_reduce sr = true.
Proof.
  unfold PickCompactionToReduceSortedRuns.
  set (target := if reduce_sorted_run_target =? 0
                 then Z.of_nat (length sorted_runs) else reduce_sorted_run_target).
  set (ratios := map (fun sr => ddiv (of_uint64 (SortedRun.size sr))
                                     (of_uint64 (write_buffer_size mutable_cf_options)))
                     sorted_runs).
  pose proof (GenSortedRunGroup_range ratios (Z.to_nat target)) as Hrange.
  destruct (GenSortedRunGroup ratios (Z.to_nat target)) as [common_ratio group].
  cbn [snd] in Hrange.
  assert (Hinit : picked_ok sorted_runs (0, 0)) by (intros Hne; exfalso; now apply Hne).
  pose proof (choose_group_spec group Hrange sorted_runs (0, 0) Hinit) as Hchoice.
  cbn zeta in Hchoice.
  destruct (choose_group group sorted_runs (0, 0)) as [runs' [start_index end_index]].
  cbn [fst snd] in Hchoice. destruct Hchoice as [Hmarks Hok].
  destruct (Z.eqb_spec end_index 0) as [Hz|Hnz].
  - intros E. injection E as <-. cbn [fst snd].
    split; [exact Hmarks|discriminate].
  - destruct (pick_group_runs vstorage _ _ _) as [inputs_|] eqn:Hcopy;
      [|discriminate].
    intros E. injection E as <-. cbn [fst snd]. split; [exact Hmarks|].
    intros c Hc. injection Hc as <-. cbn [inputs].
    exists (Z.to_nat start_index), (Z.to_nat end_index - Z.to_nat start_index)%nat.
    cbn zeta. split; [exact Hcopy|].
    intros sr Hsr. destruct (In_nth _ _ default_run Hsr) as (k & Hk & E).
    rewrite length_firstn, length_skipn in Hk.
    rewrite nth_firstn in E.
    destruct (Nat.ltb_spec k (Z.to_nat end_index - Z.to_nat start_index)) as [Hlt|Hge];
      [|lia].
    rewrite nth_skipn in E. subst sr.
    apply (Hok Hnz); cbn [fst snd]; lia.
Qed.

(** ** GenSortedRunGroup: every group holds a run *)

(** X6: for [n] sizes and a target of [g] groups with [1 <= g <= n], every
    group that [GenSortedRunGroup] emits is a non-empty range of indices of
    the sizes: its count is at least one and it ends within the [n] runs,
    whatever the floating-point operations return. *)
Theorem GenSortedRunGroup_groups_nonempty
        (dops : DoubleOps) (mlib : MathLib) (sr : list double) (group : nat) :
  (1 <= group <= length sr)%nat ->
  Z.of_nat (length sr) < two64 ->
  let o := snd (GenSortedRunGroup sr group) in
  forall j, (j < group)%nat ->
            0 <= start_at o j /\ 1 <= count_at o j /\
            start_at o j + count_at o j <= Z.of_nat (length sr).
Proof.
  intros Hg Hn. unfold GenSortedRunGroup.
  set (d := (length sr - group)%nat).
  pose proof (refine_groups_spec d sr (group - 1) (length sr) group
                (Q sr group) (repeat empty_group group)) as Href.
  rewrite repeat_length in Href.
  assert (Hs0 : singletons_from d group (repeat empty_group group))
    by (intros j Hj; rewrite repeat_length in Hj; lia).
  specialize (Href ltac:(lia) ltac:(lia) ltac:(lia) Hs0).
  destruct (refine_groups (group - 1) sr (length sr) group (Q sr group)
                          (repeat empty_group group)) as [[[sr_size g] q] o1].
  destruct Href as (Hg' & Hsize & Hl1 & Hsing1).
  cbn zeta. cbn [snd].
  set (sr_acc := nth (sr_size - 1) sr dzero).
  set (q_acc := dpow q (of_uint64 (Z.of_nat g))).
  set (o3 := update_at (update_at o1 (g - 1) (set_ratio sr_acc)) 0 (set_start 0)).
  assert (Hl3 : length o3 = group)
    by (unfold o3; rewrite !length_update_at; exact Hl1).
  assert (Hstart3 : forall k, start_at o3 k = if Nat.eqb 0 k then 0 else start_at o1 k).
  { intros k. unfold o3. rewrite start_at_set_start
      by (rewrite length_update_at; lia).
    destruct (Nat.eqb 0 k); [reflexivity|]. now rewrite start_at_keeps. }
  assert (Hcount3 : forall k, count_at o3 k = count_at o1 k)
    by (intros k; unfold o3; now rewrite !count_at_keeps).
  assert (Hcuts : cuts_ok sr_size g (sr_size - 1) (g - 1) o3).
  { unfold cuts_ok. rewrite Hl3, Hstart3. simpl Nat.eqb.
    split; [lia|]. split; [lia|]. split; [lia|]. split; [lia|].
    split; [reflexivity|]. split; intros; lia. }
  assert (Hsing3 : singletons_from d g o3).
  { intros j Hj. rewrite Hl3 in Hj. rewrite Hstart3, Hcount3.
    destruct (Nat.eqb_spec 0 j); [lia|]. apply Hsing1. lia. }
  destruct (sweep_groups_spec d sr_size g sr q (sr_size - 1) sr_acc q_acc (g - 1)
              o3 Hcuts Hsing3) as (Hc4 & Hsing4 & Hl4).
  set (o4 := sweep_groups (sr_size - 1) sr q sr_acc q_acc (g - 1) o3) in *.
  destruct Hc4 as (_ & _ & _ & _ & Hz4 & Hbound4 & Hinc4).
  destruct (count_groups_spec (g - 1) 1 o4 (le_n 1)) as (Hl5 & Hstart5 & Hin5 & Hout5).
  set (o5 := count_groups (g - 1) 1 o4) in *.
  set (last_count := sub64 (Z.of_nat sr_size) (SortedRunGroup.start (group_at o5 (g - 1)))).
  set (o6 := update_at o5 (g - 1) (fun x => set_count last_count x)).
  assert (Hstart6 : forall k, start_at o6 k = start_at o4 k).
  { intros k. unfold o6. rewrite start_at_keeps by reflexivity. apply Hstart5. }
  assert (Hlow : forall j, (j < g)%nat -> 0 <= start_at o4 j < Z.of_nat sr_size).
  { intros j Hj. destruct j as [|j]; [rewrite Hz4; lia|].
    specialize (Hbound4 (S j) ltac:(lia)). lia. }
  assert (Hup : forall j, (S j < g)%nat -> start_at o4 j < start_at o4 (S j)).
  { intros j Hj. destruct j as [|j].
    - rewrite Hz4. specialize (Hbound4 1%nat ltac:(lia)). lia.
    - apply Hinc4; lia. }
  intros j Hj. rewrite Hstart6.
  destruct (Nat.ltb_spec (S j) g) as [Hlt|Hge].
  - assert (Hc : count_at o6 j = start_at o4 (S j) - start_at o4 j).
    { unfold o6, count_at, group_at. rewrite nth_update_at_neq by lia.
      fold (group_at o5 j). fold (count_at o5 j).
      rewrite Hin5 by lia. unfold sub64.
      pose proof (Hlow j ltac:(lia)). pose proof (Hup j Hlt).
      pose proof (Hlow (S j) Hlt). apply wrap64_small. lia. }
    rewrite Hc. pose proof (Hlow j ltac:(lia)). pose proof (Hup j Hlt).
    pose proof (Hlow (S j) Hlt). lia.
  - destruct (Nat.eq_dec (S j) g) as [E|Hne].
    + assert (Hc : count_at o6 j = Z.of_nat sr_size - start_at o4 j).
      { unfold o6, count_at, group_at.
        replace (g - 1)%nat with j by lia.
        rewrite nth_update_at_eq by lia. cbn [set_count SortedRunGroup.count].
        unfold last_count. replace (g - 1)%nat with j by lia.
        fold (start_at o5 j). rewrite Hstart5. unfold sub64.
        pose proof (Hlow j ltac:(lia)). apply wrap64_small. lia. }
      rewrite Hc. pose proof (Hlow j ltac:(lia)). lia.
    + assert (Hc : count_at o6 j = count_at o4 j).
      { unfold o6, count_at, group_at. rewrite nth_update_at_neq by lia.
        fold (group_at o5 j). fold (count_at o5 j). apply Hout5. lia. }
      rewrite Hc. destruct (Hsing4 j ltac:(lia)) as [Hs Hone].
      rewrite Hs, Hone. lia.
Qed.

Lemma GenSortedRunGroup_groups_nonempty_witness :
  (1 <= 4 <= length doubling_sizes)%nat /\
  Z.of_nat (length doubling_sizes) < two64 /\
  1 <= @count_at IEEE754_binary64 doubling_groups 3.
Proof.
  assert (H1 : (1 <= 4 <= length doubling_sizes)%nat) by (simpl; lia).
  assert (H2 : Z.of_nat (length doubling_sizes) < two64) by reflexivity.
  split; [exact H1|]. split; [exact H2|].
  exact (proj1 (proj2 (GenSortedRunGroup_groups_nonempty IEEE754_binary64
                         binary64_math doubling_sizes 4 H1 H2 3%nat
                         ltac:(lia)))).
Defined.

(** ** CalculateSortedRuns *)

Lemma level0_runs_spec (fuel : nat) (vstorage : VersionStorageInfo)
      (level0 : list FileMetaData.t) :
  forall runs,
    level0_runs fuel vstorage level0 = Some runs ->
    Forall2 level0_run_of level0 runs.
Proof.
  induction level0 as [|f rest IH]; intros runs H; simpl in H.
  - injection H as <-. constructor.
  - destruct (GetFilesSize fuel (Some f) SIZE_MAX vstorage) as [s|]; [|discriminate].
    destruct (level0_runs fuel vstorage rest) as [runs'|]; [|discriminate].
    injection H as <-. constructor; [|now apply IH].
    repeat split.
Qed.

Lemma level_totals_later (fuel : nat) (vstorage : VersionStorageInfo)
      (allow_trivial_move_ : bool) (fs : list FileMetaData.t) :
  forall tc ts bc tc' ts' bc',
    level_totals fuel vstorage allow_trivial_move_ fs tc ts bc false =
      Some (tc', ts', bc') ->
    tc' = fold_left (fun a f => add64 a (FileMetaData.compensated_file_size f)) fs tc /\
    bc' = if allow_trivial_move_ then bc || AreFilesInCompaction fs else bc.
Proof.
  induction fs as [|f rest IH]; intros tc ts bc tc' ts' bc' H; simpl in H.
  - injection H as <- <- <-. split; [reflexivity|].
    destruct allow_trivial_move_; [simpl; now rewrite orb_false_r|reflexivity].
  - destruct (GetFilesSize fuel (Some f) SIZE_MAX vstorage) as [s|]; [|discriminate].
    destruct (IH _ _ _ _ _ _ H) as [Htc Hbc]. split; [exact Htc|].
    rewrite Hbc. unfold AreFilesInCompaction. simpl.
    destruct allow_trivial_move_; [|reflexivity].
    destruct (FileMetaData.being_compacted f); simpl;
      [now rewrite orb_true_r|reflexivity].
Qed.

Lemma level_totals_spec (fuel : nat) (vstorage : VersionStorageInfo)
      (allow_trivial_move_ : bool) (fs : list FileMetaData.t) (tc ts : Z) (bc : bool) :
  level_totals fuel vstorage allow_trivial_move_ fs 0 0 false true =
    Some (tc, ts, bc) ->
  tc = sum_file_compensated fs /\
  bc = if allow_trivial_move_ then AreFilesInCompaction fs
       else match fs with
            | f :: _ => FileMetaData.being_compacted f
            | [] => false
            end.
Proof.
  destruct fs as [|f rest]; intros H; simpl in H.
  - injection H as <- <- <-. split; [reflexivity|].
    destruct allow_trivial_move_; reflexivity.
  - destruct (GetFilesSize fuel (Some f) SIZE_MAX vstorage) as [s|]; [|discriminate].
    destruct (level_totals_later _ _ _ _ _ _ _ _ _ _ H) as [Htc Hbc].
    split; [exact Htc|]. rewrite Hbc.
    destruct allow_trivial_move_; reflexivity.
Qed.

Lemma lower_level_runs_spec (fuel : nat) (vstorage : VersionStorageInfo)
      (allow_trivial_move_ : bool) (levels : list (list FileMetaData.t)) :
  forall level_ runs,
    0 <= level_ ->
    skipn (Z.to_nat level_) (files_ vstorage) = levels ->
    lower_level_runs fuel vstorage allow_trivial_move_ levels level_ = Some runs ->
    lower_runs_from vstorage allow_trivial_move_ level_ runs.
Proof.
  induction levels as [|fs rest IH]; intros l runs Hl Hskip H; simpl in H.
  - injection H as <-. exact I.
  - destruct (level_totals fuel vstorage allow_trivial_move_ fs 0 0 false true)
      as [[[tc ts] bc]|] eqn:Htotals; [|discriminate].
    destruct (lower_level_runs fuel vstorage allow_trivial_move_ rest (l + 1))
      as [runs'|] eqn:Hrest; [|discriminate].
    assert (Hnext : skipn (Z.to_nat (l + 1)) (files_ vstorage) = rest).
    { replace (Z.to_nat (l + 1)) with (S (Z.to_nat l)) by lia.
      rewrite <- (Nat.add_1_l (Z.to_nat l)), <- skipn_skipn, Hskip. reflexivity. }
    specialize (IH (l + 1) runs' ltac:(lia) Hnext Hrest).
    assert (Hfiles : LevelFiles vstorage l = fs).
    { unfold LevelFiles. destruct (Z.ltb_spec l 0); [lia|].
      rewrite <- (firstn_skipn (Z.to_nat l) (files_ vstorage)) at 1.
      rewrite Hskip, app_nth2 by (rewrite length_firstn; lia).
      rewrite length_firstn.
      assert (Hlen : (Z.to_nat l < length (files_ vstorage))%nat).
      { destruct (Nat.lt_ge_cases (Z.to_nat l) (length (files_ vstorage)));
          [assumption|]. rewrite skipn_all2 in Hskip by lia. discriminate. }
      replace (Z.to_nat l - Nat.min (Z.to_nat l) (length (files_ vstorage)))%nat
        with 0%nat by lia.
      reflexivity. }
    assert (Hbound : l < num_levels vstorage).
    { unfold num_levels.
      destruct (Nat.lt_ge_cases (Z.to_nat l) (length (files_ vstorage))); [lia|].
      rewrite skipn_all2 in Hskip by lia. discriminate. }
    assert (Hweaken : forall lo lo' rs,
               lo' <= lo -> lower_runs_from vstorage allow_trivial_move_ lo rs ->
               lower_runs_from vstorage allow_trivial_move_ lo' rs).
    { intros lo lo' [|sr rs] Hle Hr; [exact I|].
      destruct Hr as (Hb & Hrun & Hr). split; [lia|]. auto. }
    destruct (Z.gtb_spec tc 0) as [Hpos|Hzero].
    + injection H as <-. cbn [lower_runs_from SortedRun.level].
      split; [lia|]. split; [|exact IH].
      destruct (level_totals_spec _ _ _ _ _ _ _ Htotals) as [Htc Hbc].
      rewrite Hfiles. unfold level_run_of. cbn. auto.
    + injection H as <-. apply (Hweaken (l + 1)); [lia|exact IH].
Qed.

(** The levels that get a sorted run are exactly the levels whose
    compensated sizes add up to a positive value. *)
Lemma lower_level_runs_levels (fuel : nat) (vstorage : VersionStorageInfo)
      (allow_trivial_move_ : bool) (levels : list (list FileMetaData.t)) :
  forall level_ runs,
    0 <= level_ ->
    skipn (Z.to_nat level_) (files_ vstorage) = levels ->
    lower_level_runs fuel vstorage allow_trivial_move_ levels level_ = Some runs ->
    map SortedRun.level runs =
    filter (fun l => sum_file_compensated (LevelFiles vstorage l) >? 0)
           (map Z.of_nat (seq (Z.to_nat level_) (length levels))).
Proof.
  induction levels as [|fs rest IH]; intros l runs Hl Hskip H; simpl in H.
  - injection H as <-. reflexivity.
  - destruct (level_totals fuel vstorage allow_trivial_move_ fs 0 0 false true)
      as [[[tc ts] bc]|] eqn:Htotals; [|discriminate].
    destruct (lower_level_runs fuel vstorage allow_trivial_move_ rest (l + 1))
      as [runs'|] eqn:Hrest; [|discriminate].
    assert (Hnext : skipn (Z.to_nat (l + 1)) (files_ vstorage) = rest).
    { replace (Z.to_nat (l + 1)) with (S (Z.to_nat l)) by lia.
      rewrite <- (Nat.add_1_l (Z.to_nat l)), <- skipn_skipn, Hskip. reflexivity. }
    assert (Hfiles : LevelFiles vstorage l = fs).
    { unfold LevelFiles. destruct (Z.ltb_spec l 0); [lia|].
      rewrite <- (firstn_skipn (Z.to_nat l) (files_ vstorage)), Hskip.
      rewrite app_nth2 by (rewrite length_firstn; lia).
      assert (Hlen : (Z.to_nat l <= length (files_ vstorage))%nat).
      { destruct (Nat.le_gt_cases (Z.to_nat l) (length (files_ vstorage)));
          [assumption|].
        rewrite skipn_all2 in Hskip by lia. discriminate. }
      rewrite length_firstn, Nat.min_l by exact Hlen.
      rewrite Nat.sub_diag. reflexivity. }
    destruct (level_totals_spec _ _ _ _ _ _ _ Htotals) as [Htc _].
    specialize (IH (l + 1) runs' ltac:(lia) Hnext Hrest).
    replace (Z.to_nat (l + 1)) with (S (Z.to_nat l)) in IH by lia.
    cbn [length seq map filter].
    rewrite Z2Nat.id by exact Hl. rewrite Hfiles, <- Htc.
    destruct (tc >? 0); injection H as <-; cbn [map]; rewrite IH; reflexivity.
Qed.

(** X7: the sorted runs that [CalculateSortedRuns] returns are one run per
    level-0 file, in the order of the files and with the file's compensated
    size and [being_compacted], followed by one run per lower level whose
    compensated sizes add up to a positive value, in ascending order of the
    levels: the levels of these runs are exactly those levels of the
    version.  A lower level's run is being compacted, under
    [allow_trivial_move], when any file of the level is, and otherwise
    when its first file is. *)
Theorem CalculateSortedRuns_structure
        (fuel : nat) (vstorage : VersionStorageInfo)
        (mutable_cf_options : MutableCFOptions) (sorted_runs : list SortedRun.t) :
  CalculateSortedRuns fuel vstorage mutable_cf_options = Some sorted_runs ->
  exists level0 lower,
    sorted_runs = level0 ++ lower /\
    Forall2 level0_run_of (LevelFiles vstorage 0) level0 /\
    lower_runs_from vstorage
      (allow_trivial_move (compaction_options_universal mutable_cf_options))
      1 lower /\
    map SortedRun.level lower =
    filter (fun l => sum_file_compensated (LevelFiles vstorage l) >? 0)
           (map Z.of_nat (seq 1 (length (files_ vstorage) - 1))).
Proof.
  unfold CalculateSortedRuns. intros H.
  destruct (level0_runs fuel vstorage (LevelFiles vstorage 0)) as [l0|] eqn:H0;
    [|discriminate].
  destruct (lower_level_runs fuel vstorage _ (tl (files_ vstorage)) 1)
    as [lower|] eqn:Hlower; [|discriminate].
  injection H as <-. exists l0, lower. split; [reflexivity|].
  split; [now apply (level0_runs_spec fuel vstorage)|].
  assert (Hskip : skipn (Z.to_nat 1) (files_ vstorage) = tl (files_ vstorage))
    by (destruct (files_ vstorage); reflexivity).
  split.
  - apply (lower_level_runs_spec fuel vstorage _ (tl (files_ vstorage)));
      [lia|exact Hskip|exact Hlower].
  - rewrite (lower_level_runs_levels _ _ _ _ 1 lower ltac:(lia) Hskip Hlower).
    replace (length (tl (files_ vstorage))) with (length (files_ vstorage) - 1)%nat
      by (destruct (files_ vstorage); simpl; lia).
    reflexivity.
Qed.

Lemma CalculateSortedRuns_structure_witness :
  exists level0 lower,
    [run_of_file (mk_file 4 10 false false); run_of_file (mk_file 3 10 false false);
     {| SortedRun.level := 2; SortedRun.file := None; SortedRun.size := 200;
        SortedRun.compensated_file_size := 200;
        SortedRun.being_compacted := true; SortedRun.wait_reduce := false |}] =
      level0 ++ lower /\
    Forall2 level0_run_of (LevelFiles mixed_vstorage 0) level0 /\
    lower_runs_from mixed_vstorage true 1 lower /\
    map SortedRun.level lower = [2].
Proof.
  destruct (CalculateSortedRuns_structure 1 mixed_vstorage trivial_move_options
              [run_of_file (mk_file 4 10 false false);
               run_of_file (mk_file 3 10 false false);
               {| SortedRun.level := 2; SortedRun.file := None;
                  SortedRun.size := 200; SortedRun.compensated_file_size := 200;
                  SortedRun.being_compacted := true;
                  SortedRun.wait_reduce := false |}])
    as (level0 & lower & Hruns & Hlevel0 & Hlower & Hlevels).
  - vm_compute. reflexivity.
  - exists level0, lower. split; [exact Hruns|]. split; [exact Hlevel0|].
    split; [exact Hlower|]. rewrite Hlevels. reflexivity.
Defined.

Lemma fold_left_ext_in {A B : Type} (f g : A -> B -> A) (l : list B) :
  (forall a x, In x l -> f a x = g a x) ->
  forall a, fold_left f l a = fold_left g l a.
Proof.
  induction l as [|x rest IH]; intros H a; simpl; [reflexivity|].
  rewrite H by now left. apply IH. intros a' y Hy. apply H. now right.
Qed.

Lemma fold_left_some {A : Type} (f : Z -> A -> Z) (l : list A) :
  forall a,
    fold_left (fun acc x => match acc with
                            | Some s => Some (f s x)
                            | None => None
                            end) l (Some a) =
    Some (fold_left f l a).
Proof. induction l as [|x rest IH]; intros a; simpl; [reflexivity|apply IH]. Qed.

(** X8: [GetFilesSize] of an SST that links nothing is the size of the
    file, whatever it lists as dependencies.  For a map or link SST whose
    dependencies link nothing themselves, it is the size of the file plus
    the sizes of the dependencies the version knows; one it does not know
    counts as zero.  Only a map or link SST asks for a second level of the
    recursion and for dependencies that link nothing. *)
Theorem GetFilesSize_one_level
        (fuel : nat) (f : FileMetaData.t) (file_number : Z)
        (vstorage : VersionStorageInfo) :
  (1 <= fuel)%nat ->
  (FileMetaData.sst_purpose f <> kEssenceSst ->
   (2 <= fuel)%nat /\
   forall d g, In d (FileMetaData.sst_depend f) ->
               depend_files vstorage d = Some g ->
               FileMetaData.sst_purpose g = kEssenceSst) ->
  GetFilesSize fuel (Some f) file_number vstorage =
  Some (match FileMetaData.sst_purpose f with
        | kEssenceSst => FileMetaData.file_size f
        | _ =>
            fold_left
              (fun file_size d =>
                 add64 file_size
                       match depend_files vstorage d with
                       | Some g => FileMetaData.file_size g
                       | None => 0
                       end)
              (FileMetaData.sst_depend f) (FileMetaData.file_size f)
        end).
Proof.
  intros Hfuel Hlinks. destruct fuel as [|fuel]; [lia|].
  cbn [GetFilesSize].
  destruct (FileMetaData.sst_purpose f) eqn:Hp; cbn [SstPurpose_eqb negb];
    [reflexivity| |].
  all: destruct Hlinks as [Hdeep Hdeps]; [discriminate|].
  all: destruct fuel as [|fuel]; [lia|].
  all: rewrite <- fold_left_some;
    apply fold_left_ext_in; intros [a|] d Hd; [|reflexivity];
    cbn [GetFilesSize];
    destruct (depend_files vstorage d) as [g|] eqn:Hg; [|reflexivity];
    rewrite (Hdeps d g Hd Hg); reflexivity.
Qed.

Lemma GetFilesSize_one_level_witness :
  GetFilesSize 2 (Some linking_file) SIZE_MAX linking_vstorage = Some 17 /\
  GetFilesSize 1 (Some listing_file) SIZE_MAX listing_vstorage = Some 3.
Proof.
  split.
  - apply (GetFilesSize_one_level 2 linking_file SIZE_MAX linking_vstorage).
    + lia.
    + intros _. split; [lia|].
      intros d g _ Hg. simpl in Hg. destruct (d =? 5); [|discriminate].
      injection Hg as <-. reflexivity.
  - apply (GetFilesSize_one_level 1 listing_file SIZE_MAX listing_vstorage).
    + lia.
    + intros Hlinks. now elim Hlinks.
Defined.

(** ** GetSmallestLargestSeqno *)

Lemma seqno_loop_later (files : list FileMetaData.t) :
  forall s l,
    let r := seqno_loop files false s l in
    fst r <= s /\ l <= snd r /\
    (forall f, In f files ->
               fst r <= FileMetaData.smallest_seqno f /\
               FileMetaData.largest_seqno f <= snd r) /\
    (fst r = s \/ exists f, In f files /\ FileMetaData.smallest_seqno f = fst r) /\
    (snd r = l \/ exists f, In f files /\ FileMetaData.largest_seqno f = snd r).
Proof.
  induction files as [|f rest IH]; intros s l; cbn zeta.
  - simpl. repeat split; try lia; auto; intros f [].
  - cbn [seqno_loop].
    set (s1 := if FileMetaData.smallest_seqno f <? s
               then FileMetaData.smallest_seqno f else s).
    set (l1 := if FileMetaData.largest_seqno f >? l
               then FileMetaData.largest_seqno f else l).
    assert (Hs1 : s1 <= s /\ s1 <= FileMetaData.smallest_seqno f /\
                  (s1 = s \/ s1 = FileMetaData.smallest_seqno f))
      by (unfold s1; destruct (Z.ltb_spec (FileMetaData.smallest_seqno f) s); lia).
    assert (Hl1 : l <= l1 /\ FileMetaData.largest_seqno f <= l1 /\
                  (l1 = l \/ l1 = FileMetaData.largest_seqno f))
      by (unfold l1; destruct (Z.gtb_spec (FileMetaData.largest_seqno f) l); lia).
    destruct (IH s1 l1) as (Hs & Hl & Hall & Hmin & Hmax).
    split; [lia|]. split; [lia|]. split; [|split].
    + intros g [<-|Hg]; [lia|]. apply Hall. exact Hg.
    + destruct Hmin as [E|(g & Hg & E)].
      * destruct Hs1 as (_ & _ & [E1|E1]); [left; congruence|].
        right. exists f. split; [now left|congruence].
      * right. exists g. split; [now right|exact E].
    + destruct Hmax as [E|(g & Hg & E)].
      * destruct Hl1 as (_ & _ & [E1|E1]); [left; congruence|].
        right. exists f. split; [now left|congruence].
      * right. exists g. split; [now right|exact E].
Qed.

(** X9: on no files [GetSmallestLargestSeqno] leaves both sequence numbers
    as they were.  Otherwise it sets them, whatever they held, to the
    smallest of the files' smallest sequence numbers and the largest of
    their largest ones. *)
Theorem GetSmallestLargestSeqno_bounds
        (files : list FileMetaData.t) (smallest_seqno largest_seqno : Z) :
  let r := GetSmallestLargestSeqno files smallest_seqno largest_seqno in
  match files with
  | [] => r = (smallest_seqno, largest_seqno)
  | _ :: _ =>
      (forall f, In f files ->
                 fst r <= FileMetaData.smallest_seqno f /\
                 FileMetaData.largest_seqno f <= snd r) /\
      (exists f, In f files /\ FileMetaData.smallest_seqno f = fst r) /\
      (exists f, In f files /\ FileMetaData.largest_seqno f = snd r)
  end.
Proof.
  cbn zeta. unfold GetSmallestLargestSeqno.
  destruct files as [|f rest]; [reflexivity|]. cbn [seqno_loop].
  destruct (seqno_loop_later rest (FileMetaData.smallest_seqno f)
              (FileMetaData.largest_seqno f))
    as (Hs & Hl & Hall & Hmin & Hmax).
  split; [|split].
  - intros g [<-|Hg]; [lia|]. apply Hall. exact Hg.
  - destruct Hmin as [E|(g & Hg & E)].
    + exists f. split; [now left|congruence].
    + exists g. split; [now right|exact E].
  - destruct Hmax as [E|(g & Hg & E)].
    + exists f. split; [now left|congruence].
    + exists g. split; [now right|exact E].
Qed.

Example GetSmallestLargestSeqno_similar_files :
  GetSmallestLargestSeqno similar_files 0 0 = (1, 3).
Proof. reflexivity. Qed.

(** ** CompactRange *)

Lemma first_nonempty_level_spec (levels : list (list FileMetaData.t)) :
  forall start_level,
    let r := first_nonempty_level levels start_level in
    start_level <= r <= start_level + Z.of_nat (length levels) /\
    (forall k, (k < Z.to_nat (r - start_level))%nat -> nth k levels [] = []) /\
    (r < start_level + Z.of_nat (length levels) ->
     nth (Z.to_nat (r - start_level)) levels [] <> []).
Proof.
  induction levels as [|fs rest IH]; intros s; cbn zeta.
  - simpl. split; [lia|]. split; [intros; lia|]. lia.
  - cbn [first_nonempty_level]. destruct fs as [|f fs].
    + destruct (IH (s + 1)) as (Hr & Hbefore & Hat).
      set (r := first_nonempty_level rest (s + 1)) in *.
      cbn [length]. split; [lia|]. split.
      * intros k Hk. destruct k as [|k]; [reflexivity|].
        simpl. apply Hbefore. lia.
      * intros Hlt.
        replace (Z.to_nat (r - s)) with (S (Z.to_nat (r - (s + 1)))) by lia.
        simpl. apply Hat. lia.
    + cbn [length]. split; [lia|]. split; [intros; lia|].
      intros _. replace (Z.to_nat (s - s)) with 0%nat by lia. discriminate.
Qed.

Lemma all_level_inputs_spec (levels : list (list FileMetaData.t)) :
  forall level_ inputs_,
    all_level_inputs levels level_ = Some inputs_ ->
    length inputs_ = length levels /\
    (forall i, (i < length levels)%nat ->
               nth i inputs_ {| level := 0; files := [] |} =
               {| level := level_ + Z.of_nat i; files := nth i levels [] |}) /\
    flat_map files inputs_ = concat levels /\
    (forall f, In f (concat levels) -> FileMetaData.being_compacted f = false).
Proof.
  induction levels as [|fs rest IH]; intros l inputs_ H; simpl in H.
  - injection H as <-. simpl.
    split; [reflexivity|]. split; [intros; lia|]. split; [reflexivity|].
    intros f [].
  - destruct (AreFilesInCompaction fs) eqn:Hidle; [discriminate|].
    destruct (all_level_inputs rest (l + 1)) as [inputs'|] eqn:Hrest; [|discriminate].
    injection H as <-.
    destruct (IH _ _ Hrest) as (Hlen & Hnth & Hflat & Hbc).
    split; [simpl; lia|]. split; [|split].
    + intros [|i] Hi; [simpl; f_equal; lia|].
      simpl in Hi. cbn [nth]. rewrite Hnth by lia. f_equal. lia.
    + simpl. now rewrite Hflat.
    + intros f Hf. simpl in Hf. apply in_app_or in Hf. destruct Hf as [Hf|Hf].
      * unfold AreFilesInCompaction in Hidle.
        destruct (FileMetaData.being_compacted f) eqn:Hb; [|reflexivity].
        assert (existsb FileMetaData.being_compacted fs = true)
          by (apply existsb_exists; exists f; auto).
        congruence.
      * apply Hbc. exact Hf.
Qed.

Lemma concat_skip_empty {A : Type} (levels : list (list A)) :
  forall n,
    (forall k, (k < n)%nat -> nth k levels [] = []) ->
    concat (skipn n levels) = concat levels.
Proof.
  induction levels as [|fs rest IH]; intros [|n] H; simpl; try reflexivity.
  assert (fs = []) by (apply (H 0%nat); lia). subst fs. simpl.
  apply IH. intros k Hk. apply (H (S k)). lia.
Qed.

(** The plan of the branch over all levels. *)
Lemma compact_all_levels_plan
        (base : CompactionPickerBase) (st : PickerState)
        (vstorage : VersionStorageInfo)
        (output_level_ output_path_id_ max_subcompactions_ : Z)
        (compaction_end : option Slice) (manual_conflict : bool)
        (enable_lazy_compaction_ : bool)
        (c : Compaction) (st' : PickerState) (manual_conflict' : bool)
        (compaction_end' : option Slice) :
  compact_all_levels st vstorage output_level_ output_path_id_ max_subcompactions_
                     compaction_end manual_conflict enable_lazy_compaction_ =
    (Some c, st', manual_conflict', compaction_end') ->
  st' = RegisterCompaction st c /\
  manual_conflict' = manual_conflict /\
  manual_compaction c = true /\
  output_level c = output_level_ /\
  all_input_files c = concat (files_ vstorage) /\
  (forall f, In f (all_input_files c) -> FileMetaData.being_compacted f = false) /\
  FilesRangeOverlapWithCompaction st (inputs c) output_level_ = false /\
  exists start_level,
    0 <= start_level < num_levels vstorage /\
    LevelFiles vstorage start_level <> [] /\
    (start_level = 0 -> level0_compactions_in_progress_ st = []) /\
    length (inputs c) = Z.to_nat (num_levels vstorage - start_level) /\
    forall i, (i < length (inputs c))%nat ->
              input_level_at c i =
              {| level := start_level + Z.of_nat i;
                 files := LevelFiles vstorage (start_level + Z.of_nat i) |}.
Proof.
  unfold compact_all_levels. intros H.
  destruct (first_nonempty_level_spec (files_ vstorage) 0) as (Hr & Hbefore & Hat).
  set (start_level := first_nonempty_level (files_ vstorage) 0) in *.
  fold (num_levels vstorage) in Hr, Hat.
  destruct (Z.eqb_spec start_level (num_levels vstorage)) as [Hall|Hsome];
    [discriminate|].
  destruct ((start_level =? 0) && _) eqn:Hl0; [discriminate|].
  destruct (all_level_inputs (skipn (Z.to_nat start_level) (files_ vstorage))
                             start_level) as [inputs_|] eqn:Hinputs; [|discriminate].
  destruct (FilesRangeOverlapWithCompaction st inputs_ output_level_) eqn:Hoverlap;
    [discriminate|].
  injection H as <- <- <- <-. cbn [inputs manual_compaction output_level].
  destruct (all_level_inputs_spec _ _ _ Hinputs) as (Hlen & Hnth & Hflat & Hbc).
  assert (Hconcat : concat (skipn (Z.to_nat start_level) (files_ vstorage)) =
                    concat (files_ vstorage)).
  { apply concat_skip_empty. intros k Hk. apply Hbefore. lia. }
  unfold all_input_files. cbn [inputs].
  rewrite Hflat, Hconcat in *.
  split; [reflexivity|]. split; [reflexivity|]. split; [reflexivity|].
  split; [reflexivity|]. split; [reflexivity|]. split; [exact Hbc|].
  split; [exact Hoverlap|].
  exists start_level.
  assert (Hlevel : forall l, 0 <= l -> LevelFiles vstorage l =
                                       nth (Z.to_nat l) (files_ vstorage) [])
    by (intros l Hl; unfold LevelFiles; destruct (Z.ltb_spec l 0); [lia|reflexivity]).
  split; [lia|]. split; [|split; [|split]].
  - rewrite Hlevel by lia. replace (Z.to_nat start_level)
      with (Z.to_nat (start_level - 0)) by lia. apply Hat. lia.
  - intros Hz. rewrite Hz in Hl0. simpl in Hl0.
    destruct (level0_compactions_in_progress_ st); [reflexivity|discriminate].
  - rewrite Hlen, length_skipn. unfold num_levels. lia.
  - intros i Hi. unfold input_level_at. cbn [inputs].
    rewrite Hlen in Hi. rewrite Hnth by exact Hi.
    rewrite Hlevel by lia. rewrite nth_skipn. f_equal. f_equal. lia.
Qed.

(** When the branch over all levels returns no plan, the picker's state is
    as it was and [*manual_conflict] has not been cleared. *)
Lemma compact_all_levels_none
      (base : CompactionPickerBase) (st : PickerState)
      (vstorage : VersionStorageInfo)
      (output_level_ output_path_id_ max_subcompactions_ : Z)
      (compaction_end : option Slice) (manual_conflict : bool)
      (enable_lazy_compaction_ : bool)
      (st' : PickerState) (manual_conflict' : bool)
      (compaction_end' : option Slice) :
  compact_all_levels st vstorage output_level_ output_path_id_ max_subcompactions_
                     compaction_end manual_conflict enable_lazy_compaction_ =
    (None, st', manual_conflict', compaction_end') ->
  st' = st /\ compaction_end' = compaction_end /\
  (manual_conflict = true -> manual_conflict' = true).
Proof.
  unfold compact_all_levels. intros H.
  destruct (_ =? num_levels vstorage);
    [injection H as <- <- <-; auto|].
  destruct ((_ =? 0) && _); [injection H as <- <- <-; auto|].
  destruct (all_level_inputs _ _) as [inputs_|];
    [|injection H as <- <- <-; auto].
  destruct (FilesRangeOverlapWithCompaction st inputs_ output_level_);
    [injection H as <- <- <-; auto|discriminate].
Qed.

(** X10: a plan that [CompactRange] returns for all levels, without lazy
    compaction, holds every file of the version, level by level from the
    first level that has files to the last one, and none of them is being
    compacted.  It is a manual compaction into the output level asked for,
    it has been registered, [*manual_conflict] is as it was and
    [*compaction_end] is cleared. *)
Theorem CompactRange_all_levels
        (base : CompactionPickerBase) (range : BaseCompactRange)
        (cache : TableCache) (builder : RangeBuilder) (kCompactAllLevels : Z)
        (st : PickerState) (ioptions : ImmutableCFOptions)
        (mutable_cf_options : MutableCFOptions) (vstorage : VersionStorageInfo)
        (output_level_ output_path_id_ max_subcompactions_ : Z)
        (begin_ end_ compaction_end : option Slice) (manual_conflict : bool)
        (files_being_compact : option (list Z))
        (c : Compaction) (st' : PickerState) (manual_conflict' : bool)
        (compaction_end' : option Slice) :
  CompactRange kCompactAllLevels st ioptions mutable_cf_options vstorage
               kCompactAllLevels output_level_ output_path_id_ max_subcompactions_
               begin_ end_ compaction_end manual_conflict files_being_compact false =
    (Some c, st', manual_conflict', compaction_end') ->
  st' = RegisterCompaction st c /\
  manual_conflict' = manual_conflict /\
  compaction_end' = None /\
  manual_compaction c = true /\
  output_level c = output_level_ /\
  max_subcompactions c = max_subcompactions_ /\
  all_input_files c = concat (files_ vstorage) /\
  (forall f, In f (all_input_files c) -> FileMetaData.being_compacted f = false) /\
  exists start_level,
    0 <= start_level < num_levels vstorage /\
    LevelFiles vstorage start_level <> [] /\
    (start_level = 0 -> level0_compactions_in_progress_ st = []) /\
    length (inputs c) = Z.to_nat (num_levels vstorage - start_level) /\
    forall i, (i < length (inputs c))%nat ->
              input_level_at c i =
              {| level := start_level + Z.of_nat i;
                 files := LevelFiles vstorage (start_level + Z.of_nat i) |}.
Proof.
  unfold CompactRange. rewrite andb_false_r, Z.eqb_refl. intros H.
  destruct (compact_all_levels_plan _ _ _ _ _ _ _ _ _ _ _ _ _ H)
    as (Hst & Hmc & Hmanual & Hout & Hall & Hidle & _ & Hlevels).
  split; [exact Hst|]. split; [exact Hmc|]. split.
  - unfold compact_all_levels in H.
    destruct (_ =? num_levels vstorage); [discriminate|].
    destruct ((_ =? 0) && _); [discriminate|].
    destruct (all_level_inputs _ _) as [inputs_|]; [|discriminate].
    destruct (FilesRangeOverlapWithCompaction st inputs_ output_level_);
      [discriminate|].
    injection H as _ _ _ <-. reflexivity.
  - split; [exact Hmanual|]. split; [exact Hout|]. split; [|auto].
    unfold compact_all_levels in H.
    destruct (_ =? num_levels vstorage); [discriminate|].
    destruct ((_ =? 0) && _); [discriminate|].
    destruct (all_level_inputs _ _) as [inputs_|]; [|discriminate].
    destruct (FilesRangeOverlapWithCompaction st inputs_ output_level_);
      [discriminate|].
    injection H as <- _ _ _. reflexivity.
Qed.

Lemma CompactRange_all_levels_witness :
  all_input_files fresh_plan = concat (files_ fresh_vstorage) /\
  manual_compaction fresh_plan = true.
Proof.
  assert (H : @CompactRange declining_base declining_range failing_cache no_ranges
                (-1) empty_state one_path (mk_mutable_cf_options 1) fresh_vstorage
                (-1) 2 0 0 None None None false None false =
              (Some fresh_plan,
               @RegisterCompaction declining_base empty_state fresh_plan,
               false, None)) by reflexivity.
  destruct (CompactRange_all_levels declining_base declining_range failing_cache
              no_ranges (-1) empty_state one_path (mk_mutable_cf_options 1)
              fresh_vstorage 2 0 0 None None None false None _ _ _ _ H)
    as (_ & _ & _ & Hmanual & _ & _ & Hall & _).
  auto.
Defined.

Lemma count_hit_levels_none (vstorage : VersionStorageInfo)
      (files_being_compact : option (list Z)) (levels : list (list FileMetaData.t)) :
  (forall fs, In fs levels ->
              existsb (hit_sst vstorage files_being_compact) fs = false) ->
  forall level_ hit_count new_input_level,
    count_hit_levels vstorage files_being_compact levels level_ hit_count
                     new_input_level = (hit_count, new_input_level).
Proof.
  induction levels as [|fs rest IH]; intros Hnone l hc nl; simpl; [reflexivity|].
  rewrite (Hnone fs) by now left. apply IH. intros fs' Hfs'. apply Hnone. now right.
Qed.

Lemma count_hit_levels_one (vstorage : VersionStorageInfo)
      (files_being_compact : option (list Z))
      (pre : list (list FileMetaData.t)) (fs : list FileMetaData.t)
      (post : list (list FileMetaData.t)) :
  (forall fs', In fs' (pre ++ post) ->
               existsb (hit_sst vstorage files_being_compact) fs' = false) ->
  existsb (hit_sst vstorage files_being_compact) fs = true ->
  forall level_ hit_count new_input_level,
    count_hit_levels vstorage files_being_compact (pre ++ fs :: post) level_
                     hit_count new_input_level =
    (add64 hit_count 1, level_ + Z.of_nat (length pre)).
Proof.
  intros Hnone Hhit. induction pre as [|fs0 pre IH]; intros l hc nl.
  - simpl. rewrite Hhit. rewrite count_hit_levels_none; [f_equal; lia|].
    intros fs' Hfs'. apply Hnone. exact Hfs'.
  - cbn [app count_hit_levels]. rewrite (Hnone fs0) by now left.
    rewrite IH; [f_equal; cbn [length]; lia|].
    intros fs' Hfs'. apply Hnone. now right.
Qed.

(** X11: [CompactRange] for all levels under lazy compaction looks for the
    files to compact, directly or through at most two steps of dependency.
    When no file of the version is hit, it returns no plan and changes
    nothing.  When the files that are hit lie in one level, it is
    [PickRangeCompaction] on that level, and the picker's state and
    [*compaction_end] are as they were. *)
Theorem CompactRange_lazy_narrows
        (base : CompactionPickerBase) (range : BaseCompactRange)
        (cache : TableCache) (builder : RangeBuilder) (kCompactAllLevels : Z)
        (st : PickerState) (ioptions : ImmutableCFOptions)
        (mutable_cf_options : MutableCFOptions) (vstorage : VersionStorageInfo)
        (output_level_ output_path_id_ max_subcompactions_ : Z)
        (begin_ end_ compaction_end : option Slice) (manual_conflict : bool)
        (files_being_compact : option (list Z)) :
  let result :=
    CompactRange kCompactAllLevels st ioptions mutable_cf_options vstorage
                 kCompactAllLevels output_level_ output_path_id_ max_subcompactions_
                 begin_ end_ compaction_end manual_conflict files_being_compact true in
  ((forall fs, In fs (files_ vstorage) ->
               existsb (hit_sst vstorage files_being_compact) fs = false) ->
   result = (None, st, manual_conflict, compaction_end)) /\
  (forall pre fs post,
      files_ vstorage = pre ++ fs :: post ->
      (forall fs', In fs' (pre ++ post) ->
                   existsb (hit_sst vstorage files_being_compact) fs' = false) ->
      existsb (hit_sst vstorage files_being_compact) fs = true ->
      Z.of_nat (length pre) <> kCompactAllLevels ->
      let picked :=
        PickRangeCompaction ioptions mutable_cf_options vstorage
                            (Z.of_nat (length pre)) begin_ end_ files_being_compact
                            manual_conflict in
      result = (fst picked, st, snd picked, compaction_end)).
Proof.
  cbn zeta. unfold CompactRange. rewrite Z.eqb_refl. cbn [andb]. split.
  - intros Hnone. rewrite count_hit_levels_none by exact Hnone. reflexivity.
  - intros pre fs post Hfiles Hnone Hhit Hlevel.
    rewrite Hfiles at 1. rewrite count_hit_levels_one by assumption.
    change (add64 0 1 =? 0) with false. change (add64 0 1 =? 1) with true.
    cbn iota. rewrite Z.add_0_l.
    destruct (Z.eqb_spec (Z.of_nat (length pre)) kCompactAllLevels) as [E|_];
      [contradiction|].
    cbn [negb].
    destruct (PickRangeCompaction ioptions mutable_cf_options vstorage
                (Z.of_nat (length pre)) begin_ end_ files_being_compact
                manual_conflict) as [c mc].
    reflexivity.
Qed.

Lemma CompactRange_lazy_narrows_witness :
  @CompactRange declining_base declining_range reading_cache no_ranges (-1)
    empty_state one_path (mk_mutable_cf_options 1) linking_vstorage
    (-1) 0 0 0 None None None false (Some [5]) true =
  (None, empty_state, false, None).
Proof.
  apply (proj2 (CompactRange_lazy_narrows declining_base declining_range
                  reading_cache no_ranges (-1) empty_state one_path
                  (mk_mutable_cf_options 1) linking_vstorage 0 0 0 None None None
                  false (Some [5]))
               [] [linking_file] []).
  - reflexivity.
  - intros fs' [].
  - reflexivity.
  - discriminate.
Defined.

Lemma PickRangeCompaction_flags
      (cache : TableCache) (builder : RangeBuilder)
      (ioptions : ImmutableCFOptions) (mutable_cf_options : MutableCFOptions)
      (vstorage : VersionStorageInfo) (level_ : Z) (begin_ end_ : option Slice)
      (files_being_compact : option (list Z)) (manual_conflict : bool) :
  let r := PickRangeCompaction ioptions mutable_cf_options vstorage level_
                               begin_ end_ files_being_compact manual_conflict in
  (manual_conflict = true -> snd r = true) /\
  (manual_conflict = false -> snd r = true -> fst r = None) /\
  (forall c, fst r = Some c -> manual_compaction c = false).
Proof.
  cbn zeta. unfold PickRangeCompaction, range_early_return.
  destruct files_being_compact as [[|n ns]|];
    try (cbn; repeat split; congruence).
  destruct (LevelFiles vstorage level_) as [|f fs];
    [cbn; repeat split; congruence|].
  destruct (AreFilesInCompaction (f :: fs)); [cbn; repeat split; congruence|].
  destruct ((level_ =? 0) && (1 <? length (f :: fs))%nat).
  - cbn [fst snd]. split; [auto|]. split; [congruence|].
    intros c Hc. injection Hc as <-. reflexivity.
  - destruct (negb (status_ok (NewMapElementIterator (f :: fs))));
      [cbn; repeat split; congruence|].
    destruct (scan_manual_ranges vstorage ioptions mutable_cf_options level_
                            begin_ end_ (n :: ns) (NewMapElementIterator (f :: fs)))
      as [[|r rs] estimated_total_size]; [cbn; repeat split; congruence|].
    cbn [fst snd]. split; [auto|]. split; [congruence|].
    intros c Hc. injection Hc as <-. reflexivity.
Qed.

(** X12: where [CompactRange] does not hand over to the base class, that
    is for all levels or under lazy compaction, it never clears
    [*manual_conflict], and when it raises it, it returns no plan.  Without
    a plan the picker's state is as it was.  A plan over all levels, which
    is flagged as a manual compaction, has been registered; a plan for a
    range of one level, which is not, has not. *)
Theorem CompactRange_conflict
        (base : CompactionPickerBase) (range : BaseCompactRange)
        (cache : TableCache) (builder : RangeBuilder) (kCompactAllLevels : Z)
        (st : PickerState) (ioptions : ImmutableCFOptions)
        (mutable_cf_options : MutableCFOptions) (vstorage : VersionStorageInfo)
        (input_level output_level_ output_path_id_ max_subcompactions_ : Z)
        (begin_ end_ compaction_end : option Slice) (manual_conflict : bool)
        (files_being_compact : option (list Z)) (enable_lazy_compaction_ : bool)
        (plan : option Compaction) (st' : PickerState) (manual_conflict' : bool)
        (compaction_end' : option Slice) :
  enable_lazy_compaction_ = true \/ input_level = kCompactAllLevels ->
  CompactRange kCompactAllLevels st ioptions mutable_cf_options vstorage
               input_level output_level_ output_path_id_ max_subcompactions_
               begin_ end_ compaction_end manual_conflict files_being_compact
               enable_lazy_compaction_ =
    (plan, st', manual_conflict', compaction_end') ->
  (manual_conflict = true -> manual_conflict' = true) /\
  (manual_conflict = false -> manual_conflict' = true -> plan = None) /\
  match plan with
  | None => st' = st
  | Some c => st' = if manual_compaction c then RegisterCompaction st c else st
  end.
Proof.
  intros Hpath. unfold CompactRange.
  set (narrowed :=
         if (input_level =? kCompactAllLevels) && enable_lazy_compaction_
         then
           let '(hit_count, new_input_level) :=
             count_hit_levels vstorage files_being_compact (files_ vstorage) 0 0 (-1) in
           if hit_count =? 0 then None
           else if hit_count =? 1 then Some new_input_level else Some input_level
         else Some input_level).
  assert (Hnarrowed : forall l, narrowed = Some l ->
                                l <> kCompactAllLevels ->
                                enable_lazy_compaction_ = true).
  { intros l Hn Hl. destruct Hpath as [Hlazy|Hall]; [exact Hlazy|].
    destruct enable_lazy_compaction_; [reflexivity|].
    unfold narrowed in Hn. rewrite andb_false_r in Hn. congruence. }
  destruct narrowed as [l|] eqn:Hn.
  - destruct (Z.eqb_spec l kCompactAllLevels) as [Hall|Hrange].
    + intros H. destruct plan as [c|].
      * destruct (compact_all_levels_plan _ _ _ _ _ _ _ _ _ _ _ _ _ H)
          as (Hst & Hmc & Hmanual & _).
        rewrite Hmanual, Hmc. split; [auto|]. split; [congruence|exact Hst].
      * destruct (compact_all_levels_none _ _ _ _ _ _ _ _ _ _ _ _ H)
          as (Hst & _ & Hmc).
        auto.
    + rewrite (Hnarrowed l eq_refl Hrange). cbn [negb].
      pose proof (PickRangeCompaction_flags cache builder ioptions mutable_cf_options
                    vstorage l begin_ end_ files_being_compact manual_conflict)
        as Hflags.
      cbn zeta in Hflags.
      destruct (PickRangeCompaction ioptions mutable_cf_options vstorage l begin_
                                    end_ files_being_compact manual_conflict)
        as [c mc].
      cbn [fst snd] in Hflags. destruct Hflags as (Hkeep & Hraise & Hmanual).
      intros H. injection H as <- <- <- <-.
      split; [exact Hkeep|]. split; [exact Hraise|].
      destruct c as [c|]; [|reflexivity].
      rewrite (Hmanual c eq_refl). reflexivity.
  - intros H. injection H as <- <- <- <-. auto.
Qed.

Lemma CompactRange_conflict_witness :
  (false = true -> false = true) /\
  (false = false -> false = true -> Some fresh_plan = None) /\
  @RegisterCompaction declining_base empty_state fresh_plan =
  if manual_compaction fresh_plan
  then @RegisterCompaction declining_base empty_state fresh_plan
  else empty_state.
Proof.
  apply (CompactRange_conflict declining_base declining_range failing_cache
           no_ranges (-1) empty_state one_path (mk_mutable_cf_options 1)
           fresh_vstorage (-1) 2 0 0 None None None false None false
           (Some fresh_plan)
           (@RegisterCompaction declining_base empty_state fresh_plan) false None).
  - right. reflexivity.
  - reflexivity.
Defined.

(** ** No strategy but the delete-triggered one picks a file being compacted *)

Lemma lower_runs_from_in (vstorage : VersionStorageInfo) (allow : bool)
      (runs : list SortedRun.t) :
  forall lo sr,
    lower_runs_from vstorage allow lo runs -> In sr runs ->
    lo <= SortedRun.level sr /\
    level_run_of allow (LevelFiles vstorage (SortedRun.level sr)) sr.
Proof.
  induction runs as [|x rest IH]; intros lo sr H Hin; [destruct Hin|].
  destruct H as (Hb & Hrun & Hrest). destruct Hin as [<-|Hin].
  - split; [lia|exact Hrun].
  - destruct (IH _ _ Hrest Hin) as [Hlo Hr]. split; [lia|exact Hr].
Qed.

Lemma Forall2_in_right {A B : Type} (R : A -> B -> Prop) (l : list A) (l' : list B) :
  Forall2 R l l' -> forall y, In y l' -> exists x, In x l /\ R x y.
Proof.
  induction 1 as [|x y l l' Hxy H IH]; intros z Hz; [destruct Hz|].
  destruct Hz as [<-|Hz].
  - exists x. split; [now left|exact Hxy].
  - destruct (IH z Hz) as (x' & Hx' & Hr). exists x'. split; [now right|exact Hr].
Qed.

(** The flags of the sorted runs that [CalculateSortedRuns] builds speak
    for the files. *)
Lemma CalculateSortedRuns_flags_sound
      (fuel : nat) (vstorage : VersionStorageInfo)
      (mutable_cf_options : MutableCFOptions) (sorted_runs : list SortedRun.t) :
  allow_trivial_move (compaction_options_universal mutable_cf_options) = true \/
  levels_uniform vstorage ->
  CalculateSortedRuns fuel vstorage mutable_cf_options = Some sorted_runs ->
  forall sr, In sr sorted_runs -> run_flag_sound vstorage sr.
Proof.
  intros Hflags H sr Hsr. unfold CalculateSortedRuns in H.
  destruct (level0_runs fuel vstorage (LevelFiles vstorage 0)) as [l0|] eqn:H0;
    [|discriminate].
  destruct (lower_level_runs fuel vstorage _ (tl (files_ vstorage)) 1)
    as [lower|] eqn:Hlower; [|discriminate].
  injection H as <-. apply in_app_or in Hsr. destruct Hsr as [Hsr|Hsr].
  - destruct (Forall2_in_right _ _ _ (level0_runs_spec _ _ _ _ H0) sr Hsr)
      as (f & _ & Hlevel & Hfile & _ & Hbc & _).
    intros Hidle. split.
    + intros _ g Hg. rewrite Hfile in Hg. injection Hg as <-. congruence.
    + intros Hne. contradiction.
  - assert (Hfrom : lower_runs_from vstorage
                      (allow_trivial_move
                         (compaction_options_universal mutable_cf_options)) 1 lower).
    { apply (lower_level_runs_spec fuel vstorage _ (tl (files_ vstorage)));
        [lia| |exact Hlower].
      destruct (files_ vstorage); reflexivity. }
    destruct (lower_runs_from_in _ _ _ _ _ Hfrom Hsr)
      as (Hlevel & _ & _ & _ & Hbc & _).
    intros Hidle. split; [intros Hz; lia|].
    intros _ f Hf. rewrite Hidle in Hbc.
    destruct (allow_trivial_move (compaction_options_universal mutable_cf_options))
      eqn:Hallow.
    + unfold AreFilesInCompaction in Hbc.
      destruct (FileMetaData.being_compacted f) eqn:Hb; [|reflexivity].
      assert (existsb FileMetaData.being_compacted
                      (LevelFiles vstorage (SortedRun.level sr)) = true)
        by (apply existsb_exists; exists f; auto).
      congruence.
    + destruct Hflags as [Hallow'|Huniform]; [discriminate|].
      destruct (LevelFiles vstorage (SortedRun.level sr)) as [|g rest] eqn:Hfiles;
        [destruct Hf|].
      rewrite (Huniform (SortedRun.level sr) f g Hlevel); [congruence| |];
        rewrite Hfiles; [exact Hf|now left].
Qed.

Lemma push_files_in (fs : list FileMetaData.t) (ins : list CompactionInputFiles) :
  forall i f,
    In f (flat_map files (push_files ins i fs)) ->
    In f (flat_map files ins) \/ In f fs.
Proof.
  induction ins as [|x rest IH]; intros [|i] f Hf; simpl in *; auto.
  - rewrite <- app_assoc in Hf. apply in_app_or in Hf. destruct Hf as [Hf|Hf].
    + left. apply in_or_app. now left.
    + apply in_app_or in Hf. destruct Hf as [Hf|Hf]; [now right|].
      left. apply in_or_app. now right.
  - apply in_app_or in Hf. destruct Hf as [Hf|Hf].
    + left. apply in_or_app. now left.
    + destruct (IH i f Hf) as [H|H]; [|now right].
      left. apply in_or_app. now right.
Qed.

Lemma init_inputs_no_files (n : nat) :
  forall start_level, flat_map files (init_inputs n start_level) = [].
Proof. induction n as [|n IH]; intros s; simpl; [reflexivity|apply IH]. Qed.

(** The files that [pick_runs] adds are files of the runs it is given. *)
Lemma pick_runs_files (vstorage : VersionStorageInfo) (start_level : Z)
      (picked : list SortedRun.t) :
  forall ins f,
    In f (flat_map files (pick_runs vstorage start_level picked ins)) ->
    In f (flat_map files ins) \/
    exists sr,
      In sr picked /\
      ((SortedRun.level sr = 0 /\ SortedRun.file sr = Some f) \/
       (SortedRun.level sr <> 0 /\ In f (LevelFiles vstorage (SortedRun.level sr)))).
Proof.
  induction picked as [|sr rest IH]; intros ins f Hf; simpl in Hf; [now left|].
  destruct (IH _ _ Hf) as [Hin|(sr' & Hsr' & H)];
    [|right; exists sr'; split; [now right|exact H]].
  destruct (Z.eqb_spec (SortedRun.level sr) 0) as [Hz|Hnz].
  - destruct (SortedRun.file sr) as [g|] eqn:Hfile; [|now left].
    destruct (push_files_in _ _ _ _ Hin) as [H|[<-|[]]]; [now left|].
    right. exists sr. split; [now left|]. left. auto.
  - destruct (push_files_in _ _ _ _ Hin) as [H|H]; [now left|].
    right. exists sr. split; [now left|]. right. auto.
Qed.

Lemma pick_runs_idle (vstorage : VersionStorageInfo) (start_level : Z)
      (picked : list SortedRun.t) (n : nat) :
  (forall sr, In sr picked ->
              run_flag_sound vstorage sr /\ SortedRun.being_compacted sr = false) ->
  forall f,
    In f (flat_map files (pick_runs vstorage start_level picked
                                    (init_inputs n start_level))) ->
    FileMetaData.being_compacted f = false.
Proof.
  intros Hpicked f Hf.
  destruct (pick_runs_files _ _ _ _ _ Hf) as [Hin|(sr & Hsr & H)].
  - rewrite init_inputs_no_files in Hin. destruct Hin.
  - destruct (Hpicked sr Hsr) as [Hsound Hidle].
    destruct (Hsound Hidle) as [Hzero Hlower].
    destruct H as [[Hl Hfile]|[Hl Hin]]; [now apply Hzero|now apply Hlower].
Qed.

Lemma update_at_files_in (fs : list FileMetaData.t)
      (ins : list CompactionInputFiles) :
  forall i f,
    In f (flat_map files
            (update_at ins i (fun lv => {| level := level lv; files := fs |}))) ->
    In f (flat_map files ins) \/ In f fs.
Proof.
  induction ins as [|x rest IH]; intros [|i] f Hf; simpl in *; auto.
  - apply in_app_or in Hf. destruct Hf as [Hf|Hf]; [now right|].
    left. apply in_or_app. now right.
  - apply in_app_or in Hf. destruct Hf as [Hf|Hf].
    + left. apply in_or_app. now left.
    + destruct (IH i f Hf) as [H|H]; [|now right].
      left. apply in_or_app. now right.
Qed.

Lemma length_push_files (fs : list FileMetaData.t)
      (ins : list CompactionInputFiles) :
  forall i, length (push_files ins i fs) = length ins.
Proof.
  induction ins as [|x rest IH]; intros [|i]; simpl; auto.
Qed.

Lemma length_init_inputs (n : nat) :
  forall start_level, length (init_inputs n start_level) = n.
Proof. induction n as [|n IH]; intros l; simpl; [reflexivity|now rewrite IH]. Qed.

Lemma map_level_push_files (fs : list FileMetaData.t)
      (ins : list CompactionInputFiles) :
  forall i, map level (push_files ins i fs) = map level ins.
Proof.
  induction ins as [|x rest IH]; intros [|i]; simpl; auto. now rewrite IH.
Qed.

Lemma map_level_update_at (fs : list FileMetaData.t)
      (ins : list CompactionInputFiles) :
  forall i,
    map level (update_at ins i (fun lv => {| level := level lv; files := fs |})) =
    map level ins.
Proof.
  induction ins as [|x rest IH]; intros [|i]; simpl; auto. now rewrite IH.
Qed.

(** The copy leaves the levels of the slots as [init_inputs] numbered them. *)
Lemma pick_group_runs_levels (vstorage : VersionStorageInfo) (start_level : Z)
      (picked : list SortedRun.t) :
  forall ins res,
    pick_group_runs vstorage start_level picked ins = Some res ->
    map level ins = map level res.
Proof.
  induction picked as [|sr rest IH]; intros ins res Hres;
    cbn [pick_group_runs] in Hres.
  - injection Hres as <-. reflexivity.
  - destruct (SortedRun.level sr =? 0).
    + rewrite <- (IH _ _ Hres).
      destruct (SortedRun.file sr); [now rewrite map_level_push_files|reflexivity].
    + cbn zeta in Hres. destruct (_ && _); [|discriminate].
      rewrite <- (IH _ _ Hres). now rewrite map_level_update_at.
Qed.

(** The copy of the grouping strategy has a result exactly when the slot of
    every picked lower level lies within [inputs]. *)
Lemma pick_group_runs_defined (vstorage : VersionStorageInfo) (start_level : Z)
      (picked : list SortedRun.t) :
  forall ins,
    (forall sr, In sr picked -> SortedRun.level sr <> 0 ->
                0 <= SortedRun.level sr - start_level < Z.of_nat (length ins)) <->
    exists res, pick_group_runs vstorage start_level picked ins = Some res.
Proof.
  induction picked as [|sr rest IH]; intros ins; cbn [pick_group_runs].
  - split; [intros _; eexists; reflexivity|intros _ sr []].
  - destruct (Z.eqb_spec (SortedRun.level sr) 0) as [Hz|Hnz].
    + rewrite <- IH.
      replace (length (match SortedRun.file sr with
                       | Some f => push_files ins 0 [f]
                       | None => ins
                       end)) with (length ins)
        by (destruct (SortedRun.file sr); [now rewrite length_push_files|reflexivity]).
      split.
      * intros H x Hx. apply H. now right.
      * intros H x [<-|Hx] Hl; [contradiction|now apply H].
    + cbn zeta.
      destruct ((0 <=? SortedRun.level sr - start_level) &&
                (SortedRun.level sr - start_level <? Z.of_nat (length ins)))
        eqn:Hslot.
      * rewrite <- IH, length_update_at.
        apply andb_prop in Hslot. destruct Hslot as [Hlo Hhi].
        apply Z.leb_le in Hlo. apply Z.ltb_lt in Hhi.
        split.
        -- intros H x Hx. apply H. now right.
        -- intros H x [<-|Hx] Hl; [lia|now apply H].
      * split; [|intros [res Hres]; discriminate Hres].
        intros H. exfalso.
        specialize (H sr (or_introl eq_refl) Hnz).
        apply andb_false_iff in Hslot.
        destruct Hslot as [Hlo|Hhi];
          [apply Z.leb_gt in Hlo|apply Z.ltb_ge in Hhi]; lia.
Qed.

Lemma pick_group_runs_files (vstorage : VersionStorageInfo) (start_level : Z)
      (picked : list SortedRun.t) :
  forall ins res f,
    pick_group_runs vstorage start_level picked ins = Some res ->
    In f (flat_map files res) ->
    In f (flat_map files ins) \/
    exists sr,
      In sr picked /\
      ((SortedRun.level sr = 0 /\ SortedRun.file sr = Some f) \/
       (SortedRun.level sr <> 0 /\ In f (LevelFiles vstorage (SortedRun.level sr)))).
Proof.
  induction picked as [|sr rest IH]; intros ins res f Hres Hf;
    cbn [pick_group_runs] in Hres.
  - injection Hres as <-. now left.
  - destruct (Z.eqb_spec (SortedRun.level sr) 0) as [Hz|Hnz].
    + destruct (IH _ _ _ Hres Hf) as [Hin|(sr' & Hsr' & H)];
        [|right; exists sr'; split; [now right|exact H]].
      destruct (SortedRun.file sr) as [g|] eqn:Hfile; [|now left].
      destruct (push_files_in _ _ _ _ Hin) as [H|[<-|[]]]; [now left|].
      right. exists sr. split; [now left|]. left. auto.
    + cbn zeta in Hres. destruct (_ && _); [|discriminate].
      destruct (IH _ _ _ Hres Hf) as [Hin|(sr' & Hsr' & H)];
        [|right; exists sr'; split; [now right|exact H]].
      destruct (update_at_files_in _ _ _ _ Hin) as [H|H]; [now left|].
      right. exists sr. split; [now left|]. right. auto.
Qed.

Lemma PickCompactionToReduceSizeAmp_idle_files
      (ioptions : ImmutableCFOptions) (mutable_cf_options : MutableCFOptions)
      (vstorage : VersionStorageInfo) (sorted_runs : list SortedRun.t)
      (c : Compaction) :
  sorted_runs <> [] ->
  (forall sr, In sr sorted_runs -> run_flag_sound vstorage sr) ->
  PickCompactionToReduceSizeAmp ioptions mutable_cf_options vstorage sorted_runs =
    Some c ->
  forall f, In f (all_input_files c) -> FileMetaData.being_compacted f = false.
Proof.
  intros Hne Hsound H.
  destruct (PickCompactionToReduceSizeAmp_idle_runs _ _ _ _ _ Hne H)
    as (start_index & Hinputs & Hidle).
  cbn zeta in Hinputs, Hidle. unfold all_input_files. rewrite Hinputs.
  apply pick_runs_idle. intros sr Hsr. split; [|now apply Hidle].
  apply Hsound. now apply skipn_incl in Hsr.
Qed.

Lemma PickCompactionToReduceSortedRunsOld_idle_files
      (ops : DoubleOps)
      (ioptions : ImmutableCFOptions) (mutable_cf_options : MutableCFOptions)
      (vstorage : VersionStorageInfo) (ratio max_number_of_files_to_compact : Z)
      (sorted_runs : list SortedRun.t) (c : Compaction) :
  (forall sr, In sr sorted_runs -> run_flag_sound vstorage sr) ->
  PickCompactionToReduceSortedRunsOld ioptions mutable_cf_options vstorage ratio
    max_number_of_files_to_compact sorted_runs = Some c ->
  forall f, In f (all_input_files c) -> FileMetaData.being_compacted f = false.
Proof.
  intros Hsound H.
  destruct (PickCompactionToReduceSortedRunsOld_idle_runs _ _ _ _ _ _ _ _ H)
    as (start_index & picked & Hinputs & (before & after & Hruns & _) & Hidle).
  unfold all_input_files. rewrite Hinputs.
  apply pick_runs_idle. intros sr Hsr. split; [|now apply Hidle].
  apply Hsound. rewrite Hruns. apply in_or_app. right. apply in_or_app. now left.
Qed.

Lemma PickCompactionToReduceSortedRuns_idle_files
      (dops : DoubleOps) (mlib : MathLib)
      (ioptions : ImmutableCFOptions) (mutable_cf_options : MutableCFOptions)
      (vstorage : VersionStorageInfo) (sorted_runs : list SortedRun.t)
      (reduce_sorted_run_target : Z)
      (r : option Compaction * list SortedRun.t) (c : Compaction) :
  (forall sr, In sr sorted_runs -> run_flag_sound vstorage sr) ->
  PickCompactionToReduceSortedRuns ioptions mutable_cf_options vstorage
    sorted_runs reduce_sorted_run_target = Some r ->
  fst r = Some c ->
  forall f, In f (all_input_files c) -> FileMetaData.being_compacted f = false.
Proof.
  intros Hsound Hr H f Hf.
  destruct (PickCompactionToReduceSortedRuns_picked dops mlib ioptions
              mutable_cf_options vstorage sorted_runs reduce_sorted_run_target
              r Hr)
    as [[Hlen Hmarks] Hplan].
  destruct (Hplan c H) as (start_index & n & Hinputs & Hidle).
  cbn zeta in Hinputs, Hidle.
  unfold all_input_files in Hf.
  destruct (pick_group_runs_files _ _ _ _ _ _ Hinputs Hf)
    as [Hin|(sr & Hsr & Hcase)].
  - rewrite init_inputs_no_files in Hin. destruct Hin.
  - destruct (Hidle sr Hsr) as [Hbc _].
    assert (Hin' : In sr (snd r)).
    { apply (skipn_incl start_index).
      rewrite <- (firstn_skipn n (skipn start_index _)).
      apply in_or_app. left. exact Hsr. }
    destruct (In_nth _ _ default_run Hin') as (k & Hk & E).
    rewrite Hlen in Hk.
    assert (Horig : run_flag_sound vstorage (nth k sorted_runs default_run))
      by (apply Hsound; now apply nth_In).
    assert (Hsr_sound : run_flag_sound vstorage sr).
    { destruct (Hmarks k) as [E'|E']; rewrite E' in E; subst sr;
        [exact Horig|]. exact Horig. }
    destruct (Hsr_sound Hbc) as [Hzero Hlower].
    destruct Hcase as [[Hl Hfile]|[Hl Hin]]; [now apply Hzero|now apply Hlower].
Qed.

(** X5: where [PickCompactionToReduceSortedRuns] has a result, it changes
    nothing of the sorted runs of its caller but the [wait_reduce] marks,
    which it only sets: the runs keep their number, levels, files, sizes
    and [being_compacted].  A plan it returns is made of [n] consecutive
    sorted runs, every one of them marked and none being compacted; the
    plan has [n] input levels, numbered from the level of the first of
    these runs; the slot of every lower level among them lies within the
    [n] input levels; and every input file is the file of one of these
    level-0 runs or a file of the level of one of these lower runs. *)
Theorem PickCompactionToReduceSortedRuns_marks
        (dops : DoubleOps) (mlib : MathLib)
        (ioptions : ImmutableCFOptions) (mutable_cf_options : MutableCFOptions)
        (vstorage : VersionStorageInfo) (sorted_runs : list SortedRun.t)
        (reduce_sorted_run_target : Z)
        (r : option Compaction * list SortedRun.t) :
  PickCompactionToReduceSortedRuns ioptions mutable_cf_options vstorage
    sorted_runs reduce_sorted_run_target = Some r ->
  length (snd r) = length sorted_runs /\
  (forall k,
      let sr := nth k sorted_runs default_run in
      let sr' := nth k (snd r) default_run in
      SortedRun.level sr' = SortedRun.level sr /\
      SortedRun.file sr' = SortedRun.file sr /\
      SortedRun.size sr' = SortedRun.size sr /\
      SortedRun.compensated_file_size sr' = SortedRun.compensated_file_size sr /\
      SortedRun.being_compacted sr' = SortedRun.being_compacted sr /\
      (SortedRun.wait_reduce sr = true -> SortedRun.wait_reduce sr' = true)) /\
  forall c,
    fst r = Some c ->
    exists start_index n,
      let picked := firstn n (skipn start_index (snd r)) in
      let start_level := SortedRun.level (nth start_index (snd r) default_run) in
      (forall sr, In sr picked ->
                  SortedRun.being_compacted sr = false /\
                  SortedRun.wait_reduce sr = true) /\
      map level (inputs c) = map level (init_inputs n start_level) /\
      (forall sr, In sr picked -> SortedRun.level sr <> 0 ->
                  0 <= SortedRun.level sr - start_level < Z.of_nat n) /\
      (forall f, In f (all_input_files c) ->
                 exists sr,
                   In sr picked /\
                   ((SortedRun.level sr = 0 /\ SortedRun.file sr = Some f) \/
                    (SortedRun.level sr <> 0 /\
                     In f (LevelFiles vstorage (SortedRun.level sr))))).
Proof.
  intros Hr.
  destruct (PickCompactionToReduceSortedRuns_picked dops mlib ioptions
              mutable_cf_options vstorage sorted_runs reduce_sorted_run_target
              r Hr)
    as [[Hlen Hmarks] Hplan].
  split; [exact Hlen|]. split.
  { intros k. destruct (Hmarks k) as [E|E]; rewrite E; cbn; auto 10. }
  intros c Hc. destruct (Hplan c Hc) as (start_index & n & Hcopy & Hidle).
  exists start_index, n. cbn zeta in *.
  split; [exact Hidle|]. split.
  { symmetry. exact (pick_group_runs_levels _ _ _ _ _ Hcopy). }
  split.
  { intros sr Hsr Hl.
    pose proof (proj2 (pick_group_runs_defined vstorage _ _ _)
                      (ex_intro _ _ Hcopy) sr Hsr Hl) as Hslot.
    rewrite length_init_inputs in Hslot. exact Hslot. }
  intros f Hf. unfold all_input_files in Hf.
  destruct (pick_group_runs_files _ _ _ _ _ _ Hcopy Hf) as [Hin|H]; [|exact H].
  rewrite init_inputs_no_files in Hin. destruct Hin.
Qed.

Lemma PickCompactionToReduceSortedRuns_marks_witness :
  exists r,
    @PickCompactionToReduceSortedRuns IEEE754_binary64 binary64_math one_path
      lazy_options tiered_vstorage tiered_runs 1 = Some r /\
    length (snd r) = length tiered_runs /\
    map SortedRun.wait_reduce (snd r) = [true; true; true] /\
    option_map (fun c => map (fun lv => (level lv,
                                         map FileMetaData.number (files lv)))
                             (inputs c)) (fst r) =
      Some [(0, [3; 2]); (1, []); (2, [1])].
Proof.
  destruct (@PickCompactionToReduceSortedRuns IEEE754_binary64 binary64_math
              one_path lazy_options tiered_vstorage tiered_runs 1)
    as [r|] eqn:H; [|vm_compute in H; discriminate H].
  exists r. split; [reflexivity|].
  split; [exact (proj1 (PickCompactionToReduceSortedRuns_marks
                          IEEE754_binary64 binary64_math one_path lazy_options
                          tiered_vstorage tiered_runs 1 r H))|].
  vm_compute in H. injection H as <-. split; reflexivity.
Defined.

(** The strategy has no defined result on a level-0 file above a level 3
    with two empty levels between them: the two runs make one group,
    [inputs] has two slots and the files of level 3 are written to
    [inputs[3]].  [PickCompaction] reaches this with lazy compaction, a
    trigger of one file and a table cache. *)
Example PickCompactionToReduceSortedRuns_level_gap :
  CalculateSortedRuns 2 gap_vstorage (lazy_trigger_options 1) = Some gap_runs /\
  @PickCompactionToReduceSortedRuns IEEE754_binary64 binary64_math
    (leveled_ioptions 4) (lazy_trigger_options 1) gap_vstorage gap_runs 1 = None /\
  @PickCompaction declining_base IEEE754_binary64 binary64_math no_ranges
    BytewiseComparator 2 (Some reading_cache) empty_state (leveled_ioptions 4)
    (lazy_trigger_options 1) gap_vstorage = None.
Proof. repeat split; vm_compute; reflexivity. Qed.

Lemma PickTrivialMoveCompaction_idle_files
      (st : PickerState) (ioptions : ImmutableCFOptions)
      (mutable_cf_options : MutableCFOptions) (vstorage : VersionStorageInfo)
      (c : Compaction) :
  PickTrivialMoveCompaction st ioptions mutable_cf_options vstorage = Some c ->
  compaction_reason c = kTrivialMoveLevel /\
  forall f, In f (all_input_files c) -> FileMetaData.being_compacted f = false.
Proof.
  unfold PickTrivialMoveCompaction. intros H.
  destruct (negb (allow_trivial_move (compaction_options_universal mutable_cf_options)));
    [discriminate|].
  destruct (trivial_move_levels _ vstorage st _)
    as [[start_level output_level']|] eqn:Hlevels; [|discriminate].
  destruct (trivial_move_levels_spec _ _ _ _ _ _ Hlevels) as (_ & _ & _ & _ & _ & Hstart).
  assert (Hidle : forall fs, AreFilesInCompaction fs = false ->
                             forall f, In f fs -> FileMetaData.being_compacted f = false).
  { intros fs Hfs f Hf. unfold AreFilesInCompaction in Hfs.
    destruct (FileMetaData.being_compacted f) eqn:Hb; [|reflexivity].
    assert (existsb FileMetaData.being_compacted fs = true)
      by (apply existsb_exists; exists f; auto).
    congruence. }
  destruct (Z.eqb_spec start_level 0) as [Hz|Hnz].
  - destruct (rev (LevelFiles vstorage 0)) as [|meta older]; [discriminate|].
    destruct (FileMetaData.being_compacted meta) eqn:Hbc; [discriminate|].
    injection H as <-. split; [reflexivity|].
    unfold all_input_files. cbn. intros f [<-|[]]. exact Hbc.
  - injection H as <-. split; [reflexivity|].
    unfold all_input_files. cbn. rewrite app_nil_r.
    apply Hidle. apply Hstart. exact Hnz.
Qed.

Lemma PickCompositeCompaction_idle_files
      (cache : TableCache) (builder : RangeBuilder)
      (ioptions : ImmutableCFOptions) (mutable_cf_options : MutableCFOptions)
      (vstorage : VersionStorageInfo) (sorted_runs : list SortedRun.t)
      (c : Compaction) :
  PickCompositeCompaction ioptions mutable_cf_options vstorage sorted_runs = Some c ->
  compaction_reason c = kCompositeAmplification /\
  forall f, In f (all_input_files c) -> FileMetaData.being_compacted f = false.
Proof.
  unfold PickCompositeCompaction. intros H.
  destruct (negb (has_space_amplification vstorage)); [discriminate|].
  unfold composite_target in H.
  pose proof (composite_fold_ok cache vstorage (rev sorted_runs) [] (-1) [] 0 false
                (or_introl (conj eq_refl eq_refl))) as Hok.
  destruct (fold_left (composite_visit vstorage) (rev sorted_runs) (-1, [], 0, false))
    as [[[l fs] m] stop].
  destruct (Z.eqb_spec l (-1)) as [Hnone|Hsome]; [discriminate|].
  destruct Hok as [[Hl _]|(sr & _ & _ & _ & Hchoice)]; [contradiction|].
  cbn [files level] in H.
  assert (Hidle : forall gs, AreFilesInCompaction gs = false ->
                             forall f, In f gs -> FileMetaData.being_compacted f = false).
  { intros gs Hgs f Hf. unfold AreFilesInCompaction in Hgs.
    destruct (FileMetaData.being_compacted f) eqn:Hb; [|reflexivity].
    assert (existsb FileMetaData.being_compacted gs = true)
      by (apply existsb_exists; exists f; auto).
    congruence. }
  destruct Hchoice as [(_ & -> & _ & Hfree)|(f & -> & Hbc & _)].
  - injection H as <-. split; [reflexivity|].
    unfold all_input_files. cbn. rewrite app_nil_r. now apply Hidle.
  - assert (Hc : inputs c = [{| level := l; files := [f] |}] /\
                 compaction_reason c = kCompositeAmplification).
    { destruct (negb (status_ok (NewIterator f l))); [discriminate|].
      destruct (scan_collapse_regions vstorage ioptions {| level := l; files := [f] |}
                                 (NewIterator f l)) as [[|r rs]|];
        [|injection H as <-; split; reflexivity|discriminate].
      destruct (scan_priority_ranges vstorage ioptions mutable_cf_options
                                {| level := l; files := [f] |} (NewIterator f l))
        as [[|r rs]|]; [|injection H as <-; split; reflexivity|discriminate].
      destruct (scan_sweep_ranges vstorage ioptions {| level := l; files := [f] |}
                             (NewIterator f l)) as [|r rs];
        [|injection H as <-; split; reflexivity].
      cbn [level] in H. destruct (negb (l =? 0)); [|discriminate].
      injection H as <-. split; reflexivity. }
    destruct Hc as [Hinputs Hreason]. split; [exact Hreason|].
    unfold all_input_files. rewrite Hinputs. cbn. intros g [<-|[]]. exact Hbc.
Qed.

Lemma pick_by_size_idle_files
      (dops : DoubleOps) (mlib : MathLib)
      (table_cache_ : option TableCache) (st : PickerState)
      (ioptions : ImmutableCFOptions) (mutable_cf_options : MutableCFOptions)
      (vstorage : VersionStorageInfo) (sorted_runs : list SortedRun.t)
      (r : option Compaction * list SortedRun.t) (c : Compaction) :
  sorted_runs <> [] ->
  (forall sr, In sr sorted_runs -> run_flag_sound vstorage sr) ->
  pick_by_size table_cache_ st ioptions mutable_cf_options vstorage
               sorted_runs = Some r ->
  fst r = Some c ->
  forall f, In f (all_input_files c) -> FileMetaData.being_compacted f = false.
Proof.
  intros Hne Hsound. unfold pick_by_size.
  destruct (enable_lazy_compaction mutable_cf_options).
  - destruct (lazy_target table_cache_ st ioptions mutable_cf_options vstorage
                          sorted_runs) as [c0 target] eqn:Htarget.
    destruct (Z.of_nat (length sorted_runs) >? target).
    + apply PickCompactionToReduceSortedRuns_idle_files. exact Hsound.
    + intros E. injection E as <-. cbn [fst]. intros ->.
      unfold lazy_target in Htarget.
      destruct (existsb _ (compactions_in_progress_ st)); [discriminate|].
      destruct (PickTrivialMoveCompaction st ioptions mutable_cf_options vstorage)
        as [c1|] eqn:Hmove.
      * injection Htarget as <- _.
        apply (PickTrivialMoveCompaction_idle_files _ _ _ _ _ Hmove).
      * destruct table_cache_ as [cache|]; [|discriminate].
        destruct ((_ >? 1) && _); [|discriminate].
        destruct (fold_left _ sorted_runs (0, false)) as [count stop].
        destruct (count <? _); discriminate.
  - destruct (PickCompactionToReduceSizeAmp ioptions mutable_cf_options vstorage
                                            sorted_runs) as [c1|] eqn:Hamp.
    + intros E. injection E as <-. cbn [fst]. intros E. injection E as <-.
      exact (PickCompactionToReduceSizeAmp_idle_files _ _ _ _ _ Hne Hsound Hamp).
    + destruct (PickCompactionToReduceSortedRunsOld ioptions mutable_cf_options
                  vstorage _ UINT_MAX sorted_runs) as [c1|] eqn:Hratio.
      * intros E. injection E as <-. cbn [fst]. intros E. injection E as <-.
        exact (PickCompactionToReduceSortedRunsOld_idle_files _ _ _ _ _ _ _ _
                 Hsound Hratio).
      * destruct (_ >? level0_file_num_compaction_trigger mutable_cf_options);
          intros E; injection E as <-; cbn [fst]; [|discriminate].
        intros Hnum.
        exact (PickCompactionToReduceSortedRunsOld_idle_files _ _ _ _ _ _ _ _
                 Hsound Hnum).
Qed.

Lemma mark_trivial_move_keeps (icmp : InternalKeyComparator)
      (mutable_cf_options : MutableCFOptions) (vstorage : VersionStorageInfo)
      (c : Compaction) :
  inputs (mark_trivial_move mutable_cf_options vstorage c) = inputs c /\
  compaction_reason (mark_trivial_move mutable_cf_options vstorage c) =
    compaction_reason c.
Proof.
  unfold mark_trivial_move.
  destruct (if negb _ && _ then _ else _); split; reflexivity.
Qed.

(** X13: no plan of [PickCompaction] but one for files marked for
    compaction holds a file that is being compacted, provided the flags of
    the sorted runs speak for the files: trivial moves are allowed, so that
    a level counts as being compacted when any of its files is, or the
    files of every lower level share their flag. *)
Theorem PickCompaction_idle_files
        (base : CompactionPickerBase) (dops : DoubleOps) (mlib : MathLib)
        (builder : RangeBuilder) (icmp : InternalKeyComparator)
        (fuel : nat) (table_cache_ : option TableCache) (st : PickerState)
        (ioptions : ImmutableCFOptions) (mutable_cf_options : MutableCFOptions)
        (vstorage : VersionStorageInfo)
        (c : Compaction) (st' : PickerState) (vstorage' : VersionStorageInfo) :
  allow_trivial_move (compaction_options_universal mutable_cf_options) = true \/
  levels_uniform vstorage ->
  PickCompaction fuel table_cache_ st ioptions mutable_cf_options vstorage =
    Some (Some c, st', vstorage') ->
  compaction_reason c <> kFilesMarkedForCompaction ->
  forall f, In f (all_input_files c) -> FileMetaData.being_compacted f = false.
Proof.
  intros Hflags H Hreason. unfold PickCompaction in H.
  destruct (CalculateSortedRuns fuel vstorage mutable_cf_options)
    as [sorted_runs|] eqn:Hruns; [|discriminate].
  pose proof (CalculateSortedRuns_flags_sound _ _ _ _ Hflags Hruns) as Hsound.
  destruct (pick_plan table_cache_ st ioptions mutable_cf_options vstorage
                      sorted_runs) as [[c0|]|] eqn:Hplan; try discriminate.
  injection H as <- _ _.
  destruct (mark_trivial_move_keeps icmp mutable_cf_options vstorage c0)
    as [Hinputs Hsame].
  rewrite Hsame in Hreason. unfold all_input_files. rewrite Hinputs.
  fold (all_input_files c0). clear Hinputs Hsame.
  unfold pick_plan in Hplan.
  destruct (Z.eqb_spec (Z.of_nat (length sorted_runs)) 0) as [Hzero|Hsome];
    [discriminate|].
  cbn [orb] in Hplan.
  destruct (_ && _ && _); [discriminate|].
  assert (Hne : sorted_runs <> [])
    by (intros E; rewrite E in Hsome; simpl in Hsome; lia).
  pose proof (pick_by_size_idle_files dops mlib table_cache_ st ioptions
                mutable_cf_options vstorage sorted_runs) as Hsize.
  destruct (if has_space_amplification vstorage ||
               (Z.of_nat (length sorted_runs) >=?
                wrap64 (level0_file_num_compaction_trigger mutable_cf_options))
            then pick_by_size table_cache_ st ioptions mutable_cf_options vstorage
                              sorted_runs
            else Some (None, sorted_runs)) as [[c1 runs1]|] eqn:Hfirst;
    [|discriminate].
  assert (Hc1 : forall c', c1 = Some c' ->
                forall f, In f (all_input_files c') ->
                          FileMetaData.being_compacted f = false).
  { intros c' ->.
    destruct (has_space_amplification vstorage || _); [|discriminate].
    apply (Hsize (Some c', runs1) c' Hne Hsound Hfirst). reflexivity. }
  injection Hplan as Hplan.
  destruct c1 as [c1|].
  - assert (E : c0 = c1) by (destruct table_cache_; congruence).
    subst c0. apply Hc1. reflexivity.
  - destruct table_cache_ as [cache|].
    + destruct (@PickCompositeCompaction cache builder ioptions mutable_cf_options
                                         vstorage runs1) as [c2|] eqn:Hcomposite.
      * injection Hplan as <-.
        apply (PickCompositeCompaction_idle_files _ _ _ _ _ _ _ Hcomposite).
      * unfold PickDeleteTriggeredCompaction in Hplan.
        destruct (delete_triggered_inputs st ioptions mutable_cf_options vstorage)
          as [[ins out]|]; [|discriminate].
        injection Hplan as <-. cbn in Hreason. congruence.
    + unfold PickDeleteTriggeredCompaction in Hplan.
      destruct (delete_triggered_inputs st ioptions mutable_cf_options vstorage)
        as [[ins out]|]; [|discriminate].
      injection Hplan as <-. cbn in Hreason. congruence.
Qed.

(** The files of every lower level of [busy_tiers_vstorage] share their
    flag. *)
Lemma busy_tiers_uniform : levels_uniform busy_tiers_vstorage.
Proof.
  intros l f g Hl Hf Hg. unfold LevelFiles in Hf, Hg.
  destruct (Z.ltb_spec l 0); [lia|].
  destruct (Z.to_nat l) as [|[|[|n]]] eqn:E; [lia| | |].
  - simpl in Hf, Hg.
    destruct Hf as [<-|[<-|[]]], Hg as [<-|[<-|[]]]; reflexivity.
  - simpl in Hf, Hg. destruct Hf as [<-|[]], Hg as [<-|[]]. reflexivity.
  - simpl in Hf. destruct n; destruct Hf.
Qed.

(** Under lazy compaction the grouping strategy passes over the level-0
    file that is being compacted and plans levels 1 and 2. *)
Lemma PickCompaction_idle_files_witness :
  exists c st' vstorage',
    @PickCompaction declining_base IEEE754_binary64 binary64_math no_ranges
      BytewiseComparator 2 (Some reading_cache) empty_state (leveled_ioptions 3)
      (lazy_trigger_options 2) busy_tiers_vstorage = Some (Some c, st', vstorage') /\
    compaction_reason c = kUniversalSortedRunNum /\
    map (fun lv => (level lv, map FileMetaData.number (files lv))) (inputs c) =
      [(1, [3; 2]); (2, [1])] /\
    forall f, In f (all_input_files c) -> FileMetaData.being_compacted f = false.
Proof.
  destruct (@PickCompaction declining_base IEEE754_binary64 binary64_math no_ranges
              BytewiseComparator 2 (Some reading_cache) empty_state
              (leveled_ioptions 3) (lazy_trigger_options 2) busy_tiers_vstorage)
    as [[[[c|] st'] vstorage']|] eqn:H;
    [|vm_compute in H; discriminate H|vm_compute in H; discriminate H].
  exists c, st', vstorage'. split; [reflexivity|].
  pose proof (PickCompaction_idle_files declining_base IEEE754_binary64
                binary64_math no_ranges BytewiseComparator 2 (Some reading_cache)
                empty_state (leveled_ioptions 3) (lazy_trigger_options 2)
                busy_tiers_vstorage c st' vstorage'
                (or_intror busy_tiers_uniform) H) as Hidle.
  vm_compute in H. injection H as <- _ _.
  split; [reflexivity|]. split; [reflexivity|].
  apply Hidle. discriminate.
Defined.

(** ** Fewer sorted runs than the trigger *)

Lemma level0_runs_length (fuel : nat) (vstorage : VersionStorageInfo)
      (level0 : list FileMetaData.t) :
  forall runs,
    level0_runs fuel vstorage level0 = Some runs -> length runs = length level0.
Proof.
  induction level0 as [|f rest IH]; intros runs H; simpl in H.
  - injection H as <-. reflexivity.
  - destruct (GetFilesSize fuel (Some f) SIZE_MAX vstorage); [|discriminate].
    destruct (level0_runs fuel vstorage rest) as [runs'|]; [|discriminate].
    injection H as <-. simpl. f_equal. now apply IH.
Qed.

Lemma lower_level_runs_length (fuel : nat) (vstorage : VersionStorageInfo)
      (allow_trivial_move_ : bool) (levels : list (list FileMetaData.t)) :
  forall level_ runs,
    lower_level_runs fuel vstorage allow_trivial_move_ levels level_ = Some runs ->
    (length runs <=
     length (filter (fun fs => match fs with [] => false | _ :: _ => true end) levels))%nat.
Proof.
  induction levels as [|fs rest IH]; intros l runs H; simpl in H.
  - injection H as <-. apply Nat.le_refl.
  - destruct (level_totals fuel vstorage allow_trivial_move_ fs 0 0 false true)
      as [[[tc ts] bc]|] eqn:Htotals; [|discriminate].
    destruct (lower_level_runs fuel vstorage allow_trivial_move_ rest (l + 1))
      as [runs'|] eqn:Hrest; [|discriminate].
    specialize (IH _ _ Hrest). cbn [filter].
    destruct fs as [|f fs'].
    + simpl in Htotals. injection Htotals as <- _ _.
      cbn in H. injection H as <-. exact IH.
    + cbn [length].
      destruct (tc >? 0); injection H as <-; simpl; lia.
Qed.

Lemma CalculateSortedRuns_length (fuel : nat) (vstorage : VersionStorageInfo)
      (mutable_cf_options : MutableCFOptions) (sorted_runs : list SortedRun.t) :
  CalculateSortedRuns fuel vstorage mutable_cf_options = Some sorted_runs ->
  (length sorted_runs <=
   length (LevelFiles vstorage 0) +
   length (filter (fun fs => match fs with [] => false | _ :: _ => true end)
                  (tl (files_ vstorage))))%nat.
Proof.
  unfold CalculateSortedRuns. intros H.
  destruct (level0_runs fuel vstorage (LevelFiles vstorage 0)) as [l0|] eqn:H0;
    [|discriminate].
  destruct (lower_level_runs fuel vstorage _ (tl (files_ vstorage)) 1)
    as [lower|] eqn:Hlower; [|discriminate].
  injection H as <-. rewrite length_app.
  rewrite (level0_runs_length _ _ _ _ H0).
  pose proof (lower_level_runs_length _ _ _ _ _ _ Hlower). lia.
Qed.

(** X14: while the files of level 0 and the levels below it that hold a
    file together are fewer than [level0_file_num_compaction_trigger], no
    file is marked for compaction and the version has no space
    amplification,
    [PickCompaction] returns without a plan and leaves the picker and the
    version as they are. *)
Theorem PickCompaction_below_trigger
        (base : CompactionPickerBase) (dops : DoubleOps) (mlib : MathLib)
        (builder : RangeBuilder) (icmp : InternalKeyComparator)
        (table_cache_ : option TableCache) (st : PickerState)
        (ioptions : ImmutableCFOptions) (mutable_cf_options : MutableCFOptions)
        (vstorage : VersionStorageInfo)
        (rank : FileMetaData.t -> nat) (fuel : nat) :
  depend_ranked vstorage rank ->
  (forall f, (rank f + 1 < fuel)%nat) ->
  FilesMarkedForCompaction vstorage = [] ->
  has_space_amplification vstorage = false ->
  Z.of_nat (length (LevelFiles vstorage 0) +
            length (filter (fun fs => match fs with [] => false | _ :: _ => true end)
                           (tl (files_ vstorage)))) <
    level0_file_num_compaction_trigger mutable_cf_options ->
  level0_file_num_compaction_trigger mutable_cf_options < two32 ->
  PickCompaction fuel table_cache_ st ioptions mutable_cf_options vstorage =
    Some (None, st, vstorage).
Proof.
  intros Hranked Hfuel Hmarked Hamp Hfew Hint. unfold PickCompaction.
  destruct (CalculateSortedRuns_total vstorage mutable_cf_options rank fuel
              Hranked Hfuel) as [sorted_runs Hruns].
  rewrite Hruns.
  pose proof (CalculateSortedRuns_length _ _ _ _ Hruns) as Hlen.
  assert (Hnone : pick_plan table_cache_ st ioptions mutable_cf_options vstorage
                            sorted_runs = Some None).
  { unfold pick_plan. rewrite Hmarked, Hamp. cbn [negb andb].
    rewrite wrap32_small by lia.
    destruct (Z.of_nat (length sorted_runs) =? 0); [reflexivity|].
    cbn [orb].
    destruct (Z.ltb_spec (Z.of_nat (length sorted_runs))
                (level0_file_num_compaction_trigger mutable_cf_options));
      [reflexivity|lia]. }
  rewrite Hnone. reflexivity.
Qed.

Lemma PickCompaction_below_trigger_witness :
  @PickCompaction declining_base IEEE754_binary64 binary64_math no_ranges
    BytewiseComparator 2 None empty_state one_path (mk_mutable_cf_options 1)
    amplified_vstorage = Some (None, empty_state, amplified_vstorage).
Proof.
  apply (PickCompaction_below_trigger declining_base IEEE754_binary64
           binary64_math no_ranges BytewiseComparator None empty_state one_path
           (mk_mutable_cf_options 1) amplified_vstorage (fun _ => 0%nat) 2).
  - intros f n g _ _ H. discriminate H.
  - intros f. simpl. lia.
  - reflexivity.
  - reflexivity.
  - vm_compute. reflexivity.
  - reflexivity.
Defined.

(** ** The multi-level path of PickDeleteTriggeredCompaction *)

Lemma next_nonempty_level_spec (vstorage : VersionStorageInfo) (n : nat) :
  forall output_level,
    output_level + Z.of_nat n = num_levels vstorage ->
    let r := next_nonempty_level vstorage n output_level in
    output_level <= r <= num_levels vstorage /\
    (forall l, output_level <= l < r -> NumLevelFiles vstorage l = 0) /\
    (r < num_levels vstorage -> NumLevelFiles vstorage r <> 0).
Proof.
  induction n as [|n IH]; intros o Hn; cbn [next_nonempty_level].
  - cbn zeta. split; [lia|]. split; intros; lia.
  - destruct (Z.eqb_spec (NumLevelFiles vstorage o) 0) as [Hempty|Hfiles];
      cbn [negb].
    + destruct (IH (o + 1) ltac:(lia)) as (Hr & Hbetween & Hfound).
      cbn zeta. split; [lia|]. split; [|exact Hfound].
      intros l Hl. destruct (Z.eq_dec l o) as [->|Hne]; [exact Hempty|].
      apply Hbetween. lia.
    + cbn zeta. split; [lia|]. split; [intros; lia|]. intros _. exact Hfiles.
Qed.

(** X15: a plan of the delete-triggered strategy on an engine of several
    levels starts at the level of the marked file that
    [PickFilesMarkedForCompaction] has picked.  The levels between it and
    the first level below it that holds a file are empty; that level is the
    output level, or the level above it where [allow_ingest_behind] keeps
    the last level free.  Only from level 0 is a plan made when every level
    below is empty, and a plan with an output level other than 0 does not
    overlap a running compaction. *)
Theorem PickDeleteTriggeredCompaction_multi_level
        (base : CompactionPickerBase) (st : PickerState)
        (ioptions : ImmutableCFOptions) (mutable_cf_options : MutableCFOptions)
        (vstorage : VersionStorageInfo) (c : Compaction) :
  num_levels vstorage <> 1 ->
  fst (PickFilesMarkedForCompaction st vstorage) < num_levels vstorage ->
  PickDeleteTriggeredCompaction st ioptions mutable_cf_options vstorage = Some c ->
  let start_level := fst (PickFilesMarkedForCompaction st vstorage) in
  files (snd (PickFilesMarkedForCompaction st vstorage)) <> [] /\
  exists found,
    start_level < found <= num_levels vstorage /\
    (forall l, start_level < l < found -> NumLevelFiles vstorage l = 0) /\
    (found < num_levels vstorage -> NumLevelFiles vstorage found <> 0) /\
    (found = num_levels vstorage -> start_level = 0) /\
    output_level c =
      (let below := if found =? num_levels vstorage then num_levels vstorage - 1
                    else found in
       if allow_ingest_behind ioptions && (below =? num_levels vstorage - 1)
       then below - 1 else below) /\
    (output_level c <> 0 ->
     FilesRangeOverlapWithCompaction st (inputs c) (output_level c) = false).
Proof.
  intros Hlevels Hstart H start_level.
  unfold PickDeleteTriggeredCompaction in H.
  destruct (delete_triggered_inputs st ioptions mutable_cf_options vstorage)
    as [[ins out]|] eqn:Hinputs; [|discriminate].
  injection H as <-. cbn [output_level inputs].
  unfold delete_triggered_inputs in Hinputs.
  destruct (Z.eqb_spec (num_levels vstorage) 1) as [|_]; [contradiction|].
  fold start_level in Hstart.
  destruct (PickFilesMarkedForCompaction st vstorage) as [s start_inputs] eqn:Hpick.
  cbn [fst snd] in *. subst start_level.
  destruct (files start_inputs) as [|f fs] eqn:Hfiles; [discriminate|].
  split; [discriminate|].
  destruct (next_nonempty_level_spec vstorage
              (Z.to_nat (num_levels vstorage - (s + 1))) (s + 1) ltac:(lia))
    as (Hrange & Hbetween & Hfound).
  set (found := next_nonempty_level vstorage
                  (Z.to_nat (num_levels vstorage - (s + 1))) (s + 1)) in *.
  exists found.
  split; [lia|]. split; [intros l Hl; apply Hbetween; lia|].
  split; [exact Hfound|].
  destruct (Z.eqb_spec found (num_levels vstorage)) as [Hall|Hsome].
  - destruct (Z.eqb_spec s 0) as [Hzero|Hlower]; [|discriminate].
    split; [intros _; exact Hzero|].
    cbn zeta.
    destruct (allow_ingest_behind ioptions &&
              (num_levels vstorage - 1 =? num_levels vstorage - 1)).
    + destruct (Z.eqb_spec (num_levels vstorage - 1 - 1) 0) as [Hout|Hout];
        cbn [negb] in Hinputs.
      * injection Hinputs as <- <-. split; [reflexivity|contradiction].
      * destruct (GetOverlappingL0Files st vstorage start_inputs _)
          as [expanded|]; [|discriminate].
        destruct (SetupOtherInputs st mutable_cf_options vstorage expanded _)
          as [[start' output']|]; [|discriminate].
        destruct (FilesRangeOverlapWithCompaction st _ _) eqn:Hoverlap;
          [discriminate|].
        injection Hinputs as <- <-. split; [reflexivity|]. intros _. exact Hoverlap.
    + destruct (Z.eqb_spec (num_levels vstorage - 1) 0) as [Hout|Hout];
        cbn [negb] in Hinputs.
      * injection Hinputs as <- <-. split; [reflexivity|contradiction].
      * destruct (GetOverlappingL0Files st vstorage start_inputs _)
          as [expanded|]; [|discriminate].
        destruct (SetupOtherInputs st mutable_cf_options vstorage expanded _)
          as [[start' output']|]; [|discriminate].
        destruct (FilesRangeOverlapWithCompaction st _ _) eqn:Hoverlap;
          [discriminate|].
        injection Hinputs as <- <-. split; [reflexivity|]. intros _. exact Hoverlap.
  - split; [intros E; contradiction|].
    cbn zeta.
    destruct (allow_ingest_behind ioptions && (found =? num_levels vstorage - 1)).
    + destruct (Z.eqb_spec (found - 1) 0) as [Hout|Hout]; cbn [negb] in Hinputs.
      * injection Hinputs as <- <-. split; [reflexivity|contradiction].
      * destruct (if s =? 0 then _ else _) as [expanded|]; [|discriminate].
        destruct (SetupOtherInputs st mutable_cf_options vstorage expanded _)
          as [[start' output']|]; [|discriminate].
        destruct (FilesRangeOverlapWithCompaction st _ _) eqn:Hoverlap;
          [discriminate|].
        injection Hinputs as <- <-. split; [reflexivity|]. intros _. exact Hoverlap.
    + destruct (Z.eqb_spec found 0) as [Hout|Hout]; cbn [negb] in Hinputs.
      * injection Hinputs as <- <-. split; [reflexivity|contradiction].
      * destruct (if s =? 0 then _ else _) as [expanded|]; [|discriminate].
        destruct (SetupOtherInputs st mutable_cf_options vstorage expanded _)
          as [[start' output']|]; [|discriminate].
        destruct (FilesRangeOverlapWithCompaction st _ _) eqn:Hoverlap;
          [discriminate|].
        injection Hinputs as <- <-. split; [reflexivity|]. intros _. exact Hoverlap.
Qed.

Lemma PickDeleteTriggeredCompaction_multi_level_witness :
  num_levels tombstone_vstorage <> 1 /\
  exists c,
    @PickDeleteTriggeredCompaction marking_base empty_state one_path
      (mk_mutable_cf_options 1) tombstone_vstorage = Some c /\
    output_level c = 3 /\
    NumLevelFiles tombstone_vstorage 2 = 0.
Proof.
  assert (Hlevels : num_levels tombstone_vstorage <> 1) by discriminate.
  split; [exact Hlevels|].
  destruct (@PickDeleteTriggeredCompaction marking_base empty_state one_path
              (mk_mutable_cf_options 1) tombstone_vstorage) as [c|] eqn:H;
    [|vm_compute in H; discriminate H].
  destruct (PickDeleteTriggeredCompaction_multi_level marking_base empty_state
              one_path (mk_mutable_cf_options 1) tombstone_vstorage c Hlevels
              ltac:(reflexivity) H)
    as (_ & found & Hrange & Hbetween & _ & _ & _ & _).
  exists c. split; [reflexivity|].
  split; [vm_compute in H; injection H as <-; reflexivity|].
  vm_compute. reflexivity.
Defined.

(* ================================================================= *)
(** * Properties of GetContext *)

(** ** Strings *)

Lemma string_app_assoc (a b c : string) :
  String.append (String.append a b) c = String.append a (String.append b c).
Proof.
  induction a as [|x a IH]; simpl; [reflexivity|]. now rewrite IH.
Qed.

Lemma string_app_nil_r (a : string) : String.append a EmptyString = a.
Proof.
  induction a as [|x a IH]; simpl; [reflexivity|]. now rewrite IH.
Qed.

Lemma string_length_app (a b : string) :
  String.length (String.append a b) = (String.length a + String.length b)%nat.
Proof.
  induction a as [|x a IH]; simpl; [reflexivity|]. now rewrite IH.
Qed.

(** ** One call of SaveValue *)

Section SaveValueProperties.
Context `{DbFormat} `{Coding} `{UserComparator} `{MergeOps}.

Lemma same_setting_refl (ctx : GetContext) : same_setting ctx ctx.
Proof. repeat split. Qed.

Lemma same_setting_trans (a b c : GetContext) :
  same_setting a b -> same_setting b c -> same_setting a c.
Proof.
  unfold same_setting. intros (A1 & A2 & A3 & A4 & A5 & A6) (B1 & B2 & B3 & B4 & B5 & B6).
  repeat split; congruence.
Qed.

Lemma merge_to_value_spec (ctx : GetContext) (value : option LazySlice) :
  (state_ (merge_to_value ctx value) = kFound \/
   state_ (merge_to_value ctx value) = kCorrupt) /\
  same_setting ctx (merge_to_value ctx value) /\
  merge_context_ (merge_to_value ctx value) = merge_context_ ctx /\
  seq_ (merge_to_value ctx value) = seq_ ctx /\
  replay_log_ (merge_to_value ctx value) = replay_log_ ctx.
Proof.
  unfold merge_to_value, same_setting. cbn.
  destruct (pinnable_val_ ctx) as [p|]; cbn.
  - destruct (TimedFullMerge _ _ _ _ p) as [[|] p']; cbn; repeat split; auto.
  - repeat split; auto.
Qed.

Lemma log_entry_spec (ctx ctx' : GetContext) (parsed_key : ParsedInternalKey.t)
      (value : LazySlice) :
  log_entry ctx parsed_key value = Some ctx' ->
  same_setting ctx ctx' /\ same_answer ctx ctx' /\ seq_ ctx' = seq_ ctx /\
  replay_log_ ctx' =
    appendToReplayLog (replay_log_ ctx) (ParsedInternalKey.type parsed_key)
                      (deref value) /\
  (replay_log_ ctx <> None -> decode_ok value = true).
Proof.
  unfold log_entry. intros E.
  destruct (replay_log_ ctx) as [log|] eqn:Hlog.
  - destruct (decode_ok value); [|discriminate]. injection E as <-.
    cbn. repeat split.
  - injection E as <-. rewrite Hlog. repeat split. intros C. now elim C.
Qed.

Lemma save_sequence_spec (ctx : GetContext) (parsed_key : ParsedInternalKey.t) :
  same_setting ctx (save_sequence ctx parsed_key) /\
  same_answer ctx (save_sequence ctx parsed_key) /\
  replay_log_ (save_sequence ctx parsed_key) = replay_log_ ctx /\
  seq_ (save_sequence ctx parsed_key) =
    match seq_ ctx with
    | Some s => if s =? kMaxSequenceNumber
                then Some (ParsedInternalKey.sequence parsed_key) else Some s
    | None => None
    end.
Proof.
  unfold save_sequence.
  destruct (seq_ ctx) as [s|] eqn:Hseq; [destruct (s =? kMaxSequenceNumber)|];
    cbn; rewrite ?Hseq; repeat split.
Qed.

Lemma process_entry_frame (ctx : GetContext) (type : ValueType) (value : LazySlice)
      (value_pinner : option Cleanable) :
  same_setting ctx (snd (process_entry ctx type value value_pinner)) /\
  seq_ (snd (process_entry ctx type value value_pinner)) = seq_ ctx /\
  replay_log_ (snd (process_entry ctx type value value_pinner)) = replay_log_ ctx.
Proof.
  assert (Hmerge : forall c v,
             same_setting c (merge_to_value c v) /\
             seq_ (merge_to_value c v) = seq_ c /\
             replay_log_ (merge_to_value c v) = replay_log_ c).
  { intros c v. destruct (merge_to_value_spec c v) as (_ & Hs & _ & Hq & Hl).
    auto. }
  unfold process_entry.
  destruct type; destruct (state_ ctx) eqn:Hstate; cbn [snd];
    try (repeat split; fail); try apply Hmerge.
  all: try (cbn; destruct (pinnable_val_ ctx);
            [destruct (negb (decode_ok value))|]; cbn; repeat split; fail).
  all: match goal with
       | |- context [if ?b then _ else _] => destruct b
       end; cbn [snd];
       [match goal with
        | |- context [merge_to_value ?c None] =>
            destruct (Hmerge c None) as (Hs & Hq & Hl)
        end; split; [exact Hs|split; [exact Hq|exact Hl]]
       |repeat split].
Qed.

Lemma SaveValue_same_setting (ctx : GetContext) (parsed_key : ParsedInternalKey.t)
      (value : LazySlice) (matched : bool) (value_pinner : option Cleanable) :
  same_setting ctx (snd (fst (SaveValue ctx parsed_key value matched value_pinner))).
Proof.
  unfold SaveValue.
  destruct (Equal _ _); [|apply same_setting_refl].
  destruct (_ <? _); [apply same_setting_refl|].
  destruct (negb (CheckCallback _ _)); [apply same_setting_refl|].
  destruct (log_entry ctx parsed_key value) as [ctx1|] eqn:Hlog;
    [|repeat split].
  destruct (log_entry_spec _ _ _ _ Hlog) as (Hone & _).
  destruct (save_sequence_spec ctx1 parsed_key) as (Htwo & _).
  destruct (process_entry_frame (save_sequence ctx1 parsed_key)
              (effective_type (save_sequence ctx1 parsed_key) parsed_key)
              value value_pinner) as (Hthree & _).
  destruct (process_entry _ _ _ _) as [result ctx3]. cbn [fst snd] in *.
  eapply same_setting_trans; [exact Hone|].
  eapply same_setting_trans; [exact Htwo|exact Hthree].
Qed.


Lemma effective_type_cases (ctx : GetContext) (parsed_key : ParsedInternalKey.t) :
  effective_type ctx parsed_key = ParsedInternalKey.type parsed_key \/
  effective_type ctx parsed_key = kTypeRangeDeletion /\
  exists tombstone_seq,
    max_covering_tombstone_seq_ ctx = Some tombstone_seq /\
    ParsedInternalKey.sequence parsed_key < tombstone_seq.
Proof.
  unfold effective_type.
  destruct (max_covering_tombstone_seq_ ctx) as [t|].
  - destruct (Z.gtb_spec t (ParsedInternalKey.sequence parsed_key)) as [Hgt|Hle].
    + destruct (ParsedInternalKey.type parsed_key); auto;
        right; (split; [reflexivity|]); exists t; split; auto; lia.
    + left. destruct (ParsedInternalKey.type parsed_key); reflexivity.
  - left. destruct (ParsedInternalKey.type parsed_key); reflexivity.
Qed.

Lemma process_entry_continue (ctx ctx' : GetContext) (type : ValueType)
      (value : LazySlice) (value_pinner : option Cleanable) :
  process_entry ctx type value value_pinner = (true, ctx') ->
  (type = kTypeMerge \/ type = kTypeMergeIndex) /\
  ctx' = set_merge_context (set_state ctx kMerge)
           (PushOperand (merge_context_ ctx) value (user_key_ ctx)).
Proof.
  unfold process_entry. intros E.
  destruct type; try discriminate;
    try (destruct (state_ ctx); discriminate);
    try (destruct (state_ ctx); try discriminate;
         cbn in E; destruct (pinnable_val_ ctx);
         [destruct (negb (decode_ok value))|]; discriminate).
  - cbn in E.
    match type of E with context [if ?b then _ else _] => destruct b end;
      [discriminate|]. injection E as <-. auto.
  - cbn in E.
    match type of E with context [if ?b then _ else _] => destruct b end;
      [discriminate|]. injection E as <-. auto.
Qed.

(** X16: [SaveValue] returns [true], for the lookup to go on with the next
    entry, in two cases only.  Either the read callback does not see the
    entry, and nothing of the context has changed; or the entry is a merge
    operand that no range tombstone covers, it has been pushed to the merge
    context, the state is [kMerge] and the value has not been touched.  In
    both cases the entry has the key of the lookup and is not masked, and
    [*matched] is set. *)
Theorem SaveValue_continues
        (ctx : GetContext) (parsed_key : ParsedInternalKey.t) (value : LazySlice)
        (matched : bool) (value_pinner : option Cleanable)
        (ctx' : GetContext) (matched' : bool) :
  SaveValue ctx parsed_key value matched value_pinner = (true, ctx', matched') ->
  matched' = true /\
  Equal (ParsedInternalKey.user_key parsed_key) (user_key_ ctx) = true /\
  (PackSequenceAndType (ParsedInternalKey.sequence parsed_key)
                       (ParsedInternalKey.type parsed_key) <? min_seq_type_ ctx) = false /\
  (CheckCallback (callback_ ctx) (ParsedInternalKey.sequence parsed_key) = false /\
   ctx' = ctx
   \/
   CheckCallback (callback_ ctx) (ParsedInternalKey.sequence parsed_key) = true /\
   (ParsedInternalKey.type parsed_key = kTypeMerge \/
    ParsedInternalKey.type parsed_key = kTypeMergeIndex) /\
   (forall tombstone_seq,
       max_covering_tombstone_seq_ ctx = Some tombstone_seq ->
       tombstone_seq <= ParsedInternalKey.sequence parsed_key) /\
   state_ ctx' = kMerge /\
   merge_context_ ctx' = PushOperand (merge_context_ ctx) value (user_key_ ctx) /\
   pinnable_val_ ctx' = pinnable_val_ ctx).
Proof.
  unfold SaveValue. intros E.
  destruct (Equal _ _); [|discriminate].
  destruct (_ <? _); [discriminate|].
  destruct (CheckCallback _ _) eqn:Hcallback; cbn [negb] in E.
  - destruct (log_entry ctx parsed_key value) as [ctx1|] eqn:Hlog; [|discriminate].
    destruct (log_entry_spec _ _ _ _ Hlog)
      as ((_ & Hkey & _ & Hcover & _) & (_ & Hpin & Hctx) & _).
    destruct (save_sequence_spec ctx1 parsed_key)
      as ((_ & Hkey2 & _ & Hcover2 & _) & (_ & Hpin2 & Hctx2) & _).
    set (ctx2 := save_sequence ctx1 parsed_key) in *.
    destruct (process_entry ctx2 _ value value_pinner) as [result ctx3] eqn:Hp.
    injection E as -> <- <-.
    destruct (process_entry_continue _ _ _ _ _ Hp) as [Htype ->].
    cbn. repeat split; auto. right. split; [reflexivity|].
    rewrite Hctx2, Hctx, Hkey2, Hkey, Hpin2, Hpin.
    destruct (effective_type_cases ctx2 parsed_key) as [Hsame|[Hdel _]];
      [|rewrite Hdel in Htype; destruct Htype; discriminate].
    rewrite Hsame in Htype. split; [exact Htype|].
    split; [|repeat split].
    intros t Ht. rewrite <- Hcover, <- Hcover2 in Ht.
    unfold effective_type in Hsame. rewrite Ht in Hsame.
    destruct (Z.gtb_spec t (ParsedInternalKey.sequence parsed_key)); [|lia].
    destruct Htype as [Hm|Hm]; rewrite Hm in Hsame; discriminate.
  - injection E as <- <-. repeat split. left. split; reflexivity.
Qed.


Lemma effective_type_named (ctx : GetContext) (parsed_key : ParsedInternalKey.t) :
  (forall tag, ParsedInternalKey.type parsed_key <> kTypeOther tag) ->
  forall tag, effective_type ctx parsed_key <> kTypeOther tag.
Proof.
  intros Hnamed tag.
  destruct (effective_type_cases ctx parsed_key) as [->|[-> _]];
    [apply Hnamed|discriminate].
Qed.

Lemma process_entry_decides (ctx : GetContext) (type : ValueType)
      (value : LazySlice) (value_pinner : option Cleanable) :
  state_ ctx = kNotFound \/ state_ ctx = kMerge ->
  (forall tag, type <> kTypeOther tag) ->
  state_ (snd (process_entry ctx type value value_pinner)) <> kNotFound /\
  (fst (process_entry ctx type value value_pinner) = true <->
   state_ (snd (process_entry ctx type value value_pinner)) = kMerge) /\
  (state_ (snd (process_entry ctx type value value_pinner)) = kDeleted ->
   state_ ctx = kNotFound).
Proof.
  intros Hstate Hnamed.
  assert (Hmerge : forall c v,
             state_ (merge_to_value c v) <> kNotFound /\
             (false = true <-> state_ (merge_to_value c v) = kMerge) /\
             (state_ (merge_to_value c v) = kDeleted -> state_ ctx = kNotFound)).
  { intros c v. destruct (merge_to_value_spec c v) as ([E|E] & _); rewrite E;
      (split; [discriminate|]); split; try (split; discriminate); discriminate. }
  assert (Hdone : forall c,
             state_ c = kFound \/ state_ c = kCorrupt \/
             state_ c = kDeleted /\ state_ ctx = kNotFound ->
             state_ c <> kNotFound /\
             (false = true <-> state_ c = kMerge) /\
             (state_ c = kDeleted -> state_ ctx = kNotFound)).
  { intros c [E|[E|[E E']]]; rewrite E;
      (split; [discriminate|]);
      (split; [split; intros C; discriminate C|]);
      first [intros C; discriminate C|intros _; exact E']. }
  unfold process_entry.
  destruct type; try (now elim (Hnamed tag)).
  - destruct Hstate as [E|E]; rewrite E in *; cbn [fst snd];
      [apply Hdone; cbn; auto|apply Hmerge].
  - destruct Hstate as [E|E]; rewrite E in *; cbn [fst snd]; [|apply Hmerge].
    cbn. destruct (pinnable_val_ ctx); [destruct (negb (decode_ok value))|];
      cbn [fst snd]; apply Hdone; cbn; auto.
  - cbn. match goal with |- context [if ?b then _ else _] => destruct b end;
      cbn [fst snd]; [apply Hmerge|cbn].
    split; [discriminate|]. split; [split; reflexivity|intros C; discriminate C].
  - destruct Hstate as [E|E]; rewrite E in *; cbn [fst snd];
      [apply Hdone; cbn; auto|apply Hmerge].
  - destruct Hstate as [E|E]; rewrite E in *; cbn [fst snd];
      [apply Hdone; cbn; auto|apply Hmerge].
  - destruct Hstate as [E|E]; rewrite E in *; cbn [fst snd]; [|apply Hmerge].
    cbn. destruct (pinnable_val_ ctx); [destruct (negb (decode_ok value))|];
      cbn [fst snd]; apply Hdone; cbn; auto.
  - cbn. match goal with |- context [if ?b then _ else _] => destruct b end;
      cbn [fst snd]; [apply Hmerge|cbn].
    split; [discriminate|]. split; [split; reflexivity|intros C; discriminate C].
Qed.

(** X17: an entry that [SaveValue] processes in the state [kNotFound] or
    [kMerge], of a type the function knows, decides the lookup or keeps it
    merging: the state afterwards is never [kNotFound], it is [kMerge]
    exactly when [SaveValue] returns [true], and it is [kDeleted] only
    from [kNotFound].  [*matched] is set. *)
Theorem SaveValue_decides
        (ctx : GetContext) (parsed_key : ParsedInternalKey.t) (value : LazySlice)
        (matched : bool) (value_pinner : option Cleanable) :
  state_ ctx = kNotFound \/ state_ ctx = kMerge ->
  visible_entry ctx parsed_key = true ->
  (forall tag, ParsedInternalKey.type parsed_key <> kTypeOther tag) ->
  let r := SaveValue ctx parsed_key value matched value_pinner in
  snd r = true /\
  state_ (snd (fst r)) <> kNotFound /\
  (fst (fst r) = true <-> state_ (snd (fst r)) = kMerge) /\
  (state_ (snd (fst r)) = kDeleted -> state_ ctx = kNotFound).
Proof.
  intros Hstate Hvisible Hnamed r. subst r. unfold SaveValue.
  unfold visible_entry in Hvisible.
  apply andb_prop in Hvisible. destruct Hvisible as [Hvisible Hcallback].
  apply andb_prop in Hvisible. destruct Hvisible as [Hequal Hmask].
  rewrite Hequal. apply negb_true_iff in Hmask. rewrite Hmask, Hcallback.
  cbn [negb].
  destruct (log_entry ctx parsed_key value) as [ctx1|] eqn:Hlog.
  - destruct (log_entry_spec _ _ _ _ Hlog) as (_ & (Hs1 & _) & _).
    destruct (save_sequence_spec ctx1 parsed_key) as (_ & (Hs2 & _) & _).
    set (ctx2 := save_sequence ctx1 parsed_key) in *.
    assert (Hstate2 : state_ ctx2 = kNotFound \/ state_ ctx2 = kMerge)
      by (rewrite Hs2, Hs1; exact Hstate).
    destruct (process_entry_decides ctx2 (effective_type ctx2 parsed_key) value
                value_pinner Hstate2 (effective_type_named ctx2 parsed_key Hnamed))
      as (Hnot & Hiff & Hdel).
    destruct (process_entry ctx2 _ value value_pinner) as [result ctx3].
    cbn [fst snd] in *. split; [reflexivity|]. split; [exact Hnot|].
    split; [exact Hiff|]. intros E. rewrite <- Hs1, <- Hs2. now apply Hdel.
  - cbn. split; [reflexivity|]. split; [discriminate|].
    split; [split; discriminate|discriminate].
Qed.


End SaveValueProperties.

(** ** The replay log *)

Section ReplayProperties.
Context `{DbFormat} `{Coding} `{UserComparator} `{MergeOps}.

Lemma SaveValue_seq (ctx : GetContext) (parsed_key : ParsedInternalKey.t)
      (value : LazySlice) (matched : bool) (value_pinner : option Cleanable) :
  seq_ (snd (fst (SaveValue ctx parsed_key value matched value_pinner))) = seq_ ctx \/
  seq_ ctx = Some kMaxSequenceNumber /\
  seq_ (snd (fst (SaveValue ctx parsed_key value matched value_pinner))) =
    Some (ParsedInternalKey.sequence parsed_key).
Proof.
  unfold SaveValue.
  destruct (Equal _ _); [|now left].
  destruct (_ <? _); [now left|].
  destruct (negb (CheckCallback _ _)); [now left|].
  destruct (log_entry ctx parsed_key value) as [ctx1|] eqn:Hlog; [|now left].
  destruct (log_entry_spec _ _ _ _ Hlog) as (_ & _ & Hq1 & _).
  destruct (save_sequence_spec ctx1 parsed_key) as (_ & _ & _ & Hq2).
  destruct (process_entry_frame (save_sequence ctx1 parsed_key)
              (effective_type (save_sequence ctx1 parsed_key) parsed_key)
              value value_pinner) as (_ & Hq3 & _).
  destruct (process_entry _ _ _ _) as [result ctx3]. cbn [fst snd] in *.
  rewrite Hq3, Hq2, Hq1.
  destruct (seq_ ctx) as [s|]; [|now left].
  destruct (Z.eqb_spec s kMaxSequenceNumber) as [->|_]; [right|left]; auto.
Qed.

(** X19: [replayGetContextLog] writes neither [*seq_] nor [*value_found_]:
    whatever the log holds, the context it returns has the sequence number,
    the key, the merge operator, the tombstone bound, the mask and the
    callback it was given. *)
Theorem replayGetContextLog_keeps_setting
        (fuel : nat) (replay_log : string) (user_key : Slice)
        (get_context : GetContext) (value_pinner : option Cleanable)
        (ctx' : GetContext) :
  replayGetContextLog fuel replay_log user_key get_context value_pinner = Some ctx' ->
  seq_ ctx' = seq_ get_context /\ same_setting get_context ctx'.
Proof.
  revert replay_log get_context.
  induction fuel as [|fuel IH]; intros replay_log ctx E.
  - destruct replay_log; [|discriminate]. injection E as <-.
    split; [reflexivity|apply same_setting_refl].
  - destruct replay_log as [|c s]; cbn [replayGetContextLog] in E.
    + injection E as <-. split; [reflexivity|apply same_setting_refl].
    + destruct (GetLengthPrefixedSlice s) as [[ret s'] value].
      set (key := {| ParsedInternalKey.user_key := user_key;
                     ParsedInternalKey.sequence := kMaxSequenceNumber;
                     ParsedInternalKey.type := char_ValueType c |}) in *.
      pose proof (SaveValue_seq ctx key (LazySlice_of value) false value_pinner)
        as Hseq.
      pose proof (SaveValue_same_setting ctx key (LazySlice_of value) false
                    value_pinner) as Hsetting.
      destruct (SaveValue ctx key (LazySlice_of value) false value_pinner)
        as [[result ctx1] matched].
      cbn [fst snd] in *.
      destruct (IH _ _ E) as [Hq Hs]. split.
      * rewrite Hq. destruct Hseq as [Hsame|[Hmax Hset]]; [exact Hsame|].
        rewrite Hset, Hmax. reflexivity.
      * eapply same_setting_trans; [exact Hsetting|exact Hs].
Qed.

Lemma record_log_encode (records : list (ValueType * Slice)) :
  coding_appends ->
  forall log,
    record_log (Some log) records = Some (String.append log (encode_records records)).
Proof.
  intros Happ. induction records as [|r rest IH]; intros log.
  - cbn. now rewrite string_app_nil_r.
  - unfold record_log in *. cbn [fold_left appendToReplayLog encode_records].
    rewrite IH, Happ. f_equal.
    rewrite !string_app_assoc. reflexivity.
Qed.

Lemma encode_records_length (records : list (ValueType * Slice)) :
  (length records <= String.length (encode_records records))%nat.
Proof.
  induction records as [|r rest IH]; cbn [encode_records length String.length].
  - apply Nat.le_refl.
  - rewrite string_length_app. lia.
Qed.

Lemma replay_encode_records (records : list (ValueType * Slice)) :
  coding_round_trip ->
  Forall record_fits records ->
  forall fuel rest user_key ctx value_pinner,
    replayGetContextLog (length records + fuel)
                        (String.append (encode_records records) rest)
                        user_key ctx value_pinner =
    replayGetContextLog fuel rest user_key
                        (replay_calls ctx user_key records value_pinner)
                        value_pinner.
Proof.
  intros Hget. induction 1 as [|r records [Htype Hlen] Hfit IH];
    intros fuel rest user_key ctx value_pinner.
  - reflexivity.
  - cbn [encode_records length Nat.add String.append replayGetContextLog].
    rewrite string_app_assoc, (Hget _ _ Hlen), Htype.
    unfold replay_calls. cbn [fold_left].
    destruct (SaveValue ctx _ (LazySlice_of (snd r)) false value_pinner)
      as [[result ctx1] matched].
    cbn [fst snd]. apply IH.
Qed.

(** X20: a log that [appendToReplayLog] has written record by record into
    an empty string is read back by [replayGetContextLog] as those
    records: it calls [SaveValue] once per record, in the order of the
    log, with the type and the value of the record, and it returns when
    the log is used up.  The coding is assumed to append and to read back
    what it has written. *)
Theorem replayGetContextLog_round_trip
        (records : list (ValueType * Slice)) (user_key : Slice)
        (get_context : GetContext) (value_pinner : option Cleanable) :
  coding_appends ->
  coding_round_trip ->
  Forall record_fits records ->
  exists log,
    record_log (Some EmptyString) records = Some log /\
    forall fuel,
      (String.length log <= fuel)%nat ->
      replayGetContextLog fuel log user_key get_context value_pinner =
      Some (replay_calls get_context user_key records value_pinner).
Proof.
  intros Happ Hget Hfit. exists (encode_records records). split.
  - rewrite (record_log_encode records Happ). reflexivity.
  - intros fuel Hfuel.
    pose proof (encode_records_length records) as Hlen.
    replace fuel with (length records + (fuel - length records))%nat by lia.
    rewrite <- (string_app_nil_r (encode_records records)) at 1.
    rewrite (replay_encode_records records Hget Hfit).
    destruct (fuel - length records)%nat; reflexivity.
Qed.

End ReplayProperties.

(** ** Replaying a lookup *)

Section ReplayedLookup.
Context `{DbFormat} `{Coding} `{UserComparator} `{MergeOps}.

Lemma visible_entry_same_setting (ctx ctx' : GetContext)
      (parsed_key : ParsedInternalKey.t) :
  same_setting ctx ctx' ->
  visible_entry ctx' parsed_key = visible_entry ctx parsed_key.
Proof.
  intros (_ & Hkey & _ & _ & Hmask & Hcallback). unfold visible_entry.
  now rewrite Hkey, Hmask, Hcallback.
Qed.

Lemma merge_to_value_same_lookup (a b : GetContext) (value : option LazySlice) :
  same_lookup a b -> same_lookup (merge_to_value a value) (merge_to_value b value).
Proof.
  intros ((Hs & Hp & Hm) & Ho & Hk). unfold merge_to_value. cbn.
  rewrite Hp, Ho, Hk, Hm.
  destruct (pinnable_val_ a) as [p|] eqn:Hpa; cbn.
  - destruct (TimedFullMerge _ _ _ _ p) as [[|] p']; cbn; repeat split; auto.
  - repeat split; cbn; congruence.
Qed.

Lemma process_entry_same_lookup (a b : GetContext) (type : ValueType)
      (value : LazySlice) (value_pinner : option Cleanable) :
  same_lookup a b ->
  fst (process_entry b type value value_pinner) =
    fst (process_entry a type value value_pinner) /\
  same_lookup (snd (process_entry a type value value_pinner))
              (snd (process_entry b type value value_pinner)).
Proof.
  intros Hsame.
  pose proof (fun v => merge_to_value_same_lookup a b v Hsame) as Hmerge.
  destruct Hsame as ((Hs & Hp & Hm) & Ho & Hk).
  assert (Hsame : same_lookup a b) by (repeat split; assumption).
  unfold process_entry. rewrite Hs.
  destruct type.
  - destruct (state_ a); cbn [fst snd]; try (split; [reflexivity|exact Hsame]).
    + split; [reflexivity|]. repeat split; cbn; auto.
    + split; [reflexivity|apply Hmerge].
  - destruct (state_ a); cbn [fst snd]; try (split; [reflexivity|exact Hsame]).
    + cbn. rewrite Hp. destruct (pinnable_val_ a) eqn:Hpa;
        [destruct (negb (decode_ok value))|]; cbn;
        (split; [reflexivity|]); repeat split; cbn; congruence.
    + split; [reflexivity|apply Hmerge].
  - cbn. rewrite Hm, Hk, Ho.
    match goal with |- context [if ?c then _ else _] => destruct c end;
      cbn [fst snd]; (split; [reflexivity|]).
    + apply merge_to_value_same_lookup. repeat split; cbn; auto.
    + repeat split; cbn; auto.
  - destruct (state_ a); cbn [fst snd]; try (split; [reflexivity|exact Hsame]).
    + split; [reflexivity|]. repeat split; cbn; auto.
    + split; [reflexivity|apply Hmerge].
  - destruct (state_ a); cbn [fst snd]; try (split; [reflexivity|exact Hsame]).
    + split; [reflexivity|]. repeat split; cbn; auto.
    + split; [reflexivity|apply Hmerge].
  - destruct (state_ a); cbn [fst snd]; try (split; [reflexivity|exact Hsame]).
    + cbn. rewrite Hp. destruct (pinnable_val_ a) eqn:Hpa;
        [destruct (negb (decode_ok value))|]; cbn;
        (split; [reflexivity|]); repeat split; cbn; congruence.
    + split; [reflexivity|apply Hmerge].
  - cbn. rewrite Hm, Hk, Ho.
    match goal with |- context [if ?c then _ else _] => destruct c end;
      cbn [fst snd]; (split; [reflexivity|]).
    + apply merge_to_value_same_lookup. repeat split; cbn; auto.
    + repeat split; cbn; auto.
  - split; [reflexivity|exact Hsame].
Qed.

Lemma same_lookup_trans (a b c : GetContext) :
  same_lookup a b -> same_lookup b c -> same_lookup a c.
Proof.
  intros ((A1 & A2 & A3) & A4 & A5) ((B1 & B2 & B3) & B4 & B5).
  repeat split; congruence.
Qed.

Lemma same_lookup_sym (a b : GetContext) : same_lookup a b -> same_lookup b a.
Proof.
  intros ((A1 & A2 & A3) & A4 & A5). repeat split; congruence.
Qed.

(** The context before the [switch] answers like the context at the call. *)
Lemma logged_same_lookup (ctx ctx1 : GetContext) (parsed_key : ParsedInternalKey.t)
      (value : LazySlice) :
  log_entry ctx parsed_key value = Some ctx1 ->
  same_lookup ctx (save_sequence ctx1 parsed_key) /\
  same_setting ctx (save_sequence ctx1 parsed_key).
Proof.
  intros Hlog.
  destruct (log_entry_spec _ _ _ _ Hlog)
    as (Hset1 & (Hs1 & Hp1 & Hm1) & _).
  destruct (save_sequence_spec ctx1 parsed_key)
    as (Hset2 & (Hs2 & Hp2 & Hm2) & _).
  pose proof (same_setting_trans _ _ _ Hset1 Hset2) as Hset.
  split; [|exact Hset].
  destruct Hset as (Ho & Hk & _).
  repeat split; congruence.
Qed.

Lemma SaveValue_replayed (ctx cached : GetContext)
      (parsed_key : ParsedInternalKey.t) (value : LazySlice)
      (matched matched' : bool) (value_pinner : option Cleanable)
      (user_key : Slice) :
  decoded_by_value ->
  same_lookup ctx cached ->
  replay_ready cached user_key ->
  visible_entry ctx parsed_key = true ->
  decode_ok value = true ->
  (forall tombstone_seq,
      max_covering_tombstone_seq_ ctx = Some tombstone_seq ->
      tombstone_seq <= ParsedInternalKey.sequence parsed_key) ->
  same_lookup
    (snd (fst (SaveValue ctx parsed_key value matched value_pinner)))
    (snd (fst (SaveValue cached
                 {| ParsedInternalKey.user_key := user_key;
                    ParsedInternalKey.sequence := kMaxSequenceNumber;
                    ParsedInternalKey.type := ParsedInternalKey.type parsed_key |}
                 (LazySlice_of (deref value)) matched' value_pinner))).
Proof.
  intros Hlazy Hsame (Hequal & Hmask & Hcallback & Hcover') Hvisible Hdecode Hcover.
  rewrite (Hlazy _ Hdecode).
  unfold visible_entry in Hvisible.
  apply andb_prop in Hvisible. destruct Hvisible as [Hvisible Hcb].
  apply andb_prop in Hvisible. destruct Hvisible as [Heq Hm].
  apply negb_true_iff in Hm.
  unfold SaveValue. cbn [ParsedInternalKey.user_key ParsedInternalKey.sequence
                           ParsedInternalKey.type].
  rewrite Heq, Hm, Hcb, Hequal, Hmask, Hcallback. cbn [negb].
  destruct (log_entry ctx parsed_key value) as [ctx1|] eqn:Hlog.
  2: { unfold log_entry in Hlog. rewrite Hdecode in Hlog.
       destruct (replay_log_ ctx); discriminate. }
  set (key := {| ParsedInternalKey.user_key := user_key;
                 ParsedInternalKey.sequence := kMaxSequenceNumber;
                 ParsedInternalKey.type := ParsedInternalKey.type parsed_key |}).
  destruct (log_entry cached key value) as [cached1|] eqn:Hlog'.
  2: { unfold log_entry in Hlog'. rewrite Hdecode in Hlog'.
       destruct (replay_log_ cached); discriminate. }
  destruct (logged_same_lookup _ _ _ _ Hlog) as [Hl1 Hs1].
  destruct (logged_same_lookup _ _ _ _ Hlog') as [Hl2 Hs2].
  set (ctx2 := save_sequence ctx1 parsed_key) in *.
  set (cached2 := save_sequence cached1 key) in *.
  assert (Heff : effective_type ctx2 parsed_key = ParsedInternalKey.type parsed_key).
  { destruct (effective_type_cases ctx2 parsed_key) as [E|[_ (t & Ht & Hlt)]];
      [exact E|].
    destruct Hs1 as (_ & _ & _ & Hc & _). rewrite Hc in Ht.
    specialize (Hcover _ Ht). lia. }
  assert (Heff' : effective_type cached2 key = ParsedInternalKey.type parsed_key).
  { destruct (effective_type_cases cached2 key) as [E|[_ (t & Ht & Hlt)]];
      [exact E|].
    destruct Hs2 as (_ & _ & _ & Hc & _). rewrite Hc in Ht.
    specialize (Hcover' _ Ht). cbn in Hlt. lia. }
  rewrite Heff, Heff'.
  assert (Hboth : same_lookup ctx2 cached2).
  { eapply same_lookup_trans; [apply same_lookup_sym; exact Hl1|].
    eapply same_lookup_trans; [exact Hsame|exact Hl2]. }
  destruct (process_entry_same_lookup ctx2 cached2
              (ParsedInternalKey.type parsed_key) value value_pinner Hboth)
    as [_ Hafter].
  destruct (process_entry ctx2 _ value value_pinner) as [r1 c1].
  destruct (process_entry cached2 _ value value_pinner) as [r2 c2].
  exact Hafter.
Qed.

Lemma SaveValue_skipped (ctx : GetContext) (parsed_key : ParsedInternalKey.t)
      (value : LazySlice) (matched : bool) (value_pinner : option Cleanable) :
  visible_entry ctx parsed_key = false ->
  snd (fst (SaveValue ctx parsed_key value matched value_pinner)) = ctx.
Proof.
  unfold visible_entry, SaveValue. intros Hv.
  destruct (Equal _ _); [|reflexivity].
  destruct (_ <? _); [reflexivity|].
  destruct (CheckCallback _ _); [discriminate|reflexivity].
Qed.

Lemma SaveValue_log (ctx : GetContext) (parsed_key : ParsedInternalKey.t)
      (value : LazySlice) (matched : bool) (value_pinner : option Cleanable) :
  visible_entry ctx parsed_key = true ->
  decode_ok value = true ->
  replay_log_ (snd (fst (SaveValue ctx parsed_key value matched value_pinner))) =
  appendToReplayLog (replay_log_ ctx) (ParsedInternalKey.type parsed_key)
                    (deref value).
Proof.
  intros Hvisible Hdecode.
  unfold visible_entry in Hvisible.
  apply andb_prop in Hvisible. destruct Hvisible as [Hvisible Hcb].
  apply andb_prop in Hvisible. destruct Hvisible as [Heq Hm].
  apply negb_true_iff in Hm.
  unfold SaveValue. rewrite Heq, Hm, Hcb. cbn [negb].
  destruct (log_entry ctx parsed_key value) as [ctx1|] eqn:Hlog.
  2: { unfold log_entry in Hlog. rewrite Hdecode in Hlog.
       destruct (replay_log_ ctx); discriminate. }
  destruct (log_entry_spec _ _ _ _ Hlog) as (_ & _ & _ & Hl1 & _).
  destruct (save_sequence_spec ctx1 parsed_key) as (_ & _ & Hl2 & _).
  destruct (process_entry_frame (save_sequence ctx1 parsed_key)
              (effective_type (save_sequence ctx1 parsed_key) parsed_key)
              value value_pinner) as (_ & _ & Hl3).
  destruct (process_entry _ _ _ _) as [result ctx3]. cbn [fst snd] in *.
  congruence.
Qed.

Lemma lookup_calls_replayed (entries : list (ParsedInternalKey.t * LazySlice))
      (value_pinner : option Cleanable) (user_key : Slice) (origin : GetContext) :
  decoded_by_value ->
  (forall e, In e entries -> visible_entry origin (fst e) = true ->
             decode_ok (snd e) = true /\
             forall tombstone_seq,
               max_covering_tombstone_seq_ origin = Some tombstone_seq ->
               tombstone_seq <= ParsedInternalKey.sequence (fst e)) ->
  forall ctx cached,
    same_setting origin ctx ->
    same_lookup ctx cached ->
    replay_ready cached user_key ->
    same_lookup (lookup_calls ctx entries value_pinner)
                (replay_calls cached user_key (logged_records origin entries)
                              value_pinner) /\
    replay_log_ (lookup_calls ctx entries value_pinner) =
      record_log (replay_log_ ctx) (logged_records origin entries).
Proof.
  intros Hlazy. induction entries as [|e entries IH];
    intros Hentries ctx cached Hsetting Hsame Hready.
  - split; [exact Hsame|reflexivity].
  - unfold lookup_calls, replay_calls, record_log in *.
    cbn [fold_left logged_records].
    assert (Htail : forall e', In e' entries ->
                     visible_entry origin (fst e') = true ->
                     decode_ok (snd e') = true /\
                     forall tombstone_seq,
                       max_covering_tombstone_seq_ origin = Some tombstone_seq ->
                       tombstone_seq <= ParsedInternalKey.sequence (fst e'))
      by (intros e' He'; apply Hentries; now right).
    pose proof (SaveValue_same_setting ctx (fst e) (snd e) false value_pinner)
      as Hnext.
    pose proof (same_setting_trans _ _ _ Hsetting Hnext) as Hsetting'.
    destruct (visible_entry origin (fst e)) eqn:Hvisible.
    + destruct (Hentries e (or_introl eq_refl) Hvisible) as [Hdecode Hcover].
      assert (Hvisible' : visible_entry ctx (fst e) = true)
        by (rewrite (visible_entry_same_setting _ _ _ Hsetting); exact Hvisible).
      assert (Hcover' : forall tombstone_seq,
                 max_covering_tombstone_seq_ ctx = Some tombstone_seq ->
                 tombstone_seq <= ParsedInternalKey.sequence (fst e)).
      { intros t Ht. apply Hcover. destruct Hsetting as (_ & _ & _ & Hc & _).
        now rewrite <- Hc. }
      pose proof (SaveValue_replayed ctx cached (fst e) (snd e) false false
                    value_pinner user_key Hlazy Hsame Hready Hvisible' Hdecode
                    Hcover') as Hstep.
      pose proof (SaveValue_same_setting cached
                    {| ParsedInternalKey.user_key := user_key;
                       ParsedInternalKey.sequence := kMaxSequenceNumber;
                       ParsedInternalKey.type := ParsedInternalKey.type (fst e) |}
                    (LazySlice_of (deref (snd e))) false value_pinner) as Hcached.
      cbn [fold_left fst snd].
      rewrite <- (SaveValue_log ctx (fst e) (snd e) false value_pinner Hvisible'
                    Hdecode).
      apply (IH Htail); [exact Hsetting'|exact Hstep|].
      destruct Hready as (R1 & R2 & R3 & R4).
      destruct Hcached as (_ & Hk & _ & Hc & Hm & Hcb).
      unfold replay_ready. rewrite Hk, Hm, Hcb, Hc. auto.
    + assert (Hskip : visible_entry ctx (fst e) = false)
        by (rewrite (visible_entry_same_setting _ _ _ Hsetting); exact Hvisible).
      rewrite (SaveValue_skipped ctx (fst e) (snd e) false value_pinner Hskip).
      apply (IH Htail); assumption.
Qed.

(** X21: the log of a lookup brings a second context to the same answer.
    Let a context with an empty replay log see a run of [SaveValue] calls
    in which every entry it processes decodes, fits the log and lies under
    no range tombstone.  Then the log it holds afterwards, replayed by
    [replayGetContextLog] on a context that started with the same state,
    value, merge context, merge operator and key, leaves that context with
    the state, the value and the merge context of the first one. *)
Theorem replayGetContextLog_reproduces_lookup
        (entries : list (ParsedInternalKey.t * LazySlice))
        (value_pinner : option Cleanable) (user_key : Slice)
        (ctx cached : GetContext) :
  coding_appends ->
  coding_round_trip ->
  decoded_by_value ->
  replay_log_ ctx = Some EmptyString ->
  (forall e, In e entries -> visible_entry ctx (fst e) = true ->
             decode_ok (snd e) = true /\
             record_fits (ParsedInternalKey.type (fst e), deref (snd e)) /\
             forall tombstone_seq,
               max_covering_tombstone_seq_ ctx = Some tombstone_seq ->
               tombstone_seq <= ParsedInternalKey.sequence (fst e)) ->
  same_lookup ctx cached ->
  replay_ready cached user_key ->
  exists log,
    replay_log_ (lookup_calls ctx entries value_pinner) = Some log /\
    forall fuel,
      (String.length log <= fuel)%nat ->
      exists cached',
        replayGetContextLog fuel log user_key cached value_pinner = Some cached' /\
        same_lookup (lookup_calls ctx entries value_pinner) cached'.
Proof.
  intros Happ Hget Hlazy Hlog Hentries Hsame Hready.
  assert (Hfit : Forall record_fits (logged_records ctx entries)).
  { clear -Hentries. induction entries as [|e entries IH]; cbn [logged_records].
    - constructor.
    - destruct (visible_entry ctx (fst e)) eqn:Hvisible.
      + constructor.
        * apply (Hentries e (or_introl eq_refl) Hvisible).
        * apply IH. intros e' He'. apply Hentries. now right.
      + apply IH. intros e' He'. apply Hentries. now right. }
  destruct (lookup_calls_replayed entries value_pinner user_key ctx Hlazy
              ltac:(intros e He Hv; destruct (Hentries e He Hv) as (A & _ & B); auto)
              ctx cached (same_setting_refl ctx) Hsame Hready)
    as [Hafter Hrecorded].
  rewrite Hlog, (record_log_encode _ Happ) in Hrecorded. cbn in Hrecorded.
  exists (encode_records (logged_records ctx entries)).
  split; [exact Hrecorded|].
  intros fuel Hfuel. eexists. split; [|exact Hafter].
  pose proof (encode_records_length (logged_records ctx entries)) as Hlen.
  replace fuel
    with (length (logged_records ctx entries) +
          (fuel - length (logged_records ctx entries)))%nat by lia.
  rewrite <- (string_app_nil_r (encode_records (logged_records ctx entries))) at 1.
  rewrite (replay_encode_records _ Hget Hfit).
  destruct (fuel - length (logged_records ctx entries))%nat; reflexivity.
Qed.

End ReplayedLookup.

(** ** A run of SaveValue calls *)

Section LookupCalls.
Context `{DbFormat} `{Coding} `{UserComparator} `{MergeOps}.

Lemma lookup_calls_filter (entries : list (ParsedInternalKey.t * LazySlice))
      (value_pinner : option Cleanable) (origin : GetContext) :
  forall ctx,
    same_setting origin ctx ->
    lookup_calls ctx entries value_pinner =
    lookup_calls ctx (filter (fun e => visible_entry origin (fst e)) entries)
                 value_pinner.
Proof.
  induction entries as [|e entries IH]; intros ctx Hsetting.
  - reflexivity.
  - cbn [filter].
    rewrite <- (visible_entry_same_setting _ _ (fst e) Hsetting).
    unfold lookup_calls in *.
    destruct (visible_entry ctx (fst e)) eqn:Hvisible; cbn [fold_left].
    + apply IH. eapply same_setting_trans; [exact Hsetting|].
      apply SaveValue_same_setting.
    + rewrite (SaveValue_skipped ctx (fst e) (snd e) false value_pinner Hvisible).
      now apply IH.
Qed.

(** X22: entries that [SaveValue] does not process, because they have
    another key, are masked or are hidden from the read callback, leave no
    trace in the context: a run of calls ends in the same context as the
    run on the processed entries alone. *)
Theorem lookup_calls_skips
        (entries : list (ParsedInternalKey.t * LazySlice))
        (value_pinner : option Cleanable) (ctx : GetContext) :
  lookup_calls ctx entries value_pinner =
  lookup_calls ctx (filter (fun e => visible_entry ctx (fst e)) entries)
               value_pinner.
Proof.
  pose proof (same_setting_refl ctx) as Hsetting.
  exact (lookup_calls_filter entries value_pinner ctx ctx Hsetting).
Qed.

Lemma lookup_calls_keeps_seq (entries : list (ParsedInternalKey.t * LazySlice))
      (value_pinner : option Cleanable) (s : Z) :
  s <> kMaxSequenceNumber ->
  forall ctx,
    seq_ ctx = Some s -> seq_ (lookup_calls ctx entries value_pinner) = Some s.
Proof.
  intros Hs. induction entries as [|e entries IH]; intros ctx Hseq.
  - exact Hseq.
  - unfold lookup_calls in *. cbn [fold_left]. apply IH.
    destruct (SaveValue_seq ctx (fst e) (snd e) false value_pinner)
      as [Hsame|[Hmax _]]; [congruence|].
    rewrite Hseq in Hmax. injection Hmax as ->. now elim Hs.
Qed.

Lemma SaveValue_sets_seq (ctx : GetContext) (parsed_key : ParsedInternalKey.t)
      (value : LazySlice) (matched : bool) (value_pinner : option Cleanable) :
  visible_entry ctx parsed_key = true ->
  replay_log_ ctx = None \/ decode_ok value = true ->
  seq_ ctx = Some kMaxSequenceNumber ->
  seq_ (snd (fst (SaveValue ctx parsed_key value matched value_pinner))) =
    Some (ParsedInternalKey.sequence parsed_key).
Proof.
  intros Hvisible Hdecode Hseq.
  unfold visible_entry in Hvisible.
  apply andb_prop in Hvisible. destruct Hvisible as [Hvisible Hcb].
  apply andb_prop in Hvisible. destruct Hvisible as [Heq Hm].
  apply negb_true_iff in Hm.
  unfold SaveValue. rewrite Heq, Hm, Hcb. cbn [negb].
  destruct (log_entry ctx parsed_key value) as [ctx1|] eqn:Hlog.
  2: { unfold log_entry in Hlog. destruct Hdecode as [Hnone|Hok].
       - rewrite Hnone in Hlog. discriminate.
       - rewrite Hok in Hlog. destruct (replay_log_ ctx); discriminate. }
  destruct (log_entry_spec _ _ _ _ Hlog) as (_ & _ & Hq1 & _).
  destruct (save_sequence_spec ctx1 parsed_key) as (_ & _ & _ & Hq2).
  destruct (process_entry_frame (save_sequence ctx1 parsed_key)
              (effective_type (save_sequence ctx1 parsed_key) parsed_key)
              value value_pinner) as (_ & Hq3 & _).
  destruct (process_entry _ _ _ _) as [result ctx3]. cbn [fst snd] in *.
  rewrite Hq3, Hq2, Hq1, Hseq, Z.eqb_refl. reflexivity.
Qed.

(** X23: the sequence number that a lookup reports through [*seq_] is that
    of the first entry [SaveValue] processes; later entries do not change
    it, and without such an entry it stays [kMaxSequenceNumber].  The
    entries carry sequence numbers other than [kMaxSequenceNumber], and
    with a replay log the processed ones decode. *)
Theorem lookup_calls_first_sequence
        (entries : list (ParsedInternalKey.t * LazySlice))
        (value_pinner : option Cleanable) (ctx : GetContext) :
  seq_ ctx = Some kMaxSequenceNumber ->
  (forall e, In e entries -> visible_entry ctx (fst e) = true ->
             ParsedInternalKey.sequence (fst e) <> kMaxSequenceNumber /\
             (replay_log_ ctx = None \/ decode_ok (snd e) = true)) ->
  seq_ (lookup_calls ctx entries value_pinner) =
  Some match find (fun e => visible_entry ctx (fst e)) entries with
       | Some e => ParsedInternalKey.sequence (fst e)
       | None => kMaxSequenceNumber
       end.
Proof.
  intros Hseq Hentries.
  rewrite (lookup_calls_filter entries value_pinner ctx ctx (same_setting_refl ctx)).
  induction entries as [|e entries IH]; [exact Hseq|].
  cbn [filter find].
  assert (Htail : forall e', In e' entries -> visible_entry ctx (fst e') = true ->
                   ParsedInternalKey.sequence (fst e') <> kMaxSequenceNumber /\
                   (replay_log_ ctx = None \/ decode_ok (snd e') = true))
    by (intros e' He'; apply Hentries; now right).
  destruct (visible_entry ctx (fst e)) eqn:Hvisible; [|exact (IH Htail)].
  destruct (Hentries e (or_introl eq_refl) Hvisible) as [Hnot Hdecode].
  unfold lookup_calls. cbn [fold_left].
  apply (lookup_calls_keeps_seq _ _ _ Hnot).
  now apply SaveValue_sets_seq.
Qed.

End LookupCalls.

(** ** The scenario setting meets what the properties assume *)

Lemma put_varint_step (fuel : nat) (n : N) :
  put_varint (S fuel) n =
  if (n <? 128)%N then String (Ascii.ascii_of_N n) EmptyString
  else String (Ascii.ascii_of_N (n mod 128 + 128)) (put_varint fuel (n / 128)).
Proof. reflexivity. Qed.

Lemma get_varint_step (fuel : nat) (c : Ascii.ascii) (rest : string) :
  get_varint (S fuel) (String c rest) =
  if (Ascii.N_of_ascii c <? 128)%N then Some (Ascii.N_of_ascii c, rest)
  else match get_varint fuel rest with
       | Some (high, rest') => Some (Ascii.N_of_ascii c - 128 + 128 * high, rest')%N
       | None => None
       end.
Proof. reflexivity. Qed.

Lemma get_put_varint (fuel : nat) :
  forall n rest,
    (n < 128 ^ N.of_nat (S fuel))%N ->
    get_varint (S fuel) (String.append (put_varint (S fuel) n) rest) = Some (n, rest).
Proof.
  induction fuel as [|fuel IH]; intros n rest Hn; rewrite put_varint_step.
  - change (128 ^ N.of_nat 1)%N with 128%N in Hn.
    destruct (N.ltb_spec n 128) as [Hlt|Hge]; [|lia].
    cbn [String.append]. rewrite get_varint_step.
    rewrite Ascii.N_ascii_embedding by lia.
    destruct (N.ltb_spec n 128); [reflexivity|lia].
  - destruct (N.ltb_spec n 128) as [Hlt|Hge].
    + cbn [String.append]. rewrite get_varint_step.
      rewrite Ascii.N_ascii_embedding by lia.
      destruct (N.ltb_spec n 128); [reflexivity|lia].
    + cbn [String.append]. rewrite get_varint_step.
      pose proof (N.div_mod n 128 ltac:(discriminate)) as Hsplit.
      assert (Hmod : (n mod 128 < 128)%N) by (apply N.mod_lt; discriminate).
      assert (Hdiv : (n / 128 < 128 ^ N.of_nat (S fuel))%N).
      { apply N.Div0.div_lt_upper_bound.
        replace (N.of_nat (S (S fuel))) with (N.succ (N.of_nat (S fuel))) in Hn
          by lia.
        rewrite N.pow_succ_r' in Hn. exact Hn. }
      rewrite (IH _ rest Hdiv).
      revert Hsplit Hmod. generalize (n mod 128)%N as low.
      generalize (n / 128)%N as high. intros high low Hsplit Hmod.
      rewrite Ascii.N_ascii_embedding by lia.
      destruct (N.ltb_spec (low + 128) 128); [lia|].
      f_equal. f_equal. lia.
Qed.

Lemma split_at_app (value rest : string) :
  split_at (String.length value) (String.append value rest) = Some (value, rest).
Proof.
  induction value as [|c value IH]; cbn; [reflexivity|]. now rewrite IH.
Qed.

Lemma varint_coding_appends : @coding_appends varint_coding.
Proof. intros dst value. reflexivity. Qed.

Lemma varint_coding_round_trip : @coding_round_trip varint_coding.
Proof.
  intros value rest Hlen. cbn [GetLengthPrefixedSlice PutLengthPrefixedSlice
                                 varint_coding String.append].
  assert (Hsmall : (N.of_nat (String.length value) < 2 ^ 32)%N).
  { change (2 ^ 32)%N with 4294967296%N. bounds. lia. }
  rewrite N.mod_small by exact Hsmall.
  rewrite string_app_assoc.
  rewrite (get_put_varint 4).
  - replace (N.to_nat (N.of_nat (String.length value)))
      with (String.length value) by lia.
    rewrite split_at_app. reflexivity.
  - change (128 ^ N.of_nat 5)%N with 34359738368%N.
    change (2 ^ 32)%N with 4294967296%N in Hsmall. lia.
Qed.

Lemma plain_lazy_by_value : @decoded_by_value plain_lazy.
Proof. intros [s|] Hdecode; [reflexivity|discriminate]. Qed.

(** ** The properties in the scenario setting *)

Section LookupScenario.
Existing Instances scenario_format varint_coding bytewise_equal plain_lazy
         buffer_pinnable appending_merge.

Lemma SaveValue_continues_witness :
  exists ctx',
    SaveValue (scenario_context None None) (scenario_key 5 kTypeMerge)
              (Some "ab"%string : LazySlice) false None = (true, ctx', true) /\
    state_ ctx' = kMerge /\
    merge_context_ ctx' = ["ab"%string].
Proof.
  set (ctx' := snd (fst (SaveValue (scenario_context None None)
                                   (scenario_key 5 kTypeMerge)
                                   (Some "ab"%string) false None))).
  assert (E : SaveValue (scenario_context None None) (scenario_key 5 kTypeMerge)
                        (Some "ab"%string) false None = (true, ctx', true))
    by reflexivity.
  exists ctx'. split; [exact E|].
  destruct (SaveValue_continues _ _ _ _ _ _ _ E)
    as (_ & _ & _ & [[Hhidden _]|(_ & _ & _ & Hstate & Hpushed & _)]).
  - discriminate Hhidden.
  - split; [exact Hstate|exact Hpushed].
Defined.

Lemma SaveValue_decides_witness :
  state_ (snd (fst (SaveValue (scenario_context None None)
                              (scenario_key 5 kTypeValue)
                              (Some "ab"%string) false None))) <> kNotFound.
Proof.
  destruct (SaveValue_decides (scenario_context None None)
              (scenario_key 5 kTypeValue) (Some "ab"%string) false None)
    as (_ & Hdecided & _).
  - left. reflexivity.
  - reflexivity.
  - discriminate.
  - exact Hdecided.
Defined.


Lemma replayGetContextLog_keeps_setting_witness :
  exists ctx',
    replayGetContextLog 3 (encode_records [(kTypeValue, "ab"%string)]) "k"%string
                        (scenario_context None None) None = Some ctx' /\
    state_ ctx' = kFound /\
    seq_ ctx' = Some (2 ^ 56 - 1).
Proof.
  destruct (replayGetContextLog 3 (encode_records [(kTypeValue, "ab"%string)])
              "k"%string (scenario_context None None) None)
    as [ctx'|] eqn:E; [|discriminate E].
  exists ctx'. split; [reflexivity|].
  destruct (replayGetContextLog_keeps_setting _ _ _ _ _ _ E) as [Hseq _].
  split; [|exact Hseq].
  injection E as <-. reflexivity.
Defined.

Lemma replayGetContextLog_round_trip_witness :
  exists log,
    record_log (Some EmptyString)
               [(kTypeMerge, "ab"%string); (kTypeValue, "cd"%string)] = Some log /\
    replayGetContextLog (String.length log) log "k"%string
                        (scenario_context None None) None =
    Some (replay_calls (scenario_context None None) "k"%string
                       [(kTypeMerge, "ab"%string); (kTypeValue, "cd"%string)] None).
Proof.
  destruct (replayGetContextLog_round_trip
              [(kTypeMerge, "ab"%string); (kTypeValue, "cd"%string)] "k"%string
              (scenario_context None None) None
              varint_coding_appends varint_coding_round_trip)
    as (log & Hlog & Hreplay).
  - repeat constructor.
  - exists log. split; [exact Hlog|]. apply Hreplay. apply Nat.le_refl.
Defined.

Lemma replayGetContextLog_reproduces_lookup_witness :
  exists log cached',
    replay_log_ (lookup_calls (scenario_context (Some EmptyString) None)
                   scenario_entries None) =
      Some log /\
    replayGetContextLog (String.length log) log "k"%string
                        (scenario_context None None) None = Some cached' /\
    state_ cached' = kFound /\
    pinnable_val_ cached' = Some ("cdab"%string, "cdab"%string).
Proof.
  destruct (replayGetContextLog_reproduces_lookup
              scenario_entries None "k"%string
              (scenario_context (Some EmptyString) None)
              (scenario_context None None)
              varint_coding_appends varint_coding_round_trip plain_lazy_by_value
              eq_refl)
    as (log & Hlog & Hreplay).
  - unfold scenario_entries. intros e [<-|[<-|[]]] _; (split; [reflexivity|]);
      (split; [split; [reflexivity|bounds; cbn; lia]|]); intros t Ht;
      discriminate Ht.
  - repeat split.
  - split; [reflexivity|]. split; [|split; [reflexivity|]].
    + intros t. apply Z.ltb_ge.
      cbn [PackSequenceAndType scenario_format kMaxSequenceNumber min_seq_type_
           scenario_context].
      match goal with
      | |- context [Z.of_N ?x] => pose proof (N2Z.is_nonneg x)
      end.
      change (2 ^ 56) with 72057594037927936. lia.
    + intros t Ht. discriminate Ht.
  - destruct (Hreplay (String.length log) (Nat.le_refl _))
      as (cached' & Hcached & (Hstate & Hvalue & _) & _).
    exists log, cached'. split; [exact Hlog|]. split; [exact Hcached|].
    split; [rewrite Hstate|rewrite Hvalue]; reflexivity.
Defined.

Lemma lookup_calls_first_sequence_witness :
  seq_ (lookup_calls (scenario_context None None) scenario_entries None) = Some 5.
Proof.
  rewrite (lookup_calls_first_sequence scenario_entries None
             (scenario_context None None)).
  - reflexivity.
  - reflexivity.
  - unfold scenario_entries. intros e [<-|[<-|[]]] _;
      (split; [discriminate|left; reflexivity]).
Defined.

End LookupScenario.

(* ================================================================= *)
(** * The output level of a size-ratio plan *)

Lemma lower_runs_from_levels (vstorage : VersionStorageInfo)
      (allow_trivial_move_ : bool) (runs : list SortedRun.t) :
  forall lo,
    lower_runs_from vstorage allow_trivial_move_ lo runs ->
    (forall i, (i < length runs)%nat ->
               lo <= SortedRun.level (nth i runs default_run) < num_levels vstorage) /\
    (forall i j, (i < j < length runs)%nat ->
                 SortedRun.level (nth i runs default_run) <
                   SortedRun.level (nth j runs default_run)).
Proof.
  induction runs as [|sr rest IH]; intros lo Hruns.
  - split; intros; simpl in *; lia.
  - destruct Hruns as (Hlevel & _ & Hrest).
    destruct (IH _ Hrest) as [Hin Hlt]. split.
    + intros [|i] Hi; simpl in *; [lia|].
      specialize (Hin i ltac:(lia)). lia.
    + intros [|i] [|j] Hij; simpl in *; try lia.
      * specialize (Hin j ltac:(lia)). lia.
      * apply Hlt. lia.
Qed.

(** The sorted runs that [CalculateSortedRuns] returns have ascending
    levels. *)
Lemma CalculateSortedRuns_levels_ascending
      (fuel : nat) (vstorage : VersionStorageInfo)
      (mutable_cf_options : MutableCFOptions) (sorted_runs : list SortedRun.t) :
  CalculateSortedRuns fuel vstorage mutable_cf_options = Some sorted_runs ->
  sorted_runs <> [] ->
  levels_ascending vstorage sorted_runs.
Proof.
  unfold CalculateSortedRuns. intros H Hne.
  destruct (level0_runs fuel vstorage (LevelFiles vstorage 0)) as [l0|] eqn:H0;
    [|discriminate].
  destruct (lower_level_runs fuel vstorage _ (tl (files_ vstorage)) 1)
    as [lower|] eqn:Hlower; [|discriminate].
  injection H as <-.
  pose proof (level0_runs_spec _ _ _ _ H0) as Hl0.
  assert (Hzero : forall i, (i < length l0)%nat ->
                            SortedRun.level (nth i l0 default_run) = 0).
  { clear -Hl0. induction Hl0 as [|f sr fs srs Hrun _ IH]; intros i Hi;
      simpl in Hi; [lia|].
    destruct i as [|i]; simpl; [apply Hrun|apply IH; lia]. }
  assert (Hskip : skipn (Z.to_nat 1) (files_ vstorage) = tl (files_ vstorage))
    by (destruct (files_ vstorage); reflexivity).
  pose proof (lower_level_runs_spec _ _ _ _ 1 _ ltac:(lia) Hskip Hlower) as Hruns.
  destruct (lower_runs_from_levels _ _ _ _ Hruns) as [Hin Hlt].
  assert (Hlevels : 0 < num_levels vstorage).
  { unfold num_levels. destruct (files_ vstorage) as [|fs rest] eqn:Hfiles.
    - unfold LevelFiles in H0. rewrite Hfiles in H0. simpl in H0.
      injection H0 as <-. simpl in Hlower. injection Hlower as <-.
      now elim Hne.
    - simpl. lia. }
  split.
  - intros i Hi. rewrite length_app in Hi.
    destruct (Nat.lt_ge_cases i (length l0)) as [Hl|Hr].
    + rewrite app_nth1 by exact Hl. rewrite Hzero by exact Hl. lia.
    + rewrite app_nth2 by exact Hr.
      specialize (Hin (i - length l0)%nat ltac:(lia)). lia.
  - intros i j Hij. rewrite length_app in Hij.
    destruct (Nat.lt_ge_cases j (length l0)) as [Hjl|Hjr].
    + rewrite !app_nth1 by lia. rewrite !Hzero by lia. split; [lia|].
      intros C. now elim C.
    + rewrite (app_nth2 _ _ _ Hjr).
      specialize (Hin (j - length l0)%nat ltac:(lia)).
      destruct (Nat.lt_ge_cases i (length l0)) as [Hil|Hir].
      * rewrite app_nth1 by exact Hil. rewrite Hzero by exact Hil. lia.
      * rewrite (app_nth2 _ _ _ Hir).
        specialize (Hlt (i - length l0)%nat (j - length l0)%nat ltac:(lia)). lia.
Qed.

(** X24: the output level of a plan of
    [PickCompactionToReduceSortedRunsOld] keeps the sorted runs in order.
    On sorted runs with ascending levels and without
    [allow_ingest_behind], the plan is made of at least two consecutive
    runs; its output level is at or below the level of every run it picks
    and strictly above the level of every older run it leaves, unless that
    run lies in level 0, where the output level is 0 too. *)
Theorem PickCompactionToReduceSortedRunsOld_output_level
        (ops : DoubleOps) (ioptions : ImmutableCFOptions)
        (mutable_cf_options : MutableCFOptions) (vstorage : VersionStorageInfo)
        (ratio max_number_of_files_to_compact : Z)
        (sorted_runs : list SortedRun.t) (c : Compaction) :
  allow_ingest_behind ioptions = false ->
  levels_ascending vstorage sorted_runs ->
  PickCompactionToReduceSortedRunsOld ioptions mutable_cf_options vstorage ratio
    max_number_of_files_to_compact sorted_runs = Some c ->
  exists start_index n,
    (2 <= n)%nat /\ (start_index + n <= length sorted_runs)%nat /\
    inputs c =
      pick_runs vstorage
        (SortedRun.level (nth start_index sorted_runs default_run))
        (firstn n (skipn start_index sorted_runs))
        (init_inputs (Z.to_nat (num_levels vstorage))
           (SortedRun.level (nth start_index sorted_runs default_run))) /\
    (forall k, (start_index <= k < start_index + n)%nat ->
               SortedRun.level (nth k sorted_runs default_run) <= output_level c) /\
    (forall k, (start_index + n <= k < length sorted_runs)%nat ->
               output_level c < SortedRun.level (nth k sorted_runs default_run) \/
               SortedRun.level (nth k sorted_runs default_run) = 0 /\
               output_level c = 0).
Proof.
  intros Hingest [Hin Hasc] H. unfold PickCompactionToReduceSortedRunsOld in H.
  destruct (find_window _ _ _ _ sorted_runs 0) as [[start_index count]|] eqn:Hw;
    [|discriminate].
  destruct (Z.leb_spec count 1) as [|Hcount]; [discriminate|].
  injection H as <-. cbn [inputs output_level].
  destruct (find_window_some _ _ _ _ _ _ _ _ _ Hw)
    as (skipped & sr & succeeding & Hruns & Hstart & _ & Hc & _).
  destruct (extend_window_prefix (stop_style (compaction_options_universal
                                                mutable_cf_options))
              ratio
              (Z.min (max_merge_width (compaction_options_universal
                                         mutable_cf_options))
                     max_number_of_files_to_compact)
              succeeding (SortedRun.compensated_file_size sr) 1)
    as (accepted & rest & Hsplit & Hext & _).
  rewrite Hext in Hc. cbn [snd] in Hc.
  assert (Hn : Z.to_nat count = S (length accepted)) by lia.
  assert (Hlen : length sorted_runs =
                 (start_index + S (length accepted) + length rest)%nat).
  { rewrite Hruns, Hsplit, length_app. cbn [length]. rewrite length_app. lia. }
  exists start_index, (S (length accepted)).
  split; [lia|]. split; [lia|]. rewrite Hn. split; [reflexivity|].
  unfold output_level_after. rewrite Hingest. cbn [andb].
  set (after := (start_index + S (length accepted))%nat).
  destruct (Nat.eqb_spec after (length sorted_runs)) as [Hend|Hmore].
  - split.
    + intros k Hk. specialize (Hin k ltac:(lia)). lia.
    + intros k Hk. lia.
  - assert (Hafter : (after < length sorted_runs)%nat) by lia.
    destruct (Z.eqb_spec (SortedRun.level (nth after sorted_runs default_run)) 0)
      as [Hzero|Hlower].
    + split.
      * intros k Hk. destruct (Hasc k after ltac:(lia)) as [Hle _].
        lia.
      * intros k Hk. destruct (Nat.eq_dec k after) as [->|Hne]; [right; auto|].
        destruct (Hasc after k ltac:(lia)) as [Hle _].
        specialize (Hin after Hafter).
        destruct (Z.eq_dec (SortedRun.level (nth k sorted_runs default_run)) 0);
          [right; auto|left; lia].
    + split.
      * intros k Hk. destruct (Hasc k after ltac:(lia)) as [_ Hlt].
        specialize (Hlt Hlower). lia.
      * intros k Hk. left. destruct (Nat.eq_dec k after) as [->|Hne]; [lia|].
        destruct (Hasc after k ltac:(lia)) as [Hle _]. lia.
Qed.

Lemma PickCompactionToReduceSortedRunsOld_output_level_witness :
  exists c,
    @PickCompactionToReduceSortedRunsOld IEEE754_binary64 one_path
      (mk_mutable_cf_options 1) tiered_vstorage 1 UINT_MAX tiered_runs = Some c /\
    output_level c = 1 /\
    all_input_files c = [mk_file 3 1 false false; mk_file 2 1 false false].
Proof.
  destruct (@PickCompactionToReduceSortedRunsOld IEEE754_binary64 one_path
              (mk_mutable_cf_options 1) tiered_vstorage 1 UINT_MAX tiered_runs)
    as [c|] eqn:E; [|vm_compute in E; discriminate E].
  assert (Hlevels : levels_ascending tiered_vstorage tiered_runs).
  { split.
    - intros i Hi. unfold tiered_runs in *. cbn [length] in Hi.
      destruct i as [|[|[|i]]]; try lia; cbn; lia.
    - intros i j Hij. unfold tiered_runs in *. cbn [length] in Hij.
      destruct i as [|[|[|i]]]; destruct j as [|[|[|j]]]; try lia; cbn; lia. }
  destruct (PickCompactionToReduceSortedRunsOld_output_level IEEE754_binary64
              one_path (mk_mutable_cf_options 1) tiered_vstorage 1 UINT_MAX
              tiered_runs c eq_refl Hlevels E)
    as (start_index & n & _ & _ & _ & Habove & _).
  exists c. split; [reflexivity|].
  vm_compute in E. injection E as <-. split; reflexivity.
Defined.
